(** * spine: a task-graph engine with metadata, snapshots and an RPC front end

    A shallow embedding of the Go sources (graph.go, store.go, serialize.go,
    task.go, algo.go, api/transition.go, api/filter.go, mcp/server.go) and the
    properties stated about them.

    Conventions of the embedding.
    - A Go [map[string]V] is a [gmap string V]; a missing key and a nil inner
      map are both [None].
    - Ranging over a Go map visits the entries in an unspecified order.  Every
      function that ranges over a map takes a [MapOrder], which picks the
      order; properties that must not depend on it quantify over it.
    - Pointers to a [Store] are modelled by the store kept in the graph's
      metadata maps; writing through the pointer is an update of the map.
    - [float64] is the kernel's binary64 type. *)

From Stdlib Require Import ZArith String Ascii Floats.PrimFloat DecimalString.
From Stdlib Require Floats.FloatOps Numbers.Cyclic.Int63.Uint63.
From Stdlib Require Import Structures.OrderedTypeEx.
From stdpp Require Import gmap strings list sorting relations.

Local Open Scope string_scope.
Set Warnings "-register-all,-clear-no-such-hyp".

(** ** Go runtime notions: map iteration order, string order, sorting *)

Module Go.

(** The order in which [range] walks a map: some permutation of its entries. *)
Record MapOrder := {
  range_order : ∀ A : Type, list (string * A) → list (string * A);
  range_order_perm : ∀ (A : Type) (l : list (string * A)), range_order A l ≡ₚ l
}.

Definition range {A : Type} (ord : MapOrder) (m : gmap string A) : list (string * A) :=
  range_order ord A (map_to_list m).

(** Two orders used by the examples. *)
Program Definition order_id : MapOrder :=
  {| range_order := λ A l, l |}.
Next Obligation. done. Qed.

Program Definition order_rev : MapOrder :=
  {| range_order := λ A l, reverse l |}.
Next Obligation. intros. apply reverse_Permutation. Qed.

(** [s1 < s2] on Go strings: bytewise lexicographic. *)
Definition str_lt (s1 s2 : string) : bool := String.ltb s1 s2.

(** [sort.Slice(l, less)]: the algorithm is not fixed by Go; an insertion
    sort stands for it. *)
Section Sort.
Context {A : Type} (less : A → A → bool).

Fixpoint insert_sorted (x : A) (l : list A) : list A :=
  match l with
  | [] => [x]
  | y :: l' => if less y x then y :: insert_sorted x l' else x :: l
  end.

Definition sort_Slice (l : list A) : list A := foldr insert_sorted [] l.
End Sort.

(** [sort.Strings]. *)
Definition sort_Strings (l : list string) : list string := sort_Slice str_lt l.

End Go.

Export Go.

(** ** Dynamic values ([any]) held by metadata stores *)

Inductive IntKind :=
  | KInt | KInt8 | KInt16 | KInt32 | KInt64
  | KUint | KUint8 | KUint16 | KUint32 | KUint64.

Inductive value :=
  | VNil
  | VString (s : string)
  | VBool (b : bool)
  | VInt (k : IntKind) (n : Z)
  | VFloat32 (f : float)
  | VFloat64 (f : float)
  | VBytes (b : list Byte.byte)                (* []byte *)
  | VSliceAny (l : list value)                 (* []any *)
  | VSliceString (l : list string)
  | VSliceInt (l : list Z)
  | VSliceFloat64 (l : list float)
  | VSliceBool (l : list bool)
  | VMapAny (m : list (string * value))        (* map[string]any *)
  | VMapString (m : list (string * string))
  | VMapInt (m : list (string * Z))
  | VNumber (r : option float)                 (* a type with a Float64() method, and its result *)
  | VOther (type_name : string).               (* any other dynamic type *)

(** ** store.go *)

(** [FieldType] is a string type; the constants are the eight names. *)
Definition FieldType := string.
Definition FieldString : FieldType := "string".
Definition FieldInt : FieldType := "int".
Definition FieldFloat : FieldType := "float".
Definition FieldBool : FieldType := "bool".
Definition FieldBytes : FieldType := "bytes".
Definition FieldSlice : FieldType := "slice".
Definition FieldMap : FieldType := "map".
Definition FieldAny : FieldType := "any".

Record FieldDef := { Type_ : FieldType; Required : bool }.

(** [Schema] is a map type: [None] is the nil schema. *)
Definition Schema := gmap string FieldDef.

Record Store := { entries : gmap string value; schema : option Schema }.

Record Entry := { Key : string; Value : value }.

Record Page := {
  Items : list Entry; Total : Z; Offset : Z; Limit : Z; HasMore : bool
}.

(** Validation errors, one constructor per [fmt.Errorf] in [Validate]. *)
Inductive ValidationError :=
  | MissingRequired (key : string)
  | TypeMismatch (key : string) (expected : FieldType) (got : value).

Module StoreOps.

Definition NewStore : Store := {| entries := ∅; schema := None |}.

Definition Set_ (s : Store) (key : string) (v : value) : Store :=
  {| entries := <[key := v]> (entries s); schema := schema s |}.

Definition Get (s : Store) (key : string) : option value := entries s !! key.

Definition Delete (s : Store) (key : string) : Store * bool :=
  match entries s !! key with
  | Some _ => ({| entries := delete key (entries s); schema := schema s |}, true)
  | None => (s, false)
  end.

Definition Has (s : Store) (key : string) : bool := bool_decide (is_Some (entries s !! key)).

Definition Len (s : Store) : nat := size (entries s).

Definition Keys (ord : MapOrder) (s : Store) : list string :=
  sort_Strings ((range ord (entries s)).*1).

Definition Clear (s : Store) : Store := {| entries := ∅; schema := schema s |}.

Definition lookup_value (s : Store) (k : string) : value :=
  default VNil (entries s !! k).

Definition List_ (ord : MapOrder) (s : Store) (offset limit : Z) : Page :=
  let keys := Keys ord s in
  let total := Z.of_nat (length keys) in
  let offset := if (offset <? 0)%Z then 0%Z else offset in
  let offset := if (total <? offset)%Z then total else offset in
  let remaining := drop (Z.to_nat offset) keys in
  let selected :=
    if (limit <=? 0)%Z then remaining
    else if (Z.of_nat (length remaining) <? limit)%Z then remaining
    else take (Z.to_nat limit) remaining in
  {| Items := (λ k, {| Key := k; Value := lookup_value s k |}) <$> selected;
     Total := total; Offset := offset; Limit := limit;
     HasMore := (offset + Z.of_nat (length selected) <? total)%Z |}.

Definition SetSchema (s : Store) (sc : option Schema) : Store :=
  {| entries := entries s; schema := sc |}.

Definition GetSchema (s : Store) : option Schema := schema s.

Definition matchesType (val : value) (ft : FieldType) : bool :=
  if String.eqb ft FieldString then
    match val with VString _ => true | _ => false end
  else if String.eqb ft FieldInt then
    match val with VInt _ _ => true | _ => false end
  else if String.eqb ft FieldFloat then
    match val with VFloat32 _ | VFloat64 _ => true | _ => false end
  else if String.eqb ft FieldBool then
    match val with VBool _ => true | _ => false end
  else if String.eqb ft FieldBytes then
    match val with VBytes _ => true | _ => false end
  else if String.eqb ft FieldSlice then
    match val with
    | VSliceAny _ | VSliceString _ | VSliceInt _ | VSliceFloat64 _
    | VBytes _ | VSliceBool _ => true
    | _ => false
    end
  else if String.eqb ft FieldMap then
    match val with VMapAny _ | VMapString _ | VMapInt _ => true | _ => false end
  else if String.eqb ft FieldAny then true
  else false.

(** The body of the loop of [Validate] for one schema key. *)
Definition validate_key (s : Store) (sc : Schema) (key : string) : list ValidationError :=
  let def := default {| Type_ := ""; Required := false |} (sc !! key) in
  match entries s !! key with
  | None => if Required def then [MissingRequired key] else []
  | Some val =>
      if String.eqb (Type_ def) FieldAny then []
      else if matchesType val (Type_ def) then []
      else [TypeMismatch key (Type_ def) val]
  end.

(** [Validate]: the nil slice and the empty slice are both [[]]. *)
Definition Validate (ord : MapOrder) (s : Store) : list ValidationError :=
  match schema s with
  | None => []
  | Some sc =>
      let keys := sort_Strings ((range ord sc).*1) in
      flat_map (validate_key s sc) keys
  end.

Definition Copy (s : Store) : Store :=
  {| entries := entries s; schema := schema s |}.

End StoreOps.

(** ** graph.go *)

Module Node.
Record t (N : Type) := mk { ID : string; Data : N }.
Arguments mk {N}. Arguments ID {N}. Arguments Data {N}.
End Node.

Module Edge.
Record t (E : Type) := mk { From : string; To : string; Data : E; Weight : float }.
Arguments mk {E}. Arguments From {E}. Arguments To {E}.
Arguments Data {E}. Arguments Weight {E}.
End Edge.

(** The adjacency maps [out] (from -> to -> edge) and [in] (to -> from -> edge),
    and the metadata maps that serialize.go and algo.go read
    ([g.nodeMeta], [g.edgeMeta]). *)
Record Graph (N E : Type) := mkGraph {
  Directed : bool;
  nodes : gmap string (Node.t N);
  out : gmap string (gmap string (Edge.t E));
  in_ : gmap string (gmap string (Edge.t E));
  nodeMeta : gmap string Store;
  edgeMeta : gmap string (gmap string Store)
}.
Arguments mkGraph {N E}. Arguments Directed {N E}. Arguments nodes {N E}.
Arguments out {N E}. Arguments in_ {N E}.
Arguments nodeMeta {N E}. Arguments edgeMeta {N E}.

(** Go's [m[k]] on a map of maps: a missing key reads as the nil (empty) map. *)
Definition inner {A : Type} (m : gmap string (gmap string A)) (k : string) : gmap string A :=
  default ∅ (m !! k).

(** [delete(m[k1], k2)]: a no-op when [m[k1]] is nil. *)
Definition inner_delete {A : Type} (m : gmap string (gmap string A)) (k1 k2 : string)
  : gmap string (gmap string A) :=
  match m !! k1 with
  | Some mi => <[k1 := delete k2 mi]> m
  | None => m
  end.

(** [m[k1][k2] = v], for [m[k1]] non-nil. *)
Definition inner_insert {A : Type} (m : gmap string (gmap string A)) (k1 k2 : string) (v : A)
  : gmap string (gmap string A) :=
  <[k1 := <[k2 := v]> (inner m k1)]> m.

Section GraphOps.
Context {N E : Type}.
Implicit Types g : Graph N E.

Definition NewGraph (directed : bool) : Graph N E :=
  mkGraph directed ∅ ∅ ∅ ∅ ∅.

Definition set_nodes g n : Graph N E := mkGraph (Directed g) n (out g) (in_ g) (nodeMeta g) (edgeMeta g).
Definition set_out g o : Graph N E := mkGraph (Directed g) (nodes g) o (in_ g) (nodeMeta g) (edgeMeta g).
Definition set_in g i : Graph N E := mkGraph (Directed g) (nodes g) (out g) i (nodeMeta g) (edgeMeta g).
Definition set_nodeMeta g m : Graph N E := mkGraph (Directed g) (nodes g) (out g) (in_ g) m (edgeMeta g).
Definition set_edgeMeta g m : Graph N E := mkGraph (Directed g) (nodes g) (out g) (in_ g) (nodeMeta g) m.

Definition make_if_nil {A : Type} (m : gmap string (gmap string A)) (id : string) :=
  match m !! id with
  | Some _ => m
  | None => <[id := ∅]> m
  end.

Definition AddNode g (id : string) (data : N) : Graph N E :=
  mkGraph (Directed g)
          (<[id := Node.mk id data]> (nodes g))
          (make_if_nil (out g) id)
          (make_if_nil (in_ g) id)
          (nodeMeta g) (edgeMeta g).

Definition HasNode g (id : string) : bool :=
  bool_decide (is_Some (nodes g !! id)).

Inductive GraphError :=
  | NodeNotFound (id : string).

Definition AddEdge g (from to : string) (data : E) (weight : float)
  : Graph N E * option GraphError :=
  if negb (HasNode g from) then (g, Some (NodeNotFound from))
  else if negb (HasNode g to) then (g, Some (NodeNotFound to))
  else
    let e := Edge.mk from to data weight in
    let o := inner_insert (out g) from to e in
    let i := inner_insert (in_ g) to from e in
    if negb (Directed g) then
      let rev := Edge.mk to from data weight in
      let o := inner_insert o to from rev in
      let i := inner_insert i from to rev in
      (set_in (set_out g o) i, None)
    else (set_in (set_out g o) i, None).

(** [RemoveNode] as graph.go has it.  This graph.go is the revision before
    the metadata stores: it edits [nodes], [out] and [in] and does not mention
    the maps of the stores, which stay as they are here.  What removing a
    node does to the stores is [RemoveNode_with_stores], below. *)
Definition RemoveNode (ord : MapOrder) g (id : string) : Graph N E :=
  if negb (HasNode g id) then g
  else
    (* Remove outgoing edges *)
    let i := foldl (λ i to, inner_delete i to id) (in_ g) (range ord (inner (out g) id)).*1 in
    (* Remove incoming edges *)
    let o := foldl (λ o from, inner_delete o from id) (out g) (range ord (inner i id)).*1 in
    mkGraph (Directed g) (delete id (nodes g)) (delete id o) (delete id i)
            (nodeMeta g) (edgeMeta g).

(** [RemoveEdge] as graph.go has it: the adjacency maps only, as for
    [RemoveNode]; with the stores it is [RemoveEdge_with_stores], below. *)
Definition RemoveEdge g (from to : string) : Graph N E :=
  let o := inner_delete (out g) from to in
  let i := inner_delete (in_ g) to from in
  if negb (Directed g) then
    set_in (set_out g (inner_delete o to from)) (inner_delete i from to)
  else set_in (set_out g o) i.

Definition GetNode g (id : string) : option (Node.t N) := nodes g !! id.

Definition GetEdge g (from to : string) : option (Edge.t E) :=
  match out g !! from with
  | Some m => m !! to
  | None => None
  end.

Definition HasEdge g (from to : string) : bool :=
  match out g !! from with
  | Some m => bool_decide (is_Some (m !! to))
  | None => false
  end.

Definition Neighbors (ord : MapOrder) g (id : string) : list string :=
  sort_Strings (range ord (inner (out g) id)).*1.

Definition OutEdges (ord : MapOrder) g (id : string) : list (Edge.t E) :=
  (range ord (inner (out g) id)).*2.

Definition InEdges (ord : MapOrder) g (id : string) : list (Edge.t E) :=
  (range ord (inner (in_ g) id)).*2.

Definition Nodes (ord : MapOrder) g : list (Node.t N) :=
  sort_Slice (λ x y, str_lt (Node.ID x) (Node.ID y)) (range ord (nodes g)).*2.

(** [Edges]: [seen] is the set of (from, to) keys already emitted. *)
Definition Edges_step g (from to : string) (e : Edge.t E)
    (acc : gset (string * string) * list (Edge.t E)) :=
  let '(seen, result) := acc in
  if negb (Directed g) && bool_decide ((to, from) ∈ seen) then acc
  else if bool_decide ((from, to) ∈ seen) then acc
  else ({[ (from, to) ]} ∪ seen, (result ++ [e])%list).

Definition Edges (ord : MapOrder) g : list (Edge.t E) :=
  (foldl (λ acc fm,
            foldl (λ acc te, Edges_step g fm.1 te.1 te.2 acc) acc (range ord fm.2))
         (∅, []) (range ord (out g))).2.

Definition Order g : nat := size (nodes g).

Definition Size (ord : MapOrder) g : nat := length (Edges ord g).

End GraphOps.

(** ** Metadata accessors *)

Section MetaOps.
Context {N E : Type}.
Implicit Types g : Graph N E.
Import StoreOps.

(** The key under which the store of the edge from -> to is kept: an
    undirected edge has one store for both directions. *)
Definition edgeMetaKey g (from to : string) : string * string :=
  if negb (Directed g) && str_lt to from then (to, from) else (from, to).

(** Modelled from the spec: the accessor [NodeMeta], whose file is not among
    the sources.  "Metadata store: one per (existing) node and one per
    (existing) edge, created lazily on first access"; the accessor gives nil
    for a node that does not exist. *)
Definition NodeMeta g (id : string) : Graph N E * option Store :=
  if HasNode g id then
    match nodeMeta g !! id with
    | Some s => (g, Some s)
    | None => (set_nodeMeta g (<[id := NewStore]> (nodeMeta g)), Some NewStore)
    end
  else (g, None).

(** Modelled from the spec: the accessor [EdgeMeta], whose file is not among
    the sources: the store of an existing edge, created on first access, nil
    for an edge that does not exist. *)
Definition EdgeMeta g (from to : string) : Graph N E * option Store :=
  if HasEdge g from to then
    let '(a, b) := edgeMetaKey g from to in
    match inner (edgeMeta g) a !! b with
    | Some s => (g, Some s)
    | None => (set_edgeMeta g (inner_insert (edgeMeta g) a b NewStore), Some NewStore)
    end
  else (g, None).

(** Writing through the pointer an accessor returned. *)
Definition update_NodeMeta g (id : string) (f : Store → Store) : Graph N E :=
  match NodeMeta g id with
  | (g1, Some s) => set_nodeMeta g1 (<[id := f s]> (nodeMeta g1))
  | (g1, None) => g1
  end.

Definition update_EdgeMeta g (from to : string) (f : Store → Store) : Graph N E :=
  match EdgeMeta g from to with
  | (g1, Some s) =>
      let '(a, b) := edgeMetaKey g from to in
      set_edgeMeta g1 (inner_insert (edgeMeta g1) a b (f s))
  | (g1, None) => g1
  end.

(** Modelled from the spec: what removing a node does to the stores, which
    graph.go, in the revision at hand older than the stores, does not have.
    "Removing a node removes every incident edge and every metadata record
    for that node and its edges"; "a metadata store exists from the first
    access on an existing node/edge until that node/edge is removed".  The
    tests of the stores ask for the same: after [RemoveNode("a")] the
    accessor gives nil for a and [g.edgeMeta["a"]] is gone.  The store of
    [id] goes, and every edge store kept under a key that names [id]. *)
Definition drop_node_stores g (id : string) : Graph N E :=
  mkGraph (Directed g) (nodes g) (out g) (in_ g)
          (delete id (nodeMeta g))
          ((λ m, delete id m) <$> delete id (edgeMeta g)).

(** Modelled from the spec: what removing an edge does to the stores: the
    store of the edge goes, under the key [EdgeMeta] keeps it. *)
Definition drop_edge_store g (from to : string) : Graph N E :=
  let '(a, b) := edgeMetaKey g from to in
  set_edgeMeta g (inner_delete (edgeMeta g) a b).

(** [RemoveNode] with the stores: the node and its edges go as in graph.go,
    and then the records. *)
Definition RemoveNode_with_stores (ord : MapOrder) g (id : string) : Graph N E :=
  if negb (HasNode g id) then g
  else drop_node_stores (RemoveNode ord g id) id.

(** [RemoveEdge] with the stores. *)
Definition RemoveEdge_with_stores g (from to : string) : Graph N E :=
  drop_edge_store (RemoveEdge g from to) from to.

End MetaOps.

(** ** Facts about the nested-map helpers *)

Section InnerFacts.
Context {A : Type}.
Implicit Types m : gmap string (gmap string A).

Lemma inner_make_if_nil m id k : inner (make_if_nil m id) k = inner m k.
Proof.
  unfold inner, make_if_nil. destruct (m !! id) eqn:Hid; [done|].
  destruct (decide (id = k)) as [->|Hne].
  - by rewrite lookup_insert_eq, Hid.
  - by rewrite lookup_insert_ne.
Qed.

Lemma make_if_nil_is_Some m id k :
  is_Some (make_if_nil m id !! k) ↔ k = id ∨ is_Some (m !! k).
Proof.
  unfold make_if_nil. destruct (m !! id) eqn:Hid.
  - split; [by right|]. intros [->|?]; [by rewrite Hid|done].
  - rewrite lookup_insert_is_Some. destruct (decide (id = k)); naive_solver.
Qed.

Lemma inner_inner_delete m k1 k2 a b :
  inner (inner_delete m k1 k2) a !! b =
    if decide (a = k1 ∧ b = k2) then None else inner m a !! b.
Proof.
  unfold inner, inner_delete. destruct (m !! k1) as [mi|] eqn:Hk.
  - destruct (decide (a = k1)) as [->|Hne].
    + rewrite lookup_insert_eq, Hk. simpl.
      destruct (decide (b = k2)) as [->|Hb].
      * rewrite decide_True by done. apply lookup_delete_eq.
      * rewrite decide_False by naive_solver. by apply lookup_delete_ne.
    + rewrite lookup_insert_ne by done. by rewrite decide_False by naive_solver.
  - case_decide as Hd; [|done]. destruct Hd as [-> ->]. by rewrite Hk.
Qed.

Lemma inner_delete_is_Some m k1 k2 a :
  is_Some (inner_delete m k1 k2 !! a) ↔ is_Some (m !! a).
Proof.
  unfold inner_delete. destruct (m !! k1) as [mi|] eqn:Hk; [|done].
  destruct (decide (k1 = a)) as [->|Hne].
  - rewrite lookup_insert_eq, Hk. split; eauto.
  - by rewrite lookup_insert_ne.
Qed.

Lemma inner_inner_insert m k1 k2 v a b :
  inner (inner_insert m k1 k2 v) a !! b =
    if decide (a = k1 ∧ b = k2) then Some v else inner m a !! b.
Proof.
  unfold inner_insert. unfold inner at 1.
  destruct (decide (a = k1)) as [->|Hne].
  - rewrite lookup_insert_eq. simpl. destruct (decide (b = k2)) as [->|Hb].
    + rewrite decide_True by done. apply lookup_insert_eq.
    + rewrite decide_False by naive_solver. by apply lookup_insert_ne.
  - rewrite lookup_insert_ne by done. by rewrite decide_False by naive_solver.
Qed.

Lemma inner_insert_is_Some m k1 k2 v a :
  is_Some (inner_insert m k1 k2 v !! a) ↔ a = k1 ∨ is_Some (m !! a).
Proof.
  unfold inner_insert. rewrite lookup_insert_is_Some.
  destruct (decide (k1 = a)); naive_solver.
Qed.

Lemma inner_delete_outer m k a : inner (delete k m) a = if decide (a = k) then ∅ else inner m a.
Proof.
  unfold inner. case_decide as Hd.
  - subst. by rewrite lookup_delete_eq.
  - by rewrite lookup_delete_ne.
Qed.

(** Deleting the key [id] from the inner maps of all the keys of [l]. *)
Lemma inner_foldl_delete (l : list string) m id a b :
  inner (foldl (λ i to, inner_delete i to id) m l) a !! b =
    if decide (b = id ∧ a ∈ l) then None else inner m a !! b.
Proof.
  revert m. induction l as [|x l IH]; intros m; simpl.
  - case_decide as Hd; [|done]. destruct Hd as [_ Hd]. by apply elem_of_nil in Hd.
  - rewrite IH, inner_inner_delete.
    destruct (decide (b = id)) as [->|Hb].
    + destruct (decide (a ∈ l)) as [Hl|Hl].
      * rewrite !decide_True; [done|split; [done|by right]|done].
      * rewrite (decide_False (P := id = id ∧ a ∈ l)) by naive_solver.
        destruct (decide (a = x)) as [->|Hax].
        -- rewrite !decide_True; [done|split; [done|by left]|done].
        -- rewrite !decide_False; [done| |naive_solver].
           intros [_ Hin]. apply elem_of_cons in Hin. naive_solver.
    + rewrite !decide_False; naive_solver.
Qed.

Lemma foldl_delete_is_Some (l : list string) m id a :
  is_Some (foldl (λ i to, inner_delete i to id) m l !! a) ↔ is_Some (m !! a).
Proof.
  revert m. induction l as [|x l IH]; intros m; simpl; [done|].
  by rewrite IH, inner_delete_is_Some.
Qed.

Lemma inner_lookup_Some m a b v :
  inner m a !! b = Some v ↔ ∃ mi, m !! a = Some mi ∧ mi !! b = Some v.
Proof.
  unfold inner. destruct (m !! a) as [mi|]; simpl.
  - split; [eauto|]. by intros (? & [= <-] & ?).
  - rewrite lookup_empty. split; [done|]. by intros (? & ? & ?).
Qed.

Lemma range_elem_of (ord : MapOrder) (mi : gmap string A) k v :
  (k, v) ∈ range ord mi ↔ mi !! k = Some v.
Proof.
  unfold range. rewrite (range_order_perm ord A (map_to_list mi)).
  apply elem_of_map_to_list.
Qed.

Lemma range_keys_elem_of (ord : MapOrder) (mi : gmap string A) k :
  k ∈ (range ord mi).*1 ↔ is_Some (mi !! k).
Proof.
  rewrite list_elem_of_fmap. split.
  - intros ([k' v] & -> & Hin). apply range_elem_of in Hin. eauto.
  - intros [v Hv]. exists (k, v). split; [done|]. by apply range_elem_of.
Qed.

Lemma range_values_elem_of (ord : MapOrder) (mi : gmap string A) v :
  v ∈ (range ord mi).*2 ↔ ∃ k, mi !! k = Some v.
Proof.
  rewrite list_elem_of_fmap. split.
  - intros ([k v'] & -> & Hin). apply range_elem_of in Hin. eauto.
  - intros [k Hv]. exists (k, v). split; [done|]. by apply range_elem_of.
Qed.

End InnerFacts.

(** ** The graph invariant

    What graph.go maintains between calls: a node's record carries its key,
    every node has an [out] and an [in] map, the two adjacency maps hold the
    same edge records, an edge record carries its keys and ends in nodes, and
    an undirected graph holds every edge in both directions. *)

Section Invariant.
Context {N E : Type}.
Implicit Types g : Graph N E.

Definition reverse_edge (e : Edge.t E) : Edge.t E :=
  Edge.mk (Edge.To e) (Edge.From e) (Edge.Data e) (Edge.Weight e).

Record wf g : Prop := {
  wf_node_id : ∀ id n, nodes g !! id = Some n → Node.ID n = id;
  wf_node_out : ∀ id, is_Some (out g !! id) ↔ is_Some (nodes g !! id);
  wf_node_in : ∀ id, is_Some (in_ g !! id) ↔ is_Some (nodes g !! id);
  wf_out_in : ∀ a b, inner (out g) a !! b = inner (in_ g) b !! a;
  wf_edge_ends : ∀ a b e, inner (out g) a !! b = Some e →
    Edge.From e = a ∧ Edge.To e = b ∧ is_Some (nodes g !! b);
  wf_undirected : Directed g = false → ∀ a b e,
    inner (out g) a !! b = Some e → inner (out g) b !! a = Some (reverse_edge e)
}.

Lemma HasNode_true g id : HasNode g id = true ↔ is_Some (nodes g !! id).
Proof. unfold HasNode. apply bool_decide_eq_true. Qed.

Lemma HasNode_false g id : HasNode g id = false ↔ nodes g !! id = None.
Proof.
  unfold HasNode. rewrite bool_decide_eq_false. by rewrite eq_None_not_Some.
Qed.

Lemma HasEdge_inner g a b : HasEdge g a b = bool_decide (is_Some (inner (out g) a !! b)).
Proof.
  unfold HasEdge, inner. destruct (out g !! a); simpl; [done|].
  rewrite lookup_empty. symmetry. apply bool_decide_eq_false. by intros [? ?].
Qed.

Lemma GetEdge_inner g a b : GetEdge g a b = inner (out g) a !! b.
Proof. unfold GetEdge, inner. by destruct (out g !! a). Qed.

Lemma wf_edge_from_node g a b e :
  wf g → inner (out g) a !! b = Some e → is_Some (nodes g !! a).
Proof.
  intros Hwf He. apply (wf_node_out g Hwf).
  apply inner_lookup_Some in He as (mi & -> & _). eauto.
Qed.

Lemma wf_NewGraph d : wf (NewGraph d).
Proof.
  split; simpl; intros *; try done;
    rewrite ?lookup_empty; unfold inner; rewrite ?lookup_empty; simpl;
    rewrite ?lookup_empty; try done.
  all: split; intros [? ?]; done.
Qed.

Lemma wf_AddNode g id data : wf g → wf (AddNode g id data).
Proof.
  intros Hwf. split; simpl.
  - intros k n. destruct (decide (id = k)) as [->|Hne].
    + rewrite lookup_insert_eq. by intros [= <-].
    + rewrite lookup_insert_ne by done. apply Hwf.
  - intros k. rewrite make_if_nil_is_Some, lookup_insert_is_Some, (wf_node_out g Hwf).
    destruct (decide (id = k)); naive_solver.
  - intros k. rewrite make_if_nil_is_Some, lookup_insert_is_Some, (wf_node_in g Hwf).
    destruct (decide (id = k)); naive_solver.
  - intros a b. rewrite !inner_make_if_nil. apply Hwf.
  - intros a b e. rewrite inner_make_if_nil. intros He.
    destruct (wf_edge_ends g Hwf a b e He) as (? & ? & ?). split_and!; [done..|].
    rewrite lookup_insert_is_Some. destruct (decide (id = b)); naive_solver.
  - intros Hd a b e. rewrite !inner_make_if_nil. by apply Hwf.
Qed.

Lemma wf_AddEdge g from to data w : wf g → wf (AddEdge g from to data w).1.
Proof.
  intros Hwf. unfold AddEdge.
  destruct (HasNode g from) eqn:Hf; [|done].
  destruct (HasNode g to) eqn:Ht; [|done]. simpl.
  apply HasNode_true in Hf, Ht.
  destruct (Directed g) eqn:Hd; simpl.
  - split; simpl.
    + apply Hwf.
    + intros k. rewrite inner_insert_is_Some, (wf_node_out g Hwf). naive_solver.
    + intros k. rewrite inner_insert_is_Some, (wf_node_in g Hwf). naive_solver.
    + intros a b. rewrite !inner_inner_insert.
      destruct (decide (a = from ∧ b = to)) as [[-> ->]|Hn].
      * by rewrite decide_True.
      * rewrite decide_False by naive_solver. apply Hwf.
    + intros a b e. rewrite inner_inner_insert.
      case_decide as Hc.
      * destruct Hc as [-> ->]. by intros [= <-].
      * apply Hwf.
    + by rewrite Hd.
  - split; simpl.
    + apply Hwf.
    + intros k. rewrite !inner_insert_is_Some, (wf_node_out g Hwf). naive_solver.
    + intros k. rewrite !inner_insert_is_Some, (wf_node_in g Hwf). naive_solver.
    + intros a b. rewrite !inner_inner_insert.
      destruct (decide (a = to ∧ b = from)) as [[-> ->]|Hn].
      * by rewrite (decide_True (P := from = from ∧ to = to)).
      * rewrite (decide_False (P := b = from ∧ a = to)) by naive_solver.
        destruct (decide (a = from ∧ b = to)) as [[-> ->]|Hn'].
        -- by rewrite decide_True.
        -- rewrite decide_False by naive_solver. apply Hwf.
    + intros a b e. rewrite !inner_inner_insert.
      case_decide as Hc; [destruct Hc as [-> ->]; by intros [= <-]|].
      case_decide as Hc'; [destruct Hc' as [-> ->]; by intros [= <-]|].
      apply Hwf.
    + intros _ a b e. rewrite !inner_inner_insert.
      destruct (decide (a = to ∧ b = from)) as [[-> ->]|Hn].
      * intros [= <-]. unfold reverse_edge; simpl.
        destruct (decide (from = to ∧ to = from)) as [[-> _]|?]; [done|].
        by rewrite decide_True.
      * destruct (decide (a = from ∧ b = to)) as [[-> ->]|Hn'].
        -- intros [= <-]. unfold reverse_edge; simpl. by rewrite decide_True.
        -- intros He. rewrite !decide_False by naive_solver.
           by apply (wf_undirected g Hwf Hd).
Qed.

End Invariant.

(** ** Removing nodes and edges *)

Section Remove.
Context {N E : Type}.
Implicit Types g : Graph N E.

(** The adjacency maps after [RemoveNode], entry by entry. *)
Lemma RemoveNode_out ord g id a b :
  wf g → HasNode g id = true →
  inner (out (RemoveNode ord g id)) a !! b =
    if decide (a = id ∨ b = id) then None else inner (out g) a !! b.
Proof.
  intros Hwf Hid. unfold RemoveNode. rewrite Hid. simpl.
  rewrite inner_delete_outer.
  destruct (decide (a = id)) as [->|Ha].
  { by rewrite decide_True by (by left). }
  rewrite inner_foldl_delete.
  destruct (decide (b = id)) as [->|Hb].
  - rewrite (decide_True (P := a = id ∨ id = id)) by (by right).
    destruct (inner (out g) a !! id) as [e|] eqn:He; [|by case_decide].
    rewrite decide_True; [done|]. split; [done|].
    apply range_keys_elem_of. rewrite inner_foldl_delete.
    rewrite decide_False by naive_solver.
    rewrite <- (wf_out_in g Hwf). eauto.
  - rewrite !decide_False; naive_solver.
Qed.

Lemma RemoveNode_in ord g id a b :
  wf g → HasNode g id = true →
  inner (in_ (RemoveNode ord g id)) b !! a =
    if decide (a = id ∨ b = id) then None else inner (in_ g) b !! a.
Proof.
  intros Hwf Hid. unfold RemoveNode. rewrite Hid. simpl.
  rewrite inner_delete_outer.
  destruct (decide (b = id)) as [->|Hb].
  { by rewrite decide_True by (by right). }
  rewrite inner_foldl_delete.
  destruct (decide (a = id)) as [->|Ha].
  - rewrite (decide_True (P := id = id ∨ b = id)) by (by left).
    destruct (inner (in_ g) b !! id) as [e|] eqn:He; [|by case_decide].
    rewrite decide_True; [done|]. split; [done|].
    apply range_keys_elem_of. rewrite (wf_out_in g Hwf). eauto.
  - rewrite !decide_False; naive_solver.
Qed.

Lemma RemoveNode_absent ord g id : HasNode g id = false → RemoveNode ord g id = g.
Proof. intros H. unfold RemoveNode. by rewrite H. Qed.

Lemma wf_RemoveNode ord g id : wf g → wf (RemoveNode ord g id).
Proof.
  intros Hwf. destruct (HasNode g id) eqn:Hid;
    [|by rewrite RemoveNode_absent].
  split.
  - unfold RemoveNode. rewrite Hid. simpl. intros k n Hk.
    apply lookup_delete_Some in Hk as [_ Hk]. by apply Hwf.
  - unfold RemoveNode. rewrite Hid. simpl. intros k.
    rewrite !lookup_delete_is_Some, foldl_delete_is_Some. by rewrite (wf_node_out g Hwf).
  - unfold RemoveNode. rewrite Hid. simpl. intros k.
    rewrite !lookup_delete_is_Some, foldl_delete_is_Some. by rewrite (wf_node_in g Hwf).
  - intros a b. rewrite RemoveNode_out, RemoveNode_in by done.
    case_decide; [done|]. apply Hwf.
  - intros a b e. rewrite RemoveNode_out by done. case_decide as Hc; [done|]. intros He.
    destruct (wf_edge_ends g Hwf a b e He) as (? & ? & ?). split_and!; [done..|].
    unfold RemoveNode. rewrite Hid. simpl. rewrite lookup_delete_is_Some. naive_solver.
  - intros Hd a b e. rewrite !RemoveNode_out by done.
    assert (Directed g = false) as Hd'.
    { revert Hd. unfold RemoveNode. by rewrite Hid. }
    case_decide as Hc; [done|]. rewrite decide_False by naive_solver.
    by apply (wf_undirected g Hwf Hd').
Qed.

Lemma wf_RemoveEdge g from to : wf g → wf (RemoveEdge g from to).
Proof.
  intros Hwf. unfold RemoveEdge. destruct (Directed g) eqn:Hd; simpl.
  - split; simpl.
    + apply Hwf.
    + intros k. by rewrite inner_delete_is_Some, (wf_node_out g Hwf).
    + intros k. by rewrite inner_delete_is_Some, (wf_node_in g Hwf).
    + intros a b. rewrite !inner_inner_delete.
      destruct (decide (a = from ∧ b = to)) as [[-> ->]|Hn].
      * by rewrite decide_True.
      * rewrite decide_False by naive_solver. apply Hwf.
    + intros a b e. rewrite inner_inner_delete. case_decide; [done|]. apply Hwf.
    + by rewrite Hd.
  - split; simpl.
    + apply Hwf.
    + intros k. by rewrite !inner_delete_is_Some, (wf_node_out g Hwf).
    + intros k. by rewrite !inner_delete_is_Some, (wf_node_in g Hwf).
    + intros a b. rewrite !inner_inner_delete.
      destruct (decide (a = to ∧ b = from)) as [[-> ->]|Hn].
      * by rewrite (decide_True (P := from = from ∧ to = to)).
      * rewrite (decide_False (P := b = from ∧ a = to)) by naive_solver.
        destruct (decide (a = from ∧ b = to)) as [[-> ->]|Hn'].
        -- by rewrite decide_True.
        -- rewrite decide_False by naive_solver. apply Hwf.
    + intros a b e. rewrite !inner_inner_delete.
      case_decide; [done|]. case_decide; [done|]. apply Hwf.
    + intros _ a b e. rewrite !inner_inner_delete.
      case_decide as H1; [done|]. case_decide as H2; [done|]. intros He.
      rewrite !decide_False by naive_solver. by apply (wf_undirected g Hwf Hd).
Qed.

(** After [RemoveNode(a)] no edge refers to [a]: [HasEdge] is false in both
    directions, and no edge in any in- or out-edge list starts or ends at [a]. *)
Lemma RemoveNode_no_incident_edges ord g a :
  wf g → HasNode g a = true →
  let g' := RemoveNode ord g a in
  HasNode g' a = false ∧
  (∀ x, HasEdge g' a x = false ∧ HasEdge g' x a = false) ∧
  (∀ ord' x e, e ∈ OutEdges ord' g' x → Edge.From e ≠ a ∧ Edge.To e ≠ a) ∧
  (∀ ord' x e, e ∈ InEdges ord' g' x → Edge.From e ≠ a ∧ Edge.To e ≠ a).
Proof.
  intros Hwf Ha g'. pose proof (wf_RemoveNode ord g a Hwf) as Hwf'. fold g' in Hwf'.
  assert (∀ x y e, inner (out g') x !! y = Some e →
            x ≠ a ∧ y ≠ a ∧ Edge.From e = x ∧ Edge.To e = y) as Hout.
  { intros x y e He. destruct (wf_edge_ends g' Hwf' x y e He) as (? & ? & _).
    unfold g' in He. rewrite RemoveNode_out in He by done.
    case_decide as Hc; [done|]. naive_solver. }
  split_and!.
  - apply HasNode_false. unfold g', RemoveNode. rewrite Ha. simpl. apply lookup_delete_eq.
  - intros x. rewrite !HasEdge_inner. unfold g'. rewrite !RemoveNode_out by done.
    rewrite !decide_True by naive_solver.
    split; apply bool_decide_eq_false; by intros [? ?].
  - intros ord' x e Hin. apply range_values_elem_of in Hin as [y Hy].
    apply Hout in Hy. naive_solver.
  - intros ord' x e Hin. apply range_values_elem_of in Hin as [y Hy].
    rewrite <- (wf_out_in g' Hwf') in Hy. apply Hout in Hy. naive_solver.
Qed.

End Remove.

(** ** Re-adding a node *)

Section AddNodeFrame.
Context {N E : Type}.
Implicit Types g : Graph N E.

(** C9. Re-adding a node that is present changes that node's payload and
    nothing else: the set of nodes and every other payload are as before,
    [HasEdge], [GetEdge], [Neighbors], [InEdges] and [OutEdges] answer as
    before for all IDs (under every iteration order), and the metadata
    stores stay attached, as the maps hold them and as the accessors return
    them. *)
Theorem AddNode_existing_frame g (id : string) (newData : N) :
  HasNode g id = true →
  let g' := AddNode g id newData in
  GetNode g' id = Some (Node.mk id newData) ∧
  (∀ j, j ≠ id → GetNode g' j = GetNode g j) ∧
  (∀ j, HasNode g' j = HasNode g j) ∧
  Directed g' = Directed g ∧
  (∀ a b, HasEdge g' a b = HasEdge g a b) ∧
  (∀ a b, GetEdge g' a b = GetEdge g a b) ∧
  (∀ ord a, Neighbors ord g' a = Neighbors ord g a) ∧
  (∀ ord a, InEdges ord g' a = InEdges ord g a) ∧
  (∀ ord a, OutEdges ord g' a = OutEdges ord g a) ∧
  nodeMeta g' = nodeMeta g ∧ edgeMeta g' = edgeMeta g ∧
  (∀ j, (NodeMeta g' j).2 = (NodeMeta g j).2) ∧
  (∀ a b, (EdgeMeta g' a b).2 = (EdgeMeta g a b).2).
Proof.
  intros Hid g'.
  assert (∀ j, HasNode g' j = HasNode g j) as Hnodes.
  { intros j. unfold HasNode, g', AddNode; simpl. apply bool_decide_ext.
    rewrite lookup_insert_is_Some. apply HasNode_true in Hid.
    destruct (decide (id = j)); naive_solver. }
  assert (∀ a b, HasEdge g' a b = HasEdge g a b) as Hedges.
  { intros a b. rewrite !HasEdge_inner. unfold g', AddNode; simpl.
    by rewrite inner_make_if_nil. }
  split_and!; try done.
  - unfold GetNode, g', AddNode; simpl. apply lookup_insert_eq.
  - intros j Hj. unfold GetNode, g', AddNode; simpl. by apply lookup_insert_ne.
  - intros a b. rewrite !GetEdge_inner. unfold g', AddNode; simpl.
    by rewrite inner_make_if_nil.
  - intros ord a. unfold Neighbors, g', AddNode; simpl. by rewrite inner_make_if_nil.
  - intros ord a. unfold InEdges, g', AddNode; simpl. by rewrite inner_make_if_nil.
  - intros ord a. unfold OutEdges, g', AddNode; simpl. by rewrite inner_make_if_nil.
  - intros j. unfold NodeMeta. rewrite Hnodes. destruct (HasNode g j); [|done].
    unfold g', AddNode; simpl. by destruct (nodeMeta g !! j).
  - intros a b. unfold EdgeMeta. rewrite Hedges. destruct (HasEdge g a b); [|done].
    unfold edgeMetaKey, g', AddNode; simpl.
    destruct (negb (Directed g) && str_lt b a); simpl;
      match goal with |- context [inner _ ?x !! ?y] =>
        by destruct (inner (edgeMeta g) x !! y) end.
Qed.

End AddNodeFrame.


(** ** A sample graph *)

(** Nodes a and b and the directed edge a -> b. *)
Definition sample_topology : Graph string string :=
  let g := AddNode (NewGraph true) "a" "A" in
  let g := AddNode g "b" "B" in
  (AddEdge g "a" "b" "ab" 1%float).1.

(** The same with one entry in the store of a and one in the store of the edge. *)
Definition sample_graph : Graph string string :=
  let g := update_NodeMeta sample_topology "a" (λ s, StoreOps.Set_ s "key" (VString "val")) in
  update_EdgeMeta g "a" "b" (λ s, StoreOps.Set_ s "key" (VString "val")).

Lemma wf_meta_irrelevant {N E} (g : Graph N E) nm em :
  wf g → wf (mkGraph (Directed g) (nodes g) (out g) (in_ g) nm em).
Proof. intros [H1 H2 H3 H4 H5 H6]. split; assumption. Qed.

Lemma sample_graph_wf : wf sample_graph.
Proof.
  assert (sample_graph =
            mkGraph (Directed sample_topology) (nodes sample_topology)
                    (out sample_topology) (in_ sample_topology)
                    (nodeMeta sample_graph) (edgeMeta sample_graph)) as ->
    by (vm_compute; reflexivity).
  apply wf_meta_irrelevant.
  apply wf_AddEdge, wf_AddNode, wf_AddNode, wf_NewGraph.
Qed.

Lemma AddNode_existing_frame_witness :
  HasNode sample_graph "a" = true ∧
  GetNode (AddNode sample_graph "a" "A2") "b" = GetNode sample_graph "b" ∧
  nodeMeta (AddNode sample_graph "a" "A2") = nodeMeta sample_graph.
Proof.
  assert (HasNode sample_graph "a" = true) as H by reflexivity.
  split; [exact H|].
  pose proof (AddNode_existing_frame sample_graph "a" "A2" H) as HF.
  cbv zeta in HF.
  destruct HF as (_ & Hother & _ & _ & _ & _ & _ & _ & _ & Hmeta & _).
  split; [apply Hother; discriminate | exact Hmeta].
Defined.

(** ** Removing a node, with its records *)

Section RemoveRecords.
Context {N E : Type}.
Implicit Types g : Graph N E.

Lemma drop_node_stores_nodeMeta g id k :
  nodeMeta (drop_node_stores g id) !! k = if decide (k = id) then None else nodeMeta g !! k.
Proof.
  unfold drop_node_stores. cbn [nodeMeta].
  destruct (decide (k = id)) as [->|Hne]; [apply lookup_delete_eq|by apply lookup_delete_ne].
Qed.

Lemma drop_node_stores_edgeMeta g id a b :
  inner (edgeMeta (drop_node_stores g id)) a !! b =
    if decide (a = id ∨ b = id) then None else inner (edgeMeta g) a !! b.
Proof.
  unfold drop_node_stores, inner. cbn [edgeMeta]. rewrite lookup_fmap.
  destruct (decide (a = id)) as [->|Ha].
  - rewrite lookup_delete_eq, decide_True by (by left). apply lookup_empty.
  - rewrite lookup_delete_ne by done.
    destruct (edgeMeta g !! a) as [m|]; simpl.
    + destruct (decide (b = id)) as [->|Hb].
      * rewrite decide_True by (by right). apply lookup_delete_eq.
      * rewrite decide_False by naive_solver. by apply lookup_delete_ne.
    + rewrite lookup_empty. by case_decide.
Qed.

Lemma drop_edge_store_edgeMeta g from to a b :
  inner (edgeMeta (drop_edge_store g from to)) a !! b =
    if decide ((a, b) = edgeMetaKey g from to) then None else inner (edgeMeta g) a !! b.
Proof.
  unfold drop_edge_store. destruct (edgeMetaKey g from to) as [ka kb]. cbn [edgeMeta set_edgeMeta].
  rewrite inner_inner_delete.
  destruct (decide (a = ka ∧ b = kb)) as [[-> ->]|Hne].
  - by rewrite decide_True.
  - rewrite decide_False; [done|]. intros [= -> ->]. by apply Hne.
Qed.

Lemma wf_RemoveNode_with_stores ord g id : wf g → wf (RemoveNode_with_stores ord g id).
Proof.
  intros Hwf. unfold RemoveNode_with_stores. destruct (negb (HasNode g id)); [done|].
  unfold drop_node_stores. apply wf_meta_irrelevant. by apply wf_RemoveNode.
Qed.

Lemma wf_RemoveEdge_with_stores g from to : wf g → wf (RemoveEdge_with_stores g from to).
Proof.
  intros Hwf. unfold RemoveEdge_with_stores, drop_edge_store.
  destruct (edgeMetaKey _ from to) as [ka kb].
  apply (wf_meta_irrelevant (RemoveEdge g from to)). by apply wf_RemoveEdge.
Qed.


End RemoveRecords.


(** ** Sorting facts *)

Section SortFacts.
Context {A : Type} (less : A → A → bool).

(** [x] may stand before [y] in a slice sorted by [less]. *)
Definition not_after (x y : A) : Prop := less y x = false.

Lemma insert_sorted_perm x l : insert_sorted less x l ≡ₚ x :: l.
Proof.
  induction l as [|y l IH]; simpl; [done|].
  destruct (less y x); [|done]. rewrite IH. apply Permutation_swap.
Qed.

Lemma sort_Slice_perm l : sort_Slice less l ≡ₚ l.
Proof.
  induction l as [|x l IH]; simpl; [done|].
  by rewrite insert_sorted_perm, IH.
Qed.

Lemma sort_Slice_elem_of x l : x ∈ sort_Slice less l ↔ x ∈ l.
Proof. by rewrite sort_Slice_perm. Qed.

(** [less] is a strict order that is total on distinct keys. *)
Hypothesis less_asym : ∀ x y, less x y = true → less y x = false.
Hypothesis less_ntrans : ∀ x y z, less x y = false → less y z = false → less x z = false.

Lemma insert_sorted_Sorted x l :
  Sorted not_after l → Sorted not_after (insert_sorted less x l).
Proof.
  induction 1 as [|y l Hs IH Hhd]; simpl; [by repeat constructor|].
  destruct (less y x) eqn:Hyx.
  - constructor; [done|]. destruct Hhd as [|z l Hz]; simpl.
    + constructor. by apply less_asym.
    + destruct (less z x); constructor; [done|by apply less_asym].
  - constructor; [by constructor|]. by constructor.
Qed.

Lemma sort_Slice_Sorted l : Sorted not_after (sort_Slice less l).
Proof.
  induction l as [|x l IH]; simpl; [constructor|]. by apply insert_sorted_Sorted.
Qed.

#[local] Instance not_after_trans : Transitive not_after.
Proof. intros x y z Hxy Hyz. unfold not_after in *. by eapply less_ntrans. Qed.

(** Two slices with the same elements sort to the same slice, when [less]
    tells any two different elements apart. *)
Lemma sort_Slice_unique l1 l2 :
  (∀ x y, x ∈ l1 → y ∈ l1 → less x y = false → less y x = false → x = y) →
  l1 ≡ₚ l2 → sort_Slice less l1 = sort_Slice less l2.
Proof.
  intros Hanti Hperm.
  apply (Sorted_unique_strong not_after).
  - intros x y Hx Hy H1 H2.
    apply (proj1 (sort_Slice_elem_of _ _)) in Hx.
    apply (proj1 (sort_Slice_elem_of _ _)) in Hy.
    apply Hanti; [done|by rewrite Hperm|exact H2|exact H1].
  - apply sort_Slice_Sorted.
  - apply sort_Slice_Sorted.
  - by rewrite !sort_Slice_perm.
Qed.

End SortFacts.

Lemma str_lt_spec a b : str_lt a b = true ↔ String_as_OT.lt a b.
Proof.
  unfold str_lt, String.ltb. rewrite <- String_as_OT.cmp_lt. unfold String_as_OT.cmp.
  destruct (String.compare a b); naive_solver.
Qed.

Lemma str_lt_irrefl a : str_lt a a = false.
Proof.
  apply not_true_is_false. rewrite str_lt_spec. intros H.
  by apply String_as_OT.lt_not_eq in H.
Qed.

Lemma str_lt_trans a b c : str_lt a b = true → str_lt b c = true → str_lt a c = true.
Proof. rewrite !str_lt_spec. apply String_as_OT.lt_trans. Qed.

Lemma str_lt_asym a b : str_lt a b = true → str_lt b a = false.
Proof.
  intros H. apply not_true_is_false. intros H'.
  pose proof (str_lt_trans _ _ _ H H') as Hc. by rewrite str_lt_irrefl in Hc.
Qed.

Lemma str_lt_total a b : str_lt a b = false → str_lt b a = false → a = b.
Proof.
  unfold str_lt, String.ltb. intros H1 H2.
  destruct (String.compare a b) eqn:Hc.
  - by apply String.compare_eq_iff.
  - done.
  - rewrite String.compare_antisym, Hc in H2. done.
Qed.

Lemma str_lt_ntrans a b c : str_lt a b = false → str_lt b c = false → str_lt a c = false.
Proof.
  intros H1 H2. apply not_true_is_false. intros H3.
  destruct (str_lt b a) eqn:Hba.
  - pose proof (str_lt_trans _ _ _ Hba H3) as H. congruence.
  - pose proof (str_lt_total _ _ H1 Hba) as ->. congruence.
Qed.

Lemma sort_Strings_elem_of x l : x ∈ sort_Strings l ↔ x ∈ l.
Proof. apply sort_Slice_elem_of. Qed.

Lemma sort_Strings_unique l1 l2 : l1 ≡ₚ l2 → sort_Strings l1 = sort_Strings l2.
Proof.
  apply sort_Slice_unique.
  - apply str_lt_asym.
  - apply str_lt_ntrans.
  - intros x y _ _. apply str_lt_total.
Qed.

(** ** Schema validation *)

Section Validation.
Import StoreOps.
Implicit Types (s : Store) (sc : Schema).

(** The claim's condition: every required schema field is present with a
    value of its declared type. *)
Definition required_fields_ok s sc : Prop :=
  ∀ k def, sc !! k = Some def → Required def = true →
    ∃ v, entries s !! k = Some v ∧ matchesType v (Type_ def) = true.

(** What [Validate] checks: a required field is present, and a field that is
    present, required or not, has its declared type. *)
Definition schema_fields_ok s sc : Prop :=
  ∀ k def, sc !! k = Some def →
    match entries s !! k with
    | None => Required def = false
    | Some v => matchesType v (Type_ def) = true
    end.

(** The key an error is about. *)
Definition error_key (e : ValidationError) : string :=
  match e with
  | MissingRequired k => k
  | TypeMismatch k _ _ => k
  end.

Lemma matchesType_any v : matchesType v FieldAny = true.
Proof. by destruct v. Qed.

Lemma validate_key_nil s sc k def :
  sc !! k = Some def →
  validate_key s sc k = [] ↔
    match entries s !! k with
    | None => Required def = false
    | Some v => matchesType v (Type_ def) = true
    end.
Proof.
  intros Hk. unfold validate_key. rewrite Hk. simpl.
  destruct (entries s !! k) as [v|].
  - destruct (String.eqb_spec (Type_ def) FieldAny) as [->|Hne].
    + by rewrite matchesType_any.
    + by destruct (matchesType v (Type_ def)).
  - by destruct (Required def).
Qed.

Lemma validate_key_error s sc k e : e ∈ validate_key s sc k → error_key e = k.
Proof.
  unfold validate_key. destruct (entries s !! k) as [v|].
  - destruct (String.eqb _ _); [by intros ?%elem_of_nil|].
    destruct (matchesType _ _); [by intros ?%elem_of_nil|].
    by intros ->%list_elem_of_singleton.
  - destruct (Required _); [|by intros ?%elem_of_nil].
    by intros ->%list_elem_of_singleton.
Qed.

Lemma schema_keys_elem_of ord sc k :
  k ∈ sort_Strings (range ord sc).*1 ↔ is_Some (sc !! k).
Proof. by rewrite sort_Strings_elem_of, range_keys_elem_of. Qed.

Lemma Validate_nil_iff ord s sc :
  schema s = Some sc → Validate ord s = [] ↔ schema_fields_ok s sc.
Proof.
  intros Hsc. unfold Validate. rewrite Hsc.
  split.
  - intros Hnil k def Hk. apply (validate_key_nil s sc k def Hk).
    destruct (validate_key s sc k) as [|e l] eqn:He; [done|].
    assert (e ∈ flat_map (validate_key s sc) (sort_Strings (range ord sc).*1)) as Hin.
    { apply list_elem_of_In, in_flat_map. exists k. split.
      - apply list_elem_of_In, schema_keys_elem_of. eauto.
      - rewrite He. by left. }
    rewrite Hnil in Hin. by apply elem_of_nil in Hin.
  - intros Hok.
    destruct (flat_map _ _) as [|e l] eqn:He; [done|].
    assert (e ∈ flat_map (validate_key s sc) (sort_Strings (range ord sc).*1)) as Hin
      by (rewrite He; left).
    apply list_elem_of_In, in_flat_map in Hin as (k & Hk & Hek).
    apply list_elem_of_In, schema_keys_elem_of in Hk as [def Hdef].
    pose proof (proj2 (validate_key_nil s sc k def Hdef) (Hok k def Hdef)) as Hn.
    rewrite Hn in Hek. destruct Hek.
Qed.

Lemma Validate_error_key ord s sc e :
  schema s = Some sc → e ∈ Validate ord s → is_Some (sc !! error_key e).
Proof.
  intros Hsc. unfold Validate. rewrite Hsc. intros Hin.
  apply list_elem_of_In, in_flat_map in Hin as (k & Hk & Hek).
  apply list_elem_of_In, schema_keys_elem_of in Hk.
  apply list_elem_of_In, validate_key_error in Hek. by subst.
Qed.

Lemma flat_map_ext_elem {A B} (f g : A → list B) (l : list A) :
  (∀ x, x ∈ l → f x = g x) → flat_map f l = flat_map g l.
Proof.
  induction l as [|x l IH]; intros H; simpl; [done|].
  rewrite H by left. rewrite IH; [done|]. intros y Hy. apply H. by right.
Qed.

Lemma Validate_unknown_key ord s sc k v :
  schema s = Some sc → sc !! k = None → Validate ord (Set_ s k v) = Validate ord s.
Proof.
  intros Hsc Hk. unfold Validate. simpl. rewrite Hsc.
  apply flat_map_ext_elem. intros k' Hk'.
  apply schema_keys_elem_of in Hk' as [def Hdef].
  unfold validate_key. simpl. rewrite lookup_insert_ne; [done|]. congruence.
Qed.

(** A schema whose only field is optional and of type int, and a store that
    holds a string under that key. *)
Definition optional_int_schema : Schema :=
  {[ "opt" := {| Type_ := FieldInt; Required := false |} ]}.

Definition optional_int_store : Store :=
  {| entries := {[ "opt" := VString "x" ]}; schema := Some optional_int_schema |}.

(** C6, as stated, fails on [optional_int_store]: no field is required, so
    every required field is present with its type, yet [Validate] reports the
    type mismatch of the optional field. *)
Lemma Validate_required_only_counterexample :
  schema optional_int_store = Some optional_int_schema ∧
  required_fields_ok optional_int_store optional_int_schema ∧
  Validate order_id optional_int_store = [TypeMismatch "opt" FieldInt (VString "x")].
Proof.
  split_and!; [reflexivity| |by vm_compute].
  intros k def Hk Hreq. unfold optional_int_schema in Hk.
  apply lookup_singleton_Some in Hk as [_ <-]. discriminate.
Qed.

(** C6, amended. With a schema set, [Validate] returns no error exactly when
    every required field is present and every schema field that is present,
    required or not, has its declared type; every error it returns is about a
    schema key, and setting a key the schema does not mention leaves the
    result as it was. *)
Theorem Validate_schema_fields ord s sc :
  schema s = Some sc →
  (Validate ord s = [] ↔ schema_fields_ok s sc) ∧
  (∀ e, e ∈ Validate ord s → is_Some (sc !! error_key e)) ∧
  (∀ k v, sc !! k = None → Validate ord (Set_ s k v) = Validate ord s).
Proof.
  intros Hsc. split_and!.
  - by apply Validate_nil_iff.
  - intros e. by apply Validate_error_key.
  - intros k v. by apply Validate_unknown_key.
Qed.

Definition lang_schema : Schema :=
  {[ "lang" := {| Type_ := FieldString; Required := true |} ]}.

Definition lang_store : Store :=
  {| entries := {[ "lang" := VString "go" ]}; schema := Some lang_schema |}.

Lemma Validate_schema_fields_witness :
  schema lang_store = Some lang_schema ∧
  (Validate order_id lang_store = [] ↔ schema_fields_ok lang_store lang_schema) ∧
  (∀ v, Validate order_id (Set_ lang_store "extra" v) = Validate order_id lang_store).
Proof.
  destruct (Validate_schema_fields order_id lang_store lang_schema eq_refl) as (H1 & _ & H3).
  split_and!; [reflexivity | exact H1 | intros v; apply H3; reflexivity].
Defined.

End Validation.

(** ** task.go: the library's task state machine *)

Module TaskLib.

(** [TaskState] is an int type; the six constants are 0 to 5. *)
Definition TaskState := Z.
Definition Pending : TaskState := 0%Z.
Definition Ready : TaskState := 1%Z.
Definition Running : TaskState := 2%Z.
Definition Done : TaskState := 3%Z.
Definition Failed : TaskState := 4%Z.
Definition Skipped : TaskState := 5%Z.

Definition String_ (s : TaskState) : string :=
  if (s =? Pending)%Z then "Pending"
  else if (s =? Ready)%Z then "Ready"
  else if (s =? Running)%Z then "Running"
  else if (s =? Done)%Z then "Done"
  else if (s =? Failed)%Z then "Failed"
  else if (s =? Skipped)%Z then "Skipped"
  else "Unknown".

(** The map literal [validTransitions]; a state that is no key reads as nil. *)
Definition validTransitions (s : TaskState) : list TaskState :=
  if (s =? Pending)%Z then [Ready; Skipped]
  else if (s =? Ready)%Z then [Running; Skipped]
  else if (s =? Running)%Z then [Done; Failed]
  else [].

Record Task (T : Type) := mkTask { ID : string; Data : T; State : TaskState }.
Arguments mkTask {T}. Arguments ID {T}. Arguments Data {T}. Arguments State {T}.

(** A [TaskGraph] is its graph; every method holds the mutex for its whole body. *)
Definition TaskGraph (T : Type) := Graph (Task T) unit.

Inductive TaskError :=
  | TaskNotFound (id : string)
  | InvalidTransition (from to : TaskState) (id : string).

Section Ops.
Context {T : Type}.
Implicit Types tg : TaskGraph T.

Definition NewTaskGraph : TaskGraph T := NewGraph true.

Definition AddTask tg (id : string) (data : T) : TaskGraph T :=
  AddNode tg id (mkTask id data Pending).

Definition AddDependency tg (from to : string) : TaskGraph T * option GraphError :=
  AddEdge tg to from tt 0%float.

Definition allDepsDone (ord : MapOrder) tg (id : string) : bool :=
  forallb (λ e, match GetNode tg (Edge.From e) with
                | Some dep => (State (Node.Data dep) =? Done)%Z
                | None => false
                end)
          (InEdges ord tg id).

Definition readyLocked (ord : MapOrder) tg : TaskGraph T * list (Task T) :=
  foldl (λ '(tg, ready) n,
           let task := Node.Data n in
           let promote := (State task =? Pending)%Z && allDepsDone ord tg (ID task) in
           let task := if promote then mkTask (ID task) (Data task) Ready else task in
           let tg := if promote then AddNode tg (ID task) task else tg in
           if (State task =? Ready)%Z then (tg, (ready ++ [task])%list) else (tg, ready))
        (tg, []) (Nodes ord tg).

(** The loop of [transitionLocked] over the allowed states. *)
Fixpoint transition_scan tg (id : string) (task : Task T) (newState : TaskState)
    (allowed : list TaskState) : TaskGraph T * option TaskError :=
  match allowed with
  | [] => (tg, Some (InvalidTransition (State task) newState id))
  | s :: rest =>
      if (s =? newState)%Z
      then (AddNode tg id (mkTask (ID task) (Data task) newState), None)
      else transition_scan tg id task newState rest
  end.

Definition transitionLocked tg (id : string) (newState : TaskState)
  : TaskGraph T * option TaskError :=
  match GetNode tg id with
  | None => (tg, Some (TaskNotFound id))
  | Some n =>
      let task := Node.Data n in
      transition_scan tg id task newState (validTransitions (State task))
  end.

Definition Transition tg (id : string) (newState : TaskState) := transitionLocked tg id newState.

Definition GetTask tg (id : string) : option (Task T) := Node.Data <$> GetNode tg id.

Definition Reset (ord : MapOrder) tg : TaskGraph T :=
  foldl (λ tg n, let task := Node.Data n in
                 AddNode tg (ID task) (mkTask (ID task) (Data task) Pending))
        tg (Nodes ord tg).

End Ops.
End TaskLib.

(** ** api: the Manager and its Transition *)

Module api.

Record NodeData := mkNodeData { Label : string; Status : string }.
Record EdgeData := mkEdgeData { ELabel : string }.

Record TransitionRequest := { req_Graph : string; req_ID : string; req_Status : string }.

Record TransitionResult := mkResult {
  res_ID : string; OldStatus : string; NewStatus : string; NewlyReady : list string
}.

(** The Manager: its directory and the graphs it holds open.  Every method
    holds the mutex for its whole body. *)
Record Manager := mkManager {
  dir : string;
  graphs : gmap string (Graph NodeData EdgeData)
}.

Inductive ApiError :=
  | GraphNotOpen (name : string)
  | NodeNotFound (id : string)
  | InvalidTransition (old new : string).

(** [validTransitions] defines allowed status changes. *)
Definition validTransitions : gmap string (gmap string bool) :=
  list_to_map [
    ("", list_to_map [("pending", true); ("ready", true)]);
    ("pending", list_to_map [("ready", true); ("skipped", true)]);
    ("ready", list_to_map [("running", true); ("skipped", true)]);
    ("running", list_to_map [("done", true); ("failed", true)]);
    ("failed", list_to_map [("pending", true)])
  ].

Definition getGraph (m : Manager) (name : string)
  : Graph NodeData EdgeData + ApiError :=
  match graphs m !! name with
  | Some g => inl g
  | None => inr (GraphNotOpen name)
  end.

Definition status_of (g : Graph NodeData EdgeData) (id : string) : option string :=
  (λ n, Status (Node.Data n)) <$> GetNode g id.

(** The inner loop: are all incoming dependencies of [to] done? *)
Definition allDone (ord : MapOrder) (g : Graph NodeData EdgeData) (to : string) : bool :=
  forallb (λ inEdge, match GetNode g (Edge.From inEdge) with
                     | Some dep => String.eqb (Status (Node.Data dep)) "done"
                     | None => false
                     end)
          (InEdges ord g to).

(** One round of the loop over the out-edges of the node that became done. *)
Definition propagate_step (ord : MapOrder)
    (acc : Graph NodeData EdgeData * list string) (outEdge : Edge.t EdgeData)
  : Graph NodeData EdgeData * list string :=
  let '(g, newlyReady) := acc in
  match GetNode g (Edge.To outEdge) with
  | None => acc
  | Some downstream =>
      if negb (String.eqb (Status (Node.Data downstream)) "pending") then acc
      else if allDone ord g (Edge.To outEdge) then
        let dd := mkNodeData (Label (Node.Data downstream)) "ready" in
        (AddNode g (Edge.To outEdge) dd, (newlyReady ++ [Edge.To outEdge])%list)
      else acc
  end.

Definition Transition (ord : MapOrder) (m : Manager) (req : TransitionRequest)
  : Manager * (TransitionResult + ApiError) :=
  match getGraph m (req_Graph req) with
  | inr err => (m, inr err)
  | inl g =>
      match GetNode g (req_ID req) with
      | None => (m, inr (NodeNotFound (req_ID req)))
      | Some node =>
          let oldStatus := Status (Node.Data node) in
          let newStatus := req_Status req in
          match validTransitions !! oldStatus with
          | None => (m, inr (InvalidTransition oldStatus newStatus))
          | Some allowed =>
              if negb (default false (allowed !! newStatus))
              then (m, inr (InvalidTransition oldStatus newStatus))
              else
                (* Apply the transition. *)
                let nd := mkNodeData (Label (Node.Data node)) newStatus in
                let g := AddNode g (req_ID req) nd in
                (* Auto-ready propagation. *)
                let '(g, newlyReady) :=
                  if String.eqb newStatus "done"
                  then foldl (propagate_step ord) (g, []) (OutEdges ord g (req_ID req))
                  else (g, []) in
                (mkManager (dir m) (<[req_Graph req := g]> (graphs m)),
                 inl (mkResult (req_ID req) oldStatus newStatus newlyReady))
          end
      end
  end.

End api.

(** ** The transition table *)

(** The table of the specification, row by row. *)
Definition state_table : list (string * string) :=
  [ ("", "pending"); ("", "ready");
    ("pending", "ready"); ("pending", "skipped");
    ("ready", "running"); ("ready", "skipped");
    ("running", "done"); ("running", "failed");
    ("failed", "pending") ].

Definition in_state_table (old new : string) : bool :=
  existsb (λ row, String.eqb row.1 old && String.eqb row.2 new) state_table.

(** The rows the library accepts. *)
Definition library_table : list (TaskLib.TaskState * TaskLib.TaskState) :=
  [ (TaskLib.Pending, TaskLib.Ready); (TaskLib.Pending, TaskLib.Skipped);
    (TaskLib.Ready, TaskLib.Running); (TaskLib.Ready, TaskLib.Skipped);
    (TaskLib.Running, TaskLib.Done); (TaskLib.Running, TaskLib.Failed) ].

Definition in_library_table (old new : TaskLib.TaskState) : bool :=
  existsb (λ row, (row.1 =? old)%Z && (row.2 =? new)%Z) library_table.

(** The status name the specification uses for a library state. *)
Definition status_name (s : TaskLib.TaskState) : string :=
  if (s =? TaskLib.Pending)%Z then "pending"
  else if (s =? TaskLib.Ready)%Z then "ready"
  else if (s =? TaskLib.Running)%Z then "running"
  else if (s =? TaskLib.Done)%Z then "done"
  else if (s =? TaskLib.Failed)%Z then "failed"
  else if (s =? TaskLib.Skipped)%Z then "skipped"
  else "unknown".

Section TransitionTable.
Import api.

Definition api_allowed (old new : string) : bool :=
  match validTransitions !! old with
  | Some allowed => default false (allowed !! new)
  | None => false
  end.

Fixpoint assoc {A} (k : string) (l : list (string * A)) : option A :=
  match l with
  | [] => None
  | (k', v) :: l' => if String.eqb k' k then Some v else assoc k l'
  end.

Lemma lookup_list_to_map_assoc {A} (l : list (string * A)) k :
  (list_to_map l : gmap string A) !! k = assoc k l.
Proof.
  induction l as [|[k' v] l IH]; simpl; [apply lookup_empty|].
  destruct (String.eqb_spec k' k) as [->|Hne].
  - apply lookup_insert_eq.
  - by rewrite lookup_insert_ne.
Qed.

Ltac case_strings :=
  repeat match goal with
    | |- context [String.eqb ?a ?b] =>
        destruct (String.eqb_spec a b); subst; cbn [assoc existsb fst snd andb orb default]
    end.

Lemma api_allowed_table old new : api_allowed old new = in_state_table old new.
Proof.
  unfold api_allowed, validTransitions, in_state_table, state_table.
  rewrite lookup_list_to_map_assoc. cbn [assoc existsb fst snd].
  destruct (String.eqb_spec "" old) as [<-|H0].
  { rewrite lookup_list_to_map_assoc. case_strings; try done. }
  destruct (String.eqb_spec "pending" old) as [<-|H1].
  { rewrite lookup_list_to_map_assoc. case_strings; try done. }
  destruct (String.eqb_spec "ready" old) as [<-|H2].
  { rewrite lookup_list_to_map_assoc. case_strings; try done. }
  destruct (String.eqb_spec "running" old) as [<-|H3].
  { rewrite lookup_list_to_map_assoc. case_strings; try done. }
  destruct (String.eqb_spec "failed" old) as [<-|H4].
  { rewrite lookup_list_to_map_assoc. case_strings; try done. }
  done.
Qed.

End TransitionTable.

(** ** Readiness propagation *)

Section Propagation.
Import api.
Implicit Types g : Graph NodeData EdgeData.

(** The test of one round of the loop, on a fixed graph. *)
Definition promotable (ord : MapOrder) g (d : string) : bool :=
  match GetNode g d with
  | Some n => String.eqb (Status (Node.Data n)) "pending" && allDone ord g d
  | None => false
  end.

Definition mark_ready (nr : list string) (n : Node.t NodeData) : Node.t NodeData :=
  if bool_decide (Node.ID n ∈ nr)
  then Node.mk (Node.ID n) (mkNodeData (Label (Node.Data n)) "ready")
  else n.

(** [gk] is [g1] with the nodes of [nr], all pending in [g1], set to ready. *)
Record ready_marked g1 gk (nr : list string) : Prop := {
  rm_directed : Directed gk = Directed g1;
  rm_out : out gk = out g1;
  rm_in : in_ gk = in_ g1;
  rm_nodeMeta : nodeMeta gk = nodeMeta g1;
  rm_edgeMeta : edgeMeta gk = edgeMeta g1;
  rm_nodes : ∀ x, nodes gk !! x = mark_ready nr <$> nodes g1 !! x;
  rm_pending : ∀ x, x ∈ nr → status_of g1 x = Some "pending"
}.

Lemma ready_marked_refl g : ready_marked g g [].
Proof.
  split; try done.
  - intros x. destruct (nodes g !! x) as [n|]; [|done].
    cbn [fmap option_fmap option_map]. unfold mark_ready.
    case_bool_decide as Hin; [by apply elem_of_nil in Hin|done].
  - intros x Hx. by apply elem_of_nil in Hx.
Qed.

Lemma make_if_nil_present {A} (m : gmap string (gmap string A)) id :
  is_Some (m !! id) → make_if_nil m id = m.
Proof. intros [mi Hmi]. unfold make_if_nil. by rewrite Hmi. Qed.

Lemma ready_marked_wf g1 gk nr : wf g1 → ready_marked g1 gk nr → wf gk.
Proof.
  intros Hwf Hrm.
  assert (∀ x, is_Some (nodes gk !! x) ↔ is_Some (nodes g1 !! x)) as Hdom.
  { intros x. rewrite (rm_nodes _ _ _ Hrm). by rewrite fmap_is_Some. }
  split.
  - intros id n. rewrite (rm_nodes _ _ _ Hrm). intros Hn.
    apply fmap_Some in Hn as (n1 & Hn1 & ->).
    apply (wf_node_id g1 Hwf) in Hn1. unfold mark_ready. by case_bool_decide.
  - intros id. rewrite (rm_out _ _ _ Hrm), Hdom. apply Hwf.
  - intros id. rewrite (rm_in _ _ _ Hrm), Hdom. apply Hwf.
  - intros a b. rewrite (rm_out _ _ _ Hrm), (rm_in _ _ _ Hrm). apply Hwf.
  - intros a b e. rewrite (rm_out _ _ _ Hrm), Hdom. apply Hwf.
  - rewrite (rm_directed _ _ _ Hrm), (rm_out _ _ _ Hrm). apply Hwf.
Qed.

Lemma ready_marked_status g1 gk nr x :
  wf g1 → ready_marked g1 gk nr →
  status_of gk x =
    if bool_decide (x ∈ nr) then Some "ready" else status_of g1 x.
Proof.
  intros Hwf Hrm. unfold status_of, GetNode. rewrite (rm_nodes _ _ _ Hrm).
  destruct (nodes g1 !! x) as [n|] eqn:Hn; simpl.
  - pose proof (wf_node_id g1 Hwf x n Hn) as Hid. unfold mark_ready. rewrite Hid.
    by case_bool_decide.
  - case_bool_decide as Hx; [|done].
    apply (rm_pending _ _ _ Hrm) in Hx. unfold status_of, GetNode in Hx.
    by rewrite Hn in Hx.
Qed.

Lemma forallb_pointwise {A} (f f' : A → bool) l :
  (∀ x, f x = f' x) → forallb f l = forallb f' l.
Proof. intros H. induction l as [|x l IH]; simpl; [done|]. by rewrite H, IH. Qed.

Lemma dep_done_status g x :
  match GetNode g x with
  | Some dep => String.eqb (Status (Node.Data dep)) "done"
  | None => false
  end = bool_decide (status_of g x = Some "done").
Proof.
  unfold status_of. destruct (GetNode g x) as [n|]; simpl; [|done].
  destruct (String.eqb_spec (Status (Node.Data n)) "done") as [->|Hne].
  - by rewrite bool_decide_eq_true_2.
  - rewrite bool_decide_eq_false_2; [done|]. by intros [= ?].
Qed.

Lemma ready_marked_done g1 gk nr x :
  wf g1 → ready_marked g1 gk nr →
  status_of gk x = Some "done" ↔ status_of g1 x = Some "done".
Proof.
  intros Hwf Hrm. rewrite (ready_marked_status g1 gk nr x Hwf Hrm).
  case_bool_decide as Hin; [|done].
  apply (rm_pending _ _ _ Hrm) in Hin. rewrite Hin. split; intros [= ?].
Qed.

Lemma ready_marked_allDone ord g1 gk nr d :
  wf g1 → ready_marked g1 gk nr → allDone ord gk d = allDone ord g1 d.
Proof.
  intros Hwf Hrm. unfold allDone, InEdges. rewrite (rm_in _ _ _ Hrm).
  apply forallb_pointwise. intros e. rewrite !dep_done_status.
  apply bool_decide_ext. by apply (ready_marked_done g1 gk nr).
Qed.

(** One round of the loop, for an out-edge whose end was not yet promoted. *)
Lemma propagate_step_spec ord g1 gk nr e :
  wf g1 → ready_marked g1 gk nr → Edge.To e ∉ nr →
  ∃ gk', propagate_step ord (gk, nr) e =
           (gk', if promotable ord g1 (Edge.To e) then (nr ++ [Edge.To e])%list else nr) ∧
         ready_marked g1 gk'
           (if promotable ord g1 (Edge.To e) then (nr ++ [Edge.To e])%list else nr).
Proof.
  intros Hwf Hrm Hnin. set (d := Edge.To e).
  unfold propagate_step, promotable. fold d.
  pose proof (rm_nodes _ _ _ Hrm d) as Hd. unfold GetNode. rewrite Hd.
  destruct (nodes g1 !! d) as [n1|] eqn:Hn1; simpl; [|by exists gk].
  pose proof (wf_node_id g1 Hwf d n1 Hn1) as Hid.
  unfold mark_ready at 1 2. rewrite Hid, bool_decide_eq_false_2 by done.
  destruct (String.eqb_spec (Status (Node.Data n1)) "pending") as [Hp|Hp]; simpl;
    [|by exists gk].
  rewrite (ready_marked_allDone ord g1 gk nr d Hwf Hrm).
  destruct (allDone ord g1 d); [|by exists gk].
  eexists. split; [reflexivity|].
  assert (is_Some (nodes gk !! d)) as Hgk by (rewrite Hd; eauto).
  pose proof (ready_marked_wf g1 gk nr Hwf Hrm) as Hwfk.
  split; simpl.
  - apply Hrm.
  - rewrite make_if_nil_present; [apply Hrm|]. by apply (wf_node_out gk Hwfk).
  - rewrite make_if_nil_present; [apply Hrm|]. by apply (wf_node_in gk Hwfk).
  - apply Hrm.
  - apply Hrm.
  - intros x. destruct (decide (d = x)) as [<-|Hne].
    + rewrite lookup_insert_eq, Hn1. simpl. unfold mark_ready. rewrite Hid.
      rewrite bool_decide_eq_true_2; [done|]. apply elem_of_app. right. by left.
    + rewrite lookup_insert_ne by done. rewrite (rm_nodes _ _ _ Hrm).
      destruct (nodes g1 !! x) as [n|] eqn:Hn; simpl; [|done].
      pose proof (wf_node_id g1 Hwf x n Hn) as Hidx. unfold mark_ready. rewrite Hidx.
      f_equal. apply (f_equal (λ b : bool, if b then _ else _)).
      apply bool_decide_ext. rewrite elem_of_app, list_elem_of_singleton. naive_solver.
  - intros x Hx. apply elem_of_app in Hx as [Hx|Hx].
    + by apply (rm_pending _ _ _ Hrm).
    + apply list_elem_of_singleton in Hx as ->. unfold status_of, GetNode.
      rewrite Hn1. simpl. by rewrite Hp.
Qed.

Lemma propagate_fold_spec ord g1 l : ∀ gk nr,
  wf g1 → ready_marked g1 gk nr → NoDup (Edge.To <$> l) →
  (∀ e, e ∈ l → Edge.To e ∉ nr) →
  ∃ g', foldl (propagate_step ord) (gk, nr) l =
          (g', (nr ++ filter (λ d, Is_true (promotable ord g1 d)) (Edge.To <$> l))%list) ∧
        ready_marked g1 g'
          (nr ++ filter (λ d, Is_true (promotable ord g1 d)) (Edge.To <$> l))%list.
Proof.
  induction l as [|e l IH]; intros gk nr Hwf Hrm Hnd Hnin; cbn [foldl].
  - exists gk. rewrite fmap_nil, filter_nil. by rewrite app_nil_r.
  - rewrite fmap_cons in Hnd. apply NoDup_cons in Hnd as [Hne Hnd].
    destruct (propagate_step_spec ord g1 gk nr e Hwf Hrm) as (gk' & -> & Hrm').
    { apply Hnin. by left. }
    destruct (IH gk' _ Hwf Hrm' Hnd) as (g' & -> & Hrm'').
    { intros e' He'. destruct (promotable ord g1 (Edge.To e)).
      - rewrite elem_of_app, list_elem_of_singleton. intros [H|H].
        + by apply (Hnin e'); [right|].
        + apply Hne. rewrite <- H. by apply list_elem_of_fmap_2.
      - apply Hnin. by right. }
    exists g'. rewrite fmap_cons, filter_cons.
    destruct (promotable ord g1 (Edge.To e)) eqn:Hp.
    + rewrite decide_True by done. rewrite <- app_assoc in *. by split.
    + rewrite decide_False by (simpl; tauto). by split.
Qed.

End Propagation.

Section TransitionFacts.
Import api.
Implicit Types g : Graph NodeData EdgeData.

Lemma range_keys_NoDup {A} (ord : MapOrder) (mi : gmap string A) : NoDup (range ord mi).*1.
Proof.
  unfold range. rewrite (range_order_perm ord A (map_to_list mi)).
  apply NoDup_fst_map_to_list.
Qed.

Lemma OutEdges_To {N E} ord (g : Graph N E) a :
  wf g → Edge.To <$> OutEdges ord g a = (range ord (inner (out g) a)).*1.
Proof.
  intros Hwf. unfold OutEdges. rewrite <- list_fmap_compose.
  apply Forall_fmap_ext, Forall_forall. intros [k e] Hin. simpl.
  apply range_elem_of in Hin. by destruct (wf_edge_ends g Hwf a k e Hin) as (_ & ? & _).
Qed.

Lemma HasEdge_true {N E} (g : Graph N E) a b :
  HasEdge g a b = true ↔ is_Some (inner (out g) a !! b).
Proof. rewrite HasEdge_inner. apply bool_decide_eq_true. Qed.

Lemma allDone_spec ord g d :
  wf g →
  allDone ord g d = true ↔ ∀ x, HasEdge g x d = true → status_of g x = Some "done".
Proof.
  intros Hwf. unfold allDone. rewrite forallb_forall. split.
  - intros H x Hx. apply HasEdge_true in Hx as [e He].
    destruct (wf_edge_ends g Hwf x d e He) as (Hf & _ & _).
    rewrite (wf_out_in g Hwf) in He.
    specialize (H e). rewrite dep_done_status, Hf in H.
    apply (bool_decide_eq_true_1 _), H, list_elem_of_In, range_values_elem_of. eauto.
  - intros H e Hin. apply list_elem_of_In, range_values_elem_of in Hin as [x Hx].
    rewrite <- (wf_out_in g Hwf) in Hx.
    destruct (wf_edge_ends g Hwf x d e Hx) as (Hf & _ & _).
    rewrite dep_done_status, Hf. apply bool_decide_eq_true_2, H, HasEdge_true. eauto.
Qed.

(** A node that is not pending keeps its record through the propagation loop. *)
Lemma propagate_fold_keeps ord l : ∀ g nr id n,
  GetNode g id = Some n → Status (Node.Data n) ≠ "pending" →
  GetNode (foldl (propagate_step ord) (g, nr) l).1 id = Some n.
Proof.
  induction l as [|e l IH]; intros g nr id n Hn Hst; cbn [foldl]; [done|].
  destruct (propagate_step ord (g, nr) e) as [g2 nr2] eqn:Hstep.
  apply IH; [|done]. unfold propagate_step in Hstep.
  destruct (GetNode g (Edge.To e)) as [dn|] eqn:Hdn; [|by simplify_eq].
  destruct (String.eqb_spec (Status (Node.Data dn)) "pending") as [Hp|Hp];
    simpl in Hstep; [|by simplify_eq].
  destruct (allDone ord g (Edge.To e)); [|by simplify_eq].
  simplify_eq. unfold GetNode, AddNode; simpl.
  rewrite lookup_insert_ne; [done|]. intros Heq. rewrite Heq in Hdn. congruence.
Qed.

(** What a successful [Transition] did. *)
Lemma Transition_ok_inv ord m req m' res :
  Transition ord m req = (m', inl res) →
  ∃ g node, graphs m !! req_Graph req = Some g ∧
    GetNode g (req_ID req) = Some node ∧
    api_allowed (Status (Node.Data node)) (req_Status req) = true ∧
    let g1 := AddNode g (req_ID req) (mkNodeData (Label (Node.Data node)) (req_Status req)) in
    let r := if String.eqb (req_Status req) "done"
             then foldl (propagate_step ord) (g1, []) (OutEdges ord g1 (req_ID req))
             else (g1, []) in
    m' = mkManager (dir m) (<[req_Graph req := r.1]> (graphs m)) ∧
    res = mkResult (req_ID req) (Status (Node.Data node)) (req_Status req) r.2.
Proof.
  unfold Transition, getGraph, api_allowed.
  destruct (graphs m !! req_Graph req) as [g|] eqn:Hg; [|by intros [= ? ?]].
  destruct (GetNode g (req_ID req)) as [node|] eqn:Hn; [|by intros [= ? ?]].
  destruct (validTransitions !! Status (Node.Data node)) as [allowed|] eqn:Hv;
    [|by intros [= ? ?]].
  destruct (default false (allowed !! req_Status req)) eqn:Ha; simpl; [|by intros [= ? ?]].
  intros H. exists g, node. rewrite Hv. split_and!; try done; cbv zeta; revert H;
    destruct (if (req_Status req =? "done")%string then _ else _) as [g' nr];
    simpl; by intros [= <- <-].
Qed.

Lemma Transition_allowed ord m req g node :
  graphs m !! req_Graph req = Some g →
  GetNode g (req_ID req) = Some node →
  in_state_table (Status (Node.Data node)) (req_Status req) = true →
  ∃ m' res g', Transition ord m req = (m', inl res) ∧
    OldStatus res = Status (Node.Data node) ∧ NewStatus res = req_Status req ∧
    graphs m' !! req_Graph req = Some g' ∧
    status_of g' (req_ID req) = Some (req_Status req).
Proof.
  intros Hg Hn Ht. rewrite <- api_allowed_table in Ht.
  unfold Transition, getGraph. rewrite Hg, Hn.
  unfold api_allowed in Ht.
  destruct (validTransitions !! Status (Node.Data node)) as [allowed|]; [|done].
  rewrite Ht. simpl.
  set (g1 := AddNode g (req_ID req) _).
  assert (GetNode g1 (req_ID req) =
            Some (Node.mk (req_ID req) (mkNodeData (Label (Node.Data node)) (req_Status req))))
    as Hg1 by apply lookup_insert_eq.
  destruct (String.eqb_spec (req_Status req) "done") as [Hd|Hd].
  - destruct (foldl _ _ _) as [g' nr] eqn:Hfold.
    eexists _, _, g'. split_and!; [reflexivity|done|done|apply lookup_insert_eq|].
    pose proof (propagate_fold_keeps ord (OutEdges ord g1 (req_ID req)) g1 [] _ _ Hg1) as Hk.
    rewrite Hfold in Hk. simpl in Hk. unfold status_of. rewrite Hk; [done|].
    simpl. by rewrite Hd.
  - eexists _, _, g1. split_and!; [reflexivity|done|done|apply lookup_insert_eq|].
    unfold status_of. by rewrite Hg1.
Qed.

Lemma Transition_rejected ord m req g node :
  graphs m !! req_Graph req = Some g →
  GetNode g (req_ID req) = Some node →
  in_state_table (Status (Node.Data node)) (req_Status req) = false →
  Transition ord m req =
    (m, inr (InvalidTransition (Status (Node.Data node)) (req_Status req))).
Proof.
  intros Hg Hn Ht. rewrite <- api_allowed_table in Ht.
  unfold Transition, getGraph. rewrite Hg, Hn.
  unfold api_allowed in Ht.
  destruct (validTransitions !! Status (Node.Data node)) as [allowed|]; [|done].
  by rewrite Ht.
Qed.

End TransitionFacts.

Section LibraryTable.
Import TaskLib.
Context {T : Type}.
Implicit Types tg : TaskGraph T.

Lemma transition_scan_spec tg id (task : Task T) newState allowed :
  transition_scan tg id task newState allowed =
    if existsb (λ s, (s =? newState)%Z) allowed
    then (AddNode tg id (mkTask (ID task) (Data task) newState), None)
    else (tg, Some (InvalidTransition (State task) newState id)).
Proof.
  induction allowed as [|s rest IH]; simpl; [done|].
  by destruct (s =? newState)%Z.
Qed.

Lemma library_allowed cur newState :
  existsb (λ s, (s =? newState)%Z) (validTransitions cur) = in_library_table cur newState.
Proof.
  unfold validTransitions, in_library_table, library_table, Pending, Ready, Running,
    Done, Failed, Skipped. cbn [existsb fst snd].
  repeat match goal with
    | |- context [(?a =? ?b)%Z] =>
        destruct (Z.eqb_spec a b); subst; cbn [existsb andb orb]; try lia
    end; done.
Qed.

Lemma library_Transition_spec tg id n newState :
  GetNode tg id = Some n →
  let task := Node.Data n in
  if in_library_table (State task) newState
  then Transition tg id newState =
         (AddNode tg id (mkTask (ID task) (Data task) newState), None) ∧
       State <$> GetTask (Transition tg id newState).1 id = Some newState
  else Transition tg id newState =
         (tg, Some (InvalidTransition (State task) newState id)).
Proof.
  intros Hn task. unfold Transition, transitionLocked. rewrite Hn.
  rewrite transition_scan_spec, library_allowed. fold task.
  destruct (in_library_table (State task) newState); [|done].
  split; [done|]. unfold GetTask, GetNode, AddNode; simpl. by rewrite lookup_insert_eq.
Qed.

End LibraryTable.

Section TransitionDone.
Import api.
Implicit Types g : Graph NodeData EdgeData.

(** [d] is a node the transition of [id] into done must promote: there is an
    edge id -> d, [d] was pending before, and every dependency of [d] is done
    in the graph [g'] the transition leaves. *)
Definition promoted g g' (id d : string) : Prop :=
  HasEdge g id d = true ∧ status_of g d = Some "pending" ∧
  ∀ x, HasEdge g x d = true → status_of g' x = Some "done".

Lemma allowed_into_done old : api_allowed old "done" = true → old = "running".
Proof.
  rewrite api_allowed_table. unfold in_state_table, state_table. cbn [existsb fst snd].
  repeat match goal with
    | |- context [String.eqb ?a ?b] =>
        destruct (String.eqb_spec a b); subst; cbn [andb orb]; try done
    end.
Qed.

Lemma promotable_spec ord g d :
  wf g →
  promotable ord g d = true ↔
    status_of g d = Some "pending" ∧
    ∀ x, HasEdge g x d = true → status_of g x = Some "done".
Proof.
  intros Hwf. unfold promotable. rewrite <- (allDone_spec ord g d Hwf).
  unfold status_of. destruct (GetNode g d) as [n|]; simpl.
  - rewrite andb_true_iff.
    destruct (String.eqb_spec (Status (Node.Data n)) "pending") as [->|Hne];
      [naive_solver|].
    split; [by intros [? _]|]. intros [[= ?] _]. done.
  - split; [done|]. by intros [? _].
Qed.

Lemma Transition_done_spec ord m name id m' res g :
  graphs m !! name = Some g → wf g →
  Transition ord m {| req_Graph := name; req_ID := id; req_Status := "done" |}
    = (m', inl res) →
  ∃ g', graphs m' !! name = Some g' ∧ wf g' ∧
    status_of g' id = Some "done" ∧
    (∀ d, promoted g g' id d → status_of g' d = Some "ready" ∧ d ∈ NewlyReady res) ∧
    (∀ d, d ∈ NewlyReady res → promoted g g' id d) ∧
    NoDup (NewlyReady res) ∧
    (∀ d, d ≠ id → d ∉ NewlyReady res → GetNode g' d = GetNode g d) ∧
    (∀ a b, GetEdge g' a b = GetEdge g a b) ∧
    (∀ a b, HasEdge g' a b = HasEdge g a b).
Proof.
  intros Hg Hwf Htr.
  apply Transition_ok_inv in Htr as (g0 & node & Hg0 & Hnode & Hallowed & Hres).
  simpl in Hg0, Hnode, Hallowed, Hres. rewrite Hg in Hg0. injection Hg0 as <-.
  apply allowed_into_done in Hallowed.
  set (g1 := AddNode g id (mkNodeData (Label (Node.Data node)) "done")) in *.
  assert (wf g1) as Hwf1 by by apply wf_AddNode.
  assert (status_of g1 id = Some "done") as Hst1
    by (unfold status_of, GetNode, g1, AddNode; simpl; by rewrite lookup_insert_eq).
  assert (∀ d, d ≠ id → GetNode g1 d = GetNode g d) as Hframe1
    by (intros d Hd; unfold GetNode, g1, AddNode; simpl; by rewrite lookup_insert_ne).
  assert (∀ a b, inner (out g1) a !! b = inner (out g) a !! b) as Hout1
    by (intros a b; unfold g1, AddNode; simpl; by rewrite inner_make_if_nil).
  assert (status_of g id = Some "running") as Hold
    by (unfold status_of; rewrite Hnode; simpl; by rewrite Hallowed).
  destruct (propagate_fold_spec ord g1 (OutEdges ord g1 id) g1 [] Hwf1
              (ready_marked_refl g1)) as (g' & Hfold & Hrm).
  { rewrite OutEdges_To by done. apply range_keys_NoDup. }
  { intros e _. apply not_elem_of_nil. }
  rewrite Hfold in Hres. simpl in Hres. destruct Hres as [-> ->]. simpl.
  set (NR := filter (λ d, Is_true (promotable ord g1 d)) (Edge.To <$> OutEdges ord g1 id))
    in *.
  assert (∀ x, status_of g' x = Some "done" ↔ status_of g1 x = Some "done") as Hdone
    by (intros x; by apply (ready_marked_done g1 g' NR)).
  assert (∀ a b, HasEdge g' a b = HasEdge g a b) as Hedges.
  { intros a b. rewrite !HasEdge_inner, (rm_out _ _ _ Hrm). by rewrite Hout1. }
  assert (∀ d, d ∈ NR ↔ promoted g g' id d) as HNR.
  { intros d. unfold NR. rewrite list_elem_of_filter, OutEdges_To by done.
    rewrite range_keys_elem_of, Hout1, <- HasEdge_true.
    rewrite Is_true_true, (promotable_spec ord g1 d Hwf1). unfold promoted.
    assert (status_of g1 d = Some "pending" ↔ status_of g d = Some "pending") as ->.
    { destruct (decide (d = id)) as [->|Hne].
      - rewrite Hst1, Hold. split; intros [= ?].
      - unfold status_of. by rewrite Hframe1. }
    assert ((∀ x, HasEdge g1 x d = true → status_of g1 x = Some "done") ↔
            (∀ x, HasEdge g x d = true → status_of g' x = Some "done")) as ->; [|tauto].
    split; intros H x Hx.
    - apply Hdone, H. by rewrite !HasEdge_inner, Hout1 in *.
    - apply Hdone, H. by rewrite !HasEdge_inner, Hout1 in *. }
  exists g'. split_and!.
  - apply lookup_insert_eq.
  - by apply (ready_marked_wf g1 g' NR).
  - by apply Hdone.
  - intros d Hp. apply HNR in Hp. split; [|done].
    rewrite (ready_marked_status g1 g' NR d Hwf1 Hrm). by rewrite bool_decide_eq_true_2.
  - intros d. apply HNR.
  - unfold NR. apply NoDup_filter. rewrite OutEdges_To by done. apply range_keys_NoDup.
  - intros d Hne Hnin. rewrite <- (Hframe1 d Hne). unfold GetNode.
    rewrite (rm_nodes _ _ _ Hrm). destruct (nodes g1 !! d) as [n|] eqn:Hn; [|done].
    simpl. unfold mark_ready. rewrite (wf_node_id g1 Hwf1 d n Hn).
    by rewrite bool_decide_eq_false_2.
  - intros a b. rewrite !GetEdge_inner, (rm_out _ _ _ Hrm). by rewrite Hout1.
  - done.
Qed.

End TransitionDone.

(** ** The scenario: c depends on a and on b, both running *)

Section Scenario.
Import api.

Definition scenario_graph : Graph NodeData EdgeData :=
  let g := AddNode (NewGraph true) "a" (mkNodeData "" "running") in
  let g := AddNode g "b" (mkNodeData "" "running") in
  let g := AddNode g "c" (mkNodeData "" "pending") in
  let g := (AddEdge g "a" "c" (mkEdgeData "") 0%float).1 in
  (AddEdge g "b" "c" (mkEdgeData "") 0%float).1.

Definition scenario_manager : Manager :=
  mkManager "graphs" {[ "t" := scenario_graph ]}.

Definition done_request (id : string) : TransitionRequest :=
  {| req_Graph := "t"; req_ID := id; req_Status := "done" |}.

Lemma scenario_graph_wf : wf scenario_graph.
Proof. repeat first [apply wf_AddEdge | apply wf_AddNode | apply wf_NewGraph]. Qed.

Lemma scenario_edges x y :
  HasEdge scenario_graph x y = true ↔ (x = "a" ∨ x = "b") ∧ y = "c".
Proof.
  rewrite HasEdge_true.
  assert (out scenario_graph =
            <["a" := {[ "c" := Edge.mk "a" "c" (mkEdgeData "") 0%float ]}]>
              (<["b" := {[ "c" := Edge.mk "b" "c" (mkEdgeData "") 0%float ]}]>
                 (<["c" := ∅]> ∅))) as -> by (vm_compute; reflexivity).
  unfold inner. split.
  - intros [e He]. revert He.
    destruct (decide (x = "a")) as [->|Ha].
    { rewrite lookup_insert_eq. simpl. intros He.
      apply lookup_singleton_Some in He as [<- _]. auto. }
    rewrite lookup_insert_ne by done.
    destruct (decide (x = "b")) as [->|Hb].
    { rewrite lookup_insert_eq. simpl. intros He.
      apply lookup_singleton_Some in He as [<- _]. auto. }
    rewrite lookup_insert_ne by done.
    destruct (decide (x = "c")) as [->|Hc].
    { rewrite lookup_insert_eq. simpl. by rewrite lookup_empty. }
    rewrite lookup_insert_ne by done. rewrite lookup_empty. simpl. by rewrite lookup_empty.
  - intros [[-> | ->] ->]; vm_compute; eauto.
Qed.

Lemma list_only_elem (l : list string) (c : string) :
  NoDup l → c ∈ l → (∀ d, d ∈ l → d = c) → l = [c].
Proof.
  intros Hnd Hc Hall. destruct l as [|x l]; [by apply elem_of_nil in Hc|].
  assert (x = c) as -> by (apply Hall; left).
  apply NoDup_cons in Hnd as [Hx _]. f_equal.
  destruct l as [|y l]; [done|]. assert (y = c) as -> by (apply Hall; right; left).
  exfalso. apply Hx. left.
Qed.

Lemma list_no_elem (l : list string) : (∀ d, d ∉ l) → l = [].
Proof. destruct l as [|x l]; [done|]. intros H. exfalso. apply (H x). left. Qed.

(** Finishing a promotes nothing, as b is still running; finishing b then
    promotes c, under every iteration order. *)
Lemma scenario_newly_ready ord :
  ∃ m1 res1 m2 res2,
    Transition ord scenario_manager (done_request "a") = (m1, inl res1) ∧
    NewlyReady res1 = [] ∧
    Transition ord m1 (done_request "b") = (m2, inl res2) ∧
    NewlyReady res2 = ["c"].
Proof.
  assert (graphs scenario_manager !! "t" = Some scenario_graph) as Hg0 by reflexivity.
  assert (status_of scenario_graph "a" = Some "running") as Ha0 by reflexivity.
  assert (status_of scenario_graph "b" = Some "running") as Hb0 by reflexivity.
  assert (status_of scenario_graph "c" = Some "pending") as Hc0 by reflexivity.
  (* a -> done *)
  destruct (Transition_allowed ord scenario_manager (done_request "a") scenario_graph
              (Node.mk "a" (mkNodeData "" "running")) Hg0 eq_refl eq_refl)
    as (m1 & res1 & g1' & Htr1 & _ & _ & Hg1' & _).
  destruct (Transition_done_spec ord scenario_manager "t" "a" m1 res1 scenario_graph
              Hg0 scenario_graph_wf Htr1)
    as (g1 & Hg1 & Hwf1 & Hsa1 & _ & Hnr1 & _ & Hfr1 & _ & He1).
  assert (status_of g1 "b" = Some "running") as Hb1.
  { unfold status_of. rewrite Hfr1; [done..|].
    intros Hin. apply Hnr1 in Hin as (_ & Hp & _). rewrite Hb0 in Hp. discriminate. }
  assert (NewlyReady res1 = []) as Hres1.
  { apply list_no_elem. intros d Hin. apply Hnr1 in Hin as (Hed & _ & Hdeps).
    apply scenario_edges in Hed as [_ ->].
    specialize (Hdeps "b"). rewrite Hb1 in Hdeps.
    assert (Some "running" = Some "done") as [=]; apply Hdeps.
    apply scenario_edges. auto. }
  assert (status_of g1 "c" = Some "pending") as Hc1.
  { unfold status_of. rewrite Hfr1; [done..|]. rewrite Hres1. apply not_elem_of_nil. }
  (* b -> done *)
  assert (∃ nb, GetNode g1 "b" = Some nb ∧ Status (Node.Data nb) = "running")
    as (nb & Hnb & Hsb).
  { unfold status_of in Hb1. destruct (GetNode g1 "b") as [nb|]; [|done].
    exists nb. split; [done|]. simpl in Hb1. congruence. }
  destruct (Transition_allowed ord m1 (done_request "b") g1 nb Hg1 Hnb)
    as (m2 & res2 & g2' & Htr2 & _).
  { simpl. by rewrite Hsb. }
  destruct (Transition_done_spec ord m1 "t" "b" m2 res2 g1 Hg1 Hwf1 Htr2)
    as (g2 & Hg2 & Hwf2 & Hsb2 & Hpr2 & Hnr2 & Hnd2 & Hfr2 & _).
  exists m1, res1, m2, res2. split_and!; [done..|].
  apply list_only_elem; [done| |].
  - apply Hpr2. split_and!.
    + rewrite He1. apply scenario_edges. auto.
    + done.
    + intros x Hx. rewrite He1 in Hx. apply scenario_edges in Hx as [[-> | ->] _]; [|done].
      unfold status_of. rewrite Hfr2; [done..|].
      intros Hin. apply Hnr2 in Hin as (_ & Hp & _). rewrite Hsa1 in Hp. discriminate.
  - intros d Hin. apply Hnr2 in Hin as (Hed & _). rewrite He1 in Hed.
    by apply scenario_edges in Hed as [_ ->].
Qed.

End Scenario.

(** ** The state machine and the propagation, as stated *)

(** A library task graph whose task t went pending, ready, running, failed. *)
Definition failed_task_graph : TaskLib.TaskGraph unit :=
  let tg := TaskLib.AddTask TaskLib.NewTaskGraph "t" tt in
  let tg := (TaskLib.Transition tg "t" TaskLib.Ready).1 in
  let tg := (TaskLib.Transition tg "t" TaskLib.Running).1 in
  (TaskLib.Transition tg "t" TaskLib.Failed).1.

(** C1, as stated, fails for the library: failed -> pending is a row of the
    table, and [TaskGraph.Transition] rejects it. *)
Lemma library_rejects_retry :
  TaskLib.State <$> TaskLib.GetTask failed_task_graph "t" = Some TaskLib.Failed ∧
  in_state_table (status_name TaskLib.Failed) (status_name TaskLib.Pending) = true ∧
  TaskLib.Transition failed_task_graph "t" TaskLib.Pending =
    (failed_task_graph,
     Some (TaskLib.InvalidTransition TaskLib.Failed TaskLib.Pending "t")).
Proof. split_and!; vm_compute; reflexivity. Qed.

(** C1, amended. The Manager's [Transition], for an open graph and a node in
    it, succeeds exactly on the nine rows of the table, and then writes the
    new status; on any other pair it returns the invalid-transition error and
    leaves the Manager as it was.  The library's [TaskGraph.Transition], for a
    task in the graph, succeeds exactly on pending -> ready, pending ->
    skipped, ready -> running, ready -> skipped, running -> done and running
    -> failed, and then writes the new state; on any other pair it returns
    the error and leaves the graph as it was. *)
Theorem Transition_state_tables :
  (∀ ord m req g node,
     api.graphs m !! api.req_Graph req = Some g →
     GetNode g (api.req_ID req) = Some node →
     let old := api.Status (Node.Data node) in
     let new := api.req_Status req in
     if in_state_table old new
     then ∃ m' res g', api.Transition ord m req = (m', inl res) ∧
            api.OldStatus res = old ∧ api.NewStatus res = new ∧
            api.graphs m' !! api.req_Graph req = Some g' ∧
            api.status_of g' (api.req_ID req) = Some new
     else api.Transition ord m req = (m, inr (api.InvalidTransition old new))) ∧
  (∀ (T : Type) (tg : TaskLib.TaskGraph T) id n newState,
     GetNode tg id = Some n →
     let task := Node.Data n in
     if in_library_table (TaskLib.State task) newState
     then TaskLib.Transition tg id newState =
            (AddNode tg id (TaskLib.mkTask (TaskLib.ID task) (TaskLib.Data task) newState),
             None) ∧
          TaskLib.State <$> TaskLib.GetTask (TaskLib.Transition tg id newState).1 id
            = Some newState
     else TaskLib.Transition tg id newState =
            (tg, Some (TaskLib.InvalidTransition (TaskLib.State task) newState id))).
Proof.
  split.
  - intros ord m req g node Hg Hn old new.
    destruct (in_state_table old new) eqn:Ht.
    + by apply (Transition_allowed ord m req g node).
    + by apply (Transition_rejected ord m req g node).
  - intros T tg id n newState Hn. by apply library_Transition_spec.
Qed.

Lemma Transition_state_tables_witness :
  api.graphs scenario_manager !! "t" = Some scenario_graph ∧
  GetNode scenario_graph "c" = Some (Node.mk "c" (api.mkNodeData "" "pending")) ∧
  api.Transition order_id scenario_manager
    {| api.req_Graph := "t"; api.req_ID := "c"; api.req_Status := "done" |}
    = (scenario_manager, inr (api.InvalidTransition "pending" "done")) ∧
  GetNode failed_task_graph "t" = Some (Node.mk "t" (TaskLib.mkTask "t" tt TaskLib.Failed)) ∧
  TaskLib.Transition failed_task_graph "t" TaskLib.Pending =
    (failed_task_graph,
     Some (TaskLib.InvalidTransition TaskLib.Failed TaskLib.Pending "t")).
Proof.
  destruct Transition_state_tables as [Hm Hl].
  split_and!.
  - reflexivity.
  - reflexivity.
  - exact (Hm order_id scenario_manager
             {| api.req_Graph := "t"; api.req_ID := "c"; api.req_Status := "done" |}
             scenario_graph (Node.mk "c" (api.mkNodeData "" "pending")) eq_refl eq_refl).
  - reflexivity.
  - exact (Hl unit failed_task_graph "t"
             (Node.mk "t" (TaskLib.mkTask "t" tt TaskLib.Failed)) TaskLib.Pending eq_refl).
Defined.

(** C2. After a successful [Transition] of [id] into done, in an open graph
    that satisfies the graph invariant: [id] is done; every node with an edge
    from [id] that was pending and whose dependencies are all done now is
    ready and listed in [newly_ready]; [newly_ready] lists only such nodes,
    each once; every other node has the record it had, and the edges are as
    they were.  In the scenario (c depends on a and b, both running), under
    every iteration order, finishing a gives an empty [newly_ready] and
    finishing b then gives [c]. *)
Theorem Transition_done_readiness :
  (∀ ord m name id m' res g,
     api.graphs m !! name = Some g → wf g →
     api.Transition ord m
       {| api.req_Graph := name; api.req_ID := id; api.req_Status := "done" |}
       = (m', inl res) →
     ∃ g', api.graphs m' !! name = Some g' ∧ wf g' ∧
       api.status_of g' id = Some "done" ∧
       (∀ d, promoted g g' id d →
             api.status_of g' d = Some "ready" ∧ d ∈ api.NewlyReady res) ∧
       (∀ d, d ∈ api.NewlyReady res → promoted g g' id d) ∧
       NoDup (api.NewlyReady res) ∧
       (∀ d, d ≠ id → d ∉ api.NewlyReady res → GetNode g' d = GetNode g d) ∧
       (∀ a b, GetEdge g' a b = GetEdge g a b) ∧
       (∀ a b, HasEdge g' a b = HasEdge g a b)) ∧
  (∀ ord, ∃ m1 res1 m2 res2,
     api.Transition ord scenario_manager (done_request "a") = (m1, inl res1) ∧
     api.NewlyReady res1 = [] ∧
     api.Transition ord m1 (done_request "b") = (m2, inl res2) ∧
     api.NewlyReady res2 = ["c"]).
Proof.
  split.
  - intros ord m name id m' res g. apply Transition_done_spec.
  - apply scenario_newly_ready.
Qed.

(** The manager after finishing a in the scenario, and the result. *)
Definition scenario_after_a :=
  api.Transition order_id scenario_manager (done_request "a").

Lemma Transition_done_readiness_witness :
  api.graphs scenario_manager !! "t" = Some scenario_graph ∧ wf scenario_graph ∧
  (∃ res, scenario_after_a = (scenario_after_a.1, inl res) ∧ api.NewlyReady res = []) ∧
  (∃ g', api.graphs scenario_after_a.1 !! "t" = Some g' ∧
         api.status_of g' "a" = Some "done" ∧
         GetNode g' "c" = GetNode scenario_graph "c").
Proof.
  assert (∃ res, scenario_after_a = (scenario_after_a.1, inl res) ∧ api.NewlyReady res = [])
    as (res & Hres & Hnr) by (eexists; split; vm_compute; reflexivity).
  destruct Transition_done_readiness as [Hgen _].
  destruct (Hgen order_id scenario_manager "t" "a" scenario_after_a.1 res scenario_graph
              eq_refl scenario_graph_wf Hres)
    as (g' & Hg' & _ & Hdone & _ & _ & _ & Hframe & _).
  split_and!; [reflexivity | exact scenario_graph_wf | by exists res |].
  exists g'. split_and!; [done..|].
  apply Hframe; [discriminate|]. rewrite Hnr. apply not_elem_of_nil.
Defined.

(** ** api/filter.go *)

Module Filter.

Record MetaFilter := mkFilter { Key : string; Op : string; Value : value }.

(** [strings.Contains]. *)
Definition Contains (s substr : string) : bool :=
  match String.index 0 substr s with
  | Some _ => true
  | None => false
  end.

Section WithFormatting.
(** [fmt.Sprintf("%v", v)] and the conversion [float64(n)] of an integer are
    Go's; the filter only compares their results. *)
Variable Sprint : value → string.
Variable float64_of_int : Z → float.

Definition toFloat64 (v : value) : float * bool :=
  match v with
  | VFloat64 n => (n, true)
  | VFloat32 n => (n, true)
  | VInt KInt n => (float64_of_int n, true)
  | VInt KInt64 n => (float64_of_int n, true)
  | VInt KInt32 n => (float64_of_int n, true)
  | VNumber (Some f) => (f, true)
  | VNumber None => (0%float, false)
  | _ => (0%float, false)
  end.

(** [compareFloat] returns -2 if comparison is impossible, otherwise -1, 0, 1. *)
Definition compareFloat (a b : value) (found : bool) : Z :=
  if negb found then (-2)%Z
  else
    let '(af, ok1) := toFloat64 a in
    let '(bf, ok2) := toFloat64 b in
    if negb ok1 || negb ok2 then (-2)%Z
    else if PrimFloat.ltb af bf then (-1)%Z
    else if PrimFloat.ltb bf af then 1%Z
    else 0%Z.

(** [store] is the pointer the caller got from [NodeMeta]: [None] is nil. *)
Definition resolve (store : option Store) (data : api.NodeData) (key : string)
  : value * bool :=
  if String.eqb key "status" then (VString (api.Status data), true)
  else if String.eqb key "label" then (VString (api.Label data), true)
  else
    match store with
    | Some s =>
        match StoreOps.Get s key with
        | Some v => (v, true)
        | None => (VNil, false)
        end
    | None => (VNil, false)
    end.

Definition matchFilter (store : option Store) (data : api.NodeData) (f : MetaFilter) : bool :=
  let '(val, found) := resolve store data (Key f) in
  if String.eqb (Op f) "exists" then found
  else if String.eqb (Op f) "eq" then
    if negb found then false
    else String.eqb (Sprint val) (Sprint (Value f))
  else if String.eqb (Op f) "neq" then
    if negb found then true
    else negb (String.eqb (Sprint val) (Sprint (Value f)))
  else if String.eqb (Op f) "contains" then
    if negb found then false
    else Contains (Sprint val) (Sprint (Value f))
  else if String.eqb (Op f) "gt" then (0 <? compareFloat val (Value f) found)%Z
  else if String.eqb (Op f) "gte" then (0 <=? compareFloat val (Value f) found)%Z
  else if String.eqb (Op f) "lt" then (compareFloat val (Value f) found <? 0)%Z
  else if String.eqb (Op f) "lte" then (compareFloat val (Value f) found <=? 0)%Z
  else false.

(** [matchesFilters]: the node passes all filters (AND logic). *)
Definition matchesFilters (g : Graph api.NodeData api.EdgeData) (nodeID : string)
    (filters : list MetaFilter) : Graph api.NodeData api.EdgeData * bool :=
  match filters with
  | [] => (g, true)
  | _ =>
      match GetNode g nodeID with
      | None => (g, false)
      | Some node =>
          let '(g, store) := NodeMeta g nodeID in
          (g, forallb (matchFilter store (Node.Data node)) filters)
      end
  end.

End WithFormatting.

(** The operators [matchFilter] knows. *)
Definition known_ops : list string :=
  ["exists"; "eq"; "neq"; "contains"; "gt"; "gte"; "lt"; "lte"].

(** The key is in no metadata store the filter can see. *)
Definition absent (store : option Store) (key : string) : Prop :=
  match store with
  | Some s => StoreOps.Get s key = None
  | None => True
  end.

Lemma resolve_absent store data key :
  key ≠ "status" → key ≠ "label" → absent store key →
  resolve store data key = (VNil, false).
Proof.
  intros Hs Hl Ha. unfold resolve.
  rewrite (proj2 (String.eqb_neq _ _) Hs), (proj2 (String.eqb_neq _ _) Hl).
  destruct store as [s|]; [|done]. simpl in Ha. by rewrite Ha.
Qed.

(** C10. For a key that is neither status nor label and is absent from the
    node's store (or the store is nil), a neq filter passes the node and an eq
    filter does not, whatever the value; and a filter with an operator
    outside the eight known ones rejects every node, whatever the key. *)
Theorem matchFilter_absent_key Sprint float64_of_int store data key v :
  key ≠ "status" → key ≠ "label" → absent store key →
  matchFilter Sprint float64_of_int store data (mkFilter key "neq" v) = true ∧
  matchFilter Sprint float64_of_int store data (mkFilter key "eq" v) = false ∧
  (∀ store' data' key' v' op, op ∉ known_ops →
     matchFilter Sprint float64_of_int store' data' (mkFilter key' op v') = false).
Proof.
  intros Hs Hl Ha. split_and!.
  - unfold matchFilter. cbn [Key Op Value].
    by rewrite (resolve_absent store data key Hs Hl Ha).
  - unfold matchFilter. cbn [Key Op Value].
    by rewrite (resolve_absent store data key Hs Hl Ha).
  - intros store' data' key' v' op Hop. unfold matchFilter. cbn [Key Op Value].
    destruct (resolve store' data' key') as [val found].
    unfold known_ops in Hop.
    repeat match goal with
      | |- context [String.eqb op ?c] =>
          destruct (String.eqb_spec op c) as [->|?];
          [exfalso; apply Hop; repeat ((by left) || right)|]
      end.
    done.
Qed.

Definition sample_node_data : api.NodeData := api.mkNodeData "build" "pending".

Lemma matchFilter_absent_key_witness :
  "owner" ≠ "status" ∧ "owner" ≠ "label" ∧
  absent (Some (StoreOps.Set_ StoreOps.NewStore "lang" (VString "go"))) "owner" ∧
  matchFilter (λ _, "") (λ _, 0%float)
    (Some (StoreOps.Set_ StoreOps.NewStore "lang" (VString "go"))) sample_node_data
    (mkFilter "owner" "neq" (VString "x")) = true ∧
  matchFilter (λ _, "") (λ _, 0%float)
    (Some (StoreOps.Set_ StoreOps.NewStore "lang" (VString "go"))) sample_node_data
    (mkFilter "owner" "eq" (VString "x")) = false.
Proof.
  assert ("owner" ≠ "status") as H1 by discriminate.
  assert ("owner" ≠ "label") as H2 by discriminate.
  assert (absent (Some (StoreOps.Set_ StoreOps.NewStore "lang" (VString "go"))) "owner")
    as H3 by (vm_compute; reflexivity).
  destruct (matchFilter_absent_key (λ _, "") (λ _, 0%float) _ sample_node_data
              "owner" (VString "x") H1 H2 H3) as (Hn & He & _).
  split_and!; assumption.
Defined.

End Filter.

(** ** mcp/server.go: the JSON-RPC dispatch *)

Module mcp.

(** [json.RawMessage]: the bytes of a JSON value, uninterpreted. *)
Definition RawMessage := string.

Record Request := mkRequest {
  req_JSONRPC : string;
  req_ID : RawMessage;
  Method : string;
  Params : RawMessage
}.

Record RPCError := mkRPCError { Code : Z; Message : string }.

Record ServerInfo := { si_Name : string; si_Version : string }.

(** [Tools] is a pointer to an empty struct: [None] is nil. *)
Record ServerCapabilities := { Tools : option unit }.

Record InitializeResult := {
  ProtocolVersion : string;
  ServerInfo_ : ServerInfo;
  Capabilities : ServerCapabilities
}.

Record ToolDefinition := {
  td_Name : string;
  Description : string;
  InputSchema : RawMessage
}.

Record ToolCallParams := mkParams { Name : string; Arguments : RawMessage }.

Record ContentBlock := mkBlock { Type_ : string; Text : string }.

Record ToolCallResult := mkToolCallResult { Content : list ContentBlock; IsError : bool }.

(** The values [handle] puts in [Response.Result]. *)
Inductive ResultValue :=
  | RInitialize (r : InitializeResult)
  | RTools (defs : list ToolDefinition)
  | RToolCall (r : ToolCallResult).

Record Response := mkResponse {
  resp_JSONRPC : string;
  resp_ID : RawMessage;
  Result : option ResultValue;
  Error : option RPCError
}.

Section Server.
(** The Manager's state and what a handler returns on success are the api's;
    an [error] is its message. *)
Context {M R : Type}.

(** [json.Unmarshal(req.Params, &params)] and [json.Marshal(result)]. *)
Variable parse_params : RawMessage → ToolCallParams + string.
Variable json_Marshal : R → string.

(** A handler works on the Manager behind [s.mgr] and returns a result or an error. *)
Definition toolHandler := RawMessage → M → M * (R + string).

Record Server := mkServer {
  mgr : M;
  tools : gmap string toolHandler;
  defs : list ToolDefinition
}.

Definition with_mgr (s : Server) (m : M) : Server := mkServer m (tools s) (defs s).

Definition addTool (s : Server) (name description : string) (schema : RawMessage)
    (handler : toolHandler) : Server :=
  mkServer (mgr s) (<[name := handler]> (tools s))
           (defs s ++ [ {| td_Name := name; Description := description;
                           InputSchema := schema |} ])%list.

(** [handle]: [None] is the nil response of a notification. *)
Definition handle (s : Server) (req : Request) : Server * option Response :=
  if String.eqb (Method req) "initialize" then
    (s, Some (mkResponse "2.0" (req_ID req)
                (Some (RInitialize
                         {| ProtocolVersion := "2024-11-05";
                            ServerInfo_ := {| si_Name := "spine-mcp"; si_Version := "0.1.0" |};
                            Capabilities := {| Tools := Some tt |} |}))
                None))
  else if String.eqb (Method req) "notifications/initialized" then (s, None)
  else if String.eqb (Method req) "tools/list" then
    (s, Some (mkResponse "2.0" (req_ID req) (Some (RTools (defs s))) None))
  else if String.eqb (Method req) "tools/call" then
    match parse_params (Params req) with
    | inr err =>
        (s, Some (mkResponse "2.0" (req_ID req) None
                    (Some (mkRPCError (-32602) ("invalid params: " ++ err)))))
    | inl params =>
        match tools s !! Name params with
        | None =>
            (s, Some (mkResponse "2.0" (req_ID req) None
                        (Some (mkRPCError (-32602) ("unknown tool: " ++ Name params)))))
        | Some handler =>
            match handler (Arguments params) (mgr s) with
            | (m, inr err) =>
                (with_mgr s m,
                 Some (mkResponse "2.0" (req_ID req)
                         (Some (RToolCall (mkToolCallResult [mkBlock "text" err] true)))
                         None))
            | (m, inl result) =>
                (with_mgr s m,
                 Some (mkResponse "2.0" (req_ID req)
                         (Some (RToolCall
                                  (mkToolCallResult [mkBlock "text" (json_Marshal result)] false)))
                         None))
            end
        end
    end
  else
    (s, Some (mkResponse "2.0" (req_ID req) None
                (Some (mkRPCError (-32601) ("method not found: " ++ Method req))))).

(** C7. A [tools/call] request whose params name a tool: if the tool is
    registered and its handler returns an error, the response carries no
    JSON-RPC error and its result is the tool-call result with the one text
    block holding the error message and [isError] true; if the tool is not
    registered, the response carries no result and a JSON-RPC error with
    code -32602. *)
Theorem handle_tools_call s req params :
  Method req = "tools/call" →
  parse_params (Params req) = inl params →
  (∀ handler m err,
     tools s !! Name params = Some handler →
     handler (Arguments params) (mgr s) = (m, inr err) →
     handle s req =
       (with_mgr s m,
        Some {| resp_JSONRPC := "2.0"; resp_ID := req_ID req;
                Result := Some (RToolCall {| Content := [mkBlock "text" err];
                                             IsError := true |});
                Error := None |})) ∧
  (tools s !! Name params = None →
   ∃ msg, handle s req =
            (s, Some {| resp_JSONRPC := "2.0"; resp_ID := req_ID req;
                        Result := None;
                        Error := Some {| Code := -32602; Message := msg |} |})).
Proof.
  intros Hm Hp. unfold handle. rewrite Hm, Hp. simpl (String.eqb _ _). cbv iota.
  split.
  - intros handler m err Ht Hh.
    destruct (tools s !! Name params) as [h|]; [|done].
    injection Ht as ->. by rewrite Hh.
  - intros Ht. destruct (tools s !! Name params) as [h|]; [done|]. eauto.
Qed.

End Server.

(** A stand-in for the parser of the params: the bytes are the tool's name. *)
Definition name_only_params (p : RawMessage) : ToolCallParams + string :=
  inl (mkParams p "{}").

(** A server with one tool, whose handler always fails. *)
Definition failing_server : @Server unit unit :=
  addTool (mkServer tt ∅ []) "save_graph" "Save a graph" "{}"
          (λ _ m, (m, inr "graph not open")).

Definition call_request (tool : string) : Request :=
  mkRequest "2.0" "1" "tools/call" tool.

Lemma handle_tools_call_witness :
  Method (call_request "save_graph") = "tools/call" ∧
  handle name_only_params (λ _, "null") failing_server (call_request "save_graph") =
    (failing_server,
     Some (mkResponse "2.0" "1"
             (Some (RToolCall (mkToolCallResult [mkBlock "text" "graph not open"] true)))
             None)) ∧
  ∃ msg,
    handle name_only_params (λ _, "null") failing_server (call_request "nope") =
      (failing_server,
       Some (mkResponse "2.0" "1" None (Some (mkRPCError (-32602) msg)))).
Proof.
  split; [reflexivity|]. split.
  - destruct (handle_tools_call name_only_params (λ _, "null") failing_server
                (call_request "save_graph") (mkParams "save_graph" "{}") eq_refl eq_refl)
      as [Hcall _].
    exact (Hcall (λ _ m, (m, inr "graph not open")) tt "graph not open" eq_refl eq_refl).
  - destruct (handle_tools_call name_only_params (λ _, "null") failing_server
                (call_request "nope") (mkParams "nope" "{}") eq_refl eq_refl)
      as [_ Hunknown].
    exact (Hunknown eq_refl).
Defined.

End mcp.

(** ** algo.go: ShortestPath *)

Module Dijkstra.

Record dijkstraItem := mkItem { id : string; dist : float }.

(** [dijkstraHeap] with Go's [container/heap] on top of it. *)
Definition dijkstraHeap := list dijkstraItem.

Definition item_at (h : dijkstraHeap) (i : nat) : dijkstraItem :=
  default (mkItem "" 0%float) (h !! i).

Definition Less (h : dijkstraHeap) (i j : nat) : bool :=
  PrimFloat.ltb (dist (item_at h i)) (dist (item_at h j)).

Definition Swap (h : dijkstraHeap) (i j : nat) : dijkstraHeap :=
  <[i := item_at h j]> (<[j := item_at h i]> h).

(** [heap.up]: [j] moves to its parent in every round, so [j] rounds are enough. *)
Fixpoint up_loop (rounds : nat) (h : dijkstraHeap) (j : nat) : dijkstraHeap :=
  match rounds with
  | O => h
  | S rounds' =>
      let i := ((j - 1) / 2)%nat in (* parent *)
      if (i =? j)%nat || negb (Less h j i) then h
      else up_loop rounds' (Swap h i j) i
  end.

Definition up (h : dijkstraHeap) (j : nat) : dijkstraHeap := up_loop (S j) h j.

(** [heap.down]: [i] grows in every round and stays below [n]. *)
Fixpoint down_loop (rounds : nat) (h : dijkstraHeap) (i n : nat) : dijkstraHeap :=
  match rounds with
  | O => h
  | S rounds' =>
      let j1 := (2 * i + 1)%nat in
      if (n <=? j1)%nat then h
      else
        let j2 := (j1 + 1)%nat in
        let j := if (j2 <? n)%nat && Less h j2 j1 then j2 else j1 in
        if negb (Less h j i) then h
        else down_loop rounds' (Swap h i j) j n
  end.

Definition down (h : dijkstraHeap) (i0 n : nat) : dijkstraHeap := down_loop n h i0 n.

Definition heap_Push (h : dijkstraHeap) (x : dijkstraItem) : dijkstraHeap :=
  up (h ++ [x])%list (length h).

(** [heap.Pop], for a heap that is not empty. *)
Definition heap_Pop (h : dijkstraHeap) : dijkstraItem * dijkstraHeap :=
  let n := (length h - 1)%nat in
  let h := Swap h 0 n in
  let h := down h 0 n in
  (item_at h n, take n h).

Inductive PathError := SourceNotFound | DestinationNotFound | NoPathFound.

Record state := mkState {
  st_dist : gmap string float;
  st_prev : gmap string string;
  st_heap : dijkstraHeap
}.

Section Search.
Context {N E : Type}.

(** Relaxing one out-edge of [cur]. *)
Definition relax (cur : dijkstraItem) (st : state) (e : Edge.t E) : state :=
  let nd := PrimFloat.add (dist cur) (Edge.Weight e) in
  let better :=
    match st_dist st !! Edge.To e with
    | Some d => PrimFloat.ltb nd d
    | None => true
    end in
  if better then
    mkState (<[Edge.To e := nd]> (st_dist st))
            (<[Edge.To e := id cur]> (st_prev st))
            (heap_Push (st_heap st) (mkItem (Edge.To e) nd))
  else st.

(** The main loop; [outEdges] is [g.OutEdges].  [None]: more than [rounds]
    rounds are needed. *)
Fixpoint search (outEdges : string → list (Edge.t E)) (rounds : nat) (dst : string)
    (st : state) : option state :=
  match rounds with
  | O => None
  | S rounds' =>
      match st_heap st with
      | [] => Some st
      | _ =>
          let '(cur, h) := heap_Pop (st_heap st) in
          let st := mkState (st_dist st) (st_prev st) h in
          if PrimFloat.ltb (default 0%float (st_dist st !! id cur)) (dist cur)
          then search outEdges rounds' dst st
          else if String.eqb (id cur) dst then Some st
          else search outEdges rounds' dst (foldl (relax cur) st (outEdges (id cur)))
      end
  end.

(** The loop that walks the predecessor chain back from [dst]. *)
Fixpoint walk_back (rounds : nat) (prev : gmap string string) (src cur : string)
    (path : list string) : option (list string) :=
  match rounds with
  | O => None
  | S rounds' =>
      if String.eqb cur "" then Some path
      else
        let path := (path ++ [cur])%list in
        if String.eqb cur src then Some path
        else walk_back rounds' prev src (default "" (prev !! cur)) path
  end.

Definition ShortestPath_with (outEdges : string → list (Edge.t E)) (rounds : nat)
    (g : Graph N E) (src dst : string)
  : option (list string * float * option PathError) :=
  if negb (HasNode g src) then Some ([], 0%float, Some SourceNotFound)
  else if negb (HasNode g dst) then Some ([], 0%float, Some DestinationNotFound)
  else
    match search outEdges rounds dst
            (mkState {[ src := 0%float ]} ∅ [mkItem src 0%float]) with
    | None => None
    | Some st =>
        match st_dist st !! dst with
        | None => Some ([], 0%float, Some NoPathFound)
        | Some d =>
            match walk_back rounds (st_prev st) src dst [] with
            | None => None
            | Some path => Some (reverse path, d, None)
            end
        end
    end.

(** [ShortestPath], with the iteration order of the out-edge maps and a bound
    on the rounds of its two loops. *)
Definition ShortestPath (ord : MapOrder) (rounds : nat) (g : Graph N E) (src dst : string) :=
  ShortestPath_with (OutEdges ord g) rounds g src dst.

End Search.

(** The graph of the scenario: a->b (1), b->d (2), a->c (1), c->d (1). *)
Definition tie_graph : Graph string string :=
  let g := foldl (λ g id, AddNode g id id) (NewGraph true) ["a"; "b"; "c"; "d"] in
  let g := (AddEdge g "a" "b" "" 1%float).1 in
  let g := (AddEdge g "b" "d" "" 2%float).1 in
  let g := (AddEdge g "a" "c" "" 1%float).1 in
  (AddEdge g "c" "d" "" 1%float).1.

(** The out-edges, in the two orders in which the map of a can be walked. *)
Definition tie_out_edges (b_first : bool) (x : string) : list (Edge.t string) :=
  if String.eqb x "a" then
    if b_first then [Edge.mk "a" "b" "" 1%float; Edge.mk "a" "c" "" 1%float]
    else [Edge.mk "a" "c" "" 1%float; Edge.mk "a" "b" "" 1%float]
  else if String.eqb x "b" then [Edge.mk "b" "d" "" 2%float]
  else if String.eqb x "c" then [Edge.mk "c" "d" "" 1%float]
  else [].

Lemma search_ext {E} (oe oe' : string → list (Edge.t E)) rounds dst st :
  (∀ x, oe x = oe' x) → search oe rounds dst st = search oe' rounds dst st.
Proof.
  intros Hext. revert st. induction rounds as [|r IH]; intros st; simpl; [done|].
  destruct (st_heap st) as [|x h0]; [done|].
  destruct (heap_Pop (x :: h0)) as [cur h]. rewrite !IH, Hext. done.
Qed.

Lemma ShortestPath_with_ext {N E} (oe oe' : string → list (Edge.t E)) rounds
    (g : Graph N E) src dst :
  (∀ x, oe x = oe' x) →
  ShortestPath_with oe rounds g src dst = ShortestPath_with oe' rounds g src dst.
Proof. intros Hext. unfold ShortestPath_with. by rewrite (search_ext oe oe'). Qed.

Lemma range_empty {A} (ord : MapOrder) : range ord (∅ : gmap string A) = [].
Proof.
  unfold range. rewrite map_to_list_empty.
  apply Permutation_nil_r. apply (range_order_perm ord A []).
Qed.

Lemma range_singleton {A} (ord : MapOrder) k (v : A) :
  range ord ({[ k := v ]} : gmap string A) = [(k, v)].
Proof.
  unfold range. rewrite map_to_list_singleton.
  apply Permutation_singleton_r. apply (range_order_perm ord A [(k, v)]).
Qed.

Lemma range_pair {A} (ord : MapOrder) (m : gmap string A) p q :
  map_to_list m = [p; q] → range ord m = [p; q] ∨ range ord m = [q; p].
Proof.
  intros Hm. unfold range. rewrite Hm.
  pose proof (range_order_perm ord A [p; q]) as Hp. symmetry in Hp.
  by apply Permutation_length_2_inv in Hp.
Qed.

Lemma tie_graph_out_edges ord :
  ∃ b_first, ∀ x, OutEdges ord tie_graph x = tie_out_edges b_first x.
Proof.
  set (eab := Edge.mk "a" "b" "" 1%float). set (eac := Edge.mk "a" "c" "" 1%float).
  assert (out tie_graph =
            <["a" := <["b" := eab]> {[ "c" := eac ]}]>
              (<["b" := {[ "d" := Edge.mk "b" "d" "" 2%float ]}]>
                 (<["c" := {[ "d" := Edge.mk "c" "d" "" 1%float ]}]>
                    (<["d" := ∅]> ∅)))) as Hout by (vm_compute; reflexivity).
  assert (∀ x, x ≠ "a" → OutEdges ord tie_graph x = tie_out_edges true x ∧
                          OutEdges ord tie_graph x = tie_out_edges false x) as Hrest.
  { intros x Ha. unfold OutEdges, inner, tie_out_edges. rewrite Hout.
    rewrite (proj2 (String.eqb_neq _ _) Ha). rewrite lookup_insert_ne by done.
    destruct (String.eqb_spec x "b") as [->|Hb].
    { rewrite lookup_insert_eq. simpl. by rewrite range_singleton. }
    rewrite lookup_insert_ne by done.
    destruct (String.eqb_spec x "c") as [->|Hc].
    { rewrite lookup_insert_eq. simpl. by rewrite range_singleton. }
    rewrite lookup_insert_ne by done.
    destruct (decide (x = "d")) as [->|Hd].
    { rewrite lookup_insert_eq. simpl. by rewrite range_empty. }
    rewrite lookup_insert_ne by done. rewrite lookup_empty. simpl.
    by rewrite range_empty. }
  assert (OutEdges ord tie_graph "a" = [eab; eac] ∨
          OutEdges ord tie_graph "a" = [eac; eab]) as [Ha|Ha].
  { unfold OutEdges, inner. rewrite Hout, lookup_insert_eq. simpl.
    destruct (range_pair ord (<["b" := eab]> {[ "c" := eac ]}) ("c", eac) ("b", eab))
      as [-> | ->]; [by vm_compute|by right|by left]. }
  - exists true. intros x. destruct (decide (x = "a")) as [->|Hx]; [done|]. by apply Hrest.
  - exists false. intros x. destruct (decide (x = "a")) as [->|Hx]; [done|]. by apply Hrest.
Qed.

(** C5. On the graph a->b (1), b->d (2), a->c (1), c->d (1), [ShortestPath]
    from a to d returns the path a, c, d with cost 2 and no error, in whichever
    order the out-edges of a node are walked, once four rounds are allowed. *)
Theorem ShortestPath_tie ord k :
  ShortestPath ord (4 + k) tie_graph "a" "d" = Some (["a"; "c"; "d"], 2%float, None).
Proof.
  destruct (tie_graph_out_edges ord) as [b_first Hoe]. unfold ShortestPath.
  rewrite (ShortestPath_with_ext _ _ _ _ _ _ Hoe).
  destruct b_first; vm_compute; reflexivity.
Qed.

End Dijkstra.

(** ** algo.go: Subgraph *)

Section SubgraphDef.
Context {N E : Type}.
Implicit Types g sub : Graph N E.

Definition Subgraph_add_edge (idSet : gset string) sub (e : Edge.t E) : Graph N E :=
  if bool_decide (Edge.To e ∈ idSet) && negb (HasEdge sub (Edge.From e) (Edge.To e))
  then (AddEdge sub (Edge.From e) (Edge.To e) (Edge.Data e) (Edge.Weight e)).1
  else sub.

Definition Subgraph_add_edgeMeta (idSet : gset string) (from : string) sub
    (ts : string * Store) : Graph N E :=
  if bool_decide (from ∈ idSet) && bool_decide (ts.1 ∈ idSet) && HasEdge sub from ts.1
  then set_edgeMeta sub (inner_insert (edgeMeta sub) from ts.1 (StoreOps.Copy ts.2))
  else sub.

Definition Subgraph (ord : MapOrder) g (ids : list string) : Graph N E :=
  let sub := NewGraph (Directed g) in
  let idSet : gset string := list_to_set ids in
  let sub := foldl (λ sub id, match GetNode g id with
                              | Some n => AddNode sub (Node.ID n) (Node.Data n)
                              | None => sub
                              end) sub ids in
  let sub := foldl (λ sub id, foldl (Subgraph_add_edge idSet) sub (OutEdges ord g id))
                   sub ids in
  (* Copy metadata stores for included nodes and edges. *)
  let sub := foldl (λ sub id, match nodeMeta g !! id with
                              | Some store =>
                                  set_nodeMeta sub (<[id := StoreOps.Copy store]> (nodeMeta sub))
                              | None => sub
                              end) sub ids in
  foldl (λ sub fm, foldl (Subgraph_add_edgeMeta idSet fm.1) sub (range ord fm.2))
        sub (range ord (edgeMeta g)).

End SubgraphDef.

(** ** encoding/json and strings

    A Go string is a byte string.  [json.Marshal] writes a string, and the
    key of a map, with every byte that is not part of a valid UTF-8 sequence
    as the escape \ufffd; [json.Unmarshal] reads U+FFFD for that escape, and
    for such a byte in the text.  So only valid UTF-8 is read back as it was
    written. *)

Definition byte_in (lo hi : N) (c : ascii) : bool :=
  (lo <=? N_of_ascii c)%N && (N_of_ascii c <=? hi)%N.

(** [utf8.DecodeRuneInString] on a string that is not empty: the width of
    the rune at its head, [None] where Go gives [RuneError] with width 1 (a
    byte that starts no sequence, a sequence cut short, a second byte out of
    the range its first byte accepts, a later byte that is no continuation). *)
Definition rune_width (s : string) : option nat :=
  match s with
  | EmptyString => None
  | String c0 s1 =>
      let b := N_of_ascii c0 in
      if (b <? 128)%N then Some 1
      else if (b <? 194)%N then None
      else if (b <? 224)%N then
        match s1 with
        | String c1 _ => if byte_in 128 191 c1 then Some 2 else None
        | EmptyString => None
        end
      else if (b <? 240)%N then
        let lo := if (b =? 224)%N then 160%N else 128%N in
        let hi := if (b =? 237)%N then 159%N else 191%N in
        match s1 with
        | String c1 (String c2 _) =>
            if byte_in lo hi c1 && byte_in 128 191 c2 then Some 3 else None
        | _ => None
        end
      else if (b <? 245)%N then
        let lo := if (b =? 240)%N then 144%N else 128%N in
        let hi := if (b =? 244)%N then 143%N else 191%N in
        match s1 with
        | String c1 (String c2 (String c3 _)) =>
            if byte_in lo hi c1 && byte_in 128 191 c2 && byte_in 128 191 c3
            then Some 4 else None
        | _ => None
        end
      else None
  end.

(** U+FFFD in UTF-8. *)
Definition replacement_char : string :=
  String "239"%char (String "191"%char (String "189"%char EmptyString)).

(** The string with every byte outside a valid sequence replaced by U+FFFD;
    [inside] counts the bytes still to copy of the sequence under way. *)
Fixpoint coerce_from (inside : nat) (s : string) : string :=
  match s with
  | EmptyString => EmptyString
  | String c s' =>
      match inside with
      | S k => String c (coerce_from k s')
      | O =>
          match rune_width s with
          | Some n => String c (coerce_from (n - 1) s')
          | None => (replacement_char ++ coerce_from 0 s')%string
          end
      end
  end.

(** What is read back of a string that was written. *)
Definition utf8_coerce (s : string) : string := coerce_from 0 s.

(** [utf8.ValidString]: nothing is replaced. *)
Definition utf8_valid (s : string) : Prop := utf8_coerce s = s.

(** ** serialize.go *)

(** A JSON document.  A number is its literal; an object lists its members in
    the order of the text.  A string, and the name of a member, is the Go
    string that was written: the text spells its bytes outside valid UTF-8
    as \ufffd, and reading gives [utf8_coerce] of it. *)
Inductive json :=
  | JNull
  | JBool (b : bool)
  | JNumber (literal : string)
  | JString (s : string)
  | JArray (items : list json)
  | JObject (members : list (string * json)).

(** The bytes [Marshal] returns, as the document they spell and whether they
    are indented: the text of a document is fixed by these two. *)
Record Encoded := mkEncoded { indented : bool; document : json }.

Module Snap.

Record NodeData (N : Type) := mkNodeData { ID : string; Data : N }.
Arguments mkNodeData {N}. Arguments ID {N}. Arguments Data {N}.

Record EdgeData (E : Type) := mkEdgeData {
  From : string; To : string; EData : E; Weight : float
}.
Arguments mkEdgeData {E}. Arguments From {E}. Arguments To {E}.
Arguments EData {E}. Arguments Weight {E}.

Record GraphData (N E : Type) := mkGraphData {
  Nodes : list (NodeData N);
  Edges : list (EdgeData E)
}.
Arguments mkGraphData {N E}. Arguments Nodes {N E}. Arguments Edges {N E}.

(** [Schema] is [None] for nil (an empty schema is omitted from the text just
    as a nil one is). *)
Record NodeMetaData := mkNodeMetaData {
  nm_ID : string;
  nm_Entries : gmap string value;
  nm_Schema : option Schema
}.

Record EdgeMetaData := mkEdgeMetaData {
  em_From : string;
  em_To : string;
  em_Entries : gmap string value;
  em_Schema : option Schema
}.

Record MetaData := mkMetaData {
  md_Nodes : list NodeMetaData;
  md_Edges : list EdgeMetaData
}.

Record Snapshot (N E : Type) := mkSnapshot {
  Version : Z;
  Directed : bool;
  Graph : option (GraphData N E);
  Meta : option MetaData
}.
Arguments mkSnapshot {N E}. Arguments Version {N E}. Arguments Directed {N E}.
Arguments Graph {N E}. Arguments Meta {N E}.

End Snap.

Record MarshalOptions := mkOptions {
  NodeIDs : option (list string); (* if non-nil, only these nodes + edges between them *)
  opt_Graph : bool;               (* include graph topology section *)
  opt_Meta : bool;                (* include metadata section *)
  Schemas : bool;                 (* include schema definitions in metadata *)
  Indent : bool                   (* pretty-print JSON *)
}.

Definition default_options : MarshalOptions :=
  mkOptions None true true true true.

Inductive UnmarshalError :=
  | BadJSON
  | UnsupportedVersion (v : Z)
  | BadEdge (from to : string) (err : GraphError).

Section Serialize.
Context {N E : Type}.
Implicit Types g target : Graph N E.

(** *** Building the snapshot *)

(** Normalize undirected edges so From < To for deterministic output. *)
Definition normalize_edge (e : Edge.t E) : Edge.t E :=
  if str_lt (Edge.To e) (Edge.From e)
  then Edge.mk (Edge.To e) (Edge.From e) (Edge.Data e) (Edge.Weight e)
  else e.

Definition edge_less (x y : Edge.t E) : bool :=
  if negb (String.eqb (Edge.From x) (Edge.From y))
  then str_lt (Edge.From x) (Edge.From y)
  else str_lt (Edge.To x) (Edge.To y).

Definition key_less (x y : string * string) : bool :=
  if negb (String.eqb x.1 y.1) then str_lt x.1 y.1 else str_lt x.2 y.2.

Definition snapshot_graph (ord : MapOrder) target : Snap.GraphData N E :=
  let edges := Edges ord target in
  let edges := if negb (Directed target) then normalize_edge <$> edges else edges in
  let edges := sort_Slice edge_less edges in
  Snap.mkGraphData
    ((λ n, Snap.mkNodeData (Node.ID n) (Node.Data n)) <$> Nodes ord target)
    ((λ e, Snap.mkEdgeData (Edge.From e) (Edge.To e) (Edge.Data e) (Edge.Weight e))
       <$> edges).

Definition schema_if (opts : MarshalOptions) (store : Store) : option Schema :=
  if Schemas opts then StoreOps.GetSchema store else None.

Definition snapshot_node_meta (opts : MarshalOptions) target (n : Node.t N)
  : list Snap.NodeMetaData :=
  match nodeMeta target !! Node.ID n with
  | Some store =>
      if (StoreOps.Len store =? 0)%nat then []
      else [Snap.mkNodeMetaData (Node.ID n) (entries store) (schema_if opts store)]
  | None => []
  end.

(** The keys of the edge stores that are not empty, in the order of the walk. *)
Definition edge_meta_keys (ord : MapOrder) target : list (string * string) :=
  fm ← range ord (edgeMeta target);
  ts ← range ord fm.2;
  if (0 <? StoreOps.Len ts.2)%nat then [(fm.1, ts.1)] else [].

Definition snapshot_edge_meta (opts : MarshalOptions) target (k : string * string)
  : Snap.EdgeMetaData :=
  let store := default StoreOps.NewStore (inner (edgeMeta target) k.1 !! k.2) in
  Snap.mkEdgeMetaData k.1 k.2 (entries store) (schema_if opts store).

Definition snapshot_meta (ord : MapOrder) (opts : MarshalOptions) target : Snap.MetaData :=
  Snap.mkMetaData
    (flat_map (snapshot_node_meta opts target) (Nodes ord target))
    (snapshot_edge_meta opts target <$> sort_Slice key_less (edge_meta_keys ord target)).

Definition snapshot (ord : MapOrder) (opts : MarshalOptions) g : Snap.Snapshot N E :=
  let target := match NodeIDs opts with
                | Some ids => Subgraph ord g ids
                | None => g
                end in
  Snap.mkSnapshot 1 (Directed target)
    (if opt_Graph opts then Some (snapshot_graph ord target) else None)
    (if opt_Meta opts then Some (snapshot_meta ord opts target) else None).

(** *** encoding/json on the snapshot

    How Go's encoding/json writes and reads the payloads is not the
    repository's: the encoders may fail (an unsupported value, a NaN), and
    decoding into [any] cannot. *)
Variable encN : N → option json.
Variable decN : json → option N.
Variable zeroN : N.
Variable encE : E → option json.
Variable decE : json → option E.
Variable zeroE : E.
Variable encV : value → option json.
Variable decV : json → value.
Variable encF : float → option json.
Variable decF : json → option float.

Definition print_int (z : Z) : string := NilZero.string_of_int (Z.to_int z).
Definition parse_int (lit : string) : option Z := Z.of_int <$> NilZero.int_of_string lit.

(** A member of an object, by its name. *)
Definition member (name : string) (ms : list (string * json)) : option json :=
  assoc name ms.

(** A map is written with its keys sorted, as the Go strings they are. *)
Definition sorted_members {A} (m : gmap string A) : list (string * A) :=
  sort_Slice (λ x y, str_lt x.1 y.1) (map_to_list m).

(** The keys are written as strings are: what is read back of a key is
    [utf8_coerce] of it. *)
Definition enc_entries (m : gmap string value) : option json :=
  ms ← mapM (λ kv, j ← encV kv.2; Some (kv.1, j)) (sorted_members m);
  Some (JObject ms).

Definition enc_schema (sc : Schema) : json :=
  JObject ((λ kd, (kd.1, JObject [("type", JString (Type_ kd.2));
                                  ("required", JBool (Required kd.2))]))
             <$> sorted_members sc).

(** [schema,omitempty]: a nil or empty schema is left out. *)
Definition schema_member (sc : option Schema) : list (string * json) :=
  match sc with
  | Some sc => if (size sc =? 0)%nat then [] else [("schema", enc_schema sc)]
  | None => []
  end.

(** The ID is a string: what is read back of it is [utf8_coerce] of it. *)
Definition enc_node (n : Snap.NodeData N) : option json :=
  d ← encN (Snap.Data n);
  Some (JObject [("id", JString (Snap.ID n)); ("data", d)]).

(** So are the two ends. *)
Definition enc_edge (e : Snap.EdgeData E) : option json :=
  d ← encE (Snap.EData e);
  w ← encF (Snap.Weight e);
  Some (JObject [("from", JString (Snap.From e)); ("to", JString (Snap.To e));
                 ("data", d); ("weight", w)]).

Definition enc_graph (gd : Snap.GraphData N E) : option json :=
  ns ← mapM enc_node (Snap.Nodes gd);
  es ← mapM enc_edge (Snap.Edges gd);
  Some (JObject [("nodes", JArray ns); ("edges", JArray es)]).

Definition enc_node_meta (nm : Snap.NodeMetaData) : option json :=
  en ← enc_entries (Snap.nm_Entries nm);
  Some (JObject ([("id", JString (Snap.nm_ID nm)); ("entries", en)]
                 ++ schema_member (Snap.nm_Schema nm))%list).

Definition enc_edge_meta (em : Snap.EdgeMetaData) : option json :=
  en ← enc_entries (Snap.em_Entries em);
  Some (JObject ([("from", JString (Snap.em_From em)); ("to", JString (Snap.em_To em));
                  ("entries", en)]
                 ++ schema_member (Snap.em_Schema em))%list).

Definition enc_meta (md : Snap.MetaData) : option json :=
  ns ← mapM enc_node_meta (Snap.md_Nodes md);
  es ← mapM enc_edge_meta (Snap.md_Edges md);
  Some (JObject [("nodes", JArray ns); ("edges", JArray es)]).

Definition optional_member (name : string) (j : option (option json))
  : option (list (string * json)) :=
  match j with
  | None => Some []
  | Some None => None
  | Some (Some j) => Some [(name, j)]
  end.

(** [json.Marshal(snap)]: [None] is an error. *)
Definition enc_snapshot (s : Snap.Snapshot N E) : option json :=
  gm ← optional_member "graph" (enc_graph <$> Snap.Graph s);
  mm ← optional_member "metadata" (enc_meta <$> Snap.Meta s);
  Some (JObject ([("version", JNumber (print_int (Snap.Version s)));
                  ("directed", JBool (Snap.Directed s))] ++ gm ++ mm)%list).

(** [Marshal]: [None] is the error of [json.Marshal]; nil options are the
    defaults. *)
Definition Marshal (ord : MapOrder) g (opts : option MarshalOptions) : option Encoded :=
  let opts := default default_options opts in
  doc ← enc_snapshot (snapshot ord opts g);
  Some (mkEncoded (Indent opts) doc).

(** *** Reading a snapshot back *)

(** A string comes back with U+FFFD for every byte that was not UTF-8. *)
Definition dec_string (j : option json) : option string :=
  match j with
  | None | Some JNull => Some ""
  | Some (JString s) => Some (utf8_coerce s)
  | Some _ => None
  end.

Definition dec_bool (j : option json) : option bool :=
  match j with
  | None | Some JNull => Some false
  | Some (JBool b) => Some b
  | Some _ => None
  end.

Definition dec_int (j : option json) : option Z :=
  match j with
  | None | Some JNull => Some 0%Z
  | Some (JNumber lit) => parse_int lit
  | Some _ => None
  end.

Definition dec_float (j : option json) : option float :=
  match j with
  | None | Some JNull => Some 0%float
  | Some j => decF j
  end.

Definition dec_list {A} (dec : json → option A) (j : option json) : option (list A) :=
  match j with
  | None | Some JNull => Some []
  | Some (JArray items) => mapM dec items
  | Some _ => None
  end.

(** The keys are read as strings are; a later member of the same name
    replaces an earlier one. *)
Definition dec_map {A} (dec : json → option A) (j : option json)
  : option (option (gmap string A)) :=
  match j with
  | None | Some JNull => Some None
  | Some (JObject ms) =>
      kvs ← mapM (λ kj, v ← dec kj.2; Some (utf8_coerce kj.1, v)) ms;
      Some (Some (list_to_map (reverse kvs)))
  | Some _ => None
  end.

Definition dec_payload {A} (dec : json → option A) (zero : A) (j : option json) : option A :=
  match j with
  | None => Some zero
  | Some j => dec j
  end.

Definition dec_node (j : json) : option (Snap.NodeData N) :=
  match j with
  | JObject ms =>
      id ← dec_string (member "id" ms);
      d ← dec_payload decN zeroN (member "data" ms);
      Some (Snap.mkNodeData id d)
  | _ => None
  end.

Definition dec_edge (j : json) : option (Snap.EdgeData E) :=
  match j with
  | JObject ms =>
      from ← dec_string (member "from" ms);
      to ← dec_string (member "to" ms);
      d ← dec_payload decE zeroE (member "data" ms);
      w ← dec_float (member "weight" ms);
      Some (Snap.mkEdgeData from to d w)
  | _ => None
  end.

Definition dec_graph (j : json) : option (Snap.GraphData N E) :=
  match j with
  | JObject ms =>
      ns ← dec_list dec_node (member "nodes" ms);
      es ← dec_list dec_edge (member "edges" ms);
      Some (Snap.mkGraphData ns es)
  | _ => None
  end.

Definition dec_field_def (j : json) : option FieldDef :=
  match j with
  | JObject ms =>
      t ← dec_string (member "type" ms);
      r ← dec_bool (member "required" ms);
      Some {| Type_ := t; Required := r |}
  | _ => None
  end.

Definition dec_node_meta (j : json) : option Snap.NodeMetaData :=
  match j with
  | JObject ms =>
      id ← dec_string (member "id" ms);
      en ← dec_map (λ j, Some (decV j)) (member "entries" ms);
      sc ← dec_map dec_field_def (member "schema" ms);
      Some (Snap.mkNodeMetaData id (default ∅ en) sc)
  | _ => None
  end.

Definition dec_edge_meta (j : json) : option Snap.EdgeMetaData :=
  match j with
  | JObject ms =>
      from ← dec_string (member "from" ms);
      to ← dec_string (member "to" ms);
      en ← dec_map (λ j, Some (decV j)) (member "entries" ms);
      sc ← dec_map dec_field_def (member "schema" ms);
      Some (Snap.mkEdgeMetaData from to (default ∅ en) sc)
  | _ => None
  end.

Definition dec_meta (j : json) : option Snap.MetaData :=
  match j with
  | JObject ms =>
      ns ← dec_list dec_node_meta (member "nodes" ms);
      es ← dec_list dec_edge_meta (member "edges" ms);
      Some (Snap.mkMetaData ns es)
  | _ => None
  end.

Definition dec_pointer {A} (dec : json → option A) (j : option json) : option (option A) :=
  match j with
  | None | Some JNull => Some None
  | Some j => Some <$> dec j
  end.

(** [json.Unmarshal(data, &snap)]: [None] is an error. *)
Definition dec_snapshot (j : json) : option (Snap.Snapshot N E) :=
  match j with
  | JObject ms =>
      v ← dec_int (member "version" ms);
      d ← dec_bool (member "directed" ms);
      gd ← dec_pointer dec_graph (member "graph" ms);
      md ← dec_pointer dec_meta (member "metadata" ms);
      Some (Snap.mkSnapshot v d gd md)
  | _ => None
  end.

Definition set_entries (store : Store) (en : gmap string value) : Store :=
  {| entries := en ∪ entries store; schema := schema store |}.

(** Entries and schema of one store of the metadata section. *)
Definition apply_store (en : gmap string value) (sc : option Schema) (store : Store) : Store :=
  let store := set_entries store en in
  match sc with
  | Some sc => StoreOps.SetSchema store (Some sc)
  | None => store
  end.

Definition apply_node_meta g (nm : Snap.NodeMetaData) : Graph N E :=
  if negb (HasNode g (Snap.nm_ID nm)) then g
  else update_NodeMeta g (Snap.nm_ID nm)
         (apply_store (Snap.nm_Entries nm) (Snap.nm_Schema nm)).

Definition apply_edge_meta g (em : Snap.EdgeMetaData) : Graph N E :=
  if negb (HasEdge g (Snap.em_From em) (Snap.em_To em)) then g
  else update_EdgeMeta g (Snap.em_From em) (Snap.em_To em)
         (apply_store (Snap.em_Entries em) (Snap.em_Schema em)).

Definition apply_metadata g (md : Snap.MetaData) : Graph N E :=
  foldl apply_edge_meta (foldl apply_node_meta g (Snap.md_Nodes md)) (Snap.md_Edges md).

(** The loop that replays the edges; it stops at the first failure. *)
Fixpoint add_edges g (es : list (Snap.EdgeData E)) : Graph N E + UnmarshalError :=
  match es with
  | [] => inl g
  | e :: es' =>
      match AddEdge g (Snap.From e) (Snap.To e) (Snap.EData e) (Snap.Weight e) with
      | (_, Some err) => inr (BadEdge (Snap.From e) (Snap.To e) err)
      | (g, None) => add_edges g es'
      end
  end.

Definition graph_of_snapshot (snap : Snap.Snapshot N E) : Graph N E + UnmarshalError :=
  if negb (Snap.Version snap =? 1)%Z then inr (UnsupportedVersion (Snap.Version snap))
  else
    let g := NewGraph (Snap.Directed snap) in
    let r := match Snap.Graph snap with
             | Some gd =>
                 add_edges (foldl (λ g n, AddNode g (Snap.ID n) (Snap.Data n)) g (Snap.Nodes gd))
                           (Snap.Edges gd)
             | None => inl g
             end in
    match r with
    | inr err => inr err
    | inl g =>
        match Snap.Meta snap with
        | Some md => inl (apply_metadata g md)
        | None => inl g
        end
    end.

Definition Unmarshal (data : Encoded) : Graph N E + UnmarshalError :=
  match dec_snapshot (document data) with
  | None => inr BadJSON
  | Some snap => graph_of_snapshot snap
  end.

End Serialize.

(** ** Enumerations that do not depend on the iteration order *)

Lemma key_less_asym x y : key_less x y = true → key_less y x = false.
Proof.
  unfold key_less. destruct x as [a b], y as [c d]; simpl.
  destruct (String.eqb_spec a c) as [->|Hne]; simpl.
  - rewrite String.eqb_refl. simpl. apply str_lt_asym.
  - rewrite (proj2 (String.eqb_neq c a)) by congruence. simpl. apply str_lt_asym.
Qed.

Lemma key_less_total x y : key_less x y = false → key_less y x = false → x = y.
Proof.
  unfold key_less. destruct x as [a b], y as [c d]; simpl.
  destruct (String.eqb_spec a c) as [->|Hne]; simpl.
  - rewrite String.eqb_refl. simpl. intros H1 H2. f_equal. by apply str_lt_total.
  - rewrite (proj2 (String.eqb_neq c a)) by congruence. simpl. intros H1 H2.
    exfalso. apply Hne. by apply str_lt_total.
Qed.

Lemma key_less_ntrans x y z :
  key_less x y = false → key_less y z = false → key_less x z = false.
Proof.
  unfold key_less. destruct x as [a b], y as [c d], z as [e f]; simpl.
  destruct (String.eqb_spec a c) as [->|Hac]; simpl.
  - destruct (String.eqb_spec c e) as [->|Hce]; simpl; [apply str_lt_ntrans|done].
  - intros H1. destruct (String.eqb_spec c e) as [->|Hce]; simpl.
    + intros _. by rewrite (proj2 (String.eqb_neq a e)) by done.
    + intros H2. destruct (String.eqb_spec a e) as [->|Hae]; simpl.
      * exfalso. apply Hac. by apply str_lt_total.
      * by eapply str_lt_ntrans.
Qed.

Lemma bind_perm_pointwise {A B} (f1 f2 : A → list B) (l1 l2 : list A) :
  l1 ≡ₚ l2 → (∀ x, f1 x ≡ₚ f2 x) → l1 ≫= f1 ≡ₚ l2 ≫= f2.
Proof.
  intros Hl Hf. rewrite Hl. clear Hl l1.
  induction l2 as [|x l IH]; [done|]. rewrite !bind_cons. by rewrite Hf, IH.
Qed.

Lemma range_perm {A} (ord1 ord2 : MapOrder) (m : gmap string A) :
  range ord1 m ≡ₚ range ord2 m.
Proof.
  unfold range.
  by rewrite (range_order_perm ord1 A (map_to_list m)),
             (range_order_perm ord2 A (map_to_list m)).
Qed.

Section Determinism.
Context {N E : Type}.
Implicit Types g : Graph N E.

Lemma Nodes_order_irrelevant ord1 ord2 g : wf g → Nodes ord1 g = Nodes ord2 g.
Proof.
  intros Hwf. unfold Nodes. apply sort_Slice_unique.
  - intros x y. apply str_lt_asym.
  - intros x y z. apply str_lt_ntrans.
  - intros x y Hx Hy H1 H2.
    apply range_values_elem_of in Hx as [kx Hx], Hy as [ky Hy].
    pose proof (str_lt_total _ _ H1 H2) as Hid.
    rewrite (wf_node_id g Hwf kx x Hx), (wf_node_id g Hwf ky y Hy) in Hid. subst.
    congruence.
  - by rewrite (range_perm ord1 ord2).
Qed.

Lemma Neighbors_order_irrelevant ord1 ord2 g id : Neighbors ord1 g id = Neighbors ord2 g id.
Proof. unfold Neighbors. apply sort_Strings_unique. by rewrite (range_perm ord1 ord2). Qed.

Lemma edge_meta_keys_sorted ord1 ord2 g :
  sort_Slice key_less (edge_meta_keys ord1 g) = sort_Slice key_less (edge_meta_keys ord2 g).
Proof.
  apply sort_Slice_unique.
  - apply key_less_asym.
  - apply key_less_ntrans.
  - intros x y _ _. apply key_less_total.
  - unfold edge_meta_keys. apply bind_perm_pointwise; [apply range_perm|].
    intros fm. apply bind_perm_pointwise; [apply range_perm|done].
Qed.

End Determinism.

(** ** Edges *)

Section EdgesFacts.
Context {N E : Type}.
Implicit Types g : Graph N E.

(** The entries of the [out] maps in the order of the two nested loops. *)
Definition out_entries (ord : MapOrder) g : list (string * string * Edge.t E) :=
  fm ← range ord (out g); te ← range ord fm.2; [(fm.1, te.1, te.2)].

Definition Edges_round g (acc : gset (string * string) * list (Edge.t E))
    (t : string * string * Edge.t E) :=
  Edges_step g t.1.1 t.1.2 t.2 acc.

Lemma foldl_bind {A B C} (f : C → B → C) (h : A → list B) (c : C) (l : list A) :
  foldl f c (l ≫= h) = foldl (λ c x, foldl f c (h x)) c l.
Proof.
  revert c. induction l as [|x l IH]; intros c; [done|].
  rewrite bind_cons, foldl_app. apply IH.
Qed.

Lemma foldl_pointwise {A B} (f f' : A → B → A) (a : A) (l : list B) :
  (∀ a x, f a x = f' a x) → foldl f a l = foldl f' a l.
Proof.
  intros H. revert a. induction l as [|x l IH]; intros a; simpl; [done|].
  by rewrite H, IH.
Qed.

Lemma Edges_as_fold ord g :
  Edges ord g = (foldl (Edges_round g) (∅, []) (out_entries ord g)).2.
Proof.
  unfold Edges, out_entries. rewrite foldl_bind. f_equal.
  apply foldl_pointwise. intros acc fm. rewrite foldl_bind.
  apply foldl_pointwise. intros acc' te. done.
Qed.

Lemma out_entries_elem_of ord g a b e :
  (a, b, e) ∈ out_entries ord g ↔ inner (out g) a !! b = Some e.
Proof.
  unfold out_entries. rewrite list_elem_of_bind. split.
  - intros ([k m] & Hin & Hm). apply list_elem_of_bind in Hin as ([k' e'] & Hin & He).
    apply list_elem_of_singleton in Hin. simpl in *. simplify_eq.
    apply range_elem_of in Hm, He. apply inner_lookup_Some. eauto.
  - intros He. apply inner_lookup_Some in He as (m & Hm & He).
    exists (a, m). split; [|by apply range_elem_of].
    apply list_elem_of_bind. exists (b, e). split; [by left|by apply range_elem_of].
Qed.

Definition edge_key (e : Edge.t E) : string * string := (Edge.From e, Edge.To e).

(** What the loop of [Edges] has built after the entries [done_] . *)
Record Edges_inv g (done_ : list (string * string * Edge.t E))
    (seen : gset (string * string)) (result : list (Edge.t E)) : Prop := {
  ei_entry : ∀ e, e ∈ result →
    inner (out g) (Edge.From e) !! Edge.To e = Some e ∧ edge_key e ∈ seen;
  ei_seen : ∀ k, k ∈ seen → ∃ e, e ∈ result ∧ edge_key e = k;
  ei_nodup : NoDup (edge_key <$> result);
  ei_one_way : Directed g = false → ∀ a b, (a, b) ∈ seen → a ≠ b → (b, a) ∉ seen;
  ei_done : ∀ a b e, (a, b, e) ∈ done_ →
    (a, b) ∈ seen ∨ (Directed g = false ∧ (b, a) ∈ seen)
}.

Lemma Edges_inv_nil g : Edges_inv g [] ∅ [].
Proof.
  split.
  - intros e He. by apply elem_of_nil in He.
  - intros k Hk. by apply elem_of_empty in Hk.
  - constructor.
  - intros _ a b Hk. by apply elem_of_empty in Hk.
  - intros a b e He. by apply elem_of_nil in He.
Qed.

Lemma Edges_inv_round g done_ seen result a b e :
  wf g → inner (out g) a !! b = Some e →
  Edges_inv g done_ seen result →
  Edges_inv g (done_ ++ [(a, b, e)])
    (Edges_round g (seen, result) (a, b, e)).1 (Edges_round g (seen, result) (a, b, e)).2.
Proof.
  intros Hwf He Hinv. destruct (wf_edge_ends g Hwf a b e He) as (Hf & Ht & _).
  unfold Edges_round, Edges_step. simpl.
  assert (∀ s r, Edges_inv g done_ s r →
            ((a, b) ∈ s ∨ (Directed g = false ∧ (b, a) ∈ s)) →
            Edges_inv g (done_ ++ [(a, b, e)]) s r) as Hskip.
  { intros s r [H1 H2 H3 H4 H5] Hab. split; try done.
    intros a' b' e' Hin. apply elem_of_app in Hin as [Hin|Hin]; [by eapply H5|].
    apply list_elem_of_singleton in Hin. by simplify_eq. }
  destruct (Directed g) eqn:Hd; simpl.
  - case_bool_decide as Hs; [apply Hskip; auto|]. simpl.
    destruct Hinv as [H1 H2 H3 H4 H5]. split.
    + intros e' He'. apply elem_of_app in He' as [He'|He'].
      * destruct (H1 e' He') as [? ?]. split; [done|]. set_solver.
      * apply list_elem_of_singleton in He' as ->. unfold edge_key.
        rewrite Hf, Ht. split; [done|]. set_solver.
    + intros k Hk. apply elem_of_union in Hk as [Hk|Hk].
      * apply elem_of_singleton in Hk as ->. exists e. split; [set_solver|].
        unfold edge_key. by rewrite Hf, Ht.
      * destruct (H2 k Hk) as (e' & ? & ?). exists e'. split; [set_solver|done].
    + rewrite fmap_app. apply NoDup_app. split_and!; [done| |apply NoDup_singleton].
      intros k Hk Hk'. apply list_elem_of_singleton in Hk'. subst k.
      apply list_elem_of_fmap in Hk as (e' & Hke & He').
      apply H1 in He' as [_ He']. unfold edge_key in *. simpl in Hke.
      rewrite Hf, Ht in Hke. by rewrite <- Hke in He'.
    + intros Hd'. congruence.
    + intros a' b' e' Hin. apply elem_of_app in Hin as [Hin|Hin].
      * destruct (H5 a' b' e' Hin) as [?|[? ?]]; [left; set_solver|congruence].
      * apply list_elem_of_singleton in Hin. simplify_eq. left. set_solver.
  - case_bool_decide as Hr; [apply Hskip; auto|]. simpl.
    case_bool_decide as Hs; [apply Hskip; auto|]. simpl.
    destruct Hinv as [H1 H2 H3 H4 H5]. split.
    + intros e' He'. apply elem_of_app in He' as [He'|He'].
      * destruct (H1 e' He') as [? ?]. split; [done|]. set_solver.
      * apply list_elem_of_singleton in He' as ->. unfold edge_key.
        rewrite Hf, Ht. split; [done|]. set_solver.
    + intros k Hk. apply elem_of_union in Hk as [Hk|Hk].
      * apply elem_of_singleton in Hk as ->. exists e. split; [set_solver|].
        unfold edge_key. by rewrite Hf, Ht.
      * destruct (H2 k Hk) as (e' & ? & ?). exists e'. split; [set_solver|done].
    + rewrite fmap_app. apply NoDup_app. split_and!; [done| |apply NoDup_singleton].
      intros k Hk Hk'. apply list_elem_of_singleton in Hk'. subst k.
      apply list_elem_of_fmap in Hk as (e' & Hke & He').
      apply H1 in He' as [_ He']. unfold edge_key in *. simpl in Hke.
      rewrite Hf, Ht in Hke. by rewrite <- Hke in He'.
    + intros _ a' b' Hin Hne Hin'.
      apply elem_of_union in Hin as [Hin|Hin], Hin' as [Hin'|Hin'].
      * apply elem_of_singleton in Hin, Hin'. simplify_eq.
      * apply elem_of_singleton in Hin. simplify_eq.
      * apply elem_of_singleton in Hin'. simplify_eq.
      * by apply (H4 Hd a' b').
    + intros a' b' e' Hin. apply elem_of_app in Hin as [Hin|Hin].
      * destruct (H5 a' b' e' Hin) as [?|[? ?]]; [left; set_solver|right; set_solver].
      * apply list_elem_of_singleton in Hin. simplify_eq. left. set_solver.
Qed.

Lemma Edges_inv_fold g l : ∀ done_ seen result,
  wf g → (∀ a b e, (a, b, e) ∈ l → inner (out g) a !! b = Some e) →
  Edges_inv g done_ seen result →
  Edges_inv g (done_ ++ l) (foldl (Edges_round g) (seen, result) l).1
                           (foldl (Edges_round g) (seen, result) l).2.
Proof.
  induction l as [|[[a b] e] l IH]; intros done_ seen result Hwf Hl Hinv; cbn [foldl].
  - by rewrite app_nil_r.
  - pose proof (Edges_inv_round g done_ seen result a b e Hwf) as Hstep.
    destruct (Edges_round g (seen, result) (a, b, e)) as [seen' result'] eqn:Hr.
    replace (done_ ++ (a, b, e) :: l)%list with ((done_ ++ [(a, b, e)]) ++ l)%list
      by by rewrite <- app_assoc.
    apply IH; [done| |].
    + intros a' b' e' Hin. apply Hl. by right.
    + apply Hstep; [|done]. apply Hl. by left.
Qed.

Lemma Edges_inv_final ord g :
  wf g → ∃ seen, Edges_inv g (out_entries ord g) seen (Edges ord g).
Proof.
  intros Hwf. rewrite Edges_as_fold.
  pose proof (Edges_inv_fold g (out_entries ord g) [] ∅ [] Hwf) as H.
  eexists. apply H; [|apply Edges_inv_nil].
  intros a b e. apply out_entries_elem_of.
Qed.

End EdgesFacts.

Section EdgesSorted.
Context {N E : Type}.
Implicit Types g : Graph N E.

(** The edge as [Marshal] writes it: normalized when the graph is undirected. *)
Definition written_edge g (e : Edge.t E) : Edge.t E :=
  if negb (Directed g) then normalize_edge e else e.

Lemma written_edges g (l : list (Edge.t E)) :
  (if negb (Directed g) then normalize_edge <$> l else l) = written_edge g <$> l.
Proof.
  unfold written_edge. destruct (negb (Directed g)); [done|].
  by rewrite list_fmap_id.
Qed.

Lemma normalize_reverse (e : Edge.t E) :
  normalize_edge (reverse_edge e) = normalize_edge e.
Proof.
  destruct e as [a b d w]. unfold normalize_edge, reverse_edge; simpl.
  destruct (str_lt b a) eqn:H1, (str_lt a b) eqn:H2; try done.
  - pose proof (str_lt_asym _ _ H1). congruence.
  - by rewrite (str_lt_total _ _ H2 H1).
Qed.

Lemma written_edge_entry g a b e :
  wf g → inner (out g) a !! b = Some e →
  edge_key (written_edge g e) = (a, b) ∨
  (Directed g = false ∧ edge_key (written_edge g e) = (b, a)).
Proof.
  intros Hwf He. destruct (wf_edge_ends g Hwf a b e He) as (<- & <- & _).
  unfold written_edge, normalize_edge, edge_key.
  destruct (Directed g); simpl; [by left|].
  destruct (str_lt (Edge.To e) (Edge.From e)); simpl; auto.
Qed.

Lemma written_edge_eq g a1 b1 e1 a2 b2 e2 :
  wf g → inner (out g) a1 !! b1 = Some e1 → inner (out g) a2 !! b2 = Some e2 →
  edge_key (written_edge g e1) = edge_key (written_edge g e2) →
  written_edge g e1 = written_edge g e2.
Proof.
  intros Hwf H1 H2 Hk.
  destruct (written_edge_entry g a1 b1 e1 Hwf H1) as [K1|[Hd K1]],
           (written_edge_entry g a2 b2 e2 Hwf H2) as [K2|[Hd' K2]];
    rewrite K1, K2 in Hk; simplify_eq.
  - done.
  - rewrite (wf_undirected g Hwf Hd' _ _ _ H2) in H1. simplify_eq.
    unfold written_edge. rewrite Hd'. simpl. apply normalize_reverse.
  - rewrite (wf_undirected g Hwf Hd _ _ _ H1) in H2. simplify_eq.
    unfold written_edge. rewrite Hd. simpl. symmetry. apply normalize_reverse.
  - done.
Qed.

Lemma Edges_written_elem_of ord g x :
  wf g →
  x ∈ written_edge g <$> Edges ord g ↔
    ∃ a b e, inner (out g) a !! b = Some e ∧ x = written_edge g e.
Proof.
  intros Hwf. destruct (Edges_inv_final ord g Hwf) as (seen & [H1 H2 H3 H4 H5]).
  rewrite list_elem_of_fmap. split.
  - intros (e & -> & He). destruct (H1 e He) as [Hent _]. eauto.
  - intros (a & b & e & He & ->).
    destruct (wf_edge_ends g Hwf a b e He) as (Hf & Ht & _).
    destruct (H5 a b e) as [Hs|[Hd Hs]]; [by apply out_entries_elem_of|..].
    + destruct (H2 _ Hs) as (e' & He' & Hk). exists e'. split; [|done].
      destruct (H1 e' He') as [Hent _]. unfold edge_key in Hk.
      injection Hk as Hk1 Hk2. rewrite Hk1, Hk2 in Hent. congruence.
    + destruct (H2 _ Hs) as (e' & He' & Hk). exists e'. split; [|done].
      destruct (H1 e' He') as [Hent _]. unfold edge_key in Hk.
      injection Hk as Hk1 Hk2. rewrite Hk1, Hk2 in Hent.
      rewrite (wf_undirected g Hwf Hd _ _ _ He) in Hent. injection Hent as <-.
      unfold written_edge. rewrite Hd. simpl. symmetry. apply normalize_reverse.
Qed.

Lemma Edges_written_NoDup ord g : wf g → NoDup (written_edge g <$> Edges ord g).
Proof.
  intros Hwf. destruct (Edges_inv_final ord g Hwf) as (seen & [H1 H2 H3 H4 H5]).
  apply NoDup_fmap_2_strong; [|by apply NoDup_fmap_1 in H3].
  intros e1 e2 He1 He2 Heq.
  destruct (H1 e1 He1) as [Hent1 Hs1], (H1 e2 He2) as [Hent2 Hs2].
  destruct (Directed g) eqn:Hd.
  { unfold written_edge in Heq. by rewrite Hd in Heq. }
  assert (edge_key e1 = edge_key e2) as Hk.
  { unfold written_edge in Heq. rewrite Hd in Heq. simpl in Heq.
    apply (f_equal edge_key) in Heq. unfold normalize_edge, edge_key in *.
    destruct (str_lt (Edge.To e1) (Edge.From e1)), (str_lt (Edge.To e2) (Edge.From e2));
      simpl in Heq; injection Heq as Ha Hb; try by f_equal.
    - destruct (decide (Edge.From e1 = Edge.To e1)) as [Heq'|Hne]; [congruence|].
      exfalso. apply (H4 eq_refl _ _ Hs1 Hne). by rewrite Hb, Ha.
    - destruct (decide (Edge.From e1 = Edge.To e1)) as [Heq'|Hne]; [congruence|].
      exfalso. apply (H4 eq_refl _ _ Hs1 Hne). by rewrite Ha, Hb. }
  unfold edge_key in Hk. injection Hk as Hk1 Hk2. rewrite Hk1, Hk2 in Hent1. congruence.
Qed.

Lemma edge_less_key (x y : Edge.t E) : edge_less x y = key_less (edge_key x) (edge_key y).
Proof. done. Qed.

Lemma Edges_sorted_order_irrelevant ord1 ord2 g :
  wf g →
  sort_Slice edge_less (written_edge g <$> Edges ord1 g) =
  sort_Slice edge_less (written_edge g <$> Edges ord2 g).
Proof.
  intros Hwf. apply sort_Slice_unique.
  - intros x y. rewrite !edge_less_key. apply key_less_asym.
  - intros x y z. rewrite !edge_less_key. apply key_less_ntrans.
  - intros x y Hx Hy. rewrite !edge_less_key. intros Hxy Hyx.
    pose proof (key_less_total _ _ Hxy Hyx) as Hk.
    apply (Edges_written_elem_of ord1 g x Hwf) in Hx as (a1 & b1 & e1 & H1 & ->).
    apply (Edges_written_elem_of ord1 g y Hwf) in Hy as (a2 & b2 & e2 & H2 & ->).
    by apply (written_edge_eq g a1 b1 e1 a2 b2 e2).
  - apply NoDup_Permutation; [by apply Edges_written_NoDup..|].
    intros x. by rewrite !Edges_written_elem_of.
Qed.

(** The snapshot of a graph, Subgraph apart, does not depend on the order. *)
Lemma snapshot_graph_order_irrelevant ord1 ord2 g :
  wf g → snapshot_graph ord1 g = snapshot_graph ord2 g.
Proof.
  intros Hwf. unfold snapshot_graph. rewrite !written_edges.
  by rewrite (Nodes_order_irrelevant ord1 ord2 g Hwf),
             (Edges_sorted_order_irrelevant ord1 ord2 g Hwf).
Qed.

Lemma snapshot_meta_order_irrelevant ord1 ord2 opts g :
  wf g → snapshot_meta ord1 opts g = snapshot_meta ord2 opts g.
Proof.
  intros Hwf. unfold snapshot_meta.
  by rewrite (Nodes_order_irrelevant ord1 ord2 g Hwf), (edge_meta_keys_sorted ord1 ord2 g).
Qed.

End EdgesSorted.

(** ** Subgraph *)

Section SubgraphFacts.
Context {N E : Type}.
Implicit Types g sub : Graph N E.

(** Two graphs that satisfy the invariant are equal once their nodes, their
    edges and their metadata are. *)
Lemma nested_map_eq {A} (m1 m2 : gmap string (gmap string A)) :
  (∀ a, is_Some (m1 !! a) ↔ is_Some (m2 !! a)) →
  (∀ a b, inner m1 a !! b = inner m2 a !! b) → m1 = m2.
Proof.
  intros Hdom Hin. apply map_eq. intros a.
  specialize (Hdom a). pose proof (Hin a) as Ha. unfold inner in Ha.
  destruct (m1 !! a) as [x|] eqn:H1, (m2 !! a) as [y|] eqn:H2; simpl in Ha.
  - f_equal. by apply map_eq.
  - destruct Hdom as [Hd _]. destruct Hd; eauto. done.
  - destruct Hdom as [_ Hd]. destruct Hd; eauto. done.
  - done.
Qed.

Lemma wf_graph_eq g1 g2 :
  wf g1 → wf g2 → Directed g1 = Directed g2 → nodes g1 = nodes g2 →
  (∀ a b, inner (out g1) a !! b = inner (out g2) a !! b) →
  nodeMeta g1 = nodeMeta g2 → edgeMeta g1 = edgeMeta g2 → g1 = g2.
Proof.
  intros Hw1 Hw2 Hd Hn Ho Hnm Hem.
  assert (out g1 = out g2) as Hout.
  { apply nested_map_eq; [|done]. intros a.
    by rewrite (wf_node_out g1 Hw1), (wf_node_out g2 Hw2), Hn. }
  assert (in_ g1 = in_ g2) as Hin.
  { apply nested_map_eq.
    - intros a. by rewrite (wf_node_in g1 Hw1), (wf_node_in g2 Hw2), Hn.
    - intros a b. by rewrite <- (wf_out_in g1 Hw1), <- (wf_out_in g2 Hw2). }
  destruct g1, g2; simpl in *. by subst.
Qed.

(** *** The nodes *)

Definition Subgraph_nodes g (ids : list string) (sub : Graph N E) : Graph N E :=
  foldl (λ sub id, match GetNode g id with
                   | Some n => AddNode sub (Node.ID n) (Node.Data n)
                   | None => sub
                   end) sub ids.

Lemma Subgraph_nodes_spec g ids : ∀ sub,
  wf g → wf sub →
  let sub' := Subgraph_nodes g ids sub in
  wf sub' ∧ Directed sub' = Directed sub ∧
  nodeMeta sub' = nodeMeta sub ∧ edgeMeta sub' = edgeMeta sub ∧
  (∀ a b, inner (out sub') a !! b = inner (out sub) a !! b) ∧
  (∀ x, nodes sub' !! x =
        if bool_decide (x ∈ ids)
        then from_option Some (nodes sub !! x) (nodes g !! x)
        else nodes sub !! x).
Proof.
  induction ids as [|id ids IH]; intros sub Hwf Hsub.
  - by split_and!.
  - change (Subgraph_nodes g (id :: ids) sub) with
      (Subgraph_nodes g ids (match nodes g !! id with
                             | Some n => AddNode sub (Node.ID n) (Node.Data n)
                             | None => sub
                             end)).
    cbv zeta. destruct (nodes g !! id) as [n|] eqn:Hn.
    + pose proof (wf_node_id g Hwf id n Hn) as Hid.
      destruct (IH (AddNode sub (Node.ID n) (Node.Data n)) Hwf (wf_AddNode _ _ _ Hsub))
        as (H1 & H2 & H3 & H4 & H5 & H6).
      split_and!; try done.
      * intros a b. rewrite H5. simpl. by rewrite inner_make_if_nil.
      * intros x. rewrite H6. simpl. rewrite Hid.
        destruct (decide (x = id)) as [->|Hne].
        -- rewrite lookup_insert_eq, Hn. simpl.
           rewrite (bool_decide_eq_true_2 (id ∈ id :: ids)) by left.
           destruct n as [i d]. simpl in Hid. subst i. by case_bool_decide.
        -- rewrite lookup_insert_ne by done.
           apply (f_equal (λ b : bool, if b then _ else _)).
           apply bool_decide_ext. rewrite elem_of_cons. naive_solver.
    + destruct (IH sub Hwf Hsub) as (H1 & H2 & H3 & H4 & H5 & H6).
      split_and!; try done.
      intros x. rewrite H6.
      destruct (decide (x = id)) as [->|Hne].
      * rewrite Hn. simpl. by repeat case_bool_decide.
      * apply (f_equal (λ b : bool, if b then _ else _)).
        apply bool_decide_ext. rewrite elem_of_cons. naive_solver.
Qed.

(** *** The edges *)

Lemma AddEdge_frame g from to d w :
  let g' := (AddEdge g from to d w).1 in
  Directed g' = Directed g ∧ nodes g' = nodes g ∧
  nodeMeta g' = nodeMeta g ∧ edgeMeta g' = edgeMeta g.
Proof.
  unfold AddEdge. destruct (negb (HasNode g from)); [done|].
  destruct (negb (HasNode g to)); [done|]. by destruct (negb (Directed g)).
Qed.

Lemma AddEdge_out g from to d w x y :
  HasNode g from = true → HasNode g to = true →
  inner (out (AddEdge g from to d w).1) x !! y =
    if decide (Directed g = false ∧ x = to ∧ y = from) then Some (Edge.mk to from d w)
    else if decide (x = from ∧ y = to) then Some (Edge.mk from to d w)
    else inner (out g) x !! y.
Proof.
  intros Hf Ht. unfold AddEdge. rewrite Hf, Ht. simpl.
  destruct (Directed g) eqn:Hd; simpl.
  - rewrite inner_inner_insert. case_decide as Hc; [by destruct Hc|done].
  - rewrite !inner_inner_insert.
    destruct (decide (x = to ∧ y = from)) as [Hc|Hc].
    + by rewrite decide_True.
    + destruct (decide (false = false ∧ x = to ∧ y = from)) as [Hc'|Hc']; [|done].
      naive_solver.
Qed.

Definition Subgraph_edges (ord : MapOrder) g (idSet : gset string) (ids : list string)
    (sub : Graph N E) : Graph N E :=
  foldl (λ sub id, foldl (Subgraph_add_edge idSet) sub (OutEdges ord g id)) sub ids.

(** What holds of the subgraph while its edges are added: it keeps the nodes
    of [base], and each of its edges is an edge of [g] between two of [ids]. *)
Record sub_sound g (ids : list string) (base sub : Graph N E) : Prop := {
  ss_wf : wf sub;
  ss_directed : Directed sub = Directed g;
  ss_nodes : nodes sub = nodes base;
  ss_nodeMeta : nodeMeta sub = nodeMeta base;
  ss_edgeMeta : edgeMeta sub = edgeMeta base;
  ss_out : ∀ a b e, inner (out sub) a !! b = Some e →
    inner (out g) a !! b = Some e ∧ a ∈ ids ∧ b ∈ ids
}.

Lemma edge_eta (e : Edge.t E) a b :
  Edge.From e = a → Edge.To e = b → Edge.mk a b (Edge.Data e) (Edge.Weight e) = e.
Proof. destruct e. simpl. by intros -> ->. Qed.

Lemma Subgraph_add_edge_spec g ids base sub a b e :
  wf g →
  (∀ x, nodes base !! x = if bool_decide (x ∈ ids) then nodes g !! x else None) →
  sub_sound g ids base sub → inner (out g) a !! b = Some e → a ∈ ids →
  let sub' := Subgraph_add_edge (list_to_set ids) sub e in
  sub_sound g ids base sub' ∧
  (∀ x y, is_Some (inner (out sub) x !! y) → is_Some (inner (out sub') x !! y)) ∧
  (b ∈ ids → is_Some (inner (out sub') a !! b)).
Proof.
  intros Hwf Hbase Hss He Ha.
  destruct (wf_edge_ends g Hwf a b e He) as (Hf & Ht & Hb).
  pose proof (wf_edge_from_node g a b e Hwf He) as Han.
  unfold Subgraph_add_edge. rewrite Hf, Ht.
  case_bool_decide as Hbin; simpl.
  2:{ split_and!; [done|done|]. intros Hb'. exfalso. apply Hbin.
      by apply elem_of_list_to_set. }
  apply elem_of_list_to_set in Hbin.
  destruct (HasEdge sub a b) eqn:Hhas; simpl.
  { split_and!; [done|done|]. intros _. by apply HasEdge_true. }
  assert (HasNode sub a = true) as Hna.
  { apply HasNode_true. rewrite (ss_nodes _ _ _ _ Hss), Hbase.
    by rewrite bool_decide_eq_true_2. }
  assert (HasNode sub b = true) as Hnb.
  { apply HasNode_true. rewrite (ss_nodes _ _ _ _ Hss), Hbase.
    by rewrite bool_decide_eq_true_2. }
  pose proof (AddEdge_frame sub a b (Edge.Data e) (Edge.Weight e)) as (F1 & F2 & F3 & F4).
  pose proof (AddEdge_out sub a b (Edge.Data e) (Edge.Weight e)) as Hout.
  rewrite (edge_eta e a b Hf Ht) in Hout.
  split_and!.
  - split.
    + apply wf_AddEdge, Hss.
    + rewrite F1. apply Hss.
    + rewrite F2. apply Hss.
    + rewrite F3. apply Hss.
    + rewrite F4. apply Hss.
    + intros x y e'. rewrite Hout by done.
      destruct (decide (Directed sub = false ∧ x = b ∧ y = a)) as [Hc1|Hc1].
      * destruct Hc1 as (Hd & -> & ->). intros [= <-].
        rewrite (ss_directed _ _ _ _ Hss) in Hd.
        split_and!; [|done..].
        rewrite (wf_undirected g Hwf Hd a b e He). f_equal.
        unfold reverse_edge. by rewrite Hf, Ht.
      * destruct (decide (x = a ∧ y = b)) as [Hc2|Hc2].
        -- destruct Hc2 as [-> ->]. by intros [= <-].
        -- apply Hss.
  - intros x y Hxy. rewrite Hout by done.
    destruct (decide (Directed sub = false ∧ x = b ∧ y = a)); [done|].
    by destruct (decide (x = a ∧ y = b)).
  - intros _. rewrite Hout by done.
    destruct (decide (Directed sub = false ∧ a = b ∧ b = a)); [done|].
    by rewrite decide_True.
Qed.

Lemma Subgraph_edges_inner g ids base (l : list (Edge.t E)) a : ∀ sub,
  wf g →
  (∀ x, nodes base !! x = if bool_decide (x ∈ ids) then nodes g !! x else None) →
  sub_sound g ids base sub → a ∈ ids →
  (∀ e, e ∈ l → inner (out g) a !! Edge.To e = Some e) →
  let sub' := foldl (Subgraph_add_edge (list_to_set ids)) sub l in
  sub_sound g ids base sub' ∧
  (∀ x y, is_Some (inner (out sub) x !! y) → is_Some (inner (out sub') x !! y)) ∧
  (∀ e, e ∈ l → Edge.To e ∈ ids → is_Some (inner (out sub') a !! Edge.To e)).
Proof.
  induction l as [|e l IH]; intros sub Hwf Hbase Hss Ha Hl; cbn [foldl].
  - split_and!; [done|done|]. intros e He. by apply elem_of_nil in He.
  - destruct (Subgraph_add_edge_spec g ids base sub a (Edge.To e) e Hwf Hbase Hss)
      as (Hss' & Hmono & Hnew); [apply Hl; by left|done|].
    destruct (IH _ Hwf Hbase Hss' Ha) as (Hss'' & Hmono' & Hnew').
    { intros e' He'. apply Hl. by right. }
    split_and!; [done|by auto|].
    intros e' He' Hin. apply elem_of_cons in He' as [->|He']; [|by apply Hnew'].
    by apply Hmono', Hnew.
Qed.

Lemma OutEdges_entries ord g a e :
  wf g → e ∈ OutEdges ord g a → inner (out g) a !! Edge.To e = Some e.
Proof.
  intros Hwf He. apply range_values_elem_of in He as [b Hb].
  by destruct (wf_edge_ends g Hwf a b e Hb) as (_ & -> & _).
Qed.

Lemma Subgraph_edges_spec ord g ids base (l : list string) : ∀ sub,
  wf g →
  (∀ x, nodes base !! x = if bool_decide (x ∈ ids) then nodes g !! x else None) →
  sub_sound g ids base sub → (∀ a, a ∈ l → a ∈ ids) →
  let sub' := Subgraph_edges ord g (list_to_set ids) l sub in
  sub_sound g ids base sub' ∧
  (∀ x y, is_Some (inner (out sub) x !! y) → is_Some (inner (out sub') x !! y)) ∧
  (∀ a b e, a ∈ l → b ∈ ids → inner (out g) a !! b = Some e →
            is_Some (inner (out sub') a !! b)).
Proof.
  induction l as [|a l IH]; intros sub Hwf Hbase Hss Hl; cbn [Subgraph_edges foldl].
  - split_and!; [done|done|]. intros a b e Ha. by apply elem_of_nil in Ha.
  - destruct (Subgraph_edges_inner g ids base (OutEdges ord g a) a sub Hwf Hbase Hss)
      as (Hss' & Hmono & Hnew); [apply Hl; by left| |].
    { intros e. by apply OutEdges_entries. }
    destruct (IH _ Hwf Hbase Hss') as (Hss'' & Hmono' & Hnew').
    { intros a' Ha'. apply Hl. by right. }
    split_and!; [done|by auto|].
    intros a' b e Ha' Hb He. apply elem_of_cons in Ha' as [->|Ha']; [|by eapply Hnew'].
    apply Hmono'. destruct (wf_edge_ends g Hwf a b e He) as (_ & Ht & _).
    rewrite <- Ht. apply Hnew; [|by rewrite Ht].
    apply range_values_elem_of. eauto.
Qed.

Lemma Subgraph_edges_order_irrelevant ord1 ord2 g ids base :
  wf g → wf base → Directed base = Directed g →
  (∀ a b, inner (out base) a !! b = None) →
  (∀ x, nodes base !! x = if bool_decide (x ∈ ids) then nodes g !! x else None) →
  wf (Subgraph_edges ord1 g (list_to_set ids) ids base) ∧
  Subgraph_edges ord1 g (list_to_set ids) ids base =
  Subgraph_edges ord2 g (list_to_set ids) ids base.
Proof.
  intros Hwf Hwfb Hd Hempty Hbase.
  assert (sub_sound g ids base base) as Hss0.
  { split; try done. intros a b e. by rewrite Hempty. }
  destruct (Subgraph_edges_spec ord1 g ids base ids base Hwf Hbase Hss0)
    as (Hs1 & _ & Hc1); [done|].
  destruct (Subgraph_edges_spec ord2 g ids base ids base Hwf Hbase Hss0)
    as (Hs2 & _ & Hc2); [done|].
  split; [apply Hs1|].
  apply wf_graph_eq.
  - apply Hs1.
  - apply Hs2.
  - by rewrite (ss_directed _ _ _ _ Hs1), (ss_directed _ _ _ _ Hs2).
  - by rewrite (ss_nodes _ _ _ _ Hs1), (ss_nodes _ _ _ _ Hs2).
  - intros a b.
    destruct (inner (out (Subgraph_edges ord1 g (list_to_set ids) ids base)) a !! b)
      as [e1|] eqn:H1;
    destruct (inner (out (Subgraph_edges ord2 g (list_to_set ids) ids base)) a !! b)
      as [e2|] eqn:H2; [| | |done].
    + destruct (ss_out _ _ _ _ Hs1 a b e1 H1) as (G1 & _ & _).
      destruct (ss_out _ _ _ _ Hs2 a b e2 H2) as (G2 & _ & _). congruence.
    + destruct (ss_out _ _ _ _ Hs1 a b e1 H1) as (G1 & Ha & Hb).
      destruct (Hc2 a b e1 Ha Hb G1) as [e2 He2]. congruence.
    + destruct (ss_out _ _ _ _ Hs2 a b e2 H2) as (G2 & Ha & Hb).
      destruct (Hc1 a b e2 Ha Hb G2) as [e1 He1]. congruence.
  - by rewrite (ss_nodeMeta _ _ _ _ Hs1), (ss_nodeMeta _ _ _ _ Hs2).
  - by rewrite (ss_edgeMeta _ _ _ _ Hs1), (ss_edgeMeta _ _ _ _ Hs2).
Qed.

(** *** The metadata *)

Definition Subgraph_nodeMeta g (ids : list string) (sub : Graph N E) : Graph N E :=
  foldl (λ sub id, match nodeMeta g !! id with
                   | Some store =>
                       set_nodeMeta sub (<[id := StoreOps.Copy store]> (nodeMeta sub))
                   | None => sub
                   end) sub ids.

Definition Subgraph_edgeMeta (ord : MapOrder) g (idSet : gset string) (sub : Graph N E)
  : Graph N E :=
  foldl (λ sub fm, foldl (Subgraph_add_edgeMeta idSet fm.1) sub (range ord fm.2))
        sub (range ord (edgeMeta g)).

Lemma Subgraph_stages ord g ids :
  Subgraph ord g ids =
    Subgraph_edgeMeta ord g (list_to_set ids)
      (Subgraph_nodeMeta g ids
         (Subgraph_edges ord g (list_to_set ids) ids
            (Subgraph_nodes g ids (NewGraph (Directed g))))).
Proof. reflexivity. Qed.

Lemma set_nodeMeta_eta sub : set_nodeMeta sub (nodeMeta sub) = sub.
Proof. by destruct sub. Qed.

Lemma set_edgeMeta_eta sub : set_edgeMeta sub (edgeMeta sub) = sub.
Proof. by destruct sub. Qed.

Lemma Subgraph_nodeMeta_shape g ids : ∀ sub,
  ∃ nm, Subgraph_nodeMeta g ids sub = set_nodeMeta sub nm.
Proof.
  induction ids as [|id ids IH]; intros sub.
  - exists (nodeMeta sub). by rewrite set_nodeMeta_eta.
  - change (Subgraph_nodeMeta g (id :: ids) sub) with
      (Subgraph_nodeMeta g ids
         (match nodeMeta g !! id with
          | Some store => set_nodeMeta sub (<[id := StoreOps.Copy store]> (nodeMeta sub))
          | None => sub
          end)).
    destruct (nodeMeta g !! id) as [store|]; [|apply IH].
    destruct (IH (set_nodeMeta sub (<[id := StoreOps.Copy store]> (nodeMeta sub))))
      as [nm ->]. by exists nm.
Qed.

(** The entries of a map of maps in the order of two nested loops. *)
Definition nested_entries {A} (ord : MapOrder) (m : gmap string (gmap string A))
  : list (string * string * A) :=
  fm ← range ord m; ts ← range ord fm.2; [(fm.1, ts.1, ts.2)].

Lemma nested_entries_elem_of {A} ord (m : gmap string (gmap string A)) a b v :
  (a, b, v) ∈ nested_entries ord m ↔ inner m a !! b = Some v.
Proof.
  unfold nested_entries. rewrite list_elem_of_bind. split.
  - intros ([k mi] & Hin & Hm). apply list_elem_of_bind in Hin as ([k' v'] & Hin & Hv).
    apply list_elem_of_singleton in Hin. simpl in *. simplify_eq.
    apply range_elem_of in Hm, Hv. apply inner_lookup_Some. eauto.
  - intros Hv. apply inner_lookup_Some in Hv as (mi & Hm & Hv).
    exists (a, mi). split; [|by apply range_elem_of].
    apply list_elem_of_bind. exists (b, v). split; [by left|by apply range_elem_of].
Qed.

(** One round of the loop over the edge stores, on the map alone. *)
Definition edgeMeta_round (c : string → string → bool)
    (em : gmap string (gmap string Store)) (t : string * string * Store) :=
  if c t.1.1 t.1.2 then inner_insert em t.1.1 t.1.2 (StoreOps.Copy t.2) else em.

Definition edge_included (idSet : gset string) sub (a b : string) : bool :=
  bool_decide (a ∈ idSet) && bool_decide (b ∈ idSet) && HasEdge sub a b.

Lemma Subgraph_edgeMeta_fold idSet sub (l : list (string * string * Store)) : ∀ em,
  foldl (λ s t, Subgraph_add_edgeMeta idSet t.1.1 s (t.1.2, t.2)) (set_edgeMeta sub em) l =
  set_edgeMeta sub (foldl (edgeMeta_round (edge_included idSet sub)) em l).
Proof.
  induction l as [|[[a b] s] l IH]; intros em; cbn [foldl]; [done|].
  rewrite <- IH. f_equal.
  unfold Subgraph_add_edgeMeta, edgeMeta_round, edge_included. simpl.
  change (HasEdge (set_edgeMeta sub em) a b) with (HasEdge sub a b).
  by destruct (bool_decide (a ∈ idSet) && bool_decide (b ∈ idSet) && HasEdge sub a b).
Qed.

Lemma Subgraph_edgeMeta_as_fold ord g idSet sub :
  Subgraph_edgeMeta ord g idSet sub =
  set_edgeMeta sub (foldl (edgeMeta_round (edge_included idSet sub)) (edgeMeta sub)
                          (nested_entries ord (edgeMeta g))).
Proof.
  rewrite <- Subgraph_edgeMeta_fold, set_edgeMeta_eta.
  unfold Subgraph_edgeMeta, nested_entries. rewrite foldl_bind.
  apply foldl_pointwise. intros s fm. rewrite foldl_bind.
  apply foldl_pointwise. intros s' ts. by destruct ts.
Qed.

Lemma edgeMeta_fold_spec (c : string → string → bool) (K : list (string * string * Store)) :
  (∀ a b s s', (a, b, s) ∈ K → (a, b, s') ∈ K → s = s') →
  let R := foldl (edgeMeta_round c) ∅ K in
  (∀ a b s, inner R a !! b = Some s ↔
            c a b = true ∧ ∃ s0, (a, b, s0) ∈ K ∧ s = StoreOps.Copy s0) ∧
  (∀ a m, R !! a = Some m → ∃ b, is_Some (m !! b)).
Proof.
  induction K as [|[[a0 b0] s0] K IH] using rev_ind; intros Hfun; cbv zeta.
  - split.
    + intros a b s. unfold inner. simpl. rewrite lookup_empty. simpl. rewrite lookup_empty.
      split; [done|]. intros (_ & s0 & Hin & _). by apply elem_of_nil in Hin.
    + intros a m. simpl. by rewrite lookup_empty.
  - rewrite foldl_app. cbn [foldl].
    destruct IH as [IH1 IH2].
    { intros a b s s' H1 H2. apply (Hfun a b); apply elem_of_app; by left. }
    set (R := foldl (edgeMeta_round c) ∅ K) in *.
    unfold edgeMeta_round. simpl.
    destruct (c a0 b0) eqn:Hc.
    + split.
      * intros a b s. rewrite inner_inner_insert.
        destruct (decide (a = a0 ∧ b = b0)) as [[-> ->]|Hne].
        -- split.
           ++ intros [= <-]. split; [done|]. exists s0. split; [|done].
              apply elem_of_app. right. by left.
           ++ intros (_ & s1 & Hin & ->). do 2 f_equal.
              apply (Hfun a0 b0); [apply elem_of_app; right; by left|done].
        -- rewrite IH1. split.
           ++ intros (? & s1 & Hin & ->). split; [done|]. exists s1.
              split; [|done]. apply elem_of_app. by left.
           ++ intros (? & s1 & Hin & ->). split; [done|]. exists s1. split; [|done].
              apply elem_of_app in Hin as [Hin|Hin]; [done|].
              apply list_elem_of_singleton in Hin. naive_solver.
      * intros a m. unfold inner_insert.
        destruct (decide (a0 = a)) as [<-|Hne].
        -- rewrite lookup_insert_eq. intros [= <-]. exists b0.
           rewrite lookup_insert_eq. eauto.
        -- rewrite lookup_insert_ne by done. apply IH2.
    + split; [|done].
      intros a b s. rewrite IH1. split.
      * intros (? & s1 & Hin & ->). split; [done|]. exists s1.
        split; [|done]. apply elem_of_app. by left.
      * intros (? & s1 & Hin & ->). split; [done|]. exists s1. split; [|done].
        apply elem_of_app in Hin as [Hin|Hin]; [done|].
        apply list_elem_of_singleton in Hin. simplify_eq. congruence.
Qed.

Lemma Subgraph_edgeMeta_order_irrelevant ord1 ord2 g idSet sub :
  edgeMeta sub = ∅ →
  Subgraph_edgeMeta ord1 g idSet sub = Subgraph_edgeMeta ord2 g idSet sub.
Proof.
  intros Hem. rewrite !Subgraph_edgeMeta_as_fold, Hem. f_equal.
  assert (∀ ord a b s s', (a, b, s) ∈ nested_entries ord (edgeMeta g) →
            (a, b, s') ∈ nested_entries ord (edgeMeta g) → s = s') as Hfun.
  { intros ord a b s s' H1 H2. apply nested_entries_elem_of in H1, H2. congruence. }
  destruct (edgeMeta_fold_spec (edge_included idSet sub) _ (Hfun ord1)) as [A1 B1].
  destruct (edgeMeta_fold_spec (edge_included idSet sub) _ (Hfun ord2)) as [A2 B2].
  assert (∀ a b, inner (foldl (edgeMeta_round (edge_included idSet sub)) ∅
                          (nested_entries ord1 (edgeMeta g))) a !! b =
                 inner (foldl (edgeMeta_round (edge_included idSet sub)) ∅
                          (nested_entries ord2 (edgeMeta g))) a !! b) as Hin.
  { intros a b. apply option_eq. intros s. rewrite A1, A2.
    by setoid_rewrite nested_entries_elem_of. }
  apply nested_map_eq; [|done].
  intros a. split; intros [m Hm].
  - destruct (B1 a m Hm) as [b [s Hs]].
    assert (inner (foldl (edgeMeta_round (edge_included idSet sub)) ∅
                     (nested_entries ord1 (edgeMeta g))) a !! b = Some s) as H1
      by (apply inner_lookup_Some; eauto).
    rewrite Hin in H1. apply inner_lookup_Some in H1 as (m' & -> & _). eauto.
  - destruct (B2 a m Hm) as [b [s Hs]].
    assert (inner (foldl (edgeMeta_round (edge_included idSet sub)) ∅
                     (nested_entries ord2 (edgeMeta g))) a !! b = Some s) as H2
      by (apply inner_lookup_Some; eauto).
    rewrite <- Hin in H2. apply inner_lookup_Some in H2 as (m' & -> & _). eauto.
Qed.

(** [Subgraph] gives one graph, whatever the iteration order, and that graph
    satisfies the invariant. *)
Lemma Subgraph_order_irrelevant ord1 ord2 g ids :
  wf g → wf (Subgraph ord1 g ids) ∧ Subgraph ord1 g ids = Subgraph ord2 g ids.
Proof.
  intros Hwf. rewrite !Subgraph_stages.
  destruct (Subgraph_nodes_spec g ids (NewGraph (Directed g)) Hwf (wf_NewGraph _))
    as (Hw & Hd & Hnm & Hem & Hout & Hnodes).
  set (base := Subgraph_nodes g ids (NewGraph (Directed g))) in *.
  destruct (Subgraph_edges_order_irrelevant ord1 ord2 g ids base Hwf Hw Hd)
    as [Hw2 Heq].
  { intros a b. rewrite Hout. unfold inner. simpl. rewrite lookup_empty. simpl.
    apply lookup_empty. }
  { intros x. rewrite Hnodes. simpl. rewrite lookup_empty.
    case_bool_decide; [|done]. by destruct (nodes g !! x). }
  rewrite <- Heq.
  set (sub2 := Subgraph_edges ord1 g (list_to_set ids) ids base) in *.
  destruct (Subgraph_nodeMeta_shape g ids sub2) as [nm Hshape]. rewrite Hshape.
  assert (edgeMeta sub2 = ∅) as Hem2.
  { assert (sub_sound g ids base sub2) as Hss.
    { apply Subgraph_edges_spec; try done.
      - intros x. rewrite Hnodes. simpl. rewrite lookup_empty.
        case_bool_decide; [|done]. by destruct (nodes g !! x).
      - split; try done. intros a b e. rewrite Hout. unfold inner. simpl.
        rewrite lookup_empty. simpl. by rewrite lookup_empty. }
    by rewrite (ss_edgeMeta _ _ _ _ Hss), Hem. }
  split.
  - rewrite Subgraph_edgeMeta_as_fold. simpl.
    destruct Hw2 as [W1 W2 W3 W4 W5 W6]. by split.
  - by apply Subgraph_edgeMeta_order_irrelevant.
Qed.

End SubgraphFacts.

(** ** Marshal is deterministic *)

Section MarshalDeterministic.
Context {N E : Type}.
Implicit Types g : Graph N E.

Lemma snapshot_order_irrelevant ord1 ord2 opts g :
  wf g → snapshot ord1 opts g = snapshot ord2 opts g.
Proof.
  intros Hwf. unfold snapshot.
  destruct (NodeIDs opts) as [ids|].
  - destruct (Subgraph_order_irrelevant ord1 ord2 g ids Hwf) as [Hw <-].
    by rewrite (snapshot_graph_order_irrelevant ord1 ord2 _ Hw),
               (snapshot_meta_order_irrelevant ord1 ord2 opts _ Hw).
  - by rewrite (snapshot_graph_order_irrelevant ord1 ord2 _ Hwf),
               (snapshot_meta_order_irrelevant ord1 ord2 opts _ Hwf).
Qed.

(** The orders of the four lists of a snapshot. *)
Definition ids_ascend (x y : string) : Prop := str_lt y x = false.
Definition keys_ascend (x y : string * string) : Prop := key_less y x = false.

Lemma Nodes_sorted ord g :
  Sorted (λ x y, ids_ascend (Node.ID x) (Node.ID y)) (Nodes ord g).
Proof.
  apply (sort_Slice_Sorted (λ x y, str_lt (Node.ID x) (Node.ID y))).
  intros x y. apply str_lt_asym.
Qed.

Lemma normalize_edge_ordered (e : Edge.t E) :
  str_lt (Edge.To (normalize_edge e)) (Edge.From (normalize_edge e)) = false.
Proof.
  unfold normalize_edge. destruct (str_lt (Edge.To e) (Edge.From e)) eqn:H; simpl; [|done].
  by apply str_lt_asym.
Qed.

Lemma snapshot_graph_sorted ord g :
  let gd := snapshot_graph ord g in
  Sorted (λ x y, ids_ascend (Snap.ID x) (Snap.ID y)) (Snap.Nodes gd) ∧
  Sorted (λ x y, keys_ascend (Snap.From x, Snap.To x) (Snap.From y, Snap.To y))
         (Snap.Edges gd) ∧
  (Directed g = false →
   Forall (λ e, str_lt (Snap.To e) (Snap.From e) = false) (Snap.Edges gd)).
Proof.
  unfold snapshot_graph. rewrite written_edges. simpl. split_and!.
  - eapply Sorted_fmap; [|apply Nodes_sorted]. intros x y H. exact H.
  - eapply Sorted_fmap; [|apply (sort_Slice_Sorted edge_less)].
    + intros x y H. exact H.
    + intros x y. rewrite !edge_less_key. apply key_less_asym.
  - intros Hd. apply Forall_fmap, Forall_forall. intros e He. simpl.
    apply sort_Slice_elem_of, list_elem_of_fmap in He as (e0 & -> & _).
    unfold written_edge. rewrite Hd. simpl. apply normalize_edge_ordered.
Qed.

Lemma snapshot_node_meta_id opts g n m :
  m ∈ snapshot_node_meta opts g n → Snap.nm_ID m = Node.ID n.
Proof.
  unfold snapshot_node_meta. destruct (nodeMeta g !! Node.ID n) as [store|];
    [|by intros ?%elem_of_nil].
  destruct (StoreOps.Len store =? 0)%nat; [by intros ?%elem_of_nil|].
  by intros ->%list_elem_of_singleton.
Qed.

Lemma node_meta_sorted opts g (l : list (Node.t N)) :
  StronglySorted (λ x y, ids_ascend (Node.ID x) (Node.ID y)) l →
  StronglySorted (λ x y, ids_ascend (Snap.nm_ID x) (Snap.nm_ID y))
                 (flat_map (snapshot_node_meta opts g) l).
Proof.
  induction 1 as [|n l Hl IH Hall]; simpl; [constructor|].
  assert (Forall (λ m, ids_ascend (Node.ID n) (Snap.nm_ID m))
                 (flat_map (snapshot_node_meta opts g) l)) as Hrest.
  { apply Forall_forall. intros m Hm.
    apply list_elem_of_In, in_flat_map in Hm as (n' & Hn' & Hm).
    apply list_elem_of_In in Hn', Hm. apply snapshot_node_meta_id in Hm. rewrite Hm.
    rewrite Forall_forall in Hall. by apply Hall. }
  unfold snapshot_node_meta at 1. destruct (nodeMeta g !! Node.ID n) as [store|]; [|done].
  destruct (StoreOps.Len store =? 0)%nat; [done|]. simpl. by constructor.
Qed.

#[local] Instance ids_ascend_trans : Transitive (λ x y : Node.t N, ids_ascend (Node.ID x) (Node.ID y)).
Proof. intros x y z. unfold ids_ascend. intros H1 H2. by eapply str_lt_ntrans. Qed.

Lemma snapshot_meta_sorted ord opts g :
  let md := snapshot_meta ord opts g in
  Sorted (λ x y, ids_ascend (Snap.nm_ID x) (Snap.nm_ID y)) (Snap.md_Nodes md) ∧
  Sorted (λ x y, keys_ascend (Snap.em_From x, Snap.em_To x) (Snap.em_From y, Snap.em_To y))
         (Snap.md_Edges md).
Proof.
  unfold snapshot_meta. simpl. split.
  - apply StronglySorted_Sorted, node_meta_sorted, Sorted_StronglySorted; [apply _|].
    apply Nodes_sorted.
  - eapply Sorted_fmap; [|apply (sort_Slice_Sorted key_less), key_less_asym].
    intros [a b] [c d] H. exact H.
Qed.

(** Encoders of the payloads, whatever they are. *)
Variable encN : N → option json.
Variable encE : E → option json.
Variable encV : value → option json.
Variable encF : float → option json.

Lemma Marshal_order_irrelevant ord1 ord2 g (opts : option MarshalOptions) :
  wf g →
  Marshal encN encE encV encF ord1 g opts = Marshal encN encE encV encF ord2 g opts.
Proof.
  intros Hwf. unfold Marshal. by rewrite (snapshot_order_irrelevant ord1 ord2 _ g Hwf).
Qed.

(** C4. For a graph that satisfies the graph invariant and any options, the
    bytes [Marshal] returns are the same under every iteration order of the
    maps; and in the snapshot it writes, under every order, the nodes ascend
    by ID, the edges ascend by (from, to) and have from <= to when the graph
    is undirected, the node stores ascend by ID and the edge stores by
    (from, to). *)
Theorem Marshal_deterministic g (opts : option MarshalOptions) :
  wf g →
  (∀ ord1 ord2,
     Marshal encN encE encV encF ord1 g opts = Marshal encN encE encV encF ord2 g opts) ∧
  (∀ ord o,
     let s := snapshot ord o g in
     (∀ gd, Snap.Graph s = Some gd →
        Sorted (λ x y, ids_ascend (Snap.ID x) (Snap.ID y)) (Snap.Nodes gd) ∧
        Sorted (λ x y, keys_ascend (Snap.From x, Snap.To x) (Snap.From y, Snap.To y))
               (Snap.Edges gd) ∧
        (Snap.Directed s = false →
         Forall (λ e, str_lt (Snap.To e) (Snap.From e) = false) (Snap.Edges gd))) ∧
     (∀ md, Snap.Meta s = Some md →
        Sorted (λ x y, ids_ascend (Snap.nm_ID x) (Snap.nm_ID y)) (Snap.md_Nodes md) ∧
        Sorted (λ x y, keys_ascend (Snap.em_From x, Snap.em_To x)
                                   (Snap.em_From y, Snap.em_To y))
               (Snap.md_Edges md))).
Proof.
  intros Hwf. split.
  - intros ord1 ord2. by apply Marshal_order_irrelevant.
  - intros ord o. unfold snapshot. simpl. split.
    + intros gd Hgd. destruct (opt_Graph o); [|done]. injection Hgd as <-.
      apply snapshot_graph_sorted.
    + intros md Hmd. destruct (opt_Meta o); [|done]. injection Hmd as <-.
      apply snapshot_meta_sorted.
Qed.

End MarshalDeterministic.

(** ** Examples of serialization *)

(** The encoding of encoding/json for the payloads of the examples: text for
    the node and edge data, and numbers that are integers of at most 2^53 in
    absolute value, which float64 holds exactly and which are printed without
    a fraction or an exponent. *)
Module JsonExample.

Definition enc_text (s : string) : option json := Some (JString s).

Definition dec_text (j : json) : option string :=
  match j with
  | JString s => Some (utf8_coerce s)
  | JNull => Some ""
  | _ => None
  end.

(** The integer a float64 is, if it is one. *)
Definition float_to_Z (f : float) : option Z :=
  match FloatOps.Prim2SF f with
  | SpecFloat.S754_zero false => Some 0%Z
  | SpecFloat.S754_finite s m e =>
      let sign := if s then (-1)%Z else 1%Z in
      if (0 <=? e)%Z then Some (sign * (Z.pos m * 2 ^ e))%Z
      else if (Z.pos m mod 2 ^ (- e) =? 0)%Z then Some (sign * (Z.pos m / 2 ^ (- e)))%Z
      else None
  | _ => None
  end.

Definition enc_float (f : float) : option json :=
  z ← float_to_Z f;
  if (Z.abs z <=? 2 ^ 53)%Z then Some (JNumber (print_int z)) else None.

(** The float64 nearest to an integer literal. *)
Definition Z_to_float (z : Z) : option float :=
  if (Z.abs z <? 2 ^ 62)%Z then
    let f := PrimFloat.of_uint63 (Uint63.of_Z (Z.abs z)) in
    Some (if (z <? 0)%Z then PrimFloat.opp f else f)
  else None.

Definition dec_float (j : json) : option float :=
  match j with
  | JNumber lit => z ← parse_int lit; Z_to_float z
  | _ => None
  end.

(** A value of a store, as [json.Marshal] writes an [any]. *)
Definition enc_value (v : value) : option json :=
  match v with
  | VNil => Some JNull
  | VString s => Some (JString s)
  | VBool b => Some (JBool b)
  | VInt _ n => Some (JNumber (print_int n))
  | VFloat64 f => enc_float f
  | _ => None
  end.

(** A value of a store, as [json.Unmarshal] reads into an [any]: a number
    becomes a float64. *)
Definition dec_value (j : json) : value :=
  match j with
  | JNull => VNil
  | JBool b => VBool b
  | JString s => VString (utf8_coerce s)
  | JNumber lit =>
      match dec_float j with
      | Some f => VFloat64 f
      | None => VOther "number"
      end
  | JArray _ => VSliceAny []
  | JObject _ => VMapAny []
  end.

Definition Marshal (ord : MapOrder) (g : Graph string string) (opts : option MarshalOptions)
  : option Encoded :=
  Marshal enc_text enc_text enc_value enc_float ord g opts.

Definition Unmarshal (data : Encoded) : Graph string string + UnmarshalError :=
  Unmarshal dec_text "" dec_text "" dec_value dec_float data.

(** An undirected graph with the edge b - a, entered from b, and a store on
    the node b and on the edge. *)
Definition undirected_sample : Graph string string :=
  let g := AddNode (NewGraph false) "b" "B" in
  let g := AddNode g "a" "A" in
  let g := (AddEdge g "b" "a" "ba" 2%float).1 in
  let g := update_NodeMeta g "b" (λ s, StoreOps.Set_ s "lang" (VString "go")) in
  update_EdgeMeta g "b" "a" (λ s, StoreOps.Set_ s "count" (VInt KInt 10)).

End JsonExample.

Section SerializeExamples.
Import JsonExample.

Lemma undirected_sample_wf : wf undirected_sample.
Proof.
  assert (undirected_sample =
          let g := (AddEdge (AddNode (AddNode (NewGraph false) "b" "B") "a" "A")
                            "b" "a" "ba" 2%float).1 in
          mkGraph (Directed g) (nodes g) (out g) (in_ g)
                  (nodeMeta undirected_sample) (edgeMeta undirected_sample)) as ->
    by (vm_compute; reflexivity).
  apply wf_meta_irrelevant.
  apply wf_AddEdge, wf_AddNode, wf_AddNode, wf_NewGraph.
Qed.

Lemma Marshal_deterministic_witness :
  wf undirected_sample ∧
  JsonExample.Marshal order_id undirected_sample None =
  JsonExample.Marshal order_rev undirected_sample None.
Proof.
  split; [exact undirected_sample_wf|].
  destruct (Marshal_deterministic enc_text enc_text enc_value enc_float
              undirected_sample None undirected_sample_wf) as [H _].
  exact (H order_id order_rev).
Defined.

(** The snapshot of the sample is a fixed point: the count, an int, comes
    back as a float64 and is written with the same digits. *)
Lemma Marshal_Unmarshal_sample :
  ∃ data g',
    JsonExample.Marshal order_id undirected_sample None = Some data ∧
    JsonExample.Unmarshal data = inl g' ∧
    inner (edgeMeta g') "a" !! "b" =
      Some {| entries := {["count" := VFloat64 10%float]}; schema := None |} ∧
    JsonExample.Marshal order_id g' None = Some data.
Proof.
  eexists _, _. split_and!.
  - vm_compute. reflexivity.
  - vm_compute. reflexivity.
  - vm_compute. reflexivity.
  - vm_compute. reflexivity.
Qed.

End SerializeExamples.

(** ** Slices that are already sorted *)

Section SortedSlices.
Context {A : Type} (less : A → A → bool).
Hypothesis less_asym : ∀ x y, less x y = true → less y x = false.
Hypothesis less_ntrans : ∀ x y z, less x y = false → less y z = false → less x z = false.

(** Sorting gives the sorted slice with the same elements, when [less] tells
    any two different elements apart. *)
Lemma sort_Slice_eq l1 l2 :
  (∀ x y, x ∈ l1 → y ∈ l1 → less x y = false → less y x = false → x = y) →
  l1 ≡ₚ l2 → Sorted (not_after less) l2 → sort_Slice less l1 = l2.
Proof.
  intros Hanti Hperm Hs.
  assert (Transitive (not_after less)) as Htrans.
  { intros x y z Hxy Hyz. unfold not_after in *. by eapply less_ntrans. }
  apply (Sorted_unique_strong (not_after less)).
  - intros x y Hx Hy H1 H2. apply sort_Slice_elem_of in Hx.
    apply Hanti; [done|by rewrite Hperm|exact H2|exact H1].
  - by apply sort_Slice_Sorted.
  - done.
  - by rewrite sort_Slice_perm.
Qed.

End SortedSlices.

Lemma Sorted_fmap_iff {A B} (R : relation B) (f : A → B) (l : list A) :
  Sorted R (f <$> l) ↔ Sorted (λ x y, R (f x) (f y)) l.
Proof.
  induction l as [|x l IH]; simpl.
  - split; constructor.
  - split; intros H; inversion_clear H as [|?? Hs Hhd]; constructor.
    + by apply IH.
    + destruct l; simpl in *; inversion_clear Hhd; by constructor.
    + by apply IH.
    + destruct l; simpl in *; inversion_clear Hhd; by constructor.
Qed.

Lemma NoDup_fmap_eq {A B} (f : A → B) (l : list A) x y :
  NoDup (f <$> l) → x ∈ l → y ∈ l → f x = f y → x = y.
Proof.
  induction l as [|z l IH]; simpl; [by intros _ ?%elem_of_nil|].
  intros [Hz Hnd]%NoDup_cons [->|Hx]%elem_of_cons [->|Hy]%elem_of_cons Hf; auto.
  - destruct Hz. rewrite Hf. by apply list_elem_of_fmap_2.
  - destruct Hz. rewrite <- Hf. by apply list_elem_of_fmap_2.
Qed.

(** The strings in ascending order. *)
Definition ids_sorted (l : list string) : Prop := Sorted (not_after str_lt) l ∧ NoDup l.
(** The pairs in ascending order, by the first string and then the second. *)
Definition keys_sorted (l : list (string * string)) : Prop :=
  Sorted (not_after key_less) l ∧ NoDup l.

(** A slice sorted on a key that no two elements share. *)
Lemma sort_Slice_by_id {A} (key : A → string) (l1 l2 : list A) :
  NoDup (key <$> l1) → l1 ≡ₚ l2 → Sorted (not_after str_lt) (key <$> l2) →
  sort_Slice (λ x y, str_lt (key x) (key y)) l1 = l2.
Proof.
  intros Hnd Hperm Hs. apply sort_Slice_eq.
  - intros x y. apply str_lt_asym.
  - intros x y z. apply str_lt_ntrans.
  - intros x y Hx Hy H1 H2. apply (NoDup_fmap_eq key l1); [done..|].
    by apply str_lt_total.
  - done.
  - apply (proj1 (Sorted_fmap_iff _ key l2)) in Hs. exact Hs.
Qed.

Lemma sort_Slice_by_key {A} (key : A → string * string) (l1 l2 : list A) :
  NoDup (key <$> l1) → l1 ≡ₚ l2 → Sorted (not_after key_less) (key <$> l2) →
  sort_Slice (λ x y, key_less (key x) (key y)) l1 = l2.
Proof.
  intros Hnd Hperm Hs. apply sort_Slice_eq.
  - intros x y. apply key_less_asym.
  - intros x y z. apply key_less_ntrans.
  - intros x y Hx Hy H1 H2. apply (NoDup_fmap_eq key l1); [done..|].
    by apply key_less_total.
  - done.
  - apply (proj1 (Sorted_fmap_iff _ key l2)) in Hs. exact Hs.
Qed.

Lemma mapM_total {A B} (f : A → B) (l : list A) :
  mapM (λ x, Some (f x)) l = Some (f <$> l).
Proof. induction l as [|x l IH]; simpl; [done|]. by rewrite IH. Qed.

Lemma sorted_members_perm {A} (m : gmap string A) : sorted_members m ≡ₚ map_to_list m.
Proof. apply sort_Slice_perm. Qed.

Lemma sorted_members_keys {A} (m : gmap string A) : ids_sorted (sorted_members m).*1.
Proof.
  split.
  - apply (proj2 (Sorted_fmap_iff _ fst _)). apply (sort_Slice_Sorted (λ x y : string * A, str_lt x.1 y.1)).
    intros x y. apply str_lt_asym.
  - rewrite sorted_members_perm. apply NoDup_fst_map_to_list.
Qed.

(** A map made from a sorted list of members is written as that list. *)
Lemma sorted_members_list_to_map {A} (kvs : list (string * A)) :
  ids_sorted kvs.*1 → sorted_members (list_to_map (reverse kvs)) = kvs.
Proof.
  intros [Hs Hnd]. unfold sorted_members.
  assert (map_to_list (list_to_map (reverse kvs) : gmap string A) ≡ₚ kvs) as Hperm.
  { rewrite map_to_list_to_map; [apply reverse_Permutation|].
    by rewrite fmap_reverse, reverse_Permutation. }
  apply (sort_Slice_by_id fst); [|done|done].
  rewrite Hperm. done.
Qed.

Lemma list_to_map_sorted_members {A} (m : gmap string A) :
  list_to_map (reverse (sorted_members m)) = m.
Proof.
  rewrite <- (list_to_map_to_list m) at 2. apply list_to_map_proper.
  - rewrite fmap_reverse, reverse_Permutation. apply sorted_members_keys.
  - by rewrite reverse_Permutation, sorted_members_perm.
Qed.

(** ** Reading back what was written *)

(** A payload survives the codec: it can be written, what was written can be
    read, and what was read is written the same. *)
Definition stable {A} (enc : A → option json) (dec : json → option A) (x : A) : Prop :=
  ∃ j x', enc x = Some j ∧ dec j = Some x' ∧ enc x' = Some j.

Lemma mapM_round_trip {A} (enc : A → option json) (dec : json → option A)
    (K : A → A → Prop) (l : list A) :
  Forall (λ x, ∃ j x', enc x = Some j ∧ dec j = Some x' ∧ enc x' = Some j ∧ K x x') l →
  ∃ js l', mapM enc l = Some js ∧ mapM dec js = Some l' ∧ mapM enc l' = Some js ∧
           Forall2 K l l'.
Proof.
  induction 1 as [|x l (j & x' & H1 & H2 & H3 & HK) _ (js & l' & I1 & I2 & I3 & IK)].
  - exists [], []. by repeat split.
  - exists (j :: js), (x' :: l'). simpl.
    rewrite H1, H2, H3, I1, I2, I3. simpl. repeat split; by constructor.
Qed.

(** The names that are read back as they were written: the keys of a map,
    and the field names and type names of a schema. *)
Definition entries_valid {A} (m : gmap string A) : Prop :=
  ∀ k, is_Some (m !! k) → utf8_valid k.

Definition schema_valid (sc : option Schema) : Prop :=
  ∀ fields k d, sc = Some fields → fields !! k = Some d →
    utf8_valid k ∧ utf8_valid (Type_ d).

Lemma mapM_keys_valid {A B} (f : A → option B) (ms : list (string * A)) :
  Forall (λ kj, utf8_valid kj.1) ms →
  mapM (λ kj, v ← f kj.2; Some (utf8_coerce kj.1, v)) ms
  = mapM (λ kj, v ← f kj.2; Some (kj.1, v)) ms.
Proof.
  induction 1 as [|[k j] ms Hk _ IH]; simpl; [done|].
  rewrite IH. simpl in Hk. unfold utf8_valid in Hk. by rewrite Hk.
Qed.

Lemma sorted_members_valid {A} (m : gmap string A) :
  entries_valid m → Forall (λ kv, utf8_valid kv.1) (sorted_members m).
Proof.
  intros Hm. apply Forall_forall. intros [k v] Hkv. rewrite sorted_members_perm in Hkv.
  apply elem_of_map_to_list in Hkv. apply Hm. simpl. eauto.
Qed.

Section CodecRoundTrip.
Context {N E : Type}.
Variable encN : N → option json.
Variable decN : json → option N.
Variable zeroN : N.
Variable encE : E → option json.
Variable decE : json → option E.
Variable zeroE : E.
Variable encV : value → option json.
Variable decV : json → value.
Variable encF : float → option json.
Variable decF : json → option float.

(** A value of a store survives: decoding into [any] cannot fail. *)
Definition stable_value (v : value) : Prop :=
  ∃ j, encV v = Some j ∧ encV (decV j) = Some j.

Definition stable_weight (w : float) : Prop :=
  stable encF (λ j, dec_float decF (Some j)) w.

Lemma node_round_trip (n : Snap.NodeData N) :
  utf8_valid (Snap.ID n) → stable encN decN (Snap.Data n) →
  ∃ j n', enc_node encN n = Some j ∧ dec_node decN zeroN j = Some n' ∧
          enc_node encN n' = Some j ∧ Snap.ID n' = Snap.ID n.
Proof.
  unfold utf8_valid. intros Hid (j & d & H1 & H2 & H3).
  exists (JObject [("id", JString (Snap.ID n)); ("data", j)]), (Snap.mkNodeData (Snap.ID n) d).
  unfold enc_node, dec_node. simpl. rewrite H1, H2, H3, Hid. done.
Qed.

Lemma edge_round_trip (e : Snap.EdgeData E) :
  utf8_valid (Snap.From e) → utf8_valid (Snap.To e) →
  stable encE decE (Snap.EData e) → stable_weight (Snap.Weight e) →
  ∃ j e', enc_edge encE encF e = Some j ∧ dec_edge decE zeroE decF j = Some e' ∧
          enc_edge encE encF e' = Some j ∧
          (Snap.From e', Snap.To e') = (Snap.From e, Snap.To e).
Proof.
  unfold utf8_valid. intros Hfrom Hto (j & d & H1 & H2 & H3) (jw & w & W1 & W2 & W3).
  exists (JObject [("from", JString (Snap.From e)); ("to", JString (Snap.To e));
                   ("data", j); ("weight", jw)]),
         (Snap.mkEdgeData (Snap.From e) (Snap.To e) d w).
  unfold enc_edge, dec_edge. cbn -[dec_float utf8_coerce]. rewrite H1, W1.
  cbn -[dec_float utf8_coerce]. rewrite H2, W2, Hfrom, Hto. cbn. rewrite H3, W3. done.
Qed.

Lemma entries_round_trip (m : gmap string value) :
  entries_valid m → map_Forall (λ _ v, stable_value v) m →
  ∃ ms m', enc_entries encV m = Some (JObject ms) ∧
          dec_map (λ j, Some (decV j)) (Some (JObject ms)) = Some (Some m') ∧
          enc_entries encV m' = Some (JObject ms) ∧ dom m' = dom m.
Proof.
  intros Hvalid Hm.
  assert (Forall (λ kv : string * value, stable_value kv.2) (sorted_members m)) as Hall.
  { apply Forall_forall. intros [k v] Hkv. rewrite sorted_members_perm in Hkv.
    apply elem_of_map_to_list in Hkv. by apply (Hm k v). }
  assert (∃ ms, mapM (λ kv : string * value, j ← encV kv.2; Some (kv.1, j))
                     (sorted_members m) = Some ms ∧
                ms.*1 = (sorted_members m).*1 ∧
                Forall (λ kj : string * json, encV (decV kj.2) = Some kj.2) ms)
    as (ms & Hms & Hkeys & Hdec).
  { clear Hm. induction Hall as [|[k v] l (j & H1 & H2) _ (ms & I1 & I2 & I3)].
    - exists []. by repeat split.
    - exists ((k, j) :: ms). simpl in *. rewrite H1. simpl. rewrite I1. simpl.
      repeat split; [by f_equal|by constructor]. }
  assert (Forall utf8_valid ms.*1) as Hkeys'.
  { rewrite Hkeys. apply Forall_fmap. by apply sorted_members_valid. }
  set (kvs := (λ kj : string * json, (kj.1, decV kj.2)) <$> ms).
  assert (kvs.*1 = ms.*1) as Hk.
  { unfold kvs. rewrite <- list_fmap_compose. done. }
  assert (enc_entries encV m = Some (JObject ms)) as Henc.
  { unfold enc_entries. rewrite Hms. done. }
  assert (enc_entries encV (list_to_map (reverse kvs)) = Some (JObject ms)) as Henc'.
  { unfold enc_entries. rewrite sorted_members_list_to_map.
    2:{ rewrite Hk, Hkeys. apply sorted_members_keys. }
    unfold kvs. clear -Hdec. induction Hdec as [|[k j] ms H _ IH]; simpl; [done|].
    simpl in H. rewrite H. simpl.
    destruct (mapM _ _) as [ms'|]; simpl in *; [|done]. by injection IH as ->. }
  exists ms, (list_to_map (reverse kvs)). split_and!; [done| |done|].
  - unfold dec_map. cbn -[utf8_coerce].
    replace (mapM _ ms) with (Some kvs); [done|].
    symmetry. unfold kvs. clear -Hkeys'.
    induction ms as [|[k j] ms IH]; simpl in *; [done|].
    apply Forall_cons in Hkeys' as [Hk Hms]. rewrite (IH Hms). simpl.
    unfold utf8_valid in Hk. by rewrite Hk.
  - apply set_eq. intros k.
    rewrite dom_list_to_map_L, elem_of_list_to_set, elem_of_dom.
    rewrite fmap_reverse, reverse_Permutation, Hk, Hkeys, sorted_members_perm.
    rewrite list_elem_of_fmap. split.
    + intros ([k' v] & -> & Hkv). apply elem_of_map_to_list in Hkv. eauto.
    + intros [v Hv]. exists (k, v). split; [done|]. by apply elem_of_map_to_list.
Qed.

Lemma field_def_round_trip (kd : string * FieldDef) :
  utf8_valid (Type_ kd.2) →
  (v ← dec_field_def (JObject [("type", JString (Type_ kd.2));
                               ("required", JBool (Required kd.2))]);
   Some (kd.1, v)) = Some kd.
Proof.
  destruct kd as [k [t r]]. unfold utf8_valid. simpl. intros Ht.
  unfold dec_field_def. cbn -[utf8_coerce]. by rewrite Ht.
Qed.

Lemma schema_round_trip (sc : Schema) :
  schema_valid (Some sc) →
  dec_map dec_field_def (Some (enc_schema sc)) = Some (Some sc).
Proof.
  intros Hsc. unfold dec_map, enc_schema.
  assert (Forall (λ kd : string * FieldDef, utf8_valid kd.1 ∧ utf8_valid (Type_ kd.2))
                 (sorted_members sc)) as Hall.
  { apply Forall_forall. intros [k d] Hkd. rewrite sorted_members_perm in Hkd.
    apply elem_of_map_to_list in Hkd. by apply (Hsc sc k d). }
  rewrite mapM_keys_valid.
  2:{ apply Forall_fmap. eapply Forall_impl; [exact Hall|]. by intros kd [? _]. }
  rewrite (mapM_fmap_Forall_Some _ _ (sorted_members sc)).
  2:{ eapply Forall_impl; [exact Hall|]. intros kd [_ Ht]. by apply field_def_round_trip. }
  simpl. by rewrite list_to_map_sorted_members.
Qed.

(** What is read from the schema member: an empty schema was left out. *)
Definition schema_read (sc : option Schema) : option Schema :=
  match sc with
  | Some sc => if (size sc =? 0)%nat then None else Some sc
  | None => None
  end.

Lemma schema_member_read sc : schema_member (schema_read sc) = schema_member sc.
Proof.
  destruct sc as [sc|]; simpl; [|done].
  destruct (size sc =? 0)%nat eqn:H; simpl; [done|]. by rewrite H.
Qed.

Lemma schema_member_round_trip (base : list (string * json)) sc :
  schema_valid sc → member "schema" base = None →
  dec_map dec_field_def (member "schema" (base ++ schema_member sc)) = Some (schema_read sc).
Proof.
  intros Hsc Hbase.
  assert (∀ tl, member "schema" (base ++ tl) = member "schema" tl) as Happ.
  { intros tl. unfold member in *. induction base as [|[k v] base IH]; simpl in *; [done|].
    destruct (String.eqb k "schema"); [done|]. by apply IH. }
  rewrite Happ. destruct sc as [sc|]; simpl; [|done].
  destruct (size sc =? 0)%nat; simpl; [done|].
  change (dec_map dec_field_def (Some (enc_schema sc)) = Some (Some sc)).
  by apply schema_round_trip.
Qed.

Lemma node_meta_round_trip (nm : Snap.NodeMetaData) :
  utf8_valid (Snap.nm_ID nm) → entries_valid (Snap.nm_Entries nm) →
  schema_valid (Snap.nm_Schema nm) →
  map_Forall (λ _ v, stable_value v) (Snap.nm_Entries nm) →
  ∃ j nm', enc_node_meta encV nm = Some j ∧ dec_node_meta decV j = Some nm' ∧
           enc_node_meta encV nm' = Some j ∧
           (Snap.nm_ID nm' = Snap.nm_ID nm ∧
            dom (Snap.nm_Entries nm') = dom (Snap.nm_Entries nm)).
Proof.
  unfold utf8_valid. intros Hid Hen Hsc Hm.
  destruct (entries_round_trip _ Hen Hm) as (ms & m' & H1 & H2 & H3 & H4).
  exists (JObject ([("id", JString (Snap.nm_ID nm)); ("entries", JObject ms)]
                   ++ schema_member (Snap.nm_Schema nm))%list),
         (Snap.mkNodeMetaData (Snap.nm_ID nm) m' (schema_read (Snap.nm_Schema nm))).
  unfold enc_node_meta, dec_node_meta. simpl.
  rewrite H1, H3, schema_member_read. simpl. split_and!; try done.
  change (member "schema" _) with
    (member "schema" ([("id", JString (Snap.nm_ID nm)); ("entries", JObject ms)]
                      ++ schema_member (Snap.nm_Schema nm))).
  rewrite schema_member_round_trip by done.
  unfold dec_map in H2. simpl in H2. rewrite Hid.
  destruct (mapM _ ms) as [kvs|]; simpl in *; [|done]. by injection H2 as <-.
Qed.

Lemma edge_meta_round_trip (em : Snap.EdgeMetaData) :
  utf8_valid (Snap.em_From em) → utf8_valid (Snap.em_To em) →
  entries_valid (Snap.em_Entries em) → schema_valid (Snap.em_Schema em) →
  map_Forall (λ _ v, stable_value v) (Snap.em_Entries em) →
  ∃ j em', enc_edge_meta encV em = Some j ∧ dec_edge_meta decV j = Some em' ∧
           enc_edge_meta encV em' = Some j ∧
           ((Snap.em_From em', Snap.em_To em') = (Snap.em_From em, Snap.em_To em) ∧
            dom (Snap.em_Entries em') = dom (Snap.em_Entries em)).
Proof.
  unfold utf8_valid. intros Hfrom Hto Hen Hsc Hm.
  destruct (entries_round_trip _ Hen Hm) as (ms & m' & H1 & H2 & H3 & H4).
  exists (JObject ([("from", JString (Snap.em_From em)); ("to", JString (Snap.em_To em));
                    ("entries", JObject ms)]
                   ++ schema_member (Snap.em_Schema em))%list),
         (Snap.mkEdgeMetaData (Snap.em_From em) (Snap.em_To em) m'
                              (schema_read (Snap.em_Schema em))).
  unfold enc_edge_meta, dec_edge_meta. simpl.
  rewrite H1, H3, schema_member_read. simpl. split_and!; try done.
  change (member "schema" _) with
    (member "schema" ([("from", JString (Snap.em_From em)); ("to", JString (Snap.em_To em));
                       ("entries", JObject ms)]
                      ++ schema_member (Snap.em_Schema em))).
  rewrite schema_member_round_trip by done.
  unfold dec_map in H2. simpl in H2. rewrite Hfrom, Hto.
  destruct (mapM _ ms) as [kvs|]; simpl in *; [|done]. by injection H2 as <-.
Qed.

End CodecRoundTrip.

(** Two slices sorted on a key that no two of their elements share are the
    same slice when they have the same elements. *)
Lemma sorted_by_id_eq {A} (key : A → string) (l1 l2 : list A) :
  ids_sorted (key <$> l1) → ids_sorted (key <$> l2) → (∀ x, x ∈ l1 ↔ x ∈ l2) → l1 = l2.
Proof.
  intros [Hs1 Hn1] [Hs2 Hn2] Hel.
  assert (Transitive (λ x y : A, not_after str_lt (key x) (key y))) as Htrans.
  { intros x y z H1 H2. unfold not_after in *. by eapply str_lt_ntrans. }
  apply (Sorted_unique_strong (λ x y, not_after str_lt (key x) (key y))).
  - intros x y Hx Hy H1 H2. apply (NoDup_fmap_eq key l1); [done|done|by apply Hel|].
    by apply str_lt_total.
  - by apply (proj1 (Sorted_fmap_iff _ key l1)).
  - by apply (proj1 (Sorted_fmap_iff _ key l2)).
  - apply NoDup_Permutation; [by eapply NoDup_fmap_1|by eapply NoDup_fmap_1|done].
Qed.

Lemma sorted_by_key_eq {A} (key : A → string * string) (l1 l2 : list A) :
  keys_sorted (key <$> l1) → keys_sorted (key <$> l2) → (∀ x, x ∈ l1 ↔ x ∈ l2) → l1 = l2.
Proof.
  intros [Hs1 Hn1] [Hs2 Hn2] Hel.
  assert (Transitive (λ x y : A, not_after key_less (key x) (key y))) as Htrans.
  { intros x y z H1 H2. unfold not_after in *. by eapply key_less_ntrans. }
  apply (Sorted_unique_strong (λ x y, not_after key_less (key x) (key y))).
  - intros x y Hx Hy H1 H2. apply (NoDup_fmap_eq key l1); [done|done|by apply Hel|].
    by apply key_less_total.
  - by apply (proj1 (Sorted_fmap_iff _ key l1)).
  - by apply (proj1 (Sorted_fmap_iff _ key l2)).
  - apply NoDup_Permutation; [by eapply NoDup_fmap_1|by eapply NoDup_fmap_1|done].
Qed.

Lemma Forall2_fmap_eq {A B} (f : A → B) (l l' : list A) :
  Forall2 (λ x y, f y = f x) l l' → f <$> l' = f <$> l.
Proof. induction 1 as [|x y l l' H _ IH]; [done|]. rewrite !fmap_cons. by rewrite H, IH. Qed.

(** ** Snapshots that [Unmarshal] reads back as they are *)

Section SnapshotShape.
Context {N E : Type}.

Definition snap_edge_key (e : Snap.EdgeData E) : string * string := (Snap.From e, Snap.To e).
Definition edge_meta_key (em : Snap.EdgeMetaData) : string * string :=
  (Snap.em_From em, Snap.em_To em).

(** The nodes ascend by ID and the edges by (from, to), with from <= to when
    the graph is undirected; every edge joins two of the nodes; the stores
    are not empty, ascend likewise, and belong to a node or an edge of the
    snapshot. *)
Record snapshot_ok (d : bool) (gd : Snap.GraphData N E) (md : Snap.MetaData) : Prop := {
  ok_nodes : ids_sorted (Snap.ID <$> Snap.Nodes gd);
  ok_edges : keys_sorted (snap_edge_key <$> Snap.Edges gd);
  ok_edge_ends : ∀ a b, (a, b) ∈ snap_edge_key <$> Snap.Edges gd →
    a ∈ Snap.ID <$> Snap.Nodes gd ∧ b ∈ Snap.ID <$> Snap.Nodes gd;
  ok_edge_norm : d = false → ∀ a b, (a, b) ∈ snap_edge_key <$> Snap.Edges gd →
    str_lt b a = false;
  ok_meta_nodes : ids_sorted (Snap.nm_ID <$> Snap.md_Nodes md);
  ok_meta_nodes_live : ∀ id, id ∈ Snap.nm_ID <$> Snap.md_Nodes md →
    id ∈ Snap.ID <$> Snap.Nodes gd;
  ok_meta_nodes_entries : Forall (λ nm, Snap.nm_Entries nm ≠ ∅) (Snap.md_Nodes md);
  ok_meta_edges : keys_sorted (edge_meta_key <$> Snap.md_Edges md);
  ok_meta_edges_live : ∀ k, k ∈ edge_meta_key <$> Snap.md_Edges md →
    k ∈ snap_edge_key <$> Snap.Edges gd;
  ok_meta_edges_entries : Forall (λ em, Snap.em_Entries em ≠ ∅) (Snap.md_Edges md)
}.

(** Two snapshots with the same IDs and keys, and the same keys in every store. *)
Record same_shape (gd gd' : Snap.GraphData N E) (md md' : Snap.MetaData) : Prop := {
  shape_nodes : Forall2 (λ n n', Snap.ID n' = Snap.ID n) (Snap.Nodes gd) (Snap.Nodes gd');
  shape_edges : Forall2 (λ e e', snap_edge_key e' = snap_edge_key e)
                        (Snap.Edges gd) (Snap.Edges gd');
  shape_meta_nodes :
    Forall2 (λ m m', Snap.nm_ID m' = Snap.nm_ID m ∧
                     dom (Snap.nm_Entries m') = dom (Snap.nm_Entries m))
            (Snap.md_Nodes md) (Snap.md_Nodes md');
  shape_meta_edges :
    Forall2 (λ m m', edge_meta_key m' = edge_meta_key m ∧
                     dom (Snap.em_Entries m') = dom (Snap.em_Entries m))
            (Snap.md_Edges md) (Snap.md_Edges md')
}.

Lemma Forall2_Forall_transfer {A} (R : A → A → Prop) (P : A → Prop) (l l' : list A) :
  (∀ x y, R x y → P x → P y) → Forall2 R l l' → Forall P l → Forall P l'.
Proof.
  intros HR H. induction H as [|x y l l' Hxy _ IH]; [done|].
  intros [Hx Hl]%Forall_cons. constructor; eauto.
Qed.

Lemma snapshot_ok_shape d gd gd' md md' :
  same_shape gd gd' md md' → snapshot_ok d gd md → snapshot_ok d gd' md'.
Proof.
  intros [S1 S2 S3 S4] [H1 H2 H3 H4 H5 H6 H7 H8 H9 H10].
  pose proof (Forall2_fmap_eq Snap.ID _ _ S1) as E1.
  pose proof (Forall2_fmap_eq snap_edge_key _ _ S2) as E2.
  assert (Snap.nm_ID <$> Snap.md_Nodes md' = Snap.nm_ID <$> Snap.md_Nodes md) as E3.
  { apply Forall2_fmap_eq. eapply Forall2_impl; [exact S3|]. by intros ?? [? _]. }
  assert (edge_meta_key <$> Snap.md_Edges md' = edge_meta_key <$> Snap.md_Edges md) as E4.
  { apply Forall2_fmap_eq. eapply Forall2_impl; [exact S4|]. by intros ?? [? _]. }
  split; rewrite ?E1, ?E2, ?E3, ?E4; try done.
  - eapply Forall2_Forall_transfer; [|exact S3|exact H7].
    intros x y [_ Hxy] Hx Hy. apply Hx, dom_empty_iff_L. by rewrite <- Hxy, Hy, dom_empty_L.
  - eapply Forall2_Forall_transfer; [|exact S4|exact H10].
    intros x y [_ Hxy] Hx Hy. apply Hx, dom_empty_iff_L. by rewrite <- Hxy, Hy, dom_empty_L.
Qed.

Variable encN : N → option json.
Variable decN : json → option N.
Variable zeroN : N.
Variable encE : E → option json.
Variable decE : json → option E.
Variable zeroE : E.
Variable encV : value → option json.
Variable decV : json → value.
Variable encF : float → option json.
Variable decF : json → option float.

(** Every name of the snapshot is read back as it is written: the IDs of
    the nodes, the ends of the edges, and the keys and schema names of the
    stores. *)
Record names_valid (gd : Snap.GraphData N E) (md : Snap.MetaData) : Prop := {
  valid_nodes : Forall (λ n, utf8_valid (Snap.ID n)) (Snap.Nodes gd);
  valid_edges :
    Forall (λ e, utf8_valid (Snap.From e) ∧ utf8_valid (Snap.To e)) (Snap.Edges gd);
  valid_meta_nodes :
    Forall (λ m, utf8_valid (Snap.nm_ID m) ∧ entries_valid (Snap.nm_Entries m) ∧
                 schema_valid (Snap.nm_Schema m)) (Snap.md_Nodes md);
  valid_meta_edges :
    Forall (λ m, utf8_valid (Snap.em_From m) ∧ utf8_valid (Snap.em_To m) ∧
                 entries_valid (Snap.em_Entries m) ∧ schema_valid (Snap.em_Schema m))
           (Snap.md_Edges md)
}.

(** Every payload of the snapshot survives the codec. *)
Record payloads_stable (gd : Snap.GraphData N E) (md : Snap.MetaData) : Prop := {
  stable_nodes : Forall (λ n, stable encN decN (Snap.Data n)) (Snap.Nodes gd);
  stable_edges : Forall (λ e, stable encE decE (Snap.EData e) ∧
                              stable_weight encF decF (Snap.Weight e)) (Snap.Edges gd);
  stable_meta_nodes :
    Forall (λ m, map_Forall (λ _ v, stable_value encV decV v) (Snap.nm_Entries m))
           (Snap.md_Nodes md);
  stable_meta_edges :
    Forall (λ m, map_Forall (λ _ v, stable_value encV decV v) (Snap.em_Entries m))
           (Snap.md_Edges md)
}.

Lemma snapshot_round_trip d gd md :
  names_valid gd md → payloads_stable gd md →
  ∃ doc gd' md',
    enc_snapshot encN encE encV encF (Snap.mkSnapshot 1 d (Some gd) (Some md)) = Some doc ∧
    dec_snapshot decN zeroN decE zeroE decV decF doc
      = Some (Snap.mkSnapshot 1 d (Some gd') (Some md')) ∧
    enc_snapshot encN encE encV encF (Snap.mkSnapshot 1 d (Some gd') (Some md')) = Some doc ∧
    same_shape gd gd' md md'.
Proof.
  intros [V1 V2 V3 V4] [P1 P2 P3 P4].
  rewrite Forall_forall in V1. rewrite Forall_forall in V2. rewrite Forall_forall in V3.
  rewrite Forall_forall in V4. rewrite Forall_forall in P1. rewrite Forall_forall in P2.
  rewrite Forall_forall in P3. rewrite Forall_forall in P4.
  destruct (mapM_round_trip (enc_node encN) (dec_node decN zeroN)
              (λ n n', Snap.ID n' = Snap.ID n) (Snap.Nodes gd))
    as (jn & ns' & N1 & N2 & N3 & N4).
  { apply Forall_forall. intros n Hn. apply node_round_trip; auto. }
  destruct (mapM_round_trip (enc_edge encE encF) (dec_edge decE zeroE decF)
              (λ e e', snap_edge_key e' = snap_edge_key e) (Snap.Edges gd))
    as (je & es' & E1 & E2 & E3 & E4).
  { apply Forall_forall. intros e He.
    destruct (V2 e He) as [? ?]. destruct (P2 e He) as [? ?]. by apply edge_round_trip. }
  destruct (mapM_round_trip (enc_node_meta encV) (dec_node_meta decV)
              (λ m m', Snap.nm_ID m' = Snap.nm_ID m ∧
                       dom (Snap.nm_Entries m') = dom (Snap.nm_Entries m)) (Snap.md_Nodes md))
    as (jmn & mns' & MN1 & MN2 & MN3 & MN4).
  { apply Forall_forall. intros m Hm.
    destruct (V3 m Hm) as (? & ? & ?). apply node_meta_round_trip; auto. }
  destruct (mapM_round_trip (enc_edge_meta encV) (dec_edge_meta decV)
              (λ m m', edge_meta_key m' = edge_meta_key m ∧
                       dom (Snap.em_Entries m') = dom (Snap.em_Entries m)) (Snap.md_Edges md))
    as (jme & mes' & ME1 & ME2 & ME3 & ME4).
  { apply Forall_forall. intros m Hm.
    destruct (V4 m Hm) as (? & ? & ? & ?). apply edge_meta_round_trip; auto. }
  exists (JObject [("version", JNumber (print_int 1)); ("directed", JBool d);
                   ("graph", JObject [("nodes", JArray jn); ("edges", JArray je)]);
                   ("metadata", JObject [("nodes", JArray jmn); ("edges", JArray jme)])]),
         (Snap.mkGraphData ns' es'), (Snap.mkMetaData mns' mes').
  split_and!.
  - unfold enc_snapshot, enc_graph, enc_meta. simpl. rewrite N1, E1, MN1, ME1. done.
  - unfold dec_snapshot, dec_graph, dec_meta. simpl. rewrite N2, E2, MN2, ME2. done.
  - unfold enc_snapshot, enc_graph, enc_meta. simpl. rewrite N3, E3, MN3, ME3. done.
  - by split.
Qed.

End SnapshotShape.

(** ** The graph [Unmarshal] builds *)

Section Rebuild.
Context {N E : Type}.
Implicit Types g : Graph N E.

Definition of_node (n : Snap.NodeData N) : Node.t N := Node.mk (Snap.ID n) (Snap.Data n).
Definition of_edge (e : Snap.EdgeData E) : Edge.t E :=
  Edge.mk (Snap.From e) (Snap.To e) (Snap.EData e) (Snap.Weight e).

(** The first loop of [Unmarshal]. *)
Definition add_nodes g (l : list (Snap.NodeData N)) : Graph N E :=
  foldl (λ g n, AddNode g (Snap.ID n) (Snap.Data n)) g l.

Lemma add_nodes_cons g n l :
  add_nodes g (n :: l) = add_nodes (AddNode g (Snap.ID n) (Snap.Data n)) l.
Proof. done. Qed.

Lemma add_nodes_frame l : ∀ g,
  Directed (add_nodes g l) = Directed g ∧
  nodeMeta (add_nodes g l) = nodeMeta g ∧ edgeMeta (add_nodes g l) = edgeMeta g ∧
  ∀ a, inner (out (add_nodes g l)) a = inner (out g) a.
Proof.
  induction l as [|n l IH]; intros g; [done|]. rewrite add_nodes_cons.
  destruct (IH (AddNode g (Snap.ID n) (Snap.Data n))) as (H1 & H2 & H3 & H4).
  rewrite H1, H2, H3. split_and!; try done.
  intros a. rewrite H4. simpl. apply inner_make_if_nil.
Qed.

Lemma add_nodes_wf l : ∀ g, wf g → wf (add_nodes g l).
Proof.
  induction l as [|n l IH]; intros g Hwf; [done|]. rewrite add_nodes_cons.
  by apply IH, wf_AddNode.
Qed.

Lemma add_nodes_other l id : ∀ g,
  id ∉ Snap.ID <$> l → nodes (add_nodes g l) !! id = nodes g !! id.
Proof.
  induction l as [|n l IH]; intros g Hid; [done|]. rewrite add_nodes_cons.
  rewrite fmap_cons, not_elem_of_cons in Hid. destruct Hid as [Hne Hid].
  rewrite IH by done. simpl. by rewrite lookup_insert_ne.
Qed.

Lemma add_nodes_elem l n : ∀ g,
  NoDup (Snap.ID <$> l) → n ∈ l → nodes (add_nodes g l) !! Snap.ID n = Some (of_node n).
Proof.
  induction l as [|x l IH]; intros g Hnd Hn; [by apply elem_of_nil in Hn|].
  rewrite add_nodes_cons. rewrite fmap_cons in Hnd. apply NoDup_cons in Hnd as [Hx Hnd].
  apply elem_of_cons in Hn as [->|Hn].
  - rewrite add_nodes_other by done. simpl. by rewrite lookup_insert_eq.
  - by apply IH.
Qed.

Lemma add_nodes_lookup d l id x :
  NoDup (Snap.ID <$> l) →
  nodes (add_nodes (NewGraph d) l) !! id = Some x ↔ ∃ n, n ∈ l ∧ Snap.ID n = id ∧ x = of_node n.
Proof.
  intros Hnd. split.
  - intros Hx. destruct (decide (id ∈ Snap.ID <$> l)) as [Hid|Hid].
    + apply list_elem_of_fmap in Hid as (n & -> & Hn).
      rewrite (add_nodes_elem l n _ Hnd Hn) in Hx. injection Hx as <-. eauto.
    + rewrite add_nodes_other in Hx by done. simpl in Hx. by rewrite lookup_empty in Hx.
  - intros (n & Hn & <- & ->). by apply add_nodes_elem.
Qed.

(** The second loop, when no edge fails. *)
Definition add_edges_pure g (l : list (Snap.EdgeData E)) : Graph N E :=
  foldl (λ g e, (AddEdge g (Snap.From e) (Snap.To e) (Snap.EData e) (Snap.Weight e)).1) g l.

Lemma add_edges_pure_cons g e l :
  add_edges_pure g (e :: l) =
  add_edges_pure (AddEdge g (Snap.From e) (Snap.To e) (Snap.EData e) (Snap.Weight e)).1 l.
Proof. done. Qed.

Lemma add_edges_pure_frame l : ∀ g,
  Directed (add_edges_pure g l) = Directed g ∧ nodes (add_edges_pure g l) = nodes g ∧
  nodeMeta (add_edges_pure g l) = nodeMeta g ∧ edgeMeta (add_edges_pure g l) = edgeMeta g.
Proof.
  induction l as [|e l IH]; intros g; [done|]. rewrite add_edges_pure_cons.
  destruct (IH (AddEdge g (Snap.From e) (Snap.To e) (Snap.EData e) (Snap.Weight e)).1)
    as (H1 & H2 & H3 & H4).
  destruct (AddEdge_frame g (Snap.From e) (Snap.To e) (Snap.EData e) (Snap.Weight e))
    as (F1 & F2 & F3 & F4).
  rewrite H1, H2, H3, H4. done.
Qed.

Lemma add_edges_pure_wf l : ∀ g, wf g → wf (add_edges_pure g l).
Proof.
  induction l as [|e l IH]; intros g Hwf; [done|]. rewrite add_edges_pure_cons.
  by apply IH, wf_AddEdge.
Qed.

Lemma HasNode_nodes g1 g2 id : nodes g1 = nodes g2 → HasNode g1 id = HasNode g2 id.
Proof. unfold HasNode. by intros ->. Qed.

Lemma add_edges_pure_eq l : ∀ g,
  (∀ e, e ∈ l → HasNode g (Snap.From e) = true ∧ HasNode g (Snap.To e) = true) →
  add_edges g l = inl (add_edges_pure g l).
Proof.
  induction l as [|e l IH]; intros g Hall; [done|]. rewrite add_edges_pure_cons. simpl.
  destruct (Hall e) as [Hf Ht]; [by left|].
  destruct (AddEdge_frame g (Snap.From e) (Snap.To e) (Snap.EData e) (Snap.Weight e))
    as (_ & Hn & _ & _).
  destruct (AddEdge g (Snap.From e) (Snap.To e) (Snap.EData e) (Snap.Weight e))
    as [g1 err] eqn:Hadd.
  assert (err = None) as ->.
  { unfold AddEdge in Hadd. rewrite Hf, Ht in Hadd. simpl in Hadd.
    destruct (negb (Directed g)); by injection Hadd as _ <-. }
  simpl in *. apply IH. intros e' He'.
  rewrite !(HasNode_nodes g1 g _ Hn). apply Hall. by right.
Qed.

(** The keys an edge of the snapshot is stored under. *)
Definition touches (d : bool) (e : Snap.EdgeData E) (a b : string) : Prop :=
  (a, b) = snap_edge_key e ∨ (d = false ∧ (b, a) = snap_edge_key e).

Lemma add_edges_pure_other l a b : ∀ g,
  (∀ e, e ∈ l → HasNode g (Snap.From e) = true ∧ HasNode g (Snap.To e) = true) →
  (∀ e, e ∈ l → ¬ touches (Directed g) e a b) →
  inner (out (add_edges_pure g l)) a !! b = inner (out g) a !! b.
Proof.
  induction l as [|e l IH]; intros g Hall Hno; [done|]. rewrite add_edges_pure_cons.
  destruct (Hall e) as [Hf Ht]; [by left|].
  destruct (AddEdge_frame g (Snap.From e) (Snap.To e) (Snap.EData e) (Snap.Weight e))
    as (Hd & Hn & _ & _).
  rewrite IH.
  - rewrite AddEdge_out by done.
    assert (¬ touches (Directed g) e a b) as He by (apply Hno; by left).
    unfold touches, snap_edge_key in He.
    destruct (decide (Directed g = false ∧ a = Snap.To e ∧ b = Snap.From e))
      as [(H1 & -> & ->)|_]; [destruct He; by right|].
    destruct (decide (a = Snap.From e ∧ b = Snap.To e)) as [[-> ->]|_]; [|done].
    destruct He; by left.
  - intros e' He'. rewrite !(HasNode_nodes _ g _ Hn). apply Hall. by right.
  - intros e' He'. rewrite Hd. apply Hno. by right.
Qed.

Lemma add_edges_pure_elem l e : ∀ g,
  (∀ e, e ∈ l → HasNode g (Snap.From e) = true ∧ HasNode g (Snap.To e) = true) →
  NoDup (snap_edge_key <$> l) →
  (Directed g = false → ∀ e, e ∈ l → str_lt (Snap.To e) (Snap.From e) = false) →
  e ∈ l →
  inner (out (add_edges_pure g l)) (Snap.From e) !! (Snap.To e) = Some (of_edge e).
Proof.
  induction l as [|x l IH]; intros g Hall Hnd Hnorm He; [by apply elem_of_nil in He|].
  rewrite add_edges_pure_cons. rewrite fmap_cons in Hnd. apply NoDup_cons in Hnd as [Hx Hnd].
  destruct (Hall x) as [Hf Ht]; [by left|].
  destruct (AddEdge_frame g (Snap.From x) (Snap.To x) (Snap.EData x) (Snap.Weight x))
    as (Hd & Hn & _ & _).
  assert (∀ e', e' ∈ l →
            HasNode (AddEdge g (Snap.From x) (Snap.To x) (Snap.EData x) (Snap.Weight x)).1
                    (Snap.From e') = true ∧
            HasNode (AddEdge g (Snap.From x) (Snap.To x) (Snap.EData x) (Snap.Weight x)).1
                    (Snap.To e') = true) as Hall'.
  { intros e' He'. rewrite !(HasNode_nodes _ g _ Hn). apply Hall. by right. }
  apply elem_of_cons in He as [->|He].
  - rewrite add_edges_pure_other; [|done|].
    + rewrite AddEdge_out by done.
      destruct (decide (Directed g = false ∧ Snap.From x = Snap.To x ∧ Snap.To x = Snap.From x))
        as [(_ & Heq & _)|_].
      * unfold of_edge. by rewrite Heq.
      * by rewrite decide_True.
    + intros e' He' [Hk|[Hdir Hk]].
      * destruct Hx. replace (snap_edge_key x) with (snap_edge_key e')
          by (symmetry; exact Hk). by apply list_elem_of_fmap_2.
      * rewrite Hd in Hdir. unfold snap_edge_key in Hk. injection Hk as Hk1 Hk2.
        pose proof (Hnorm Hdir x (list_elem_of_here _ _)) as Nx.
        pose proof (Hnorm Hdir e' (list_elem_of_further _ _ _ He')) as Ne.
        rewrite <- Hk1, <- Hk2 in Ne.
        pose proof (str_lt_total _ _ Nx Ne) as Heq.
        destruct Hx. apply list_elem_of_fmap. exists e'. split; [|done].
        unfold snap_edge_key. by rewrite <- Hk1, <- Hk2, Heq.
  - apply IH; [done|done| |done].
    intros Hdir e' He'. rewrite Hd in Hdir. apply Hnorm; [done|by right].
Qed.

Lemma add_edges_pure_inv l a b x : ∀ g,
  (∀ e, e ∈ l → HasNode g (Snap.From e) = true ∧ HasNode g (Snap.To e) = true) →
  inner (out (add_edges_pure g l)) a !! b = Some x →
  inner (out g) a !! b = Some x ∨
  (∃ e, e ∈ l ∧ x = of_edge e ∧ (a, b) = snap_edge_key e) ∨
  (Directed g = false ∧ ∃ e, e ∈ l ∧ x = reverse_edge (of_edge e) ∧ (b, a) = snap_edge_key e).
Proof.
  induction l as [|e l IH]; intros g Hall Hx; [by left|].
  rewrite add_edges_pure_cons in Hx.
  destruct (Hall e) as [Hf Ht]; [by left|].
  destruct (AddEdge_frame g (Snap.From e) (Snap.To e) (Snap.EData e) (Snap.Weight e))
    as (Hd & Hn & _ & _).
  apply IH in Hx.
  2:{ intros e' He'. rewrite !(HasNode_nodes _ g _ Hn). apply Hall. by right. }
  destruct Hx as [Hx|[(e' & He' & -> & Hk)|(Hdir & e' & He' & -> & Hk)]].
  - rewrite AddEdge_out in Hx by done.
    destruct (decide (Directed g = false ∧ a = Snap.To e ∧ b = Snap.From e))
      as [(Hdir & -> & ->)|_].
    + injection Hx as <-. right. right. split; [done|]. exists e. split; [by left|done].
    + destruct (decide (a = Snap.From e ∧ b = Snap.To e)) as [[-> ->]|_]; [|by left].
      injection Hx as <-. right. left. exists e. split; [by left|done].
  - right. left. exists e'. split; [by right|done].
  - right. right. rewrite <- Hd. split; [done|]. exists e'. split; [by right|done].
Qed.

End Rebuild.

(** ** The stores [Unmarshal] fills *)

Section RebuildStores.
Context {N E : Type}.
Implicit Types g : Graph N E.

Definition store_of (en : gmap string value) (sc : option Schema) : Store :=
  {| entries := en; schema := sc |}.

Lemma apply_store_new en sc : apply_store en sc StoreOps.NewStore = store_of en sc.
Proof.
  unfold apply_store, set_entries, store_of. simpl.
  rewrite (right_id_L ∅ (∪)). by destruct sc.
Qed.

(** One store of a node. *)
Lemma apply_node_meta_frame g nm :
  Directed (apply_node_meta g nm) = Directed g ∧ nodes (apply_node_meta g nm) = nodes g ∧
  out (apply_node_meta g nm) = out g ∧ in_ (apply_node_meta g nm) = in_ g ∧
  edgeMeta (apply_node_meta g nm) = edgeMeta g.
Proof.
  unfold apply_node_meta. destruct (negb (HasNode g (Snap.nm_ID nm))); [done|].
  unfold update_NodeMeta, NodeMeta. destruct (HasNode g (Snap.nm_ID nm)); [|done].
  by destruct (nodeMeta g !! Snap.nm_ID nm).
Qed.

Lemma apply_node_meta_lookup g nm id :
  HasNode g (Snap.nm_ID nm) = true →
  nodeMeta (apply_node_meta g nm) !! id =
    if decide (id = Snap.nm_ID nm)
    then Some (apply_store (Snap.nm_Entries nm) (Snap.nm_Schema nm)
                           (default StoreOps.NewStore (nodeMeta g !! id)))
    else nodeMeta g !! id.
Proof.
  intros Hn. unfold apply_node_meta, update_NodeMeta, NodeMeta. rewrite Hn. simpl.
  destruct (decide (id = Snap.nm_ID nm)) as [->|Hne].
  - destruct (nodeMeta g !! Snap.nm_ID nm); simpl; by rewrite lookup_insert_eq.
  - destruct (nodeMeta g !! Snap.nm_ID nm); simpl; by rewrite !lookup_insert_ne.
Qed.

Definition apply_nodes_meta g (l : list Snap.NodeMetaData) : Graph N E :=
  foldl apply_node_meta g l.

Lemma apply_nodes_meta_cons g nm l :
  apply_nodes_meta g (nm :: l) = apply_nodes_meta (apply_node_meta g nm) l.
Proof. done. Qed.

Lemma apply_nodes_meta_frame l : ∀ g,
  Directed (apply_nodes_meta g l) = Directed g ∧ nodes (apply_nodes_meta g l) = nodes g ∧
  out (apply_nodes_meta g l) = out g ∧ in_ (apply_nodes_meta g l) = in_ g ∧
  edgeMeta (apply_nodes_meta g l) = edgeMeta g.
Proof.
  induction l as [|nm l IH]; intros g; [done|]. rewrite apply_nodes_meta_cons.
  destruct (IH (apply_node_meta g nm)) as (H1 & H2 & H3 & H4 & H5).
  destruct (apply_node_meta_frame g nm) as (F1 & F2 & F3 & F4 & F5).
  rewrite H1, H2, H3, H4, H5. done.
Qed.

Lemma apply_nodes_meta_other l id : ∀ g,
  (∀ nm, nm ∈ l → HasNode g (Snap.nm_ID nm) = true) →
  id ∉ Snap.nm_ID <$> l →
  nodeMeta (apply_nodes_meta g l) !! id = nodeMeta g !! id.
Proof.
  induction l as [|nm l IH]; intros g Hall Hid; [done|]. rewrite apply_nodes_meta_cons.
  rewrite fmap_cons, not_elem_of_cons in Hid. destruct Hid as [Hne Hid].
  destruct (apply_node_meta_frame g nm) as (_ & Fn & _).
  rewrite IH; [|intros nm' Hnm'; rewrite (HasNode_nodes _ g _ Fn); apply Hall; by right|done].
  rewrite apply_node_meta_lookup by (apply Hall; by left). by rewrite decide_False.
Qed.

Lemma apply_nodes_meta_elem l nm : ∀ g,
  (∀ nm, nm ∈ l → HasNode g (Snap.nm_ID nm) = true) →
  NoDup (Snap.nm_ID <$> l) → nm ∈ l → nodeMeta g !! Snap.nm_ID nm = None →
  nodeMeta (apply_nodes_meta g l) !! Snap.nm_ID nm
    = Some (store_of (Snap.nm_Entries nm) (Snap.nm_Schema nm)).
Proof.
  induction l as [|x l IH]; intros g Hall Hnd Hnm Hnone; [by apply elem_of_nil in Hnm|].
  rewrite apply_nodes_meta_cons. rewrite fmap_cons in Hnd. apply NoDup_cons in Hnd as [Hx Hnd].
  destruct (apply_node_meta_frame g x) as (_ & Fn & _).
  assert (∀ nm', nm' ∈ l → HasNode (apply_node_meta g x) (Snap.nm_ID nm') = true) as Hall'.
  { intros nm' Hnm'. rewrite (HasNode_nodes _ g _ Fn). apply Hall. by right. }
  apply elem_of_cons in Hnm as [->|Hnm].
  - rewrite apply_nodes_meta_other by done.
    rewrite apply_node_meta_lookup by (apply Hall; by left).
    rewrite decide_True by done. rewrite Hnone. simpl. by rewrite apply_store_new.
  - apply IH; [done..|].
    rewrite apply_node_meta_lookup by (apply Hall; by left).
    rewrite decide_False; [done|]. intros Heq. destruct Hx. rewrite <- Heq.
    by apply list_elem_of_fmap_2.
Qed.

(** One store of an edge. *)
Lemma apply_edge_meta_frame g em :
  Directed (apply_edge_meta g em) = Directed g ∧ nodes (apply_edge_meta g em) = nodes g ∧
  out (apply_edge_meta g em) = out g ∧ in_ (apply_edge_meta g em) = in_ g ∧
  nodeMeta (apply_edge_meta g em) = nodeMeta g.
Proof.
  unfold apply_edge_meta. destruct (negb (HasEdge g (Snap.em_From em) (Snap.em_To em)));
    [done|].
  unfold update_EdgeMeta, EdgeMeta.
  destruct (HasEdge g (Snap.em_From em) (Snap.em_To em)); [|done].
  destruct (edgeMetaKey g (Snap.em_From em) (Snap.em_To em)) as [a b].
  by destruct (inner (edgeMeta g) a !! b).
Qed.

Lemma apply_edge_meta_lookup g em a b :
  HasEdge g (Snap.em_From em) (Snap.em_To em) = true →
  edgeMetaKey g (Snap.em_From em) (Snap.em_To em) = (Snap.em_From em, Snap.em_To em) →
  inner (edgeMeta (apply_edge_meta g em)) a !! b =
    if decide (a = Snap.em_From em ∧ b = Snap.em_To em)
    then Some (apply_store (Snap.em_Entries em) (Snap.em_Schema em)
                           (default StoreOps.NewStore (inner (edgeMeta g) a !! b)))
    else inner (edgeMeta g) a !! b.
Proof.
  intros He Hk. unfold apply_edge_meta, update_EdgeMeta, EdgeMeta. rewrite He, Hk. simpl.
  destruct (inner (edgeMeta g) (Snap.em_From em) !! Snap.em_To em) as [s|] eqn:Hs; simpl.
  - rewrite inner_inner_insert.
    destruct (decide (a = Snap.em_From em ∧ b = Snap.em_To em)) as [[-> ->]|Hne]; [|done].
    by rewrite Hs.
  - rewrite !inner_inner_insert.
    destruct (decide (a = Snap.em_From em ∧ b = Snap.em_To em)) as [[-> ->]|Hne]; [|done].
    by rewrite Hs.
Qed.

Definition apply_edges_meta g (l : list Snap.EdgeMetaData) : Graph N E :=
  foldl apply_edge_meta g l.

Lemma apply_edges_meta_cons g em l :
  apply_edges_meta g (em :: l) = apply_edges_meta (apply_edge_meta g em) l.
Proof. done. Qed.

Lemma apply_edges_meta_frame l : ∀ g,
  Directed (apply_edges_meta g l) = Directed g ∧ nodes (apply_edges_meta g l) = nodes g ∧
  out (apply_edges_meta g l) = out g ∧ in_ (apply_edges_meta g l) = in_ g ∧
  nodeMeta (apply_edges_meta g l) = nodeMeta g.
Proof.
  induction l as [|em l IH]; intros g; [done|]. rewrite apply_edges_meta_cons.
  destruct (IH (apply_edge_meta g em)) as (H1 & H2 & H3 & H4 & H5).
  destruct (apply_edge_meta_frame g em) as (F1 & F2 & F3 & F4 & F5).
  rewrite H1, H2, H3, H4, H5. done.
Qed.

(** The edge exists and its store is kept under its own key. *)
Definition edge_store_ready g (em : Snap.EdgeMetaData) : Prop :=
  HasEdge g (Snap.em_From em) (Snap.em_To em) = true ∧
  edgeMetaKey g (Snap.em_From em) (Snap.em_To em) = (Snap.em_From em, Snap.em_To em).

Lemma edge_store_ready_frame g1 g2 em :
  Directed g1 = Directed g2 → out g1 = out g2 →
  edge_store_ready g2 em → edge_store_ready g1 em.
Proof.
  unfold edge_store_ready, HasEdge, edgeMetaKey. by intros -> ->.
Qed.

Lemma apply_edges_meta_other l a b : ∀ g,
  (∀ em, em ∈ l → edge_store_ready g em) →
  (a, b) ∉ edge_meta_key <$> l →
  inner (edgeMeta (apply_edges_meta g l)) a !! b = inner (edgeMeta g) a !! b.
Proof.
  induction l as [|em l IH]; intros g Hall Hid; [done|]. rewrite apply_edges_meta_cons.
  rewrite fmap_cons, not_elem_of_cons in Hid. destruct Hid as [Hne Hid].
  destruct (apply_edge_meta_frame g em) as (Fd & _ & Fo & _).
  destruct (Hall em) as [He Hk]; [by left|].
  rewrite IH; [| |done].
  - rewrite apply_edge_meta_lookup by done.
    rewrite decide_False; [done|]. intros [-> ->]. by destruct Hne.
  - intros em' Hem'. apply (edge_store_ready_frame _ g); [done..|]. apply Hall. by right.
Qed.

Lemma apply_edges_meta_elem l em : ∀ g,
  (∀ em, em ∈ l → edge_store_ready g em) →
  NoDup (edge_meta_key <$> l) → em ∈ l →
  inner (edgeMeta g) (Snap.em_From em) !! Snap.em_To em = None →
  inner (edgeMeta (apply_edges_meta g l)) (Snap.em_From em) !! Snap.em_To em
    = Some (store_of (Snap.em_Entries em) (Snap.em_Schema em)).
Proof.
  induction l as [|x l IH]; intros g Hall Hnd Hem Hnone; [by apply elem_of_nil in Hem|].
  rewrite apply_edges_meta_cons. rewrite fmap_cons in Hnd. apply NoDup_cons in Hnd as [Hx Hnd].
  destruct (apply_edge_meta_frame g x) as (Fd & _ & Fo & _).
  destruct (Hall x) as [He Hk]; [by left|].
  assert (∀ em', em' ∈ l → edge_store_ready (apply_edge_meta g x) em') as Hall'.
  { intros em' Hem'. apply (edge_store_ready_frame _ g); [done..|]. apply Hall. by right. }
  apply elem_of_cons in Hem as [->|Hem].
  - rewrite apply_edges_meta_other by done.
    rewrite apply_edge_meta_lookup by done.
    rewrite decide_True by done. rewrite Hnone. simpl. by rewrite apply_store_new.
  - apply IH; [done..|].
    rewrite apply_edge_meta_lookup by done.
    rewrite decide_False; [done|]. intros [H1 H2]. destruct Hx.
    apply list_elem_of_fmap. exists em. split; [|done].
    unfold edge_meta_key. by rewrite H1, H2.
Qed.

End RebuildStores.

(** ** What the snapshot of a graph contains *)

Lemma StronglySorted_sublist {A} (R : relation A) (l1 l2 : list A) :
  l1 `sublist_of` l2 → StronglySorted R l2 → StronglySorted R l1.
Proof.
  induction 1 as [|x l1 l2 Hsub IH|x l1 l2 Hsub IH]; intros Hs; [done|..].
  - apply StronglySorted_inv in Hs as [Hs Hall]. constructor; [by apply IH|].
    apply Forall_forall. intros y Hy. rewrite Forall_forall in Hall.
    apply Hall. by eapply elem_of_sublist.
  - apply StronglySorted_inv in Hs as [Hs _]. by apply IH.
Qed.

Lemma ids_sorted_sublist (l1 l2 : list string) :
  l1 `sublist_of` l2 → ids_sorted l2 → ids_sorted l1.
Proof.
  intros Hsub [Hs Hnd]. split; [|by eapply sublist_NoDup].
  assert (Transitive (not_after str_lt)) as Htrans.
  { intros x y z H1 H2. unfold not_after in *. by eapply str_lt_ntrans. }
  apply StronglySorted_Sorted. eapply StronglySorted_sublist; [done|].
  by apply Sorted_StronglySorted.
Qed.

Section SnapshotFacts.
Context {N E : Type}.
Implicit Types g : Graph N E.

Definition to_node (n : Node.t N) : Snap.NodeData N :=
  Snap.mkNodeData (Node.ID n) (Node.Data n).
Definition to_edge (e : Edge.t E) : Snap.EdgeData E :=
  Snap.mkEdgeData (Edge.From e) (Edge.To e) (Edge.Data e) (Edge.Weight e).

Lemma to_node_of_node n : to_node (of_node n) = n.
Proof. by destruct n. Qed.
Lemma of_node_to_node n : of_node (to_node n) = n.
Proof. by destruct n. Qed.
Lemma to_edge_of_edge (e : Snap.EdgeData E) : to_edge (of_edge e) = e.
Proof. by destruct e. Qed.
Lemma of_edge_to_edge (e : Edge.t E) : of_edge (to_edge e) = e.
Proof. by destruct e. Qed.

Lemma Nodes_elem_of ord g n :
  wf g → n ∈ Nodes ord g ↔ nodes g !! Node.ID n = Some n.
Proof.
  intros Hwf. unfold Nodes. rewrite sort_Slice_elem_of, range_values_elem_of. split.
  - intros [k Hk]. by rewrite (wf_node_id g Hwf k n Hk).
  - eauto.
Qed.

Lemma Nodes_ids_sorted ord g : wf g → ids_sorted (Node.ID <$> Nodes ord g).
Proof.
  intros Hwf. split.
  - apply (proj2 (Sorted_fmap_iff _ Node.ID _)). apply Nodes_sorted.
  - unfold Nodes. rewrite sort_Slice_perm.
    replace (Node.ID <$> (range ord (nodes g)).*2) with (range ord (nodes g)).*1.
    { apply range_keys_NoDup. }
    rewrite <- list_fmap_compose. apply Forall_fmap_ext_1, Forall_forall.
    intros [k n] Hkn. apply range_elem_of in Hkn. simpl.
    by rewrite (wf_node_id g Hwf k n Hkn).
Qed.

(** The edges as they are written, in the order of the snapshot. *)
Definition written_edges_sorted (ord : MapOrder) g : list (Edge.t E) :=
  sort_Slice edge_less (written_edge g <$> Edges ord g).

Lemma snapshot_graph_written ord g :
  snapshot_graph ord g =
  Snap.mkGraphData (to_node <$> Nodes ord g) (to_edge <$> written_edges_sorted ord g).
Proof. unfold snapshot_graph. by rewrite written_edges. Qed.

Lemma written_edges_sorted_elem_of ord g x :
  wf g →
  x ∈ written_edges_sorted ord g ↔
    ∃ a b e, inner (out g) a !! b = Some e ∧ x = written_edge g e.
Proof.
  intros Hwf. unfold written_edges_sorted.
  by rewrite sort_Slice_elem_of, Edges_written_elem_of.
Qed.

Lemma written_edges_keys_sorted ord g :
  wf g → keys_sorted (edge_key <$> written_edges_sorted ord g).
Proof.
  intros Hwf. split.
  - apply (proj2 (Sorted_fmap_iff _ edge_key _)).
    apply (sort_Slice_Sorted edge_less).
    intros x y. rewrite !edge_less_key. apply key_less_asym.
  - unfold written_edges_sorted. rewrite sort_Slice_perm.
    apply NoDup_fmap_2_strong; [|by apply Edges_written_NoDup].
    intros x y Hx Hy Hk.
    apply (Edges_written_elem_of ord g x Hwf) in Hx as (a1 & b1 & e1 & H1 & ->).
    apply (Edges_written_elem_of ord g y Hwf) in Hy as (a2 & b2 & e2 & H2 & ->).
    by eapply written_edge_eq.
Qed.

(** The key an entry of the out-maps is written under. *)
Lemma written_edge_key g a b e :
  wf g → inner (out g) a !! b = Some e →
  edge_key (written_edge g e) =
    if negb (Directed g) && str_lt b a then (b, a) else (a, b).
Proof.
  intros Hwf He. destruct (wf_edge_ends g Hwf a b e He) as (<- & <- & _).
  unfold written_edge, normalize_edge, edge_key.
  destruct (Directed g); simpl; [done|].
  by destruct (str_lt (Edge.To e) (Edge.From e)).
Qed.

(** The stores of the nodes. *)
Lemma node_meta_elem_of ord g x :
  wf g →
  x ∈ flat_map (snapshot_node_meta default_options g) (Nodes ord g) ↔
    ∃ st, is_Some (nodes g !! Snap.nm_ID x) ∧ nodeMeta g !! Snap.nm_ID x = Some st ∧
          entries st ≠ ∅ ∧
          x = Snap.mkNodeMetaData (Snap.nm_ID x) (entries st) (schema st).
Proof.
  intros Hwf. rewrite list_elem_of_In, in_flat_map. split.
  - intros (n & Hn & Hx). apply list_elem_of_In in Hn, Hx.
    apply (Nodes_elem_of ord g n Hwf) in Hn.
    unfold snapshot_node_meta in Hx.
    destruct (nodeMeta g !! Node.ID n) as [st|] eqn:Hst; [|by apply elem_of_nil in Hx].
    destruct (StoreOps.Len st =? 0)%nat eqn:Hlen; [by apply elem_of_nil in Hx|].
    apply list_elem_of_singleton in Hx as ->. simpl. exists st. split_and!; eauto.
    intros Hempty. apply Nat.eqb_neq in Hlen. apply Hlen.
    unfold StoreOps.Len. rewrite Hempty. apply map_size_empty.
  - intros (st & [n Hn] & Hst & Hne & Hx).
    exists n. pose proof (wf_node_id g Hwf _ _ Hn) as Hid. split.
    + apply list_elem_of_In, (Nodes_elem_of ord g n Hwf). by rewrite Hid.
    + apply list_elem_of_In. unfold snapshot_node_meta. rewrite Hid, Hst.
      destruct (StoreOps.Len st =? 0)%nat eqn:Hlen.
      * apply Nat.eqb_eq in Hlen. unfold StoreOps.Len in Hlen.
        by apply map_size_empty_iff in Hlen.
      * rewrite Hx at 1. apply list_elem_of_singleton. done.
Qed.

Lemma node_meta_ids_sublist (l : list (Node.t N)) g :
  Snap.nm_ID <$> flat_map (snapshot_node_meta default_options g) l
    `sublist_of` Node.ID <$> l.
Proof.
  induction l as [|n l IH]; simpl; [done|].
  unfold snapshot_node_meta at 1.
  destruct (nodeMeta g !! Node.ID n) as [st|]; [|by apply sublist_cons].
  destruct (StoreOps.Len st =? 0)%nat; [by apply sublist_cons|].
  simpl. by apply sublist_skip.
Qed.

Lemma node_meta_ids_sorted ord g :
  wf g →
  ids_sorted (Snap.nm_ID <$> flat_map (snapshot_node_meta default_options g) (Nodes ord g)).
Proof.
  intros Hwf. eapply ids_sorted_sublist; [apply node_meta_ids_sublist|].
  by apply Nodes_ids_sorted.
Qed.

(** The stores of the edges. *)
Lemma edge_meta_keys_elem_of ord g a b :
  (a, b) ∈ edge_meta_keys ord g ↔
    ∃ st, inner (edgeMeta g) a !! b = Some st ∧ entries st ≠ ∅.
Proof.
  unfold edge_meta_keys. rewrite list_elem_of_bind. split.
  - intros ([a' m] & Hab & Hm). apply range_elem_of in Hm.
    apply list_elem_of_bind in Hab as ([b' st] & Hab & Hst). apply range_elem_of in Hst.
    simpl in *. destruct (0 <? StoreOps.Len st)%nat eqn:Hlen; [|by apply elem_of_nil in Hab].
    apply list_elem_of_singleton in Hab. injection Hab as -> ->.
    exists st. split.
    + apply inner_lookup_Some. eauto.
    + intros Hempty. apply Nat.ltb_lt in Hlen. unfold StoreOps.Len in Hlen.
      rewrite Hempty, map_size_empty in Hlen. lia.
  - intros (st & Hst & Hne). apply inner_lookup_Some in Hst as (m & Hm & Hst).
    exists (a, m). split; [|by apply range_elem_of].
    apply list_elem_of_bind. exists (b, st). split; [|by apply range_elem_of].
    simpl. destruct (0 <? StoreOps.Len st)%nat eqn:Hlen; [by apply list_elem_of_singleton|].
    apply Nat.ltb_ge in Hlen. unfold StoreOps.Len in Hlen.
    destruct Hne. apply map_size_empty_iff. lia.
Qed.

Lemma NoDup_fst_range {A} ord (m : gmap string A) : NoDup (range ord m).
Proof. eapply NoDup_fmap_1, range_keys_NoDup. Qed.

Lemma edge_meta_keys_NoDup ord g : NoDup (edge_meta_keys ord g).
Proof.
  unfold edge_meta_keys. apply NoDup_bind; [| |apply NoDup_fst_range].
  - intros [a1 m1] [a2 m2] [a b] H1 H2 Hy1 Hy2.
    apply range_elem_of in H1, H2.
    apply list_elem_of_bind in Hy1 as ([b1 s1] & Hy1 & _), Hy2 as ([b2 s2] & Hy2 & _).
    simpl in *.
    destruct (0 <? StoreOps.Len s1)%nat; [|by apply elem_of_nil in Hy1].
    destruct (0 <? StoreOps.Len s2)%nat; [|by apply elem_of_nil in Hy2].
    apply list_elem_of_singleton in Hy1, Hy2. simplify_eq. done.
  - intros [a m] _. simpl. apply NoDup_bind; [| |apply NoDup_fst_range].
    + intros [b1 s1] [b2 s2] [a' b] H1 H2 Hy1 Hy2.
      apply range_elem_of in H1, H2. simpl in *.
      destruct (0 <? StoreOps.Len s1)%nat; [|by apply elem_of_nil in Hy1].
      destruct (0 <? StoreOps.Len s2)%nat; [|by apply elem_of_nil in Hy2].
      apply list_elem_of_singleton in Hy1, Hy2. simplify_eq. done.
    + intros [b st] _. simpl. destruct (0 <? StoreOps.Len st)%nat; [|constructor].
      apply NoDup_singleton.
Qed.

Lemma edge_meta_key_snapshot (l : list (string * string)) g :
  edge_meta_key <$> (snapshot_edge_meta default_options g <$> l) = l.
Proof.
  rewrite <- list_fmap_compose. rewrite <- (list_fmap_id l) at 2.
  apply Forall_fmap_ext_1, Forall_forall. by intros [a b] _.
Qed.

Lemma edge_meta_keys_sorted_ok ord g :
  keys_sorted (edge_meta_key <$> Snap.md_Edges (snapshot_meta ord default_options g)).
Proof.
  unfold snapshot_meta. simpl. rewrite edge_meta_key_snapshot. split.
  - apply (sort_Slice_Sorted key_less), key_less_asym.
  - rewrite sort_Slice_perm. apply edge_meta_keys_NoDup.
Qed.

Lemma edge_meta_elem_of ord g x :
  x ∈ Snap.md_Edges (snapshot_meta ord default_options g) ↔
    ∃ st, inner (edgeMeta g) (Snap.em_From x) !! Snap.em_To x = Some st ∧
          entries st ≠ ∅ ∧
          x = Snap.mkEdgeMetaData (Snap.em_From x) (Snap.em_To x) (entries st) (schema st).
Proof.
  unfold snapshot_meta. simpl. rewrite list_elem_of_fmap. split.
  - intros ([a b] & -> & Hk). apply sort_Slice_elem_of in Hk.
    apply edge_meta_keys_elem_of in Hk as (st & Hst & Hne).
    exists st. unfold snapshot_edge_meta. simpl. rewrite Hst. simpl. done.
  - intros (st & Hst & Hne & Hx). exists (Snap.em_From x, Snap.em_To x). split.
    + rewrite Hx at 1. unfold snapshot_edge_meta. simpl. rewrite Hst. done.
    + apply sort_Slice_elem_of, edge_meta_keys_elem_of. eauto.
Qed.

End SnapshotFacts.

(** ** [Unmarshal] of a snapshot that is in order *)

Section Rebuilt.
Context {N E : Type}.
Implicit Types g : Graph N E.

Lemma wf_frame g1 g2 :
  Directed g1 = Directed g2 → nodes g1 = nodes g2 → out g1 = out g2 → in_ g1 = in_ g2 →
  wf g2 → wf g1.
Proof.
  destruct g1 as [d1 n1 o1 i1 nm1 em1], g2 as [d2 n2 o2 i2 nm2 em2]. simpl.
  intros -> -> -> -> Hwf. exact (wf_meta_irrelevant _ nm1 em1 Hwf).
Qed.

Definition rebuilt (d : bool) (gd : Snap.GraphData N E) (md : Snap.MetaData) : Graph N E :=
  apply_edges_meta
    (apply_nodes_meta
       (add_edges_pure (add_nodes (NewGraph d) (Snap.Nodes gd)) (Snap.Edges gd))
       (Snap.md_Nodes md))
    (Snap.md_Edges md).

Record rebuilt_spec (d : bool) (gd : Snap.GraphData N E) (md : Snap.MetaData) g : Prop := {
  R_wf : wf g;
  R_dir : Directed g = d;
  R_nodes : ∀ id x,
    nodes g !! id = Some x ↔ ∃ n, n ∈ Snap.Nodes gd ∧ Snap.ID n = id ∧ x = of_node n;
  R_out_elem : ∀ e, e ∈ Snap.Edges gd →
    inner (out g) (Snap.From e) !! Snap.To e = Some (of_edge e);
  R_out_inv : ∀ a b x, inner (out g) a !! b = Some x →
    (∃ e, e ∈ Snap.Edges gd ∧ x = of_edge e ∧ (a, b) = snap_edge_key e) ∨
    (d = false ∧ ∃ e, e ∈ Snap.Edges gd ∧ x = reverse_edge (of_edge e) ∧
                      (b, a) = snap_edge_key e);
  R_nm_elem : ∀ nm, nm ∈ Snap.md_Nodes md →
    nodeMeta g !! Snap.nm_ID nm = Some (store_of (Snap.nm_Entries nm) (Snap.nm_Schema nm));
  R_nm_inv : ∀ id st, nodeMeta g !! id = Some st → id ∈ Snap.nm_ID <$> Snap.md_Nodes md;
  R_em_elem : ∀ em, em ∈ Snap.md_Edges md →
    inner (edgeMeta g) (Snap.em_From em) !! Snap.em_To em
      = Some (store_of (Snap.em_Entries em) (Snap.em_Schema em));
  R_em_inv : ∀ a b st, inner (edgeMeta g) a !! b = Some st →
    (a, b) ∈ edge_meta_key <$> Snap.md_Edges md
}.

Lemma inner_empty {A} (a : string) : inner (∅ : gmap string (gmap string A)) a = ∅.
Proof. unfold inner. by rewrite lookup_empty. Qed.

Section WithSnapshot.
Variables (d : bool) (gd : Snap.GraphData N E) (md : Snap.MetaData).
Hypothesis Hok : snapshot_ok d gd md.

Let G1 : Graph N E := add_nodes (NewGraph d) (Snap.Nodes gd).
Let G2 : Graph N E := add_edges_pure G1 (Snap.Edges gd).
Let G3 : Graph N E := apply_nodes_meta G2 (Snap.md_Nodes md).

Lemma rebuilt_ends e :
  e ∈ Snap.Edges gd → HasNode G1 (Snap.From e) = true ∧ HasNode G1 (Snap.To e) = true.
Proof.
  intros He.
  destruct (ok_edge_ends d gd md Hok (Snap.From e) (Snap.To e)) as [Hf Ht].
  { apply list_elem_of_fmap. by exists e. }
  apply list_elem_of_fmap in Hf as (nf & Hf & Hnf), Ht as (nt & Ht & Hnt).
  destruct (ok_nodes d gd md Hok) as [_ Hnd].
  split; apply HasNode_true; unfold G1.
  - rewrite Hf, (add_nodes_elem _ nf _ Hnd Hnf). eauto.
  - rewrite Ht, (add_nodes_elem _ nt _ Hnd Hnt). eauto.
Qed.

Lemma rebuilt_norm :
  Directed G1 = false → ∀ e, e ∈ Snap.Edges gd → str_lt (Snap.To e) (Snap.From e) = false.
Proof.
  intros Hd e He. unfold G1 in Hd.
  destruct (add_nodes_frame (Snap.Nodes gd) (NewGraph d : Graph N E)) as (Hd' & _).
  rewrite Hd' in Hd. simpl in Hd.
  apply (ok_edge_norm d gd md Hok Hd). apply list_elem_of_fmap. by exists e.
Qed.

Lemma rebuilt_ok : rebuilt_spec d gd md (rebuilt d gd md).
Proof.
  change (rebuilt d gd md) with (apply_edges_meta G3 (Snap.md_Edges md)).
  destruct (add_nodes_frame (Snap.Nodes gd) (NewGraph d : Graph N E)) as (D1 & NM1 & EM1 & O1).
  destruct (add_edges_pure_frame (Snap.Edges gd) G1) as (D2 & N2 & NM2 & EM2).
  destruct (apply_nodes_meta_frame (Snap.md_Nodes md) G2) as (D3 & N3 & O3 & I3 & EM3).
  destruct (apply_edges_meta_frame (Snap.md_Edges md) G3) as (D4 & N4 & O4 & I4 & NM4).
  fold G1 in D1, NM1, EM1, O1. fold G2 in D2, N2, NM2, EM2. fold G3 in D3, N3, O3, I3, EM3.
  simpl in D1, NM1, EM1.
  destruct (ok_nodes d gd md Hok) as [_ Hnd].
  destruct (ok_edges d gd md Hok) as [_ Hke].
  destruct (ok_meta_nodes d gd md Hok) as [_ Hnm].
  destruct (ok_meta_edges d gd md Hok) as [_ Hme].
  assert (wf G2) as Hwf2 by apply add_edges_pure_wf, add_nodes_wf, wf_NewGraph.
  assert (∀ e, e ∈ Snap.Edges gd →
            inner (out G2) (Snap.From e) !! Snap.To e = Some (of_edge e)) as Helem.
  { intros e He. apply add_edges_pure_elem;
      [apply rebuilt_ends|done|apply rebuilt_norm|done]. }
  assert (∀ nm, nm ∈ Snap.md_Nodes md → HasNode G2 (Snap.nm_ID nm) = true) as Hlive.
  { intros nm Hnm'. rewrite (HasNode_nodes G2 G1 _ N2). apply HasNode_true.
    assert (Snap.nm_ID nm ∈ Snap.ID <$> Snap.Nodes gd) as Hin.
    { apply (ok_meta_nodes_live d gd md Hok). by apply list_elem_of_fmap_2. }
    apply list_elem_of_fmap in Hin as (n & Hn & Hin).
    unfold G1. rewrite Hn, (add_nodes_elem _ n _ Hnd Hin). eauto. }
  assert (∀ em, em ∈ Snap.md_Edges md → edge_store_ready G3 em) as Hready.
  { intros em Hem.
    assert (edge_meta_key em ∈ snap_edge_key <$> Snap.Edges gd) as Hin.
    { apply (ok_meta_edges_live d gd md Hok). by apply list_elem_of_fmap_2. }
    apply list_elem_of_fmap in Hin as (e & Hk & He).
    unfold edge_meta_key, snap_edge_key in Hk. injection Hk as Hk1 Hk2.
    split.
    - rewrite HasEdge_inner, O3, Hk1, Hk2, (Helem e He). by apply bool_decide_eq_true.
    - unfold edgeMetaKey. rewrite D3, D2, D1.
      destruct d eqn:Hd; simpl; [done|].
      rewrite Hk1, Hk2.
      rewrite (ok_edge_norm _ gd md Hok eq_refl (Snap.From e) (Snap.To e)); [done|].
      by apply (list_elem_of_fmap_2 snap_edge_key). }
  split.
  - apply (wf_frame _ G2); congruence.
  - congruence.
  - intros id x. rewrite N4, N3, N2. by apply add_nodes_lookup.
  - intros e He. rewrite O4, O3. by apply Helem.
  - intros a b x. rewrite O4, O3. intros Hx.
    apply add_edges_pure_inv in Hx; [|apply rebuilt_ends].
    destruct Hx as [Hx|[Hx|[Hdir Hx]]]; [|by left|right; split; [congruence|done]].
    fold G1 in Hx. rewrite O1 in Hx. simpl in Hx. by rewrite inner_empty, lookup_empty in Hx.
  - intros nm Hnm'. rewrite NM4. apply apply_nodes_meta_elem; [done..|].
    by rewrite NM2, NM1, lookup_empty.
  - intros id st. rewrite NM4. intros Hst.
    destruct (decide (id ∈ Snap.nm_ID <$> Snap.md_Nodes md)) as [|Hno]; [done|].
    fold G3 in Hst. unfold G3 in Hst. rewrite apply_nodes_meta_other in Hst by done.
    by rewrite NM2, NM1, lookup_empty in Hst.
  - intros em Hem. apply apply_edges_meta_elem; [done..|].
    by rewrite EM3, EM2, EM1, inner_empty, lookup_empty.
  - intros a b st Hst.
    destruct (decide ((a, b) ∈ edge_meta_key <$> Snap.md_Edges md)) as [|Hno]; [done|].
    rewrite apply_edges_meta_other in Hst by done.
    by rewrite EM3, EM2, EM1, inner_empty, lookup_empty in Hst.
Qed.

Lemma graph_of_snapshot_rebuilt :
  graph_of_snapshot (Snap.mkSnapshot 1 d (Some gd) (Some md)) = inl (rebuilt d gd md).
Proof.
  unfold graph_of_snapshot. simpl.
  change (foldl _ (NewGraph d) (Snap.Nodes gd)) with G1.
  rewrite (add_edges_pure_eq _ G1 rebuilt_ends). done.
Qed.

End WithSnapshot.
End Rebuilt.

Section RebuiltSnapshot.
Context {N E : Type}.
Implicit Types g : Graph N E.

Lemma normalize_edge_id (e : Edge.t E) :
  str_lt (Edge.To e) (Edge.From e) = false → normalize_edge e = e.
Proof. unfold normalize_edge. by intros ->. Qed.

Lemma reverse_reverse_edge (e : Edge.t E) : reverse_edge (reverse_edge e) = e.
Proof. by destruct e. Qed.

(** The snapshot of the graph built from a snapshot in order is that snapshot. *)
Lemma rebuilt_snapshot ord d gd md g :
  snapshot_ok d gd md → rebuilt_spec d gd md g →
  snapshot ord default_options g = Snap.mkSnapshot 1 d (Some gd) (Some md).
Proof.
  intros Hok [Hwf Hd Hn Hoe Hoi Hne Hni Hee Hei].
  assert (∀ e, e ∈ Snap.Edges gd → written_edge g (of_edge e) = of_edge e) as Hwritten.
  { intros e He. unfold written_edge. rewrite Hd. destruct d eqn:Hdir; simpl; [done|].
    apply normalize_edge_id. simpl.
    apply (ok_edge_norm _ gd md Hok eq_refl). by apply (list_elem_of_fmap_2 snap_edge_key). }
  unfold snapshot. simpl. rewrite Hd. f_equal.
  - f_equal. rewrite snapshot_graph_written.
    destruct gd as [ns es]. simpl in *. f_equal.
    + apply (sorted_by_id_eq Snap.ID); [|apply (ok_nodes _ _ _ Hok)|].
      * rewrite <- list_fmap_compose. by apply (Nodes_ids_sorted ord g).
      * intros x. rewrite list_elem_of_fmap. split.
        -- intros (n & -> & Hin). apply (Nodes_elem_of ord g n Hwf) in Hin.
           apply Hn in Hin as (s & Hs & _ & ->). by rewrite to_node_of_node.
        -- intros Hx. exists (of_node x). split; [by rewrite to_node_of_node|].
           apply (Nodes_elem_of ord g _ Hwf). apply Hn. eauto.
    + apply (sorted_by_key_eq snap_edge_key); [|apply (ok_edges _ _ _ Hok)|].
      * rewrite <- list_fmap_compose. by apply (written_edges_keys_sorted ord g).
      * intros x. rewrite list_elem_of_fmap. split.
        -- intros (w & -> & Hin).
           apply (written_edges_sorted_elem_of ord g w Hwf) in Hin as (a & b & e & He & ->).
           apply Hoi in He as [(s & Hs & -> & _)|(Hdir & s & Hs & -> & _)].
           ++ by rewrite (Hwritten s Hs), to_edge_of_edge.
           ++ unfold written_edge at 1. rewrite Hd, Hdir. simpl.
              rewrite normalize_reverse.
              pose proof (Hwritten s Hs) as Hw. unfold written_edge in Hw.
              rewrite Hd, Hdir in Hw. simpl in Hw. by rewrite Hw, to_edge_of_edge.
        -- intros Hx. exists (of_edge x). split; [by rewrite to_edge_of_edge|].
           apply (written_edges_sorted_elem_of ord g _ Hwf).
           exists (Snap.From x), (Snap.To x), (of_edge x). split; [by apply Hoe|].
           by rewrite Hwritten.
  - f_equal. destruct md as [mns mes].
    change (snapshot_meta ord default_options g) with
      (Snap.mkMetaData (flat_map (snapshot_node_meta default_options g) (Nodes ord g))
                       (Snap.md_Edges (snapshot_meta ord default_options g))).
    simpl in *. f_equal.
    + apply (sorted_by_id_eq Snap.nm_ID); [by apply node_meta_ids_sorted
                                          |apply (ok_meta_nodes _ _ _ Hok)|].
      intros x. rewrite (node_meta_elem_of ord g x Hwf). split.
      * intros (st & _ & Hst & _ & Hx).
        pose proof (Hni _ _ Hst) as Hin. apply list_elem_of_fmap in Hin as (nm & Hid & Hnm).
        pose proof (Hne nm Hnm) as Hst'. rewrite <- Hid, Hst in Hst'. injection Hst' as ->.
        rewrite Hx, Hid. simpl. by destruct nm.
      * intros Hx. exists (store_of (Snap.nm_Entries x) (Snap.nm_Schema x)). split_and!.
        -- assert (Snap.nm_ID x ∈ Snap.ID <$> Snap.Nodes gd) as Hin.
           { apply (ok_meta_nodes_live _ _ _ Hok). by apply (list_elem_of_fmap_2 Snap.nm_ID). }
           apply list_elem_of_fmap in Hin as (n & Hid & Hin).
           exists (of_node n). apply Hn. eauto.
        -- by apply Hne.
        -- simpl. pose proof (ok_meta_nodes_entries _ _ _ Hok) as Hall.
           rewrite Forall_forall in Hall. by apply Hall.
        -- by destruct x.
    + apply (sorted_by_key_eq edge_meta_key); [apply edge_meta_keys_sorted_ok
                                              |apply (ok_meta_edges _ _ _ Hok)|].
      intros x. rewrite (edge_meta_elem_of ord g x). split.
      * intros (st & Hst & _ & Hx).
        pose proof (Hei _ _ _ Hst) as Hin. apply list_elem_of_fmap in Hin as (em & Hk & Hem).
        unfold edge_meta_key in Hk. injection Hk as Hk1 Hk2.
        pose proof (Hee em Hem) as Hst'. rewrite <- Hk1, <- Hk2, Hst in Hst'.
        injection Hst' as ->. rewrite Hx, Hk1, Hk2. simpl. by destruct em.
      * intros Hx. exists (store_of (Snap.em_Entries x) (Snap.em_Schema x)). split_and!.
        -- by apply Hee.
        -- simpl. pose proof (ok_meta_edges_entries _ _ _ Hok) as Hall.
           rewrite Forall_forall in Hall. by apply Hall.
        -- by destruct x.
Qed.

End RebuiltSnapshot.

(** ** The snapshot of a graph is in order *)

Section SnapshotOfGraph.
Context {N E : Type}.
Implicit Types g : Graph N E.

(** Every store of an edge that is not empty belongs to an edge of the
    graph, under the key [EdgeMeta] keeps it. *)
Definition stores_attached g : Prop :=
  ∀ a b st, inner (edgeMeta g) a !! b = Some st → entries st ≠ ∅ →
    is_Some (inner (out g) a !! b) ∧ (Directed g = false → str_lt b a = false).

Lemma Nodes_ids_elem_of ord g id :
  wf g → id ∈ Node.ID <$> Nodes ord g ↔ is_Some (nodes g !! id).
Proof.
  intros Hwf. rewrite list_elem_of_fmap. split.
  - intros (n & -> & Hn). apply (Nodes_elem_of ord g n Hwf) in Hn. eauto.
  - intros [n Hn]. exists n. pose proof (wf_node_id g Hwf _ _ Hn) as Hid.
    split; [done|]. apply (Nodes_elem_of ord g n Hwf). by rewrite Hid.
Qed.

Lemma snapshot_node_ids ord g :
  Snap.ID <$> Snap.Nodes (snapshot_graph ord g) = Node.ID <$> Nodes ord g.
Proof. rewrite snapshot_graph_written. simpl. by rewrite <- list_fmap_compose. Qed.

Lemma snapshot_edge_keys ord g :
  snap_edge_key <$> Snap.Edges (snapshot_graph ord g)
    = edge_key <$> written_edges_sorted ord g.
Proof. rewrite snapshot_graph_written. simpl. by rewrite <- list_fmap_compose. Qed.

Lemma written_keys_elem_of ord g a b :
  wf g →
  (a, b) ∈ edge_key <$> written_edges_sorted ord g ↔
    ∃ a' b' e, inner (out g) a' !! b' = Some e ∧
               (a, b) = if negb (Directed g) && str_lt b' a' then (b', a') else (a', b').
Proof.
  intros Hwf. rewrite list_elem_of_fmap. split.
  - intros (w & Hk & Hw).
    apply (written_edges_sorted_elem_of ord g w Hwf) in Hw as (a' & b' & e & He & ->).
    exists a', b', e. split; [done|]. by rewrite Hk, (written_edge_key g a' b' e Hwf He).
  - intros (a' & b' & e & He & Hk). exists (written_edge g e). split.
    + by rewrite Hk, (written_edge_key g a' b' e Hwf He).
    + apply (written_edges_sorted_elem_of ord g _ Hwf). eauto.
Qed.

(** The edges of a graph, from the keys of its snapshot. *)
Lemma edge_from_written_keys ord g a b :
  wf g →
  is_Some (inner (out g) a !! b) ↔
    (a, b) ∈ edge_key <$> written_edges_sorted ord g ∨
    (Directed g = false ∧ (b, a) ∈ edge_key <$> written_edges_sorted ord g).
Proof.
  intros Hwf. rewrite !(written_keys_elem_of ord g _ _ Hwf). split.
  - intros [e He]. destruct (negb (Directed g) && str_lt b a) eqn:Hc.
    + right. pose proof Hc as Hc'. apply andb_prop in Hc' as [Hd _].
      apply negb_true_iff in Hd. split; [done|]. exists a, b, e. by rewrite Hc.
    + left. exists a, b, e. by rewrite Hc.
  - intros [(a' & b' & e & He & Hk)|(Hd & a' & b' & e & He & Hk)].
    + destruct (negb (Directed g) && str_lt b' a') eqn:Hc; injection Hk as -> ->; [|eauto].
      apply andb_prop in Hc as [Hd _]. apply negb_true_iff in Hd.
      rewrite (wf_undirected g Hwf Hd _ _ _ He). eauto.
    + destruct (negb (Directed g) && str_lt b' a') eqn:Hc; injection Hk as -> ->; [eauto|].
      rewrite (wf_undirected g Hwf Hd _ _ _ He). eauto.
Qed.

Lemma snapshot_ok_of_graph ord g :
  wf g → stores_attached g →
  snapshot_ok (Directed g) (snapshot_graph ord g) (snapshot_meta ord default_options g).
Proof.
  intros Hwf Hatt. split.
  - rewrite snapshot_node_ids. by apply Nodes_ids_sorted.
  - rewrite snapshot_edge_keys. by apply written_edges_keys_sorted.
  - intros a b. rewrite snapshot_edge_keys, snapshot_node_ids.
    rewrite (written_keys_elem_of ord g _ _ Hwf), !(Nodes_ids_elem_of ord g _ Hwf).
    intros (a' & b' & e & He & Hk).
    destruct (wf_edge_ends g Hwf _ _ _ He) as (_ & _ & Hb).
    pose proof (wf_edge_from_node g _ _ _ Hwf He) as Ha.
    by destruct (negb (Directed g) && str_lt b' a'); injection Hk as -> ->.
  - intros Hd a b. rewrite snapshot_edge_keys, (written_keys_elem_of ord g _ _ Hwf).
    intros (a' & b' & e & He & Hk). rewrite Hd in Hk. simpl in Hk.
    destruct (str_lt b' a') eqn:Hlt; injection Hk as -> ->; [|done].
    by apply str_lt_asym.
  - by apply node_meta_ids_sorted.
  - intros id Hid. rewrite snapshot_node_ids, (Nodes_ids_elem_of ord g _ Hwf).
    apply list_elem_of_fmap in Hid as (x & -> & Hx).
    by apply (node_meta_elem_of ord g x Hwf) in Hx as (st & Hn & _).
  - apply Forall_forall. intros x Hx.
    apply (node_meta_elem_of ord g x Hwf) in Hx as (st & _ & _ & Hne & ->). done.
  - apply edge_meta_keys_sorted_ok.
  - intros k Hk. apply list_elem_of_fmap in Hk as (x & -> & Hx).
    apply edge_meta_elem_of in Hx as (st & Hst & Hne & _).
    destruct (Hatt _ _ _ Hst Hne) as [[e He] Hnorm].
    rewrite snapshot_edge_keys. apply (written_keys_elem_of ord g _ _ Hwf).
    exists (Snap.em_From x), (Snap.em_To x), e. split; [done|].
    destruct (Directed g); simpl; [done|]. by rewrite Hnorm.
  - apply Forall_forall. intros x Hx.
    apply edge_meta_elem_of in Hx as (st & _ & Hne & ->). done.
Qed.

(** Every name of the graph is valid UTF-8: the IDs of the nodes, which the
    ends of the edges are, and the keys and the schema names of the stores. *)
Record graph_names_valid g : Prop := {
  gv_nodes : ∀ id, is_Some (nodes g !! id) → utf8_valid id;
  gv_node_stores : ∀ id st, nodeMeta g !! id = Some st →
    entries_valid (entries st) ∧ schema_valid (schema st);
  gv_edge_stores : ∀ a b st, inner (edgeMeta g) a !! b = Some st →
    entries_valid (entries st) ∧ schema_valid (schema st)
}.

Lemma names_valid_of_graph ord g :
  wf g → stores_attached g → graph_names_valid g →
  names_valid (snapshot_graph ord g) (snapshot_meta ord default_options g).
Proof.
  intros Hwf Hatt [V1 V2 V3].
  assert (∀ a b e, inner (out g) a !! b = Some e → utf8_valid a ∧ utf8_valid b) as Hends.
  { intros a b e He. destruct (wf_edge_ends g Hwf _ _ _ He) as (_ & _ & Hb).
    pose proof (wf_edge_from_node g _ _ _ Hwf He) as Ha. split; by apply V1. }
  split.
  - rewrite snapshot_graph_written. simpl. apply Forall_forall. intros x Hx.
    apply list_elem_of_fmap in Hx as (n & -> & Hn).
    apply (Nodes_elem_of ord g n Hwf) in Hn. simpl. apply V1. eauto.
  - rewrite snapshot_graph_written. simpl. apply Forall_forall. intros x Hx.
    apply list_elem_of_fmap in Hx as (w & -> & Hw).
    apply (written_edges_sorted_elem_of ord g w Hwf) in Hw as (a & b & e & He & ->).
    destruct (wf_edge_ends g Hwf _ _ _ He) as (Hf & Ht & _).
    destruct (Hends a b e He) as [Ha Hb].
    unfold to_edge, written_edge, normalize_edge.
    destruct (negb (Directed g)); [destruct (str_lt (Edge.To e) (Edge.From e))|];
      simpl; rewrite Hf, Ht; done.
  - apply Forall_forall. intros x Hx.
    apply (node_meta_elem_of ord g x Hwf) in Hx as (st & Hn & Hst & _ & ->). simpl.
    destruct (V2 _ _ Hst) as [? ?]. split_and!; [by apply V1|done..].
  - apply Forall_forall. intros x Hx.
    apply edge_meta_elem_of in Hx as (st & Hst & Hne & ->). simpl.
    destruct (Hatt _ _ _ Hst Hne) as [[e He] _].
    destruct (Hends _ _ e He) as [? ?]. destruct (V3 _ _ _ Hst) as [? ?]. done.
Qed.

Variable encN : N → option json.
Variable decN : json → option N.
Variable zeroN : N.
Variable encE : E → option json.
Variable decE : json → option E.
Variable zeroE : E.
Variable encV : value → option json.
Variable decV : json → value.
Variable encF : float → option json.
Variable decF : json → option float.

(** Every payload of the graph survives the codec: the data of the nodes and
    of the edges, the weights, and the values of the stores of the nodes and
    of the edges. *)
Record graph_payloads_stable g : Prop := {
  gs_nodes : ∀ id n, nodes g !! id = Some n → stable encN decN (Node.Data n);
  gs_edges : ∀ a b e, inner (out g) a !! b = Some e →
    stable encE decE (Edge.Data e) ∧ stable_weight encF decF (Edge.Weight e);
  gs_node_stores : ∀ id st, is_Some (nodes g !! id) → nodeMeta g !! id = Some st →
    map_Forall (λ _ v, stable_value encV decV v) (entries st);
  gs_edge_stores : ∀ a b st, inner (edgeMeta g) a !! b = Some st →
    map_Forall (λ _ v, stable_value encV decV v) (entries st)
}.

Lemma written_edge_payload g (e : Edge.t E) :
  Edge.Data (written_edge g e) = Edge.Data e ∧ Edge.Weight (written_edge g e) = Edge.Weight e.
Proof.
  unfold written_edge, normalize_edge. destruct (negb (Directed g)); [|done].
  by destruct (str_lt (Edge.To e) (Edge.From e)).
Qed.

Lemma payloads_stable_of_graph ord g :
  wf g → graph_payloads_stable g →
  payloads_stable encN decN encE decE encV decV encF decF
                  (snapshot_graph ord g) (snapshot_meta ord default_options g).
Proof.
  intros Hwf [S1 S2 S3 S4]. split.
  - rewrite snapshot_graph_written. simpl. apply Forall_forall. intros x Hx.
    apply list_elem_of_fmap in Hx as (n & -> & Hn).
    apply (Nodes_elem_of ord g n Hwf) in Hn. simpl. by eapply S1.
  - rewrite snapshot_graph_written. simpl. apply Forall_forall. intros x Hx.
    apply list_elem_of_fmap in Hx as (w & -> & Hw).
    apply (written_edges_sorted_elem_of ord g w Hwf) in Hw as (a & b & e & He & ->).
    simpl. destruct (written_edge_payload g e) as [-> ->]. by eapply S2.
  - apply Forall_forall. intros x Hx.
    apply (node_meta_elem_of ord g x Hwf) in Hx as (st & Hn & Hst & _ & ->). simpl.
    by eapply S3.
  - apply Forall_forall. intros x Hx.
    apply edge_meta_elem_of in Hx as (st & Hst & _ & ->). simpl. by eapply S4.
Qed.

End SnapshotOfGraph.

(** ** The snapshot is a fixed point of decode and encode *)

Lemma Forall2_elem_of_l {A B} (R : A → B → Prop) l l' x :
  Forall2 R l l' → x ∈ l → ∃ y, y ∈ l' ∧ R x y.
Proof.
  induction 1 as [|a b l l' Hab _ IH]; [by intros ?%elem_of_nil|].
  intros [->|Hx]%elem_of_cons.
  - exists b. split; [by left|done].
  - destruct (IH Hx) as (y & Hy & HR). exists y. split; [by right|done].
Qed.

Lemma Forall2_elem_of_r {A B} (R : A → B → Prop) l l' y :
  Forall2 R l l' → y ∈ l' → ∃ x, x ∈ l ∧ R x y.
Proof.
  induction 1 as [|a b l l' Hab _ IH]; [by intros ?%elem_of_nil|].
  intros [->|Hy]%elem_of_cons.
  - exists a. split; [by left|done].
  - destruct (IH Hy) as (x & Hx & HR). exists x. split; [by right|done].
Qed.

Section FixedPoint.
Context {N E : Type}.
Implicit Types g : Graph N E.

(** The store of a node or of an edge, an empty one when there is none. *)
Definition node_store g (id : string) : Store :=
  default StoreOps.NewStore (nodeMeta g !! id).
Definition edge_store g (a b : string) : Store :=
  default StoreOps.NewStore (inner (edgeMeta g) a !! b).

(** What two graphs with snapshots of the same shape have in common. *)
Lemma same_shape_graphs ord g g' gd' md' :
  wf g → stores_attached g → wf g' → Directed g' = Directed g →
  snapshot ord default_options g' = Snap.mkSnapshot 1 (Directed g) (Some gd') (Some md') →
  same_shape (snapshot_graph ord g) gd' (snapshot_meta ord default_options g) md' →
  (∀ id, HasNode g' id = HasNode g id) ∧
  (∀ a b, HasEdge g' a b = HasEdge g a b) ∧
  (∀ id, HasNode g id = true →
         dom (entries (node_store g' id)) = dom (entries (node_store g id))) ∧
  (∀ a b, dom (entries (edge_store g' a b)) = dom (entries (edge_store g a b))).
Proof.
  intros Hwf Hatt Hwf' Hd Hsnap [S1 S2 S3 S4].
  unfold snapshot in Hsnap. simpl in Hsnap.
  injection Hsnap as _ Hgd Hmd.
  pose proof (Forall2_fmap_eq Snap.ID _ _ S1) as E1.
  pose proof (Forall2_fmap_eq snap_edge_key _ _ S2) as E2.
  rewrite <- Hgd in E1, E2. rewrite !snapshot_node_ids in E1. rewrite !snapshot_edge_keys in E2.
  assert (∀ id, is_Some (nodes g' !! id) ↔ is_Some (nodes g !! id)) as Hnodes.
  { intros id. by rewrite <- !(Nodes_ids_elem_of ord _ id), E1. }
  split_and!.
  - intros id. unfold HasNode. apply bool_decide_ext, Hnodes.
  - intros a b. rewrite !HasEdge_inner. apply bool_decide_ext.
    by rewrite (edge_from_written_keys ord g' a b Hwf'),
               (edge_from_written_keys ord g a b Hwf), E2, Hd.
  - intros id Hid. apply HasNode_true in Hid. unfold node_store.
    destruct (nodeMeta g' !! id) as [st'|] eqn:Hst'; simpl.
    + destruct (decide (entries st' = ∅)) as [He'|He'].
      * rewrite He', dom_empty_L. symmetry. apply dom_empty_iff_L.
        destruct (nodeMeta g !! id) as [st|] eqn:Hst; simpl; [|done].
        destruct (decide (entries st = ∅)) as [|He]; [done|]. exfalso.
        assert (Snap.mkNodeMetaData id (entries st) (schema st)
                  ∈ Snap.md_Nodes (snapshot_meta ord default_options g)) as Hin.
        { apply (node_meta_elem_of ord g _ Hwf). exists st. by split_and!. }
        destruct (Forall2_elem_of_l _ _ _ _ S3 Hin) as (y & Hy & Hid' & Hdom).
        rewrite <- Hmd in Hy.
        apply (node_meta_elem_of ord g' _ Hwf') in Hy as (sy & _ & Hsy & _ & Hyeq).
        simpl in Hid', Hdom. rewrite Hid', Hst' in Hsy. injection Hsy as <-.
        rewrite Hyeq in Hdom. simpl in Hdom. rewrite He', dom_empty_L in Hdom.
        symmetry in Hdom. by apply dom_empty_iff_L in Hdom.
      * assert (Snap.mkNodeMetaData id (entries st') (schema st') ∈ Snap.md_Nodes md')
          as Hin.
        { rewrite <- Hmd. apply (node_meta_elem_of ord g' _ Hwf'). exists st'.
          split_and!; try done. by apply Hnodes. }
        destruct (Forall2_elem_of_r _ _ _ _ S3 Hin) as (x & Hx & Hid' & Hdom).
        apply (node_meta_elem_of ord g _ Hwf) in Hx as (sx & _ & Hsx & _ & Hxeq).
        simpl in Hid', Hdom. rewrite <- Hid' in Hsx. rewrite Hsx. simpl.
        rewrite Hxeq in Hdom. done.
    + rewrite dom_empty_L. symmetry. apply dom_empty_iff_L.
      destruct (nodeMeta g !! id) as [st|] eqn:Hst; simpl; [|done].
      destruct (decide (entries st = ∅)) as [|He]; [done|]. exfalso.
      assert (Snap.mkNodeMetaData id (entries st) (schema st)
                ∈ Snap.md_Nodes (snapshot_meta ord default_options g)) as Hin.
      { apply (node_meta_elem_of ord g _ Hwf). exists st. by split_and!. }
      destruct (Forall2_elem_of_l _ _ _ _ S3 Hin) as (y & Hy & Hid' & Hdom).
      rewrite <- Hmd in Hy.
      apply (node_meta_elem_of ord g' _ Hwf') in Hy as (sy & _ & Hsy & _ & Hyeq).
      simpl in Hid'. rewrite Hid', Hst' in Hsy. done.
  - intros a b. unfold edge_store.
    destruct (inner (edgeMeta g') a !! b) as [st'|] eqn:Hst'; simpl.
    + destruct (decide (entries st' = ∅)) as [He'|He'].
      * rewrite He', dom_empty_L. symmetry. apply dom_empty_iff_L.
        destruct (inner (edgeMeta g) a !! b) as [st|] eqn:Hst; simpl; [|done].
        destruct (decide (entries st = ∅)) as [|He]; [done|]. exfalso.
        assert (Snap.mkEdgeMetaData a b (entries st) (schema st)
                  ∈ Snap.md_Edges (snapshot_meta ord default_options g)) as Hin.
        { apply edge_meta_elem_of. exists st. by split_and!. }
        destruct (Forall2_elem_of_l _ _ _ _ S4 Hin) as (y & Hy & Hk & Hdom).
        rewrite <- Hmd in Hy.
        apply edge_meta_elem_of in Hy as (sy & Hsy & _ & Hyeq).
        unfold edge_meta_key in Hk. simpl in Hk, Hdom. injection Hk as Hk1 Hk2.
        rewrite Hk1, Hk2, Hst' in Hsy. injection Hsy as <-.
        rewrite Hyeq in Hdom. simpl in Hdom. rewrite He', dom_empty_L in Hdom.
        symmetry in Hdom. by apply dom_empty_iff_L in Hdom.
      * assert (Snap.mkEdgeMetaData a b (entries st') (schema st') ∈ Snap.md_Edges md')
          as Hin.
        { rewrite <- Hmd. apply edge_meta_elem_of. exists st'. by split_and!. }
        destruct (Forall2_elem_of_r _ _ _ _ S4 Hin) as (x & Hx & Hk & Hdom).
        apply edge_meta_elem_of in Hx as (sx & Hsx & _ & Hxeq).
        unfold edge_meta_key in Hk. simpl in Hk, Hdom. injection Hk as Hk1 Hk2.
        rewrite <- Hk1, <- Hk2 in Hsx. rewrite Hsx. simpl.
        rewrite Hxeq in Hdom. done.
    + rewrite dom_empty_L. symmetry. apply dom_empty_iff_L.
      destruct (inner (edgeMeta g) a !! b) as [st|] eqn:Hst; simpl; [|done].
      destruct (decide (entries st = ∅)) as [|He]; [done|]. exfalso.
      assert (Snap.mkEdgeMetaData a b (entries st) (schema st)
                ∈ Snap.md_Edges (snapshot_meta ord default_options g)) as Hin.
      { apply edge_meta_elem_of. exists st. by split_and!. }
      destruct (Forall2_elem_of_l _ _ _ _ S4 Hin) as (y & Hy & Hk & Hdom).
      rewrite <- Hmd in Hy.
      apply edge_meta_elem_of in Hy as (sy & Hsy & _ & Hyeq).
      unfold edge_meta_key in Hk. simpl in Hk. injection Hk as Hk1 Hk2.
      rewrite Hk1, Hk2, Hst' in Hsy. done.
Qed.

Variable encN : N → option json.
Variable decN : json → option N.
Variable zeroN : N.
Variable encE : E → option json.
Variable decE : json → option E.
Variable zeroE : E.
Variable encV : value → option json.
Variable decV : json → value.
Variable encF : float → option json.
Variable decF : json → option float.


End FixedPoint.

(** ** Graphs whose stores are attached

    A store belongs to an existing node or edge: the accessors make one only
    there, and removing the node or the edge removes it.  So every operation
    keeps the stores attached. *)

Section Attached.
Context {N E : Type}.
Implicit Types g : Graph N E.

Lemma stores_attached_NewGraph d : stores_attached (NewGraph d : Graph N E).
Proof. intros a b st H. simpl in H. by rewrite inner_empty, lookup_empty in H. Qed.

Lemma stores_attached_AddNode g id data :
  stores_attached g → stores_attached (AddNode g id data).
Proof.
  intros Hatt a b st Hst Hne. simpl in *. rewrite inner_make_if_nil. by apply (Hatt a b st).
Qed.

Lemma stores_attached_AddEdge g from to data w :
  stores_attached g → stores_attached (AddEdge g from to data w).1.
Proof.
  intros Hatt a b st Hst Hne.
  destruct (AddEdge_frame g from to data w) as (Hd & _ & _ & Hem).
  rewrite Hem in Hst. rewrite Hd. destruct (Hatt a b st Hst Hne) as [Hsome Hnorm].
  split; [|done]. unfold AddEdge in *.
  destruct (HasNode g from) eqn:Hf; simpl; [|done].
  destruct (HasNode g to) eqn:Ht; simpl; [|done].
  pose proof (AddEdge_out g from to data w a b Hf Ht) as Hout.
  unfold AddEdge in Hout. rewrite Hf, Ht in Hout. simpl in Hout. rewrite Hout.
  repeat case_decide; eauto.
Qed.

Lemma stores_attached_update_NodeMeta g id f :
  stores_attached g → stores_attached (update_NodeMeta g id f).
Proof.
  intros Hatt. unfold update_NodeMeta, NodeMeta.
  destruct (HasNode g id); [|done]. by destruct (nodeMeta g !! id).
Qed.

Lemma stores_attached_update_EdgeMeta g from to f :
  wf g → stores_attached g → stores_attached (update_EdgeMeta g from to f).
Proof.
  intros Hwf Hatt. unfold update_EdgeMeta, EdgeMeta.
  destruct (HasEdge g from to) eqn:He; [|done].
  rewrite HasEdge_inner in He. apply bool_decide_eq_true in He as [e He].
  assert (∀ s a b st,
            inner (inner_insert (edgeMeta g) (edgeMetaKey g from to).1
                                (edgeMetaKey g from to).2 s) a !! b = Some st →
            entries st ≠ ∅ →
            is_Some (inner (out g) a !! b) ∧ (Directed g = false → str_lt b a = false))
    as Hins.
  { intros s a b st Hst Hne. rewrite inner_inner_insert in Hst.
    destruct (decide (a = (edgeMetaKey g from to).1 ∧ b = (edgeMetaKey g from to).2))
      as [[-> ->]|_]; [|by apply (Hatt a b st)].
    unfold edgeMetaKey. destruct (Directed g) eqn:Hd; simpl; [by eauto|].
    destruct (str_lt to from) eqn:Hlt; simpl.
    - split; [|intros _; by apply str_lt_asym].
      rewrite (wf_undirected g Hwf Hd _ _ _ He). eauto.
    - split; [eauto|done]. }
  destruct (edgeMetaKey g from to) as [ka kb] eqn:Hk. simpl in Hins.
  destruct (inner (edgeMeta g) ka !! kb) as [s|] eqn:Hs; simpl.
  - intros a b st Hst Hne. simpl in *. by eapply Hins.
  - intros a b st Hst Hne. simpl in *.
    rewrite inner_inner_insert in Hst.
    destruct (decide (a = ka ∧ b = kb)) as [[-> ->]|Hno].
    + eapply (Hins (f StoreOps.NewStore)); [|done]. rewrite inner_inner_insert.
      by rewrite decide_True.
    + rewrite inner_inner_insert, decide_False in Hst by done. by apply (Hatt a b st).
Qed.

Lemma stores_attached_RemoveNode ord g id :
  wf g → stores_attached g → stores_attached (RemoveNode_with_stores ord g id).
Proof.
  intros Hwf Hatt. unfold RemoveNode_with_stores.
  destruct (HasNode g id) eqn:Hid; simpl; [|done].
  intros a b st Hst Hne. rewrite drop_node_stores_edgeMeta in Hst.
  destruct (decide (a = id ∨ b = id)) as [|Hno]; [done|].
  assert (edgeMeta (RemoveNode ord g id) = edgeMeta g) as Hem
    by (unfold RemoveNode; by rewrite Hid).
  rewrite Hem in Hst. destruct (Hatt a b st Hst Hne) as [Hsome Hnorm].
  change (is_Some (inner (out (RemoveNode ord g id)) a !! b) ∧
          (Directed (RemoveNode ord g id) = false → str_lt b a = false)).
  rewrite RemoveNode_out, decide_False by done. split; [done|].
  unfold RemoveNode. by rewrite Hid.
Qed.

Lemma stores_attached_RemoveEdge g from to :
  stores_attached g → stores_attached (RemoveEdge_with_stores g from to).
Proof.
  intros Hatt a b st Hst Hne. unfold RemoveEdge_with_stores in *.
  rewrite drop_edge_store_edgeMeta in Hst.
  destruct (decide ((a, b) = edgeMetaKey (RemoveEdge g from to) from to)) as [|Hkey]; [done|].
  assert (edgeMeta (RemoveEdge g from to) = edgeMeta g ∧
          Directed (RemoveEdge g from to) = Directed g) as [Hem Hd].
  { unfold RemoveEdge. by destruct (negb (Directed g)). }
  rewrite Hem in Hst. destruct (Hatt a b st Hst Hne) as [Hsome Hnorm].
  assert (Directed (drop_edge_store (RemoveEdge g from to) from to) = Directed g) as Hd'.
  { unfold drop_edge_store. by destruct (edgeMetaKey _ from to). }
  assert (out (drop_edge_store (RemoveEdge g from to) from to) = out (RemoveEdge g from to))
    as Hout.
  { unfold drop_edge_store. by destruct (edgeMetaKey _ from to). }
  rewrite Hd', Hout. split; [|done].
  unfold edgeMetaKey in Hkey. rewrite Hd in Hkey.
  unfold RemoveEdge. destruct (Directed g) eqn:Hdir; simpl in *.
  - rewrite inner_inner_delete, decide_False; [done|].
    intros [-> ->]. by apply Hkey.
  - specialize (Hnorm eq_refl). rewrite !inner_inner_delete.
    destruct (str_lt to from) eqn:Hlt.
    + rewrite (decide_False (P := a = to ∧ b = from)) by (intros [-> ->]; by apply Hkey).
      rewrite decide_False; [done|]. intros [-> ->]. congruence.
    + rewrite (decide_False (P := a = from ∧ b = to)) by (intros [-> ->]; by apply Hkey).
      rewrite decide_False; [done|]. intros [-> ->].
      apply Hkey. by rewrite (str_lt_total _ _ Hlt Hnorm).
Qed.

(** The graphs the operations build, their stores included. *)
Inductive built_with_stores : Graph N E → Prop :=
  | bws_NewGraph d : built_with_stores (NewGraph d)
  | bws_AddNode g id data : built_with_stores g → built_with_stores (AddNode g id data)
  | bws_AddEdge g from to data w :
      built_with_stores g → built_with_stores (AddEdge g from to data w).1
  | bws_RemoveNode ord g id :
      built_with_stores g → built_with_stores (RemoveNode_with_stores ord g id)
  | bws_RemoveEdge g from to :
      built_with_stores g → built_with_stores (RemoveEdge_with_stores g from to)
  | bws_NodeMeta g id f : built_with_stores g → built_with_stores (update_NodeMeta g id f)
  | bws_EdgeMeta g from to f :
      built_with_stores g → built_with_stores (update_EdgeMeta g from to f).

Lemma wf_update_NodeMeta g id f : wf g → wf (update_NodeMeta g id f).
Proof.
  intros Hwf. unfold update_NodeMeta, NodeMeta. destruct (HasNode g id); [|done].
  destruct (nodeMeta g !! id); by apply (wf_meta_irrelevant g).
Qed.

Lemma wf_update_EdgeMeta g from to f : wf g → wf (update_EdgeMeta g from to f).
Proof.
  intros Hwf. unfold update_EdgeMeta, EdgeMeta. destruct (HasEdge g from to); [|done].
  destruct (edgeMetaKey g from to) as [ka kb].
  destruct (inner (edgeMeta g) ka !! kb); by apply (wf_meta_irrelevant g).
Qed.

(** Both invariants hold of every such graph. *)
Lemma built_with_stores_invariants g : built_with_stores g → wf g ∧ stores_attached g.
Proof.
  induction 1 as [d|g id data _ [IH1 IH2]|g from to data w _ [IH1 IH2]
                 |ord g id _ [IH1 IH2]|g from to _ [IH1 IH2]
                 |g id f _ [IH1 IH2]|g from to f _ [IH1 IH2]].
  - split; [apply wf_NewGraph|apply stores_attached_NewGraph].
  - split; [by apply wf_AddNode|by apply stores_attached_AddNode].
  - split; [by apply wf_AddEdge|by apply stores_attached_AddEdge].
  - split; [by apply wf_RemoveNode_with_stores|by apply stores_attached_RemoveNode].
  - split; [by apply wf_RemoveEdge_with_stores|by apply stores_attached_RemoveEdge].
  - split; [by apply wf_update_NodeMeta|by apply stores_attached_update_NodeMeta].
  - split; [by apply wf_update_EdgeMeta|by apply stores_attached_update_EdgeMeta].
Qed.

End Attached.

(** ** Examples of the round trip *)

(** One node whose store holds an int64 that float64 cannot hold: 2^53 + 1. *)
Definition wide_int_graph : Graph string string :=
  update_NodeMeta (AddNode (NewGraph true) "a" "A") "a"
    (λ s, StoreOps.Set_ s "count" (VInt KInt64 9007199254740993)).

Lemma wide_int_graph_wf : wf wide_int_graph.
Proof.
  assert (wide_int_graph =
          let g := AddNode (NewGraph true) "a" "A" in
          mkGraph (Directed g) (nodes g) (out g) (in_ g)
                  (nodeMeta wide_int_graph) (edgeMeta wide_int_graph)) as ->
    by (vm_compute; reflexivity).
  apply wf_meta_irrelevant, wf_AddNode, wf_NewGraph.
Qed.

Lemma wide_int_graph_attached : stores_attached wide_int_graph.
Proof.
  apply stores_attached_update_NodeMeta, stores_attached_AddNode, stores_attached_NewGraph.
Qed.

(** One node whose ID is the byte 0xFF, which is not UTF-8. *)
Definition invalid_id : string := String "255"%char EmptyString.

Definition invalid_id_graph : Graph string string :=
  AddNode (NewGraph true) invalid_id "A".

(** One node whose store has that byte for a key. *)
Definition invalid_key_graph : Graph string string :=
  update_NodeMeta (AddNode (NewGraph true) "a" "A") "a"
    (λ s, StoreOps.Set_ s invalid_id (VString "v")).


Section SampleRoundTrip.
Import JsonExample.

Lemma undirected_sample_attached : stores_attached undirected_sample.
Proof.
  unfold undirected_sample.
  apply stores_attached_update_EdgeMeta.
  { apply (wf_frame _ (AddEdge (AddNode (AddNode (NewGraph false) "b" "B") "a" "A")
                               "b" "a" "ba" 2%float).1); try (vm_compute; reflexivity).
    apply wf_AddEdge, wf_AddNode, wf_AddNode, wf_NewGraph. }
  apply stores_attached_update_NodeMeta, stores_attached_AddEdge.
  apply stores_attached_AddNode, stores_attached_AddNode, stores_attached_NewGraph.
Qed.

Lemma stable_text (s : string) : utf8_valid s → stable enc_text dec_text s.
Proof.
  unfold utf8_valid. intros Hs. exists (JString s), s. unfold enc_text, dec_text.
  by rewrite Hs.
Qed.

Lemma undirected_sample_nodes :
  nodes undirected_sample = {[ "a" := Node.mk "a" "A"; "b" := Node.mk "b" "B" ]}.
Proof. vm_compute. reflexivity. Qed.

Lemma undirected_sample_nodeMeta :
  nodeMeta undirected_sample =
    {[ "b" := {| entries := {[ "lang" := VString "go" ]}; schema := None |} ]}.
Proof. vm_compute. reflexivity. Qed.

Lemma undirected_sample_edgeMeta :
  edgeMeta undirected_sample =
    {[ "a" := {[ "b" := {| entries := {[ "count" := VInt KInt 10 ]}; schema := None |} ]} ]}.
Proof. vm_compute. reflexivity. Qed.

Lemma undirected_sample_stable :
  graph_payloads_stable enc_text dec_text enc_text dec_text enc_value dec_value
                        enc_float dec_float undirected_sample.
Proof.
  split.
  - intros id n Hn. apply stable_text. rewrite undirected_sample_nodes in Hn.
    apply lookup_insert_Some in Hn as [[_ <-]|[_ Hn]]; [by vm_compute|].
    apply lookup_singleton_Some in Hn as [_ <-]. by vm_compute.
  - intros a b e He.
    assert (e = Edge.mk "a" "b" "ba" 2%float ∨ e = Edge.mk "b" "a" "ba" 2%float) as Hcases.
    { assert (out undirected_sample =
              {[ "a" := {[ "b" := Edge.mk "a" "b" "ba" 2%float ]};
                 "b" := {[ "a" := Edge.mk "b" "a" "ba" 2%float ]} ]}) as Hout
        by (vm_compute; reflexivity).
      rewrite Hout in He. apply inner_lookup_Some in He as (m & Hm & He).
      apply lookup_insert_Some in Hm as [[_ <-]|[_ Hm]].
      - left. by apply lookup_singleton_Some in He as [_ <-].
      - right. apply lookup_singleton_Some in Hm as [_ <-].
        by apply lookup_singleton_Some in He as [_ <-]. }
    assert (Edge.Data e = "ba" ∧ Edge.Weight e = 2%float) as [-> ->]
      by (by destruct Hcases as [-> | ->]).
    split; [apply stable_text; by vm_compute|].
    exists (JNumber "2"), 2%float. by vm_compute.
  - intros id st _ Hst. rewrite undirected_sample_nodeMeta in Hst.
    apply lookup_singleton_Some in Hst as [_ <-]. simpl.
    apply map_Forall_singleton. exists (JString "go"). by vm_compute.
  - intros a b st Hst. rewrite undirected_sample_edgeMeta in Hst.
    apply inner_lookup_Some in Hst as (m & Hm & Hst).
    apply lookup_singleton_Some in Hm as [_ <-].
    apply lookup_singleton_Some in Hst as [_ <-]. simpl.
    apply map_Forall_singleton. exists (JNumber "10"). by vm_compute.
Qed.

Lemma undirected_sample_names : graph_names_valid undirected_sample.
Proof.
  assert (schema_valid None) as Hnone by (by intros ? ? ? [=]).
  split.
  - intros id [n Hn]. rewrite undirected_sample_nodes in Hn.
    apply lookup_insert_Some in Hn as [[<- _]|[_ Hn]]; [by vm_compute|].
    apply lookup_singleton_Some in Hn as [<- _]. by vm_compute.
  - intros id st Hst. rewrite undirected_sample_nodeMeta in Hst.
    apply lookup_singleton_Some in Hst as [_ <-]. simpl. split; [|done].
    intros k [v Hk]. apply lookup_singleton_Some in Hk as [<- _]. by vm_compute.
  - intros a b st Hst. rewrite undirected_sample_edgeMeta in Hst.
    apply inner_lookup_Some in Hst as (m & Hm & Hst).
    apply lookup_singleton_Some in Hm as [_ <-].
    apply lookup_singleton_Some in Hst as [_ <-]. simpl. split; [|done].
    intros k [v Hk]. apply lookup_singleton_Some in Hk as [<- _]. by vm_compute.
Qed.

End SampleRoundTrip.


(** * More of the code: facts beyond the claims *)

(** ** store.go: the store as a finite map *)

Section StoreFacts.
Import StoreOps.
Implicit Types s : Store.

Lemma Has_true s k : Has s k = true ↔ is_Some (entries s !! k).
Proof. unfold Has. apply bool_decide_eq_true. Qed.

Lemma Has_false s k : Has s k = false ↔ entries s !! k = None.
Proof. unfold Has. rewrite bool_decide_eq_false. by rewrite eq_None_not_Some. Qed.

Lemma Keys_perm ord s : Keys ord s ≡ₚ (map_to_list (entries s)).*1.
Proof.
  unfold Keys, sort_Strings. rewrite sort_Slice_perm. unfold range.
  by rewrite (range_order_perm ord _ (map_to_list (entries s))).
Qed.

Lemma Keys_elem_of ord s k : k ∈ Keys ord s ↔ is_Some (entries s !! k).
Proof.
  unfold Keys. rewrite sort_Strings_elem_of. apply range_keys_elem_of.
Qed.

Lemma Keys_NoDup ord s : NoDup (Keys ord s).
Proof. rewrite Keys_perm. apply NoDup_fst_map_to_list. Qed.

Lemma Keys_ids_sorted ord s : ids_sorted (Keys ord s).
Proof.
  split; [|apply Keys_NoDup]. apply (sort_Slice_Sorted str_lt), str_lt_asym.
Qed.

(** Ascending without repetition is strictly ascending. *)
Lemma ids_sorted_strict (l : list string) :
  ids_sorted l → StronglySorted (λ a b, str_lt a b = true) l.
Proof.
  intros [Hs Hnd].
  assert (Transitive (not_after str_lt)) as Htrans.
  { intros x y z H1 H2. unfold not_after in *. by eapply str_lt_ntrans. }
  apply Sorted_StronglySorted in Hs; [|done].
  induction Hs as [|x l Hl IH Hall]; [constructor|].
  apply NoDup_cons in Hnd as [Hx Hnd]. constructor; [by apply IH|].
  rewrite Forall_forall in Hall |- *. intros y Hy.
  destruct (str_lt x y) eqn:Hxy; [done|]. exfalso.
  pose proof (Hall y Hy) as Hyx. unfold not_after in Hyx.
  apply Hx. by rewrite (str_lt_total _ _ Hxy Hyx).
Qed.

Lemma Keys_length ord s : length (Keys ord s) = Len s.
Proof. rewrite Keys_perm, length_fmap. apply length_map_to_list. Qed.

Lemma Keys_order_irrelevant ord ord' s : Keys ord' s = Keys ord s.
Proof. unfold Keys. apply sort_Strings_unique. by rewrite (range_perm ord' ord). Qed.

(** X1. [Keys] returns every key of the store once, in strictly ascending
    order, whatever the order the map is walked in; there are [Len] of them. *)
Theorem Keys_sorted_complete ord s :
  StronglySorted (λ a b, str_lt a b = true) (Keys ord s) ∧
  (∀ k, k ∈ Keys ord s ↔ Has s k = true) ∧
  length (Keys ord s) = Len s ∧
  (∀ ord', Keys ord' s = Keys ord s).
Proof.
  split_and!.
  - apply ids_sorted_strict, Keys_ids_sorted.
  - intros k. by rewrite Keys_elem_of, Has_true.
  - apply Keys_length.
  - intros ord'. apply Keys_order_irrelevant.
Qed.

(** X2. [Set], [Get], [Has], [Delete] and [Len] together: a key reads back
    what was set; [Delete] reports whether the key was there and leaves it
    absent; neither touches another key or the schema; [Len] counts the key
    once; deleting a key that was just added gives the store back. *)
Theorem Set_Delete_laws s k v :
  Get (Set_ s k v) k = Some v ∧
  (∀ j, j ≠ k → Get (Set_ s k v) j = Get s j) ∧
  Len (Set_ s k v) = (if Has s k then Len s else S (Len s)) ∧
  (Delete s k).2 = Has s k ∧
  Get (Delete s k).1 k = None ∧
  (∀ j, j ≠ k → Get (Delete s k).1 j = Get s j) ∧
  Len (Delete s k).1 = (if Has s k then Len s - 1 else Len s) ∧
  schema (Set_ s k v) = schema s ∧ schema (Delete s k).1 = schema s ∧
  (Has s k = false → (Delete (Set_ s k v) k).1 = s).
Proof.
  unfold Get, Len, Delete, Set_. simpl. split_and!.
  - apply lookup_insert_eq.
  - intros j Hj. by apply lookup_insert_ne.
  - destruct (Has s k) eqn:Hk.
    + apply Has_true in Hk. by rewrite map_size_insert_Some.
    + apply Has_false in Hk. by rewrite map_size_insert_None.
  - destruct (entries s !! k) eqn:Hk; simpl; symmetry.
    + apply Has_true. by rewrite Hk.
    + by apply Has_false.
  - destruct (entries s !! k) eqn:Hk; simpl; [apply lookup_delete_eq|done].
  - intros j Hj. destruct (entries s !! k) eqn:Hk; simpl; [|done].
    by apply lookup_delete_ne.
  - destruct (entries s !! k) eqn:Hk; simpl.
    + assert (Has s k = true) as -> by (apply Has_true; by rewrite Hk).
      rewrite map_size_delete_Some by (by rewrite Hk). lia.
    + by assert (Has s k = false) as -> by by apply Has_false.
  - done.
  - by destruct (entries s !! k).
  - intros Hk%Has_false. rewrite lookup_insert_eq. simpl.
    destruct s as [en sc]. simpl in *. f_equal. by apply delete_insert_id.
Qed.

(** *** Pages *)

Definition entry_of s (k : string) : Entry := {| Key := k; Value := lookup_value s k |}.

(** The offset [List] works with: not below zero, not beyond the end. *)
Definition clamp_offset s (offset : Z) : nat :=
  Z.to_nat (Z.min (Z.max offset 0) (Z.of_nat (Len s))).

(** The keys of a page. *)
Definition page_keys (ord : MapOrder) s (offset limit : Z) : list string :=
  let rest := drop (clamp_offset s offset) (Keys ord s) in
  if (limit <=? 0)%Z then rest else take (Z.to_nat limit) rest.

Lemma List_fields ord s offset limit :
  Items (List_ ord s offset limit) = entry_of s <$> page_keys ord s offset limit ∧
  Total (List_ ord s offset limit) = Z.of_nat (Len s) ∧
  Offset (List_ ord s offset limit) = Z.of_nat (clamp_offset s offset) ∧
  HasMore (List_ ord s offset limit) =
    (Z.of_nat (clamp_offset s offset + length (page_keys ord s offset limit))
       <? Z.of_nat (Len s))%Z.
Proof.
  unfold List_, page_keys, clamp_offset. cbv zeta. simpl.
  rewrite !Keys_length.
  assert ((if (Z.of_nat (Len s) <? (if (offset <? 0)%Z then 0 else offset))%Z
           then Z.of_nat (Len s) else if (offset <? 0)%Z then 0%Z else offset)
          = Z.min (Z.max offset 0) (Z.of_nat (Len s))) as ->.
  { destruct (Z.ltb_spec offset 0);
      match goal with
      | |- context [(?a <? ?b)%Z] => destruct (Z.ltb_spec a b)
      end; lia. }
  set (off := Z.min (Z.max offset 0) (Z.of_nat (Len s))).
  assert ((0 <= off)%Z) as Hpos by (unfold off; lia).
  set (rest := drop (Z.to_nat off) (Keys ord s)).
  assert ((if (limit <=? 0)%Z then rest
           else if (Z.of_nat (length rest) <? limit)%Z then rest
                else take (Z.to_nat limit) rest)
          = if (limit <=? 0)%Z then rest else take (Z.to_nat limit) rest) as ->.
  { destruct (limit <=? 0)%Z; [done|].
    destruct (Z.ltb_spec (Z.of_nat (length rest)) limit); [|done].
    symmetry. apply take_ge. lia. }
  split_and!; try done.
  - by rewrite Z2Nat.id.
  - rewrite Nat2Z.inj_add, Z2Nat.id by done. done.
Qed.

Lemma entry_of_Get ord s k :
  k ∈ Keys ord s → Get s (Key (entry_of s k)) = Some (Value (entry_of s k)).
Proof.
  intros [v Hv]%Keys_elem_of. unfold entry_of, lookup_value, Get. simpl. by rewrite Hv.
Qed.

Lemma page_keys_sublist ord s offset limit k :
  k ∈ page_keys ord s offset limit → k ∈ Keys ord s.
Proof.
  unfold page_keys. intros Hk.
  assert (k ∈ drop (clamp_offset s offset) (Keys ord s)) as Hd.
  { destruct (limit <=? 0)%Z; [done|]. by eapply subseteq_take. }
  by eapply subseteq_drop.
Qed.

(** X3. A page of [List]: the offset is clamped into [0, Len]; the items are
    the keys from there on in ascending order, all of them when the limit is
    not positive and at most [limit] otherwise, each with the value [Get]
    gives; [Total] is [Len]; [HasMore] says whether keys are left behind the
    page. *)
Theorem List_page ord s offset limit :
  let p := List_ ord s offset limit in
  let off := clamp_offset s offset in
  Key <$> Items p =
    (if (limit <=? 0)%Z then drop off (Keys ord s)
     else take (Z.to_nat limit) (drop off (Keys ord s))) ∧
  Forall (λ e, Get s (Key e) = Some (Value e)) (Items p) ∧
  Total p = Z.of_nat (Len s) ∧ Offset p = Z.of_nat off ∧ Limit p = limit ∧
  (HasMore p = true ↔ off + length (Items p) < Len s) ∧
  ((0 < limit)%Z → (Z.of_nat (length (Items p)) ≤ limit)%Z) ∧
  (∀ ord', List_ ord' s offset limit = p).
Proof.
  intros p off. destruct (List_fields ord s offset limit) as (HI & HT & HO & HM).
  fold p in HI, HT, HO, HM. split_and!.
  - rewrite HI, <- list_fmap_compose.
    change (Key ∘ entry_of s) with (λ k : string, k). by rewrite list_fmap_id.
  - rewrite HI. apply Forall_fmap, Forall_forall. intros k Hk.
    apply (entry_of_Get ord). by eapply page_keys_sublist.
  - done.
  - done.
  - done.
  - rewrite HM, HI, length_fmap. rewrite Z.ltb_lt. fold off. lia.
  - intros Hl. rewrite HI, length_fmap. unfold page_keys.
    destruct (Z.leb_spec limit 0); [lia|]. rewrite length_take. lia.
  - intros ord'. unfold p, List_. by rewrite (Keys_order_irrelevant ord ord').
Qed.

Lemma drop_clamp ord s (offset : Z) :
  (0 ≤ offset)%Z →
  drop (clamp_offset s offset) (Keys ord s) = drop (Z.to_nat offset) (Keys ord s).
Proof.
  intros Hpos. unfold clamp_offset.
  destruct (Z.le_gt_cases offset (Z.of_nat (Len s))) as [Hle|Hgt].
  - by rewrite Z.max_l, Z.min_l by lia.
  - rewrite Z.max_l, Z.min_r, Nat2Z.id by lia.
    rewrite !drop_ge; [done|rewrite Keys_length; lia|by rewrite Keys_length].
Qed.

(** X4. Pages follow one another: the page at [offset] of [limit] items and
    everything from [offset + limit] on make up everything from [offset] on,
    and [HasMore] is set exactly when something is left; the page at 0 with
    no limit holds every key. *)
Theorem List_pages ord s offset limit :
  (0 ≤ offset)%Z → (0 < limit)%Z →
  (Items (List_ ord s offset limit) ++ Items (List_ ord s (offset + limit) 0))%list
    = Items (List_ ord s offset 0) ∧
  (HasMore (List_ ord s offset limit) = true ↔ Items (List_ ord s (offset + limit) 0) ≠ []) ∧
  Key <$> Items (List_ ord s 0 0) = Keys ord s.
Proof.
  intros Hoff Hlim.
  destruct (List_fields ord s offset limit) as (HI1 & _ & _ & HM).
  destruct (List_fields ord s (offset + limit) 0) as (HI2 & _).
  destruct (List_fields ord s offset 0) as (HI3 & _).
  destruct (List_fields ord s 0 0) as (HI4 & _).
  rewrite HI1, HI2, HI3, HI4, HM. unfold page_keys.
  rewrite !drop_clamp by lia.
  destruct (Z.leb_spec limit 0); [lia|]. change (0 <=? 0)%Z with true. cbv iota.
  set (keys := Keys ord s).
  assert (drop (Z.to_nat (offset + limit)) keys
          = drop (Z.to_nat limit) (drop (Z.to_nat offset) keys)) as Hdd.
  { rewrite drop_drop. f_equal. lia. }
  split_and!.
  - rewrite <- fmap_app, Hdd. by rewrite take_drop.
  - rewrite Hdd, length_take, length_drop, Z.ltb_lt.
    assert (length keys = Len s) as Hlen by apply Keys_length.
    assert (clamp_offset s offset = Nat.min (Z.to_nat offset) (Len s)) as ->.
    { unfold clamp_offset. lia. }
    split.
    + intros Hlt Hnil. apply fmap_nil_inv in Hnil.
      apply (f_equal length) in Hnil. rewrite !length_drop in Hnil. simpl in Hnil. lia.
    + intros Hne. destruct (drop (Z.to_nat limit) (drop (Z.to_nat offset) keys)) eqn:Hd;
        [done|]. apply (f_equal length) in Hd. rewrite !length_drop in Hd. simpl in Hd. lia.
  - simpl. rewrite <- list_fmap_compose.
    change (Key ∘ entry_of s) with (λ k : string, k). by rewrite list_fmap_id.
Qed.

Definition three_keys : Store :=
  Set_ (Set_ (Set_ NewStore "b" (VBool true)) "a" (VString "x")) "c" VNil.

Lemma List_pages_witness :
  (0 ≤ 1)%Z ∧ (0 < 1)%Z ∧
  (Items (List_ order_id three_keys 1 1) ++ Items (List_ order_id three_keys (1 + 1) 0))%list
    = Items (List_ order_id three_keys 1 0) ∧
  (HasMore (List_ order_id three_keys 1 1) = true
   ↔ Items (List_ order_id three_keys (1 + 1) 0) ≠ []) ∧
  Key <$> Items (List_ order_id three_keys 0 0) = Keys order_id three_keys.
Proof.
  split; [lia|]. split; [lia|].
  exact (List_pages order_id three_keys 1 1 ltac:(lia) ltac:(lia)).
Defined.

(** *** Range *)

(** [Range]: the callback works on the state [A] it closes over, and returns
    false to stop. *)
Fixpoint Range_loop {A} s (fn : string → value → A → A * bool) (keys : list string) (a : A)
  : A :=
  match keys with
  | [] => a
  | k :: keys' =>
      let '(a', go_on) := fn k (lookup_value s k) a in
      if negb go_on then a' else Range_loop s fn keys' a'
  end.

Definition Range {A} (ord : MapOrder) s (fn : string → value → A → A * bool) (a : A) : A :=
  Range_loop s fn (Keys ord s) a.

Lemma Range_loop_spec {A} s (fn : string → value → A → A * bool) (keys : list string)
    (a : A) :
  ∃ n : nat, (n ≤ length keys)%nat ∧
    Range_loop s fn keys a
      = foldl (λ a k, (fn k (lookup_value s k) a).1) a (take n keys) ∧
    (∀ i k, i + 1 < n → keys !! i = Some k →
       (fn k (lookup_value s k)
           (foldl (λ a k, (fn k (lookup_value s k) a).1) a (take i keys))).2 = true) ∧
    (n < length keys →
     ∃ k, keys !! (n - 1) = Some k ∧ 0 < n ∧
       (fn k (lookup_value s k)
           (foldl (λ a k, (fn k (lookup_value s k) a).1) a (take (n - 1) keys))).2 = false).
Proof.
  revert a. induction keys as [|k keys IH]; intros a.
  - exists 0. simpl. split_and!; [lia|done|intros; lia|lia].
  - simpl. destruct (fn k (lookup_value s k) a) as [a' go_on] eqn:Hfn.
    destruct go_on; simpl.
    + destruct (IH a') as (n & Hn & Heq & Hall & Hstop).
      exists (S n). simpl. rewrite Hfn. simpl. split_and!; [lia|done| |].
      * intros i k' Hi Hk'. destruct i as [|i]; simpl in *.
        -- injection Hk' as <-. by rewrite Hfn.
        -- rewrite Hfn. simpl. apply Hall; [lia|done].
      * intros Hlt. destruct Hstop as (k' & Hk' & Hpos & Hf); [lia|].
        exists k'. rewrite Nat.sub_0_r. destruct n as [|n]; [lia|]. simpl in *.
        rewrite Nat.sub_0_r in Hk', Hf. rewrite Hfn. simpl. split_and!; [done|lia|done].
    + exists 1. simpl. rewrite Hfn. simpl. split_and!; [lia|done|intros; lia|].
      intros _. exists k. rewrite Hfn. split_and!; [done|lia|done].
Qed.

(** X5. [Range] calls the callback on the entries in ascending key order,
    each with the value [Get] gives, and stops after the first call that
    returns false: it handles the first [n] keys, every call before the last
    returned true, and when keys are left over the last call returned
    false. *)
Theorem Range_visits_prefix {A} ord s (fn : string → value → A → A * bool) a :
  let step := λ a k, (fn k (lookup_value s k) a).1 in
  ∃ n : nat, (n ≤ Len s)%nat ∧
    Range ord s fn a = foldl step a (take n (Keys ord s)) ∧
    (∀ i k, i + 1 < n → Keys ord s !! i = Some k →
       (fn k (lookup_value s k) (foldl step a (take i (Keys ord s)))).2 = true) ∧
    (n < Len s →
     ∃ k, Keys ord s !! (n - 1) = Some k ∧ 0 < n ∧
       (fn k (lookup_value s k) (foldl step a (take (n - 1) (Keys ord s)))).2 = false) ∧
    (∀ k, k ∈ Keys ord s → Get s k = Some (lookup_value s k)).
Proof.
  intros step. destruct (Range_loop_spec s fn (Keys ord s) a) as (n & Hn & Heq & Hall & Hstop).
  rewrite Keys_length in Hn, Hstop. exists n. split_and!; try done.
  intros k [v Hv]%Keys_elem_of. unfold Get, lookup_value. by rewrite Hv.
Qed.

End StoreFacts.

(** ** graph.go: edges and nodes *)

Section GraphFacts.
Context {N E : Type}.
Implicit Types g : Graph N E.

Lemma HasEdge_is_Some g a b : HasEdge g a b = true ↔ is_Some (inner (out g) a !! b).
Proof. rewrite HasEdge_inner. apply bool_decide_eq_true. Qed.

Lemma HasEdge_None g a b : HasEdge g a b = false ↔ inner (out g) a !! b = None.
Proof.
  rewrite HasEdge_inner, bool_decide_eq_false. by rewrite eq_None_not_Some.
Qed.

Lemma RemoveEdge_out g from to a b :
  inner (out (RemoveEdge g from to)) a !! b =
    if decide ((a = from ∧ b = to) ∨ (Directed g = false ∧ a = to ∧ b = from))
    then None else inner (out g) a !! b.
Proof.
  unfold RemoveEdge. destruct (Directed g) eqn:Hd; simpl.
  - rewrite inner_inner_delete. repeat case_decide; naive_solver.
  - rewrite !inner_inner_delete. repeat case_decide; naive_solver.
Qed.

Lemma RemoveEdge_frame g from to :
  Directed (RemoveEdge g from to) = Directed g ∧ nodes (RemoveEdge g from to) = nodes g ∧
  nodeMeta (RemoveEdge g from to) = nodeMeta g ∧ edgeMeta (RemoveEdge g from to) = edgeMeta g.
Proof. unfold RemoveEdge. by destruct (negb (Directed g)). Qed.

(** X6. [AddEdge] fails, naming the missing node and changing nothing, when
    an endpoint is missing (the source is looked at first); otherwise it
    stores the edge with its data and weight, and its reverse too when the
    graph is undirected, replacing what was there, and changes no node and no
    other edge. *)
Theorem AddEdge_result g from to (d : E) w :
  (HasNode g from = false → AddEdge g from to d w = (g, Some (NodeNotFound from))) ∧
  (HasNode g from = true → HasNode g to = false →
   AddEdge g from to d w = (g, Some (NodeNotFound to))) ∧
  (HasNode g from = true → HasNode g to = true →
   let g' := (AddEdge g from to d w).1 in
   (AddEdge g from to d w).2 = None ∧
   (Directed g = true ∨ from ≠ to → GetEdge g' from to = Some (Edge.mk from to d w)) ∧
   (Directed g = false → GetEdge g' to from = Some (Edge.mk to from d w)) ∧
   (∀ a b, ¬ (a = from ∧ b = to) → ¬ (Directed g = false ∧ a = to ∧ b = from) →
           GetEdge g' a b = GetEdge g a b) ∧
   (∀ id, GetNode g' id = GetNode g id) ∧ Directed g' = Directed g).
Proof.
  split_and!.
  - intros Hf. unfold AddEdge. by rewrite Hf.
  - intros Hf Ht. unfold AddEdge. by rewrite Hf, Ht.
  - intros Hf Ht g'.
    destruct (AddEdge_frame g from to d w) as (Hd & Hn & _ & _). fold g' in Hd, Hn.
    split_and!.
    + unfold AddEdge. rewrite Hf, Ht. simpl. by destruct (negb (Directed g)).
    + intros Hc. unfold g'. rewrite GetEdge_inner, AddEdge_out by done.
      destruct (decide (Directed g = false ∧ from = to ∧ to = from)) as [(Hu & Heq & _)|_].
      * destruct Hc as [Hc|Hc]; [congruence|done].
      * by rewrite decide_True.
    + intros Hu. unfold g'. rewrite GetEdge_inner, AddEdge_out by done.
      by rewrite decide_True.
    + intros a b H1 H2. unfold g'. rewrite !GetEdge_inner, AddEdge_out by done.
      rewrite decide_False by done. by rewrite decide_False.
    + intros id. unfold GetNode. by rewrite Hn.
    + done.
Qed.

Lemma inner_delete_absent {A} (m : gmap string (gmap string A)) k1 k2 :
  inner m k1 !! k2 = None → inner_delete m k1 k2 = m.
Proof.
  unfold inner, inner_delete. destruct (m !! k1) as [mi|] eqn:Hk; simpl; [|done].
  intros Hnone. rewrite delete_id by done. by apply insert_id.
Qed.

Lemma RemoveEdge_absent g from to :
  wf g → HasEdge g from to = false → RemoveEdge g from to = g.
Proof.
  intros Hwf Hno%HasEdge_None.
  assert (inner (in_ g) to !! from = None) as Hin by by rewrite <- (wf_out_in g Hwf).
  unfold RemoveEdge. rewrite (inner_delete_absent _ _ _ Hno), (inner_delete_absent _ _ _ Hin).
  destruct (Directed g) eqn:Hd; simpl.
  - by destruct g.
  - assert (inner (out g) to !! from = None) as Hrev.
    { destruct (inner (out g) to !! from) as [e|] eqn:He; [|done].
      rewrite (wf_undirected g Hwf Hd _ _ _ He) in Hno. done. }
    assert (inner (in_ g) from !! to = None) as Hrin by by rewrite <- (wf_out_in g Hwf).
    rewrite (inner_delete_absent _ _ _ Hrev), (inner_delete_absent _ _ _ Hrin).
    by destruct g.
Qed.

(** X7. After [RemoveEdge] the edge is gone, in both directions when the
    graph is undirected; no node and no other edge changes; removing an edge
    that is not there changes nothing, and removing an edge that was just
    added where there was none gives the graph back. *)
Theorem RemoveEdge_result g from to :
  wf g →
  let g' := RemoveEdge g from to in
  HasEdge g' from to = false ∧
  (Directed g = false → HasEdge g' to from = false) ∧
  (∀ a b, ¬ (a = from ∧ b = to) → ¬ (Directed g = false ∧ a = to ∧ b = from) →
          GetEdge g' a b = GetEdge g a b) ∧
  (∀ id, GetNode g' id = GetNode g id) ∧ wf g' ∧
  (HasEdge g from to = false → g' = g) ∧
  (∀ d w, HasNode g from = true → HasNode g to = true → HasEdge g from to = false →
          RemoveEdge (AddEdge g from to d w).1 from to = g).
Proof.
  intros Hwf g'. destruct (RemoveEdge_frame g from to) as (Hd & Hn & Hnm & Hem).
  fold g' in Hd, Hn, Hnm, Hem. split_and!.
  - apply HasEdge_None. unfold g'. rewrite RemoveEdge_out. by rewrite decide_True by auto.
  - intros Hu. apply HasEdge_None. unfold g'. rewrite RemoveEdge_out.
    by rewrite decide_True by auto.
  - intros a b H1 H2. unfold g'. rewrite !GetEdge_inner, RemoveEdge_out.
    rewrite decide_False; [done|]. naive_solver.
  - intros id. unfold GetNode. by rewrite Hn.
  - by apply wf_RemoveEdge.
  - by apply RemoveEdge_absent.
  - intros d w Hf Ht Hno.
    destruct (AddEdge_frame g from to d w) as (Ad & An & Anm & Aem).
    destruct (RemoveEdge_frame (AddEdge g from to d w).1 from to) as (Rd & Rn & Rnm & Rem).
    apply wf_graph_eq;
      [by apply wf_RemoveEdge, wf_AddEdge|done|congruence|congruence| |congruence|congruence].
    intros a b. rewrite RemoveEdge_out, Ad.
    apply HasEdge_None in Hno.
    destruct (decide ((a = from ∧ b = to) ∨ (Directed g = false ∧ a = to ∧ b = from)))
      as [[[-> ->]|(Hu & -> & ->)]|Hnot].
    + done.
    + destruct (inner (out g) to !! from) as [e|] eqn:He; [|done].
      rewrite (wf_undirected g Hwf Hu _ _ _ He) in Hno. done.
    + rewrite AddEdge_out by done. rewrite decide_False by naive_solver.
      rewrite decide_False by naive_solver. done.
Qed.

End GraphFacts.

Lemma RemoveEdge_result_witness :
  wf sample_graph ∧
  HasEdge (RemoveEdge sample_graph "a" "b") "a" "b" = false ∧
  wf (RemoveEdge sample_graph "a" "b").
Proof.
  split; [exact sample_graph_wf|].
  destruct (RemoveEdge_result sample_graph "a" "b" sample_graph_wf)
    as (H1 & _ & _ & _ & H5 & _).
  by split.
Defined.

Section NodeFacts.
Context {N E : Type}.
Implicit Types g : Graph N E.

Lemma RemoveNode_nodes ord g id :
  nodes (RemoveNode ord g id) = delete id (nodes g).
Proof.
  unfold RemoveNode. destruct (HasNode g id) eqn:Hn; simpl; [done|].
  apply HasNode_false in Hn. by rewrite delete_id.
Qed.

Lemma RemoveNode_frame ord g id :
  Directed (RemoveNode ord g id) = Directed g ∧
  nodeMeta (RemoveNode ord g id) = nodeMeta g ∧ edgeMeta (RemoveNode ord g id) = edgeMeta g.
Proof. unfold RemoveNode. by destruct (negb (HasNode g id)). Qed.

(** X8. [RemoveNode] removes the node and the edges at it and nothing else:
    every other node and every edge between other nodes stays as it was, the
    invariant is kept, and [Order] drops by one; removing a node that is not
    there changes nothing, and removing a node that was just added where
    there was none gives the graph back. *)
Theorem RemoveNode_result ord g id :
  wf g →
  let g' := RemoveNode ord g id in
  (∀ j, GetNode g' j = if decide (j = id) then None else GetNode g j) ∧
  (∀ a b, GetEdge g' a b = if decide (a = id ∨ b = id) then None else GetEdge g a b) ∧
  wf g' ∧
  Order g' = (if HasNode g id then Order g - 1 else Order g) ∧
  (HasNode g id = false → g' = g) ∧
  (∀ data, HasNode g id = false → RemoveNode ord (AddNode g id data) id = g).
Proof.
  intros Hwf g'. split_and!.
  - intros j. unfold g', GetNode. rewrite RemoveNode_nodes.
    destruct (decide (j = id)) as [->|Hne]; [apply lookup_delete_eq|].
    by apply lookup_delete_ne.
  - intros a b. rewrite !GetEdge_inner. destruct (HasNode g id) eqn:Hn.
    + unfold g'. by rewrite RemoveNode_out.
    + unfold g'. rewrite RemoveNode_absent by done.
      destruct (decide (a = id ∨ b = id)) as [[->| ->]|_]; [| |done].
      * apply HasNode_false in Hn.
        destruct (inner (out g) id !! b) as [e|] eqn:He; [|done].
        destruct (wf_edge_from_node g _ _ _ Hwf He) as [n Hn']. congruence.
      * apply HasNode_false in Hn.
        destruct (inner (out g) a !! id) as [e|] eqn:He; [|done].
        destruct (wf_edge_ends g Hwf _ _ _ He) as (_ & _ & [n Hn']). congruence.
  - by apply wf_RemoveNode.
  - unfold Order, g'. rewrite RemoveNode_nodes. destruct (HasNode g id) eqn:Hn.
    + apply HasNode_true in Hn. rewrite map_size_delete_Some by done. lia.
    + apply HasNode_false in Hn. by rewrite map_size_delete_None.
  - intros Hn. by apply RemoveNode_absent.
  - intros data Hn.
    assert (wf (AddNode g id data)) as Hwf' by by apply wf_AddNode.
    assert (HasNode (AddNode g id data) id = true) as Hn'.
    { apply HasNode_true. simpl. rewrite lookup_insert_eq. eauto. }
    destruct (RemoveNode_frame ord (AddNode g id data) id) as (Rd & Rnm & Rem).
    apply HasNode_false in Hn.
    apply wf_graph_eq; [by apply wf_RemoveNode|done|by rewrite Rd| |
                        |by rewrite Rnm|by rewrite Rem].
    + rewrite RemoveNode_nodes. simpl. by apply delete_insert_id.
    + intros a b. rewrite RemoveNode_out by done. simpl. rewrite inner_make_if_nil.
      destruct (decide (a = id ∨ b = id)) as [[->| ->]|_]; [| |done].
      * destruct (inner (out g) id !! b) as [e|] eqn:He; [|done].
        destruct (wf_edge_from_node g _ _ _ Hwf He) as [n Hn3]. congruence.
      * destruct (inner (out g) a !! id) as [e|] eqn:He; [|done].
        destruct (wf_edge_ends g Hwf _ _ _ He) as (_ & _ & [n Hn'']). congruence.
Qed.

(** *** Graphs the operations can build *)

(** The graphs made by the constructor and the mutators; a write to a
    metadata store changes no node and no edge. *)
Inductive built : Graph N E → Prop :=
  | built_NewGraph d : built (NewGraph d)
  | built_AddNode g id data : built g → built (AddNode g id data)
  | built_AddEdge g from to data w : built g → built (AddEdge g from to data w).1
  | built_RemoveNode ord g id : built g → built (RemoveNode ord g id)
  | built_RemoveEdge g from to : built g → built (RemoveEdge g from to)
  | built_meta g nm em :
      built g → built (mkGraph (Directed g) (nodes g) (out g) (in_ g) nm em).

Lemma built_wf g : built g → wf g.
Proof.
  induction 1; auto using wf_NewGraph, wf_AddNode, wf_AddEdge, wf_RemoveNode,
                          wf_RemoveEdge, wf_meta_irrelevant.
Qed.

Lemma wf_in_entry g a b e :
  wf g → inner (in_ g) b !! a = Some e ↔ inner (out g) a !! b = Some e.
Proof. intros Hwf. by rewrite (wf_out_in g Hwf). Qed.

Lemma OutEdges_elem_of ord g a e :
  e ∈ OutEdges ord g a ↔ ∃ b, inner (out g) a !! b = Some e.
Proof. unfold OutEdges. apply range_values_elem_of. Qed.

Lemma InEdges_elem_of ord g b e :
  e ∈ InEdges ord g b ↔ ∃ a, inner (in_ g) b !! a = Some e.
Proof. unfold InEdges. apply range_values_elem_of. Qed.

(** X9. In every graph the operations can build: a node is stored under its
    own ID; an edge is stored under its own endpoints, which are both nodes;
    the out-edges of a node are exactly the edges that start at it and the
    in-edges exactly those that end at it, so an edge is among the out-edges
    of its source exactly when it is among the in-edges of its target; and
    an undirected graph has every edge in both directions, with the same
    data and weight. *)
Theorem built_invariant g :
  built g →
  (∀ id n, GetNode g id = Some n → Node.ID n = id) ∧
  (∀ a b e, GetEdge g a b = Some e →
     Edge.From e = a ∧ Edge.To e = b ∧ HasNode g a = true ∧ HasNode g b = true) ∧
  (∀ ord a e, e ∈ OutEdges ord g a ↔ GetEdge g a (Edge.To e) = Some e) ∧
  (∀ ord b e, e ∈ InEdges ord g b ↔ GetEdge g (Edge.From e) b = Some e) ∧
  (∀ ord ord' e, e ∈ OutEdges ord g (Edge.From e) ↔ e ∈ InEdges ord' g (Edge.To e)) ∧
  (Directed g = false → ∀ a b e,
     GetEdge g a b = Some e → GetEdge g b a = Some (reverse_edge e)).
Proof.
  intros Hwf%built_wf.
  assert (∀ ord a e, e ∈ OutEdges ord g a ↔ GetEdge g a (Edge.To e) = Some e) as Hout.
  { intros ord a e. rewrite OutEdges_elem_of, GetEdge_inner. split.
    - intros [b He]. by destruct (wf_edge_ends g Hwf _ _ _ He) as (_ & <- & _).
    - eauto. }
  assert (∀ ord b e, e ∈ InEdges ord g b ↔ GetEdge g (Edge.From e) b = Some e) as Hin.
  { intros ord b e. rewrite InEdges_elem_of, GetEdge_inner. split.
    - intros [a He]. apply (wf_in_entry g a b e Hwf) in He.
      by destruct (wf_edge_ends g Hwf _ _ _ He) as (<- & _ & _).
    - intros He. exists (Edge.From e). by apply wf_in_entry. }
  split_and!.
  - apply (wf_node_id g Hwf).
  - intros a b e. rewrite GetEdge_inner. intros He.
    destruct (wf_edge_ends g Hwf _ _ _ He) as (Hf & Ht & Hb).
    split_and!; [done|done|apply HasNode_true|by apply HasNode_true].
    by eapply wf_edge_from_node.
  - done.
  - done.
  - intros ord ord' e. by rewrite Hout, Hin.
  - intros Hu a b e. rewrite !GetEdge_inner. by apply (wf_undirected g Hwf).
Qed.

End NodeFacts.

Lemma RemoveNode_result_witness :
  wf sample_graph ∧
  GetNode (RemoveNode order_id sample_graph "a") "a"
    = (if decide ("a" = "a") then None else GetNode sample_graph "a") ∧
  wf (RemoveNode order_id sample_graph "a").
Proof.
  split; [exact sample_graph_wf|].
  destruct (RemoveNode_result order_id sample_graph "a" sample_graph_wf)
    as (H1 & _ & H3 & _).
  exact (conj (H1 "a") H3).
Defined.

Lemma sample_topology_built : built sample_topology.
Proof.
  unfold sample_topology. cbv zeta.
  apply built_AddEdge, built_AddNode, built_AddNode, built_NewGraph.
Qed.

Lemma built_invariant_witness :
  built sample_topology ∧
  (∀ id n, GetNode sample_topology id = Some n → Node.ID n = id) ∧
  (∀ ord ord' e, e ∈ OutEdges ord sample_topology (Edge.From e)
                 ↔ e ∈ InEdges ord' sample_topology (Edge.To e)).
Proof.
  split; [exact sample_topology_built|].
  destruct (built_invariant sample_topology sample_topology_built)
    as (H1 & _ & _ & _ & H5 & _).
  exact (conj H1 H5).
Defined.

(** ** graph.go: the listings *)

Section Listings.
Context {N E : Type}.
Implicit Types g : Graph N E.

(** X10. [Nodes] lists every node of the graph once, in strictly ascending
    order of ID, whatever the order the map is walked in; there are [Order]
    of them. *)
Theorem Nodes_sorted_complete ord g :
  wf g →
  StronglySorted (λ a b, str_lt a b = true) (Node.ID <$> Nodes ord g) ∧
  (∀ n, n ∈ Nodes ord g ↔ GetNode g (Node.ID n) = Some n) ∧
  length (Nodes ord g) = Order g ∧
  (∀ ord', Nodes ord' g = Nodes ord g).
Proof.
  intros Hwf. split_and!.
  - by apply ids_sorted_strict, Nodes_ids_sorted.
  - intros n. by apply Nodes_elem_of.
  - unfold Nodes, Order. rewrite sort_Slice_perm, length_fmap. unfold range.
    rewrite (range_order_perm ord _ (map_to_list (nodes g))). apply length_map_to_list.
  - intros ord'. by apply Nodes_order_irrelevant.
Qed.

(** X11. [Edges] lists stored edges, no two with the same endpoints.  In a
    directed graph it lists every edge.  In an undirected graph it lists
    every edge in one of its two directions, and in only one when the
    endpoints differ. *)
Theorem Edges_once ord g :
  wf g →
  NoDup (edge_key <$> Edges ord g) ∧
  (∀ e, e ∈ Edges ord g → GetEdge g (Edge.From e) (Edge.To e) = Some e) ∧
  (Directed g = true → ∀ a b e, GetEdge g a b = Some e → e ∈ Edges ord g) ∧
  (Directed g = false → ∀ a b e, GetEdge g a b = Some e →
     (e ∈ Edges ord g ∨ reverse_edge e ∈ Edges ord g) ∧
     (a ≠ b → ¬ (e ∈ Edges ord g ∧ reverse_edge e ∈ Edges ord g))).
Proof.
  intros Hwf. destruct (Edges_inv_final ord g Hwf) as (seen & [H1 H2 H3 H4 H5]).
  assert (∀ a b e, inner (out g) a !! b = Some e → (a, b) ∈ seen → e ∈ Edges ord g) as Hseen.
  { intros a b e He Hs. destruct (H2 _ Hs) as (e' & He' & Hk).
    destruct (H1 e' He') as [Hent _]. unfold edge_key in Hk. injection Hk as Hk1 Hk2.
    rewrite Hk1, Hk2, He in Hent. by injection Hent as ->. }
  split_and!.
  - done.
  - intros e He. rewrite GetEdge_inner. by destruct (H1 e He).
  - intros Hd a b e. rewrite GetEdge_inner. intros He.
    destruct (H5 a b e) as [Hs|[Hu _]]; [by apply out_entries_elem_of| |congruence].
    by eapply Hseen.
  - intros Hu a b e. rewrite GetEdge_inner. intros He.
    destruct (wf_edge_ends g Hwf _ _ _ He) as (Hf & Ht & _).
    pose proof (wf_undirected g Hwf Hu _ _ _ He) as Hrev. split.
    + destruct (H5 a b e) as [Hs|[_ Hs]]; [by apply out_entries_elem_of|..].
      * left. by eapply Hseen.
      * right. by eapply Hseen.
    + intros Hne [Hin Hrin].
      destruct (H1 _ Hin) as [_ Hk1], (H1 _ Hrin) as [_ Hk2].
      unfold edge_key in Hk1, Hk2. simpl in Hk2. rewrite Hf, Ht in Hk1, Hk2.
      by apply (H4 Hu a b Hk1 Hne).
Qed.

(** X12. [Neighbors] lists the targets of the edges that start at the node,
    each once, in strictly ascending order; there are as many as out-edges;
    in an undirected graph that keeps the invariant, being a neighbour is
    mutual. *)
Theorem Neighbors_sorted_complete ord g a :
  StronglySorted (λ x y, str_lt x y = true) (Neighbors ord g a) ∧
  (∀ b, b ∈ Neighbors ord g a ↔ HasEdge g a b = true) ∧
  length (Neighbors ord g a) = length (OutEdges ord g a) ∧
  (∀ ord', Neighbors ord' g a = Neighbors ord g a) ∧
  (wf g → Directed g = false →
   ∀ b, b ∈ Neighbors ord g a ↔ a ∈ Neighbors ord g b).
Proof.
  assert (∀ x b, b ∈ Neighbors ord g x ↔ is_Some (inner (out g) x !! b)) as Hel.
  { intros x b. unfold Neighbors. rewrite sort_Strings_elem_of. apply range_keys_elem_of. }
  split_and!.
  - apply ids_sorted_strict. split.
    + apply (sort_Slice_Sorted str_lt), str_lt_asym.
    + unfold Neighbors, sort_Strings. rewrite sort_Slice_perm. apply range_keys_NoDup.
  - intros b. by rewrite Hel, HasEdge_is_Some.
  - unfold Neighbors, OutEdges, sort_Strings. by rewrite sort_Slice_perm, !length_fmap.
  - intros ord'. apply Neighbors_order_irrelevant.
  - intros Hwf Hu b. rewrite !Hel. split; intros [e He];
      rewrite (wf_undirected g Hwf Hu _ _ _ He); eauto.
Qed.

End Listings.

Lemma Nodes_sorted_complete_witness :
  wf sample_graph ∧
  (∀ n, n ∈ Nodes order_rev sample_graph ↔ GetNode sample_graph (Node.ID n) = Some n) ∧
  length (Nodes order_rev sample_graph) = Order sample_graph.
Proof.
  split; [exact sample_graph_wf|].
  destruct (Nodes_sorted_complete order_rev sample_graph sample_graph_wf)
    as (_ & H2 & H3 & _).
  exact (conj H2 H3).
Defined.

Lemma Edges_once_witness :
  wf sample_graph ∧ NoDup (edge_key <$> Edges order_rev sample_graph).
Proof.
  split; [exact sample_graph_wf|].
  destruct (Edges_once order_rev sample_graph sample_graph_wf) as (H1 & _).
  exact H1.
Defined.

(** ** Walks that mark what they reach *)

Lemma size_unvisited_insert (U V : gset string) dst :
  dst ∈ U → dst ∉ V → S (size (U ∖ ({[dst]} ∪ V))) = size (U ∖ V).
Proof.
  intros HU HV.
  assert (U ∖ V = {[dst]} ∪ (U ∖ ({[dst]} ∪ V))) as Heq.
  { apply set_eq. intros x. rewrite elem_of_union, !elem_of_difference, elem_of_union,
      elem_of_singleton. destruct (decide (x = dst)); naive_solver. }
  rewrite Heq.
  rewrite (size_union (C:=gset string) {[dst]} (U ∖ ({[dst]} ∪ V))) by set_solver.
  by rewrite size_singleton.
Qed.

Lemma size_unvisited_mono (U V V' : gset string) : V ⊆ V' → (size (U ∖ V') ≤ size (U ∖ V))%nat.
Proof. intros H. apply subseteq_size. set_solver. Qed.

(** A walk that marks every successor it has not seen and goes on from it:
    the shape of the recursive closures of query.go.  [fuel] bounds the depth
    of the recursion. *)
Section MarkingWalk.
Variable next : string → list string.

Fixpoint marking_walk (fuel : nat) (cur : string) (visited : gset string) : gset string :=
  match fuel with
  | 0 => visited
  | S fuel' =>
      foldl (λ visited dst,
               if bool_decide (dst ∈ visited) then visited
               else marking_walk fuel' dst ({[dst]} ∪ visited))
            visited (next cur)
  end.

(** Everything a successor list can name. *)
Variable U : gset string.
Hypothesis next_in : ∀ x y, y ∈ next x → y ∈ U.

Definition steps (x y : string) : Prop := y ∈ next x.

(** What a walk from [cur] has added to [V]. *)
Record walked (cur : string) (V V' : gset string) : Prop := {
  walked_mono : V ⊆ V';
  walked_next : ∀ y, y ∈ next cur → y ∈ V';
  walked_closed : ∀ u, u ∈ V' → u ∉ V → ∀ y, y ∈ next u → y ∈ V';
  walked_reach : ∀ u, u ∈ V' → u ∉ V → tc steps cur u
}.

Lemma marking_walk_spec fuel : ∀ cur V,
  size (U ∖ V) < fuel → walked cur V (marking_walk fuel cur V).
Proof.
  induction fuel as [|fuel IH]; intros cur V Hfuel; [lia|]. simpl.
  assert (∀ l V1, V ⊆ V1 → (∀ y, y ∈ l → y ∈ next cur) →
            (∀ u, u ∈ V1 → u ∉ V → (∀ y, y ∈ next u → y ∈ V1) ∧ tc steps cur u) →
            let V' := foldl (λ visited dst,
                               if bool_decide (dst ∈ visited) then visited
                               else marking_walk fuel dst ({[dst]} ∪ visited)) V1 l in
            V ⊆ V' ∧ V1 ⊆ V' ∧ (∀ y, y ∈ l → y ∈ V') ∧
            (∀ u, u ∈ V' → u ∉ V → (∀ y, y ∈ next u → y ∈ V') ∧ tc steps cur u)) as Hfold.
  { induction l as [|dst l IHl]; intros V1 Hsub Hl Hinv; simpl.
    - split_and!; [done|done|by intros ? ?%elem_of_nil|done].
    - assert (dst ∈ next cur) as Hdst by (apply Hl; by left).
      assert (∀ y, y ∈ l → y ∈ next cur) as Hl' by (intros y Hy; apply Hl; by right).
      destruct (bool_decide (dst ∈ V1)) eqn:Hvis.
      + apply bool_decide_eq_true in Hvis.
        destruct (IHl V1 Hsub Hl' Hinv) as (H1 & H2 & H3 & H4).
        split_and!; [done|done| |done].
        intros y [->|Hy]%elem_of_cons; [by apply H2|by apply H3].
      + apply bool_decide_eq_false in Hvis.
        assert (size (U ∖ ({[dst]} ∪ V1)) < fuel) as Hfuel'.
        { pose proof (size_unvisited_insert U V1 dst (next_in _ _ Hdst) Hvis).
          pose proof (size_unvisited_mono U V V1 Hsub). lia. }
        destruct (IH dst ({[dst]} ∪ V1) Hfuel') as [W1 W2 W3 W4].
        set (V2 := marking_walk fuel dst ({[dst]} ∪ V1)) in *.
        assert (V1 ⊆ V2) as H12 by set_solver.
        assert (dst ∈ V2) as Hd2 by set_solver.
        destruct (IHl V2) as (H1 & H2 & H3 & H4); [set_solver|done| |].
        * intros u Hu HuV. destruct (decide (u ∈ V1)) as [Hu1|Hu1].
          -- destruct (Hinv u Hu1 HuV) as [Hc Hr]. split; [|done].
             intros y Hy. apply H12. by apply Hc.
          -- destruct (decide (u = dst)) as [->|Hne].
             ++ split; [done|]. by apply tc_once.
             ++ assert (u ∉ {[dst]} ∪ V1) as Hu2 by set_solver.
                split; [by apply W3|].
                eapply tc_l; [exact Hdst|]. by apply W4.
        * split_and!; [done|set_solver| |done].
          intros y [->|Hy]%elem_of_cons; [by apply H2|by apply H3]. }
  destruct (Hfold (next cur) V) as (H1 & _ & H3 & H4); [done|done| |].
  { intros u Hu HuV. done. }
  split; [done|done|intros u Hu HuV; by apply H4|intros u Hu HuV; by apply H4].
Qed.

(** From nothing marked, a walk with enough fuel marks exactly what can be
    reached in one step or more. *)
Lemma marking_walk_reach fuel cur x :
  size U < fuel → x ∈ marking_walk fuel cur ∅ ↔ tc steps cur x.
Proof.
  intros Hfuel.
  destruct (marking_walk_spec fuel cur ∅) as [_ W2 W3 W4].
  { assert (U ∖ ∅ ⊆ U) as Hs by set_solver. apply subseteq_size in Hs. lia. }
  split; [intros Hx; apply W4; [done|set_solver]|].
  intros Htc.
  assert (∀ a, a = cur ∨ a ∈ marking_walk fuel cur ∅ → tc steps a x →
               x ∈ marking_walk fuel cur ∅) as Hgen.
  { clear Htc. intros a Ha Hax. revert Ha.
    induction Hax as [a b Hab|a b c Hab Hbc IHbc]; intros Ha.
    - destruct Ha as [->|Ha]; [by apply W2|]. apply (W3 a); [done|set_solver|done].
    - apply IHbc. right. destruct Ha as [->|Ha]; [by apply W2|].
      apply (W3 a); [done|set_solver|done]. }
  apply (Hgen cur); [by left|done].
Qed.

Lemma marking_walk_fuel fuel fuel' cur :
  size U < fuel → size U < fuel' →
  marking_walk fuel cur ∅ = marking_walk fuel' cur ∅.
Proof.
  intros H1 H2. apply set_eq. intros x.
  by rewrite (marking_walk_reach fuel), (marking_walk_reach fuel').
Qed.

End MarkingWalk.

Lemma tc_flip_iff {A} (R : relation A) x y : tc (flip R) x y ↔ tc R y x.
Proof.
  assert (∀ (S : relation A) a b, tc (flip S) a b → tc S b a) as Hdir.
  { intros S a b H. induction H as [a b H|a b c H _ IH].
    - by apply tc_once.
    - eapply tc_r; [exact IH|exact H]. }
  split; [apply Hdir|]. intros H. by apply (Hdir (flip R)).
Qed.

Lemma tc_first {A} (R : relation A) x y : tc R x y → ∃ b, R x b.
Proof. destruct 1; eauto. Qed.

Lemma tc_last {A} (R : relation A) x y : tc R x y → ∃ c, R c y.
Proof. induction 1; eauto. Qed.

(** ** query.go *)

Section Query.
Context {N E : Type}.
Implicit Types g : Graph N E.

Definition FilterNodes (ord : MapOrder) g (pred : Node.t N → bool) : list (Node.t N) :=
  List.filter pred (Nodes ord g).

Definition FilterEdges (ord : MapOrder) g (pred : Edge.t E → bool) : list (Edge.t E) :=
  List.filter pred (Edges ord g).

(** The closure [walk] of [Ancestors]; [visited] is the set of keys of the
    map of the same name, whose values are all true. *)
Fixpoint Ancestors_walk (ord : MapOrder) g (fuel : nat) (cur : string) (visited : gset string)
  : gset string :=
  match fuel with
  | 0 => visited
  | S fuel' =>
      foldl (λ visited e,
               let src := Edge.From e in
               if negb (bool_decide (src ∈ visited))
               then Ancestors_walk ord g fuel' src ({[src]} ∪ visited)
               else visited)
            visited (InEdges ord g cur)
  end.

Definition Ancestors (ord : MapOrder) g (fuel : nat) (id : string) : list string :=
  let visited := Ancestors_walk ord g fuel id ∅ in
  (range ord (gset_to_gmap true visited)).*1.

Fixpoint Descendants_walk (ord : MapOrder) g (fuel : nat) (cur : string) (visited : gset string)
  : gset string :=
  match fuel with
  | 0 => visited
  | S fuel' =>
      foldl (λ visited e,
               let dst := Edge.To e in
               if negb (bool_decide (dst ∈ visited))
               then Descendants_walk ord g fuel' dst ({[dst]} ∪ visited)
               else visited)
            visited (OutEdges ord g cur)
  end.

Definition Descendants (ord : MapOrder) g (fuel : nat) (id : string) : list string :=
  let visited := Descendants_walk ord g fuel id ∅ in
  (range ord (gset_to_gmap true visited)).*1.

Definition Roots (ord : MapOrder) g : list (Node.t N) :=
  List.filter (λ n, length (InEdges ord g (Node.ID n)) =? 0)%nat (Nodes ord g).

Definition Leaves (ord : MapOrder) g : list (Node.t N) :=
  List.filter (λ n, length (OutEdges ord g (Node.ID n)) =? 0)%nat (Nodes ord g).

(** There is an edge from [a] to [b]. *)
Definition edge g (a b : string) : Prop := HasEdge g a b = true.

Lemma foldl_ext_in {A B} (f f' : A → B → A) (l : list B) :
  (∀ a x, x ∈ l → f a x = f' a x) → ∀ a, foldl f a l = foldl f' a l.
Proof.
  induction l as [|x l IH]; intros Hf a; [done|]. simpl.
  rewrite Hf by (by left). apply IH. intros a' y Hy. apply Hf. by right.
Qed.

Lemma Descendants_walk_marking ord g fuel : ∀ cur V,
  Descendants_walk ord g fuel cur V =
  marking_walk (λ a, Edge.To <$> OutEdges ord g a) fuel cur V.
Proof.
  induction fuel as [|fuel IH]; intros cur V; [done|]. simpl.
  rewrite foldl_fmap. apply foldl_ext_in. intros a e _. simpl.
  destruct (bool_decide (Edge.To e ∈ a)); simpl; [done|apply IH].
Qed.

Lemma Ancestors_walk_marking ord g fuel : ∀ cur V,
  Ancestors_walk ord g fuel cur V =
  marking_walk (λ a, Edge.From <$> InEdges ord g a) fuel cur V.
Proof.
  induction fuel as [|fuel IH]; intros cur V; [done|]. simpl.
  rewrite foldl_fmap. apply foldl_ext_in. intros a e _. simpl.
  destruct (bool_decide (Edge.From e ∈ a)); simpl; [done|apply IH].
Qed.

Lemma out_targets ord g a b :
  wf g → b ∈ Edge.To <$> OutEdges ord g a ↔ edge g a b.
Proof.
  intros Hwf. unfold edge. rewrite HasEdge_is_Some, list_elem_of_fmap. split.
  - intros (e & -> & He). apply OutEdges_elem_of in He as [b He].
    destruct (wf_edge_ends g Hwf a b e He) as (_ & -> & _). eauto.
  - intros [e He]. exists e. split.
    + by destruct (wf_edge_ends g Hwf a b e He) as (_ & -> & _).
    + apply OutEdges_elem_of. eauto.
Qed.

Lemma in_sources ord g a b :
  wf g → a ∈ Edge.From <$> InEdges ord g b ↔ edge g a b.
Proof.
  intros Hwf. unfold edge. rewrite HasEdge_is_Some, list_elem_of_fmap. split.
  - intros (e & -> & He). apply InEdges_elem_of in He as [a He].
    apply (wf_in_entry g a b e Hwf) in He.
    destruct (wf_edge_ends g Hwf a b e He) as (-> & _ & _). eauto.
  - intros [e He]. exists e. split.
    + by destruct (wf_edge_ends g Hwf a b e He) as (-> & _ & _).
    + apply InEdges_elem_of. exists a. by apply wf_in_entry.
Qed.

Lemma edge_ends_nodes g a b :
  wf g → edge g a b → a ∈ dom (nodes g) ∧ b ∈ dom (nodes g).
Proof.
  intros Hwf [e He]%HasEdge_is_Some. rewrite !elem_of_dom. split.
  - by eapply wf_edge_from_node.
  - by destruct (wf_edge_ends g Hwf a b e He) as (_ & _ & ?).
Qed.

Lemma tc_iff {A} (R S : relation A) :
  (∀ x y, R x y ↔ S x y) → ∀ x y, tc R x y ↔ tc S x y.
Proof.
  intros H x y.
  split; (induction 1 as [a b Hab|a b c Hab _ IH];
    [apply tc_once; by apply H|eapply tc_l; [by apply H|exact IH]]).
Qed.

Lemma visited_list ord (V : gset string) :
  NoDup (range ord (gset_to_gmap true V)).*1 ∧
  ∀ x, x ∈ (range ord (gset_to_gmap true V)).*1 ↔ x ∈ V.
Proof.
  split; [apply range_keys_NoDup|].
  intros x. rewrite range_keys_elem_of. split.
  - intros [v Hv]. apply lookup_gset_to_gmap_Some in Hv. tauto.
  - intros Hx. exists true. by apply lookup_gset_to_gmap_Some.
Qed.

Lemma Descendants_walk_reach ord g fuel id d :
  wf g → Order g < fuel →
  d ∈ Descendants_walk ord g fuel id ∅ ↔ tc (edge g) id d.
Proof.
  intros Hwf Hfuel. rewrite Descendants_walk_marking.
  rewrite (marking_walk_reach _ (dom (nodes g))).
  - apply tc_iff. intros x y. unfold steps. by apply out_targets.
  - intros x y Hy. apply (out_targets ord g x y Hwf) in Hy.
    by apply (edge_ends_nodes g x y).
  - by rewrite size_dom.
Qed.

Lemma Ancestors_walk_reach ord g fuel id a :
  wf g → Order g < fuel →
  a ∈ Ancestors_walk ord g fuel id ∅ ↔ tc (edge g) a id.
Proof.
  intros Hwf Hfuel. rewrite Ancestors_walk_marking.
  rewrite (marking_walk_reach _ (dom (nodes g))).
  - rewrite <- tc_flip_iff. apply tc_iff. intros x y. unfold steps, flip.
    by apply in_sources.
  - intros x y Hy. apply (in_sources ord g y x Hwf) in Hy.
    by apply (edge_ends_nodes g y x).
  - by rewrite size_dom.
Qed.

Lemma edge_sym g a b : wf g → Directed g = false → edge g a b → edge g b a.
Proof.
  intros Hwf Hd [e He]%HasEdge_is_Some. apply HasEdge_is_Some.
  rewrite (wf_undirected g Hwf Hd a b e He). eauto.
Qed.

Lemma no_edges_length {A} ord (m : gmap string A) :
  (length (range ord m).*2 =? 0)%nat = true ↔ ∀ k, m !! k = None.
Proof.
  rewrite Nat.eqb_eq, length_fmap. unfold range.
  rewrite (range_order_perm ord _ (map_to_list m)), length_map_to_list.
  rewrite map_size_empty_iff. split; [intros -> k; apply lookup_empty|apply map_empty].
Qed.

(** X13. With more fuel than the graph has nodes, [Descendants] lists, each
    once, exactly the nodes that a path of one or more edges leads to from
    [id]; [id] itself is listed only when it lies on a cycle, and a name
    that is no node has no descendants. *)
Theorem Descendants_reach ord g fuel id :
  wf g → Order g < fuel →
  NoDup (Descendants ord g fuel id) ∧
  (∀ d, d ∈ Descendants ord g fuel id ↔ tc (edge g) id d) ∧
  (∀ d, d ∈ Descendants ord g fuel id → HasNode g d = true) ∧
  (HasNode g id = false → Descendants ord g fuel id = []).
Proof.
  intros Hwf Hfuel. unfold Descendants. cbv zeta.
  destruct (visited_list ord (Descendants_walk ord g fuel id ∅)) as [Hnd Hin].
  assert (∀ d, d ∈ (range ord (gset_to_gmap true (Descendants_walk ord g fuel id ∅))).*1
               ↔ tc (edge g) id d) as Hreach.
  { intros d. rewrite Hin. by apply Descendants_walk_reach. }
  split_and!; [done|done| |].
  - intros d Hd%Hreach. apply HasNode_true, elem_of_dom.
    apply tc_last in Hd as [c Hc]. by apply (edge_ends_nodes g c d).
  - intros Hno. apply elem_of_nil_inv. intros d Hd%Hreach.
    apply HasNode_false in Hno.
    assert (∃ b, edge g id b) as [b Hb].
    { by apply tc_first in Hd. }
    apply (edge_ends_nodes g id b Hwf) in Hb as [Hb _].
    apply elem_of_dom in Hb as [? Hb]. congruence.
Qed.

(** X14. With more fuel than the graph has nodes, [Ancestors] lists, each
    once, exactly the nodes from which a path of one or more edges leads to
    [id].  So a node is an ancestor of another exactly when the other is
    among its descendants, and in an undirected graph the ancestors of a
    node are its descendants. *)
Theorem Ancestors_reach ord g fuel id :
  wf g → Order g < fuel →
  NoDup (Ancestors ord g fuel id) ∧
  (∀ a, a ∈ Ancestors ord g fuel id ↔ tc (edge g) a id) ∧
  (∀ a, a ∈ Ancestors ord g fuel id ↔ id ∈ Descendants ord g fuel a) ∧
  (Directed g = false →
   ∀ a, a ∈ Ancestors ord g fuel id ↔ a ∈ Descendants ord g fuel id).
Proof.
  intros Hwf Hfuel. unfold Ancestors, Descendants. cbv zeta.
  destruct (visited_list ord (Ancestors_walk ord g fuel id ∅)) as [Hnd Hin].
  assert (∀ a, a ∈ (range ord (gset_to_gmap true (Ancestors_walk ord g fuel id ∅))).*1
               ↔ tc (edge g) a id) as Hreach.
  { intros a. rewrite Hin. by apply Ancestors_walk_reach. }
  assert (∀ a d, d ∈ (range ord (gset_to_gmap true (Descendants_walk ord g fuel a ∅))).*1
               ↔ tc (edge g) a d) as Hdesc.
  { intros a d. rewrite (proj2 (visited_list ord _)). by apply Descendants_walk_reach. }
  split_and!; [done|done| |].
  - intros a. by rewrite Hreach, Hdesc.
  - intros Hd a. rewrite Hreach, Hdesc, <- tc_flip_iff.
    apply tc_iff. intros x y. unfold flip. split; by apply edge_sym.
Qed.

(** X15. [Roots] lists, in ascending order of ID, exactly the nodes that no
    edge ends at, and [Leaves] exactly the nodes that no edge starts from.
    In an undirected graph the two lists are the same: the nodes without any
    edge. *)
Theorem Roots_Leaves ord g :
  wf g →
  (∀ n, n ∈ Roots ord g ↔
        GetNode g (Node.ID n) = Some n ∧ ∀ a, HasEdge g a (Node.ID n) = false) ∧
  (∀ n, n ∈ Leaves ord g ↔
        GetNode g (Node.ID n) = Some n ∧ ∀ b, HasEdge g (Node.ID n) b = false) ∧
  StronglySorted (λ a b, str_lt a b = true) (Node.ID <$> Roots ord g) ∧
  StronglySorted (λ a b, str_lt a b = true) (Node.ID <$> Leaves ord g) ∧
  (Directed g = false → Roots ord g = Leaves ord g).
Proof.
  intros Hwf.
  assert (∀ n : Node.t N, (length (InEdges ord g (Node.ID n)) =? 0)%nat = true ↔
               ∀ a, HasEdge g a (Node.ID n) = false) as Hin.
  { intros n. unfold InEdges. rewrite no_edges_length.
    split; intros H a; [apply HasEdge_None|]; rewrite (wf_out_in g Hwf) || idtac.
    - apply H.
    - rewrite <- (wf_out_in g Hwf). apply HasEdge_None, H. }
  assert (∀ n : Node.t N, (length (OutEdges ord g (Node.ID n)) =? 0)%nat = true ↔
               ∀ b, HasEdge g (Node.ID n) b = false) as Hout.
  { intros n. unfold OutEdges. rewrite no_edges_length.
    split; intros H b; apply HasEdge_None, H. }
  assert (∀ p, StronglySorted (λ a b, str_lt a b = true)
                 (Node.ID <$> List.filter p (Nodes ord g))) as Hsorted.
  { intros p. pose proof (ids_sorted_strict _ (Nodes_ids_sorted ord g Hwf)) as Hs.
    revert Hs. generalize (Nodes ord g). intros l. induction l as [|n l IH]; simpl; [done|].
    intros Hs. apply StronglySorted_inv in Hs as [Hl Hn].
    destruct (p n); simpl; [|by apply IH].
    constructor; [by apply IH|].
    apply Forall_forall. intros x Hx. rewrite Forall_forall in Hn. apply Hn.
    apply list_elem_of_fmap in Hx as (m & -> & Hm). apply list_elem_of_fmap.
    exists m. split; [done|]. apply list_elem_of_In in Hm.
    apply filter_In in Hm as [Hm _]. by apply list_elem_of_In. }
  split_and!.
  - intros n. unfold Roots. rewrite list_elem_of_In, filter_In, <- list_elem_of_In.
    by rewrite Nodes_elem_of, Hin.
  - intros n. unfold Leaves. rewrite list_elem_of_In, filter_In, <- list_elem_of_In.
    by rewrite Nodes_elem_of, Hout.
  - apply Hsorted.
  - apply Hsorted.
  - intros Hd. unfold Roots, Leaves. apply filter_ext. intros n.
    apply eq_true_iff_eq. rewrite Hin, Hout.
    split; intros H x; specialize (H x); apply not_true_is_false; intros Hx;
      apply (edge_sym g _ _ Hwf Hd) in Hx; unfold edge in Hx; congruence.
Qed.

End Query.

(** Nodes a, b and c with the edges a -> b, b -> c and c -> b. *)
Definition cycle_graph : Graph string string :=
  let g := AddNode (NewGraph true) "a" "A" in
  let g := AddNode g "b" "B" in
  let g := AddNode g "c" "C" in
  let g := (AddEdge g "a" "b" "ab" 1%float).1 in
  let g := (AddEdge g "b" "c" "bc" 1%float).1 in
  (AddEdge g "c" "b" "cb" 1%float).1.

Lemma cycle_graph_wf : wf cycle_graph.
Proof. repeat first [apply wf_AddEdge | apply wf_AddNode | apply wf_NewGraph]. Qed.

Lemma Descendants_reach_witness :
  wf cycle_graph ∧ Order cycle_graph < 4 ∧
  NoDup (Descendants order_id cycle_graph 4 "b") ∧
  ("b" ∈ Descendants order_id cycle_graph 4 "b" ↔ tc (edge cycle_graph) "b" "b").
Proof.
  assert (Order cycle_graph < 4) as Hlt by (vm_compute; lia).
  destruct (Descendants_reach order_id cycle_graph 4 "b" cycle_graph_wf Hlt)
    as (Hnd & Hin & _).
  split_and!; [exact cycle_graph_wf|exact Hlt|exact Hnd|exact (Hin "b")].
Defined.

Lemma Ancestors_reach_witness :
  wf cycle_graph ∧ Order cycle_graph < 4 ∧
  NoDup (Ancestors order_id cycle_graph 4 "c") ∧
  ("a" ∈ Ancestors order_id cycle_graph 4 "c" ↔
   "c" ∈ Descendants order_id cycle_graph 4 "a").
Proof.
  assert (Order cycle_graph < 4) as Hlt by (vm_compute; lia).
  destruct (Ancestors_reach order_id cycle_graph 4 "c" cycle_graph_wf Hlt)
    as (Hnd & _ & Hin & _).
  split_and!; [exact cycle_graph_wf|exact Hlt|exact Hnd|exact (Hin "a")].
Defined.

Lemma Roots_Leaves_witness :
  wf cycle_graph ∧
  StronglySorted (λ a b, str_lt a b = true) (Node.ID <$> Roots order_id cycle_graph).
Proof.
  destruct (Roots_Leaves order_id cycle_graph cycle_graph_wf) as (_ & _ & Hs & _).
  split; [exact cycle_graph_wf|exact Hs].
Defined.

Local Open Scope list_scope.

(** ** algo.go: traversals *)

(** A walk that starts with only [cur] marked ends with exactly what can be
    reached from [cur] in any number of steps. *)
Lemma marking_walk_reach_from (next : string → list string) (U : gset string) fuel cur x :
  (∀ a b, b ∈ next a → b ∈ U) → cur ∈ U → (size U ≤ fuel)%nat →
  x ∈ marking_walk next fuel cur {[cur]} ↔ rtc (steps next) cur x.
Proof.
  intros Hin Hcur Hfuel.
  destruct (marking_walk_spec next U Hin fuel cur {[cur]}) as [W1 W2 W3 W4].
  { assert (size U = S (size (U ∖ ({[cur]} ∪ ∅)))) as Hs.
    { symmetry. rewrite (size_unvisited_insert U ∅ cur Hcur) by set_solver.
      f_equal. set_solver. }
    replace (U ∖ {[cur]}) with (U ∖ ({[cur]} ∪ ∅)) by (f_equal; set_solver).
    lia. }
  split.
  - intros Hx. destruct (decide (x = cur)) as [->|Hne]; [done|].
    apply tc_rtc, W4; [done|set_solver].
  - intros Hr. apply rtc_tc in Hr.
    assert (∀ a, a ∈ marking_walk next fuel cur {[cur]} → tc (steps next) a x →
                 x ∈ marking_walk next fuel cur {[cur]}) as Hgen.
    { clear Hr. intros a Ha Hax. revert Ha.
      assert (∀ a b, a ∈ marking_walk next fuel cur {[cur]} → steps next a b →
                     b ∈ marking_walk next fuel cur {[cur]}) as Hstep.
      { intros u b Hu Hub. destruct (decide (u = cur)) as [->|Hne]; [by apply W2|].
        apply (W3 u); [done|set_solver|done]. }
      induction Hax as [a b Hab|a b c Hab _ IH]; intros Ha; [by eapply Hstep|].
      apply IH. by eapply Hstep. }
    destruct Hr as [->|Hr]; [set_solver|]. apply (Hgen cur); [set_solver|done].
Qed.

(** Everything up to and including the first element at which [stop] holds. *)
Fixpoint upto_stop {A} (stop : A → bool) (l : list A) : list A :=
  match l with
  | [] => []
  | x :: l' => if stop x then [x] else x :: upto_stop stop l'
  end.

Lemma upto_stop_app {A} (stop : A → bool) (l k : list A) :
  upto_stop stop (l ++ k) =
  if existsb stop l then upto_stop stop l else (l ++ upto_stop stop k)%list.
Proof.
  induction l as [|x l IH]; simpl; [done|].
  destruct (stop x); simpl; [done|]. rewrite IH. by destruct (existsb stop l).
Qed.

Lemma upto_stop_none {A} (stop : A → bool) (l : list A) :
  existsb stop l = false → upto_stop stop l = l.
Proof.
  intros H. rewrite <- (app_nil_r l) at 1. rewrite upto_stop_app, H. simpl.
  by rewrite app_nil_r.
Qed.

Section Traversal.
Context {N E : Type}.
Implicit Types g : Graph N E.

(** Go's zero value of the node payload: what [GetNode] hands out with
    [ok = false]. *)
Variable zero : N.

(** [n, _ := g.GetNode(id)] *)
Definition node_or_zero g (id : string) : Node.t N :=
  default (Node.mk "" zero) (GetNode g id).

(** [visitor != nil && !visitor(n)] *)
Definition visit_stops (visitor : option (Node.t N → bool)) (n : Node.t N) : bool :=
  match visitor with
  | Some v => negb (v n)
  | None => false
  end.

Definition BFS_enqueue (acc : gset string * list string) (nb : string)
  : gset string * list string :=
  let '(visited, queue) := acc in
  if negb (bool_decide (nb ∈ visited)) then ({[nb]} ∪ visited, queue ++ [nb])
  else acc.

Fixpoint BFS_loop (ord : MapOrder) g (visitor : option (Node.t N → bool)) (fuel : nat)
    (visited : gset string) (queue order : list string) : list string :=
  match fuel with
  | 0 => order
  | S fuel' =>
      match queue with
      | [] => order
      | id :: queue =>
          let n := node_or_zero g id in
          let order := order ++ [id] in
          if visit_stops visitor n then order
          else
            let '(visited, queue) :=
              foldl BFS_enqueue (visited, queue) (Neighbors ord g id) in
            BFS_loop ord g visitor fuel' visited queue order
      end
  end.

Definition BFS (ord : MapOrder) g (fuel : nat) (start : string)
    (visitor : option (Node.t N → bool)) : list string :=
  if negb (HasNode g start) then []
  else BFS_loop ord g visitor fuel {[start]} [start] [].

(** The closure [walk] of [DFS]; the state is [visited], [order], [stopped]. *)
Fixpoint DFS_walk (ord : MapOrder) g (visitor : option (Node.t N → bool)) (fuel : nat)
    (id : string) (st : gset string * list string * bool)
  : gset string * list string * bool :=
  match fuel with
  | 0 => st
  | S fuel' =>
      let '(visited, order, stopped) := st in
      if stopped || bool_decide (id ∈ visited) then st
      else
        let visited := {[id]} ∪ visited in
        let n := node_or_zero g id in
        let order := order ++ [id] in
        if visit_stops visitor n then (visited, order, true)
        else foldl (λ st nb, DFS_walk ord g visitor fuel' nb st)
                   (visited, order, false) (Neighbors ord g id)
  end.

Definition DFS (ord : MapOrder) g (fuel : nat) (start : string)
    (visitor : option (Node.t N → bool)) : list string :=
  if negb (HasNode g start) then []
  else (DFS_walk ord g visitor fuel start (∅, [], false)).1.2.

Lemma Neighbors_elem_of ord g a b : b ∈ Neighbors ord g a ↔ edge g a b.
Proof.
  unfold Neighbors, edge. rewrite sort_Strings_elem_of, range_keys_elem_of.
  by rewrite HasEdge_is_Some.
Qed.

Lemma BFS_enqueue_spec (l : list string) : ∀ visited queue,
  ∃ extra,
    foldl BFS_enqueue (visited, queue) l = (visited ∪ list_to_set extra, queue ++ extra) ∧
    NoDup extra ∧ (∀ x, x ∈ extra → (x ∉ visited) ∧ (x ∈ l)) ∧
    (∀ x, x ∈ l → x ∈ visited ∪ list_to_set extra).
Proof.
  induction l as [|nb l IH]; intros visited queue; simpl.
  - exists []. simpl. rewrite app_nil_r, (right_id_L ∅ (∪)).
    split_and!; [done|constructor|by intros ? ?%elem_of_nil|by intros ? ?%elem_of_nil].
  - destruct (bool_decide (nb ∈ visited)) eqn:Hnb; simpl.
    + apply bool_decide_eq_true in Hnb.
      destruct (IH visited queue) as (extra & -> & Hnd & Hex & Hl).
      exists extra. split_and!; [done|done| |].
      * intros x Hx. destruct (Hex x Hx). split; [done|by right].
      * intros x [->|Hx]%elem_of_cons; [set_solver|by apply Hl].
    + apply bool_decide_eq_false in Hnb.
      destruct (IH ({[nb]} ∪ visited) (queue ++ [nb])) as (extra & -> & Hnd & Hex & Hl).
      exists (nb :: extra). split_and!.
      * f_equal; [|by rewrite <- app_assoc]. simpl. set_solver.
      * constructor; [|done]. intros Hin. apply Hex in Hin. set_solver.
      * intros x [->|Hx]%elem_of_cons; [split; [done|by left]|].
        destruct (Hex x Hx). split; [set_solver|by right].
      * intros x [->|Hx]%elem_of_cons; [set_solver|].
        specialize (Hl x Hx). set_solver.
Qed.

Lemma NoDup_length_bound (l : list string) (U : gset string) :
  NoDup l → (∀ x, x ∈ l → x ∈ U) → (length l ≤ size U)%nat.
Proof.
  intros Hnd Hsub.
  rewrite <- (size_list_to_set (C:=gset string) l Hnd).
  apply subseteq_size. intros x Hx. apply elem_of_list_to_set in Hx. by apply Hsub.
Qed.

Lemma BFS_loop_reach ord g start fuel : ∀ visited queue order,
  wf g →
  size (dom (nodes g)) < fuel + length order →
  visited = list_to_set (order ++ queue) →
  NoDup (order ++ queue) →
  (∀ u y, u ∈ order → edge g u y → y ∈ visited) →
  (∀ u, u ∈ visited → rtc (edge g) start u) →
  start ∈ visited →
  visited ⊆ dom (nodes g) →
  let result := BFS_loop ord g None fuel visited queue order in
  NoDup result ∧ (∀ x, x ∈ result ↔ rtc (edge g) start x) ∧
  order `prefix_of` result ∧ (order = [] → head result = head queue).
Proof.
  induction fuel as [|fuel IH]; intros visited queue order Hwf Hfuel Hv Hnd Hcl Hre Hst HU.
  { exfalso. assert (length order ≤ size (dom (nodes g)))%nat; [|simpl in Hfuel; lia].
    apply NoDup_length_bound; [by apply NoDup_app in Hnd as (? & _ & _)|].
    intros x Hx. apply HU. rewrite Hv. apply elem_of_list_to_set, elem_of_app. by left. }
  destruct queue as [|id queue]; simpl.
  { rewrite app_nil_r in Hv, Hnd. split_and!; [done| |done|by intros ->].
    intros x. split.
    - intros Hx. apply Hre. rewrite Hv. by apply elem_of_list_to_set.
    - intros Hr. assert (x ∈ visited) as Hx; [|by rewrite Hv, elem_of_list_to_set in Hx].
      revert x Hr. apply (rtc_ind_r (λ x, x ∈ visited)); [done|].
      intros y z _ Hyz Hy. eapply Hcl; [|exact Hyz].
      by rewrite Hv, elem_of_list_to_set in Hy. }
  destruct (BFS_enqueue_spec (Neighbors ord g id) visited queue)
    as (extra & -> & Hexnd & Hex & Hl).
  assert (id ∈ visited) as Hid.
  { rewrite Hv. apply elem_of_list_to_set, elem_of_app. right. by left. }
  destruct (IH (visited ∪ list_to_set extra) (queue ++ extra) (order ++ [id]))
    as (R1 & R2 & R3 & R4).
  - done.
  - rewrite length_app. simpl. lia.
  - rewrite Hv. apply set_eq. intros x.
    rewrite elem_of_union, !elem_of_list_to_set, !elem_of_app, elem_of_cons,
      list_elem_of_singleton. tauto.
  - rewrite <- app_assoc. simpl. rewrite app_comm_cons, app_assoc.
    apply NoDup_app. split_and!; [done| |done].
    intros x Hx Hx'. apply Hex in Hx' as [Hx' _]. apply Hx'. rewrite Hv.
    by apply elem_of_list_to_set.
  - intros u y [Hu| ->%list_elem_of_singleton]%elem_of_app Huy.
    + apply elem_of_union. left. by eapply Hcl.
    + apply Hl. by apply Neighbors_elem_of.
  - intros u [Hu|Hu]%elem_of_union; [by apply Hre|].
    apply elem_of_list_to_set, Hex in Hu as [_ Hu]. apply Neighbors_elem_of in Hu.
    eapply rtc_r; [apply Hre, Hid|done].
  - set_solver.
  - intros x [Hx|Hx]%elem_of_union; [by apply HU|].
    apply elem_of_list_to_set, Hex in Hx as [_ Hx]. apply Neighbors_elem_of in Hx.
    by apply (edge_ends_nodes g id x).
  - split_and!; [done|done| |].
    + etrans; [|exact R3]. by apply prefix_app_r.
    + intros ->. simpl in *. destruct R3 as [k ->]. done.
Qed.

Lemma BFS_full ord g fuel start :
  wf g → Order g < fuel → HasNode g start = true →
  NoDup (BFS ord g fuel start None) ∧
  head (BFS ord g fuel start None) = Some start ∧
  (∀ x, x ∈ BFS ord g fuel start None ↔ rtc (edge g) start x).
Proof.
  intros Hwf Hfuel Hstart. unfold BFS. rewrite Hstart. simpl.
  destruct (BFS_loop_reach ord g start fuel {[start]} [start] []) as (H1 & H2 & _ & H4).
  - done.
  - unfold Order in Hfuel. rewrite size_dom. simpl. lia.
  - simpl. set_solver.
  - simpl. apply NoDup_singleton.
  - by intros u y ?%elem_of_nil.
  - by intros u ->%elem_of_singleton.
  - set_solver.
  - intros x ->%elem_of_singleton. by apply elem_of_dom, HasNode_true.
  - split_and!; [done|by apply H4|done].
Qed.

(** X16. Without a visitor and with more fuel than the graph has nodes,
    [BFS] from a node of the graph lists, each once and the start first,
    exactly the nodes that a path of any number of edges leads to from the
    start. *)
Theorem BFS_reach ord g fuel start :
  wf g → Order g < fuel → HasNode g start = true →
  NoDup (BFS ord g fuel start None) ∧
  head (BFS ord g fuel start None) = Some start ∧
  (∀ x, x ∈ BFS ord g fuel start None ↔ rtc (edge g) start x).
Proof. apply BFS_full. Qed.

Lemma foldl_keep {A B} (l : list B) (a : A) : foldl (λ a _, a) a l = a.
Proof. by induction l. Qed.

Lemma DFS_walk_marking ord g fuel : ∀ id V order,
  ∃ extra,
    DFS_walk ord g None (S fuel) id (V, order, false) =
      (V ∪ list_to_set extra, order ++ extra, false) ∧
    V ∪ list_to_set extra =
      (if bool_decide (id ∈ V) then V
       else marking_walk (Neighbors ord g) fuel id ({[id]} ∪ V)) ∧
    NoDup extra ∧ (∀ x, x ∈ extra → x ∉ V) ∧ (id ∉ V → head extra = Some id).
Proof.
  induction fuel as [|fuel IH]; intros id V order.
  - simpl. destruct (bool_decide (id ∈ V)) eqn:Hid; simpl.
    + exists []. simpl. rewrite app_nil_r, (right_id_L ∅ (∪)).
      apply bool_decide_eq_true in Hid.
      split_and!; [done|done|constructor|by intros ? ?%elem_of_nil|done].
    + apply bool_decide_eq_false in Hid. exists [id]. rewrite foldl_keep. simpl.
      replace (V ∪ ({[id]} ∪ ∅)) with ({[id]} ∪ V) by set_solver.
      split_and!; [done|done|apply NoDup_singleton| |done].
      by intros x ->%list_elem_of_singleton.
  - change (DFS_walk ord g None (S (S fuel)) id (V, order, false))
      with (if false || bool_decide (id ∈ V) then (V, order, false)
            else foldl (λ st nb, DFS_walk ord g None (S fuel) nb st)
                       ({[id]} ∪ V, order ++ [id], false) (Neighbors ord g id)).
    destruct (bool_decide (id ∈ V)) eqn:Hid; simpl orb; cbv iota.
    + exists []. simpl. rewrite app_nil_r, (right_id_L ∅ (∪)).
      apply bool_decide_eq_true in Hid.
      split_and!; [done|done|constructor|by intros ? ?%elem_of_nil|done].
    + apply bool_decide_eq_false in Hid.
      assert (∀ l V1 o1, ∃ extra,
                foldl (λ st nb, DFS_walk ord g None (S fuel) nb st) (V1, o1, false) l =
                  (V1 ∪ list_to_set extra, o1 ++ extra, false) ∧
                V1 ∪ list_to_set extra =
                  foldl (λ visited dst,
                           if bool_decide (dst ∈ visited) then visited
                           else marking_walk (Neighbors ord g) fuel dst ({[dst]} ∪ visited))
                        V1 l ∧
                NoDup extra ∧ (∀ x, x ∈ extra → x ∉ V1)) as Hfold.
      { induction l as [|nb l IHl]; intros V1 o1.
        - exists []. simpl. rewrite app_nil_r, (right_id_L ∅ (∪)).
          split_and!; [done|done|constructor|by intros ? ?%elem_of_nil].
        - cbn [foldl].
          destruct (IH nb V1 o1) as (e1 & -> & Hm1 & Hnd1 & Hd1 & _).
          destruct (IHl (V1 ∪ list_to_set e1) (o1 ++ e1)) as (e2 & -> & Hm2 & Hnd2 & Hd2).
          exists (e1 ++ e2). split_and!.
          + by rewrite list_to_set_app_L, (assoc_L (∪)), app_assoc.
          + rewrite <- Hm1, <- Hm2, list_to_set_app_L. set_solver.
          + apply NoDup_app. split_and!; [done| |done].
            intros x Hx Hx'. apply Hd2 in Hx'. set_solver.
          + intros x [Hx|Hx]%elem_of_app; [by apply Hd1|]. apply Hd2 in Hx. set_solver. }
      destruct (Hfold (Neighbors ord g id) ({[id]} ∪ V) (order ++ [id]))
        as (e & -> & Hm & Hnd & Hd).
      exists (id :: e). split_and!.
      * rewrite <- app_assoc. simpl.
        by replace (V ∪ ({[id]} ∪ list_to_set e)) with ({[id]} ∪ V ∪ list_to_set e)
          by set_solver.
      * simpl. rewrite <- Hm. set_solver.
      * constructor; [|done]. intros Hin. apply Hd in Hin. set_solver.
      * intros x [->|Hx]%elem_of_cons; [done|]. apply Hd in Hx. set_solver.
      * done.
Qed.

Lemma DFS_full ord g fuel start :
  wf g → Order g < fuel → HasNode g start = true →
  NoDup (DFS ord g fuel start None) ∧
  head (DFS ord g fuel start None) = Some start ∧
  (∀ x, x ∈ DFS ord g fuel start None ↔ rtc (edge g) start x).
Proof.
  intros Hwf Hfuel Hstart. unfold DFS. rewrite Hstart. simpl negb. cbv iota.
  destruct fuel as [|fuel]; [lia|].
  destruct (DFS_walk_marking ord g fuel start ∅ []) as (e & -> & Hm & Hnd & _ & Hhd).
  simpl. split_and!; [done|by apply Hhd|].
  intros x.
  assert (x ∈ e ↔ x ∈ (∅ ∪ list_to_set e : gset string)) as -> by set_solver.
  rewrite Hm. rewrite bool_decide_eq_false_2 by set_solver.
  rewrite (right_id_L ∅ (∪)).
  rewrite (marking_walk_reach_from (Neighbors ord g) (dom (nodes g))).
  - split; apply rtc_subrel; intros a b; apply Neighbors_elem_of.
  - intros a b Hab%Neighbors_elem_of. by apply (edge_ends_nodes g a b).
  - by apply elem_of_dom, HasNode_true.
  - rewrite size_dom. unfold Order in Hfuel. lia.
Qed.

(** X17. Without a visitor and with more fuel than the graph has nodes,
    [DFS] from a node of the graph lists, each once and the start first,
    exactly the nodes that a path of any number of edges leads to from the
    start: the nodes [BFS] lists, in another order. *)
Theorem DFS_reach ord g fuel start :
  wf g → Order g < fuel → HasNode g start = true →
  NoDup (DFS ord g fuel start None) ∧
  head (DFS ord g fuel start None) = Some start ∧
  (∀ x, x ∈ DFS ord g fuel start None ↔ rtc (edge g) start x) ∧
  DFS ord g fuel start None ≡ₚ BFS ord g fuel start None.
Proof.
  intros Hwf Hfuel Hstart.
  destruct (DFS_full ord g fuel start Hwf Hfuel Hstart) as (D1 & D2 & D3).
  destruct (BFS_full ord g fuel start Hwf Hfuel Hstart) as (B1 & _ & B3).
  split_and!; [done|done|done|].
  apply NoDup_Permutation; [done|done|]. intros x. by rewrite D3, B3.
Qed.

(** The visitor's verdict on the node stored under [id]. *)
Definition stops_at g (visitor : Node.t N → bool) (id : string) : bool :=
  negb (visitor (node_or_zero g id)).

Lemma BFS_loop_order ord g visitor fuel : ∀ visited queue order,
  BFS_loop ord g visitor fuel visited queue order =
  order ++ BFS_loop ord g visitor fuel visited queue [].
Proof.
  induction fuel as [|fuel IH]; intros visited queue order; simpl.
  { by rewrite app_nil_r. }
  destruct queue as [|id queue]; [by rewrite app_nil_r|].
  destruct (visit_stops visitor (node_or_zero g id)); [done|].
  destruct (foldl BFS_enqueue (visited, queue) (Neighbors ord g id)) as [v' q'].
  rewrite (IH v' q' (order ++ [id])), (IH v' q' [id]). by rewrite <- app_assoc.
Qed.

Lemma BFS_loop_stop ord g v fuel : ∀ visited queue,
  BFS_loop ord g (Some v) fuel visited queue [] =
  upto_stop (stops_at g v) (BFS_loop ord g None fuel visited queue []).
Proof.
  induction fuel as [|fuel IH]; intros visited queue; simpl; [done|].
  destruct queue as [|id queue]; [done|].
  destruct (foldl BFS_enqueue (visited, queue) (Neighbors ord g id)) as [v' q'].
  rewrite (BFS_loop_order ord g None fuel v' q' [id]). simpl.
  unfold stops_at at 1. destruct (negb (v (node_or_zero g id))); [done|].
  rewrite (BFS_loop_order ord g (Some v) fuel v' q' [id]). simpl. by rewrite IH.
Qed.

Lemma DFS_walk_stopped ord g visitor fuel id V o :
  DFS_walk ord g visitor fuel id (V, o, true) = (V, o, true).
Proof. by destruct fuel. Qed.

Lemma DFS_walk_extends ord g fuel : ∀ id V o,
  ∃ V' e, DFS_walk ord g None fuel id (V, o, false) = (V', o ++ e, false).
Proof.
  induction fuel as [|fuel IH]; intros id V o.
  { exists V, []. simpl. by rewrite app_nil_r. }
  simpl. destruct (bool_decide (id ∈ V)).
  { exists V, []. by rewrite app_nil_r. }
  assert (∀ l V1 e1, ∃ V' e,
            foldl (λ st nb, DFS_walk ord g None fuel nb st) (V1, o ++ e1, false) l =
            (V', o ++ e, false)) as Hfold.
  { induction l as [|nb l IHl]; intros V1 e1; [by exists V1, e1|]. simpl.
    destruct (IH nb V1 (o ++ e1)) as (V' & e & ->). rewrite <- app_assoc. apply IHl. }
  apply Hfold.
Qed.

(** How a run with a visitor relates to the run without one, both started
    with [order = o]. *)
Definition stop_related g (v : Node.t N → bool) (o : list string)
    (st1 st2 : gset string * list string * bool) : Prop :=
  ∃ e, st2.1.2 = o ++ e ∧ st2.2 = false ∧
       st1.1.2 = o ++ upto_stop (stops_at g v) e ∧
       if st1.2 then existsb (stops_at g v) e = true
       else existsb (stops_at g v) e = false ∧ st1.1.1 = st2.1.1.

Lemma DFS_walk_stop ord g v fuel : ∀ id o st1 st2,
  stop_related g v o st1 st2 →
  stop_related g v o (DFS_walk ord g (Some v) fuel id st1) (DFS_walk ord g None fuel id st2).
Proof.
  induction fuel as [|fuel IH]; intros id o st1 st2 Hrel; [done|].
  destruct st1 as [[V1 o1] s1], st2 as [[V2 o2] s2].
  destruct Hrel as (e & He2 & Hs2 & He1 & Hflag). simpl in He2, Hs2, He1, Hflag.
  subst o2 s2 o1. destruct s1.
  { rewrite DFS_walk_stopped.
    destruct (DFS_walk_extends ord g (S fuel) id V2 (o ++ e)) as (V' & e' & ->).
    exists (e ++ e'). simpl. rewrite upto_stop_app, existsb_app, Hflag, <- app_assoc. done. }
  destruct Hflag as [Hno ->]. rewrite (upto_stop_none _ _ Hno).
  simpl. destruct (bool_decide (id ∈ V2)).
  { exists e. simpl. by rewrite (upto_stop_none _ _ Hno). }
  assert (∀ l st1 st2, stop_related g v o st1 st2 →
            stop_related g v o
              (foldl (λ st nb, DFS_walk ord g (Some v) fuel nb st) st1 l)
              (foldl (λ st nb, DFS_walk ord g None fuel nb st) st2 l)) as Hfold.
  { induction l as [|nb l IHl]; intros st1 st2 Hrel; [done|]. simpl.
    apply IHl, IH, Hrel. }
  fold (stops_at g v id). destruct (stops_at g v id) eqn:Hstop.
  - assert (∀ l, ∃ V' e',
              foldl (λ st nb, DFS_walk ord g None fuel nb st)
                    ({[id]} ∪ V2, (o ++ e) ++ [id], false) l =
              (V', ((o ++ e) ++ [id]) ++ e', false)) as Hext.
    { intros l. generalize ({[id]} ∪ V2). generalize ((o ++ e) ++ [id]).
      induction l as [|nb l IHl]; intros o' V'.
      - exists V', []. simpl. by rewrite app_nil_r.
      - simpl. destruct (DFS_walk_extends ord g fuel nb V' o') as (V'' & e' & ->).
        destruct (IHl (o' ++ e') V'') as (V3 & e3 & ->).
        exists V3, (e' ++ e3). by rewrite app_assoc. }
    destruct (Hext (Neighbors ord g id)) as (V' & e' & ->).
    exists (e ++ id :: e'). simpl.
    rewrite upto_stop_app, existsb_app, Hno. simpl. rewrite Hstop. simpl.
    split_and!; [|done| |done].
    + rewrite <- !app_assoc. done.
    + by rewrite <- !app_assoc.
  - apply Hfold. exists (e ++ [id]). simpl.
    rewrite upto_stop_app, existsb_app, Hno. simpl. rewrite Hstop. simpl.
    by rewrite !app_assoc.
Qed.

(** X18. A traversal with a visitor lists the nodes the traversal without
    one lists, up to and including the first node at which the visitor
    returns false; this holds for [BFS] and for [DFS], whatever the fuel.
    From a start that is no node both return nothing. *)
Theorem visitor_stops_traversal ord g fuel start (v : Node.t N → bool) :
  BFS ord g fuel start (Some v) = upto_stop (stops_at g v) (BFS ord g fuel start None) ∧
  DFS ord g fuel start (Some v) = upto_stop (stops_at g v) (DFS ord g fuel start None) ∧
  (HasNode g start = false →
   BFS ord g fuel start (Some v) = [] ∧ DFS ord g fuel start (Some v) = []).
Proof.
  unfold BFS, DFS. destruct (HasNode g start); simpl negb; cbv iota; [|done].
  split_and!; [apply BFS_loop_stop| |done].
  destruct (DFS_walk_stop ord g v fuel start [] (∅, [], false) (∅, [], false))
    as (e & He2 & _ & He1 & _).
  { exists []. done. }
  simpl in He1, He2. by rewrite He1, He2.
Qed.

End Traversal.

Lemma BFS_reach_witness :
  wf cycle_graph ∧ Order cycle_graph < 4 ∧ HasNode cycle_graph "a" = true ∧
  BFS "" order_id cycle_graph 4 "a" None = ["a"; "b"; "c"] ∧
  NoDup (BFS "" order_id cycle_graph 4 "a" None).
Proof.
  assert (Order cycle_graph < 4) as Hlt by (vm_compute; lia).
  assert (HasNode cycle_graph "a" = true) as Hn by (vm_compute; reflexivity).
  destruct (BFS_reach "" order_id cycle_graph 4 "a" cycle_graph_wf Hlt Hn) as (Hnd & _).
  split_and!; [exact cycle_graph_wf|exact Hlt|exact Hn|vm_compute; reflexivity|exact Hnd].
Defined.

Lemma DFS_reach_witness :
  wf cycle_graph ∧ Order cycle_graph < 4 ∧ HasNode cycle_graph "a" = true ∧
  DFS "" order_id cycle_graph 4 "a" None = ["a"; "b"; "c"] ∧
  NoDup (DFS "" order_id cycle_graph 4 "a" None).
Proof.
  assert (Order cycle_graph < 4) as Hlt by (vm_compute; lia).
  assert (HasNode cycle_graph "a" = true) as Hn by (vm_compute; reflexivity).
  destruct (DFS_reach "" order_id cycle_graph 4 "a" cycle_graph_wf Hlt Hn) as (Hnd & _).
  split_and!; [exact cycle_graph_wf|exact Hlt|exact Hn|vm_compute; reflexivity|exact Hnd].
Defined.

(** ** algo.go: TopologicalSort *)

Inductive TopoError := NotDirected | ContainsCycle.

Section Topo.
Context {N E : Type}.
Implicit Types g : Graph N E.

(** [inDeg[k]]: a missing key reads as 0.  The counts are Go ints; they stay
    between minus the number of nodes and the number of in-edges, far from
    the ends of the 64-bit range. *)
Definition inDeg_get (inDeg : gmap string Z) (k : string) : Z := default 0%Z (inDeg !! k).

(** The body of the loop over the neighbours of the node taken off the queue. *)
Definition topo_visit (acc : gmap string Z * list string) (nb : string)
  : gmap string Z * list string :=
  let '(inDeg, queue) := acc in
  let inDeg := <[nb := (inDeg_get inDeg nb - 1)%Z]> inDeg in
  if (inDeg_get inDeg nb =? 0)%Z then (inDeg, sort_Strings (queue ++ [nb]))
  else (inDeg, queue).

Fixpoint topo_loop (ord : MapOrder) g (fuel : nat) (inDeg : gmap string Z)
    (queue order : list string) : list string :=
  match fuel with
  | 0 => order
  | S fuel' =>
      match queue with
      | [] => order
      | id :: queue =>
          let order := order ++ [id] in
          let '(inDeg, queue) := foldl topo_visit (inDeg, queue) (Neighbors ord g id) in
          topo_loop ord g fuel' inDeg queue order
      end
  end.

Definition topo_inDeg (ord : MapOrder) g : gmap string Z :=
  foldl (λ inDeg n, <[Node.ID n := Z.of_nat (length (InEdges ord g (Node.ID n)))]> inDeg)
        ∅ (Nodes ord g).

Definition topo_queue (ord : MapOrder) (inDeg : gmap string Z) : list string :=
  sort_Strings (foldl (λ queue kv, if (kv.2 =? 0)%Z then queue ++ [kv.1] else queue)
                      [] (range ord inDeg)).

Definition TopologicalSort (ord : MapOrder) g (fuel : nat) : TopoError + list string :=
  if negb (Directed g) then inl NotDirected
  else
    let inDeg := topo_inDeg ord g in
    let queue := topo_queue ord inDeg in
    let order := topo_loop ord g fuel inDeg queue [] in
    if negb (length order =? Order g)%nat then inl ContainsCycle
    else inr order.

(** The sources of the edges into [k]. *)
Definition preds g (k : string) : gset string := dom (inner (in_ g) k).

Lemma preds_elem_of g a k : wf g → a ∈ preds g k ↔ edge g a k.
Proof.
  intros Hwf. unfold preds, edge. rewrite elem_of_dom, HasEdge_is_Some.
  by rewrite (wf_out_in g Hwf).
Qed.

Lemma InEdges_length ord g k : length (InEdges ord g k) = size (preds g k).
Proof.
  unfold InEdges, preds, range. rewrite length_fmap.
  rewrite (range_order_perm ord _ (map_to_list (inner (in_ g) k))), length_map_to_list.
  by rewrite size_dom.
Qed.

Lemma lookup_fold_insert {A} (f : A → string) (c : string → Z) (l : list A) :
  ∀ (m : gmap string Z) k,
  foldl (λ m n, <[f n := c (f n)]> m) m l !! k =
  if bool_decide (k ∈ f <$> l) then Some (c k) else m !! k.
Proof.
  induction l as [|n l IH]; intros m k; simpl; [done|].
  rewrite IH. destruct (decide (k ∈ f <$> l)) as [Hin|Hin].
  - rewrite !bool_decide_eq_true_2; [done|by right|done].
  - rewrite (bool_decide_eq_false_2 _ Hin). destruct (decide (k = f n)) as [-> |Hne].
    + rewrite lookup_insert_eq, bool_decide_eq_true_2; [done|by left].
    + rewrite lookup_insert_ne by done. rewrite bool_decide_eq_false_2; [done|].
      by intros [?|?]%elem_of_cons.
Qed.

Lemma topo_inDeg_lookup ord g k :
  wf g →
  topo_inDeg ord g !! k =
  if bool_decide (is_Some (nodes g !! k)) then Some (Z.of_nat (size (preds g k))) else None.
Proof.
  intros Hwf. unfold topo_inDeg.
  rewrite (lookup_fold_insert Node.ID (λ k, Z.of_nat (length (InEdges ord g k)))).
  rewrite lookup_empty, InEdges_length.
  apply (f_equal (λ b : bool, if b then Some (Z.of_nat (size (preds g k))) else None)).
  apply bool_decide_ext. rewrite list_elem_of_fmap. split.
  - intros (n & -> & Hn). apply (Nodes_elem_of ord g n Hwf) in Hn. unfold GetNode in Hn. eauto.
  - intros [n Hn]. exists n. pose proof (wf_node_id g Hwf k n Hn) as Hid. split; [done|].
    apply (Nodes_elem_of ord g n Hwf). unfold GetNode. by rewrite Hid.
Qed.

Lemma filter_queue_spec (l : list (string * Z)) : ∀ q,
  let q' := foldl (λ queue kv, if (kv.2 =? 0)%Z then queue ++ [kv.1] else queue) q l in
  (∀ k, k ∈ q' ↔ k ∈ q ∨ (k, 0%Z) ∈ l) ∧
  (NoDup q → NoDup l.*1 → (∀ k, k ∈ q → k ∉ l.*1) → NoDup q').
Proof.
  induction l as [|[k0 d] l IH]; intros q; simpl.
  { split; [intros k; rewrite elem_of_nil; tauto|done]. }
  destruct (IH (if (d =? 0)%Z then q ++ [k0] else q)) as [H1 H2]. split.
  - intros k. rewrite H1, elem_of_cons. destruct (Z.eqb_spec d 0) as [-> |Hd].
    + rewrite elem_of_app, list_elem_of_singleton. split; [|intros [?|[?|?]]; eauto].
      * intros [[?| ->]|?]; eauto.
      * inversion H; subst. eauto.
    + split; [intros [?|?]; eauto|]. intros [?|[Heq|?]]; eauto. inversion Heq; subst. done.
  - intros Hq Hl Hdisj. apply NoDup_cons in Hl as [Hk0 Hl]. apply H2; [|done|].
    + destruct (d =? 0)%Z; [|done]. apply NoDup_app. split_and!; [done| |apply NoDup_singleton].
      intros x Hx ->%list_elem_of_singleton. apply (Hdisj k0 Hx). by left.
    + intros k Hk Hkl. destruct (d =? 0)%Z.
      * apply elem_of_app in Hk as [Hk| ->%list_elem_of_singleton]; [|done].
        apply (Hdisj k Hk). by right.
      * apply (Hdisj k Hk). by right.
Qed.

Lemma topo_queue_spec ord (inDeg : gmap string Z) :
  NoDup (topo_queue ord inDeg) ∧
  ∀ k, k ∈ topo_queue ord inDeg ↔ inDeg !! k = Some 0%Z.
Proof.
  unfold topo_queue. destruct (filter_queue_spec (range ord inDeg) []) as [H1 H2].
  cbv zeta in H1, H2. split.
  - unfold sort_Strings. rewrite sort_Slice_perm. apply H2; [constructor| |].
    + apply range_keys_NoDup.
    + by intros k ?%elem_of_nil.
  - intros k. rewrite sort_Strings_elem_of, H1, elem_of_nil, range_elem_of. tauto.
Qed.

(** What holds each time the loop looks at the queue. *)
Record topo_inv g (inDeg : gmap string Z) (queue order : list string) : Prop := {
  ti_nodup : NoDup (order ++ queue);
  ti_count : ∀ k, inDeg !! k =
               if bool_decide (is_Some (nodes g !! k))
               then Some (Z.of_nat (size (preds g k ∖ list_to_set order)))
               else None;
  ti_queue : ∀ k, k ∈ queue ↔
               is_Some (nodes g !! k) ∧ (k ∉ order) ∧ preds g k ⊆ list_to_set order;
  ti_nodes : ∀ k, k ∈ order → is_Some (nodes g !! k);
  ti_before : ∀ j b, order !! j = Some b → ∀ a, a ∈ preds g b →
               ∃ i, i < j ∧ order !! i = Some a
}.

Lemma topo_visit_spec (l : list string) : ∀ inDeg q,
  NoDup l →
  ∃ inDeg' q',
    foldl topo_visit (inDeg, q) l = (inDeg', q') ∧
    (∀ k, inDeg' !! k = if bool_decide (k ∈ l) then Some (inDeg_get inDeg k - 1)%Z
                        else inDeg !! k) ∧
    (∀ k, k ∈ q' ↔ k ∈ q ∨ (k ∈ l ∧ inDeg_get inDeg k = 1%Z)) ∧
    (NoDup q → (∀ k, k ∈ l → inDeg_get inDeg k = 1%Z → k ∉ q) → NoDup q').
Proof.
  induction l as [|nb l IH]; intros inDeg q Hnd.
  { exists inDeg, q. split_and!; [done|done| |done].
    intros k. rewrite elem_of_nil. tauto. }
  apply NoDup_cons in Hnd as [Hnb Hnd]. simpl.
  set (inDeg1 := <[nb := (inDeg_get inDeg nb - 1)%Z]> inDeg).
  assert (inDeg_get inDeg1 nb = (inDeg_get inDeg nb - 1)%Z) as Hget.
  { unfold inDeg_get at 1, inDeg1. by rewrite lookup_insert_eq. }
  assert (∀ k, k ≠ nb → inDeg_get inDeg1 k = inDeg_get inDeg k) as Hother.
  { intros k Hk. unfold inDeg_get, inDeg1. by rewrite lookup_insert_ne. }
  rewrite Hget.
  set (q1 := if (inDeg_get inDeg nb - 1 =? 0)%Z then sort_Strings (q ++ [nb]) else q).
  assert ((if (inDeg_get inDeg nb - 1 =? 0)%Z
           then (inDeg1, sort_Strings (q ++ [nb])) else (inDeg1, q)) = (inDeg1, q1)) as ->.
  { unfold q1. by destruct (inDeg_get inDeg nb - 1 =? 0)%Z. }
  destruct (IH inDeg1 q1 Hnd) as (inDeg' & q' & -> & Hc & Hq & Hn).
  assert (∀ k, k ∈ q1 ↔ k ∈ q ∨ (k = nb ∧ inDeg_get inDeg nb = 1%Z)) as Hq1.
  { intros k. unfold q1. destruct (Z.eqb_spec (inDeg_get inDeg nb - 1) 0) as [H0|H0].
    - rewrite sort_Strings_elem_of, elem_of_app, list_elem_of_singleton.
      split; (intros [?|?]; [by left|right]); [split; [done|lia]|tauto].
    - split; [by left|]. intros [?|[_ ?]]; [done|lia]. }
  exists inDeg', q'. split_and!; [done| | |].
  - intros k. rewrite Hc. destruct (decide (k ∈ l)) as [Hk|Hk].
    + rewrite !bool_decide_eq_true_2; [|by right|done].
      rewrite Hother; [done|]. by intros ->.
    + rewrite (bool_decide_eq_false_2 _ Hk). destruct (decide (k = nb)) as [-> |Hne].
      * rewrite bool_decide_eq_true_2 by (by left). unfold inDeg1.
        by rewrite lookup_insert_eq.
      * rewrite bool_decide_eq_false_2 by (by intros [?|?]%elem_of_cons).
        unfold inDeg1. by rewrite lookup_insert_ne.
  - intros k. rewrite Hq, Hq1, elem_of_cons. split.
    + intros [[?|[-> ?]]|[Hk H1]]; [by left|right; split; [by left|done]|].
      right. split; [by right|]. rewrite <- Hother; [done|]. by intros ->.
    + intros [?|[[-> |Hk] H1]]; [by left; left|by left; right|].
      right. split; [done|]. rewrite Hother; [done|]. by intros ->.
  - intros Hqnd Hdisj. apply Hn.
    + unfold q1. destruct (Z.eqb_spec (inDeg_get inDeg nb - 1) 0) as [H0|H0]; [|done].
      unfold sort_Strings. rewrite sort_Slice_perm. apply NoDup_app.
      split_and!; [done| |apply NoDup_singleton].
      intros x Hx ->%list_elem_of_singleton. apply (Hdisj nb); [by left|lia|done].
    + intros k Hk H1 [Hkq|[-> _]]%Hq1; [|done].
      apply (Hdisj k); [by right| |done]. rewrite <- Hother; [done|]. by intros ->.
Qed.

Lemma size_remove (X V : gset string) x :
  x ∈ X → x ∉ V → size (X ∖ V) = S (size (X ∖ ({[x]} ∪ V))).
Proof. intros. symmetry. by apply size_unvisited_insert. Qed.

Lemma topo_step ord g inDeg id queue order :
  wf g → topo_inv g inDeg (id :: queue) order →
  ∃ inDeg' queue',
    foldl topo_visit (inDeg, queue) (Neighbors ord g id) = (inDeg', queue') ∧
    topo_inv g inDeg' queue' (order ++ [id]).
Proof.
  intros Hwf [Hnd Hcount Hqueue Hnodes Hbefore].
  assert (NoDup (Neighbors ord g id)) as Hnbs.
  { unfold Neighbors, sort_Strings. rewrite sort_Slice_perm. apply range_keys_NoDup. }
  destruct (topo_visit_spec (Neighbors ord g id) inDeg queue Hnbs)
    as (inDeg' & queue' & Heq & Hc & Hq & Hn).
  exists inDeg', queue'. split; [done|].
  destruct (proj1 (Hqueue id)) as (Hidn & Hido & Hidp); [by left|].
  assert (id ∉ preds g id) as Hself.
  { intros Hin. apply Hidp, elem_of_list_to_set in Hin. done. }
  assert (∀ k, is_Some (nodes g !! k) →
               inDeg_get inDeg k = Z.of_nat (size (preds g k ∖ list_to_set order))) as Hget.
  { intros k Hk. unfold inDeg_get. rewrite Hcount, bool_decide_eq_true_2 by done. done. }
  assert (list_to_set (order ++ [id]) = ({[id]} ∪ list_to_set order : gset string)) as Hset.
  { rewrite list_to_set_app_L. simpl. set_solver. }
  assert (∀ k, k ∈ order → preds g k ⊆ list_to_set order) as Hclosed.
  { intros k [j Hj]%list_elem_of_lookup a Ha.
    destruct (Hbefore j k Hj a Ha) as (i & _ & Hi).
    apply elem_of_list_to_set, list_elem_of_lookup. eauto. }
  assert (∀ k, k ∈ Neighbors ord g id ↔ id ∈ preds g k) as Hnb.
  { intros k. by rewrite Neighbors_elem_of, preds_elem_of. }
  assert (∀ k, id ∈ preds g k → is_Some (nodes g !! k)) as Hsucc.
  { intros k Hk%preds_elem_of; [|done].
    apply (edge_ends_nodes g id k Hwf) in Hk as [_ Hk]. by apply elem_of_dom in Hk. }
  assert (∀ k, id ∈ preds g k → k ∉ order) as Hfresh.
  { intros k Hk Hko. apply (Hclosed k Hko), elem_of_list_to_set in Hk. done. }
  split.
  - rewrite <- app_assoc. simpl. apply NoDup_app in Hnd as (Ho & Hoq & Hq').
    apply NoDup_cons in Hq' as [Hidq Hq'].
    assert (NoDup queue') as Hq'nd.
    { apply Hn; [done|]. intros k Hk H1 Hkq. apply Hnb in Hk.
      destruct (proj1 (Hqueue k)) as (_ & _ & Hsub); [by right|].
      apply Hsub, elem_of_list_to_set in Hk. done. }
    apply NoDup_app. split_and!; [done| |].
    + intros x Hx [->|Hxq]%elem_of_cons; [done|].
      apply Hq in Hxq as [Hxq|[Hxn _]]; [apply (Hoq x Hx); by right|].
      apply Hnb in Hxn. by apply (Hfresh x).
    + apply NoDup_cons. split; [|done]. intros [Hin|[Hin _]]%Hq; [done|].
      by apply Hnb in Hin.
  - intros k. rewrite Hc. destruct (decide (is_Some (nodes g !! k))) as [Hk|Hk].
    + rewrite (bool_decide_eq_true_2 _ Hk), Hset.
      destruct (decide (k ∈ Neighbors ord g id)) as [Hin|Hin].
      * rewrite (bool_decide_eq_true_2 _ Hin). apply Hnb in Hin.
        rewrite (Hget k Hk).
        rewrite (size_remove (preds g k) (list_to_set order) id Hin)
          by (rewrite elem_of_list_to_set; done).
        f_equal. lia.
      * rewrite (bool_decide_eq_false_2 _ Hin), Hcount, (bool_decide_eq_true_2 _ Hk).
        rewrite Hnb in Hin. do 3 f_equal. set_solver.
    + rewrite (bool_decide_eq_false_2 _ Hk).
      rewrite bool_decide_eq_false_2; [|intros Hin; apply Hk, Hsucc; by apply Hnb].
      by rewrite Hcount, (bool_decide_eq_false_2 _ Hk).
  - intros k. rewrite Hq, Hset, elem_of_app, list_elem_of_singleton. split.
    + intros [Hkq|[Hkn H1]].
      * destruct (proj1 (Hqueue k)) as (Hkn & Hko & Hkp); [by right|].
        split_and!; [done| |set_solver]. intros [?| ->]; [done|].
        apply NoDup_app in Hnd as (_ & _ & Hq'). by apply NoDup_cons in Hq' as [? _].
      * apply Hnb in Hkn. pose proof (Hsucc k Hkn) as Hnode.
        rewrite (Hget k Hnode) in H1.
        rewrite (size_remove (preds g k) (list_to_set order) id Hkn) in H1
          by (rewrite elem_of_list_to_set; done).
        assert (size (preds g k ∖ ({[id]} ∪ list_to_set order)) = 0) as H0 by lia.
        apply size_empty_inv in H0. split_and!; [done| |].
        -- intros [?| ->]; [by apply (Hfresh k)|done].
        -- intros a Ha. destruct (decide (a ∈ ({[id]} ∪ list_to_set order : gset string)));
             [done|]. exfalso. apply (not_elem_of_empty (C:=gset string) a).
           rewrite <- (leibniz_equiv _ _ H0). set_solver.
    + intros (Hkn & Hko & Hkp).
      destruct (decide (id ∈ preds g k)) as [Hin|Hin].
      * right. split; [by apply Hnb|]. rewrite (Hget k Hkn).
        rewrite (size_remove (preds g k) (list_to_set order) id Hin)
          by (rewrite elem_of_list_to_set; done).
        assert (preds g k ∖ ({[id]} ∪ list_to_set order) = ∅) as -> by set_solver.
        by rewrite size_empty.
      * left. assert (k ∈ id :: queue) as [->|?]%elem_of_cons; [|by destruct Hko; right|done].
        apply Hqueue. split_and!; [done|by intros ?; apply Hko; left|set_solver].
  - intros k [Hk| ->%list_elem_of_singleton]%elem_of_app; [by apply Hnodes|done].
  - intros j b Hj a Ha. destruct (decide (j < length order)) as [Hlt|Hge].
    + rewrite lookup_app_l in Hj by done.
      destruct (Hbefore j b Hj a Ha) as (i & Hi & Hia).
      exists i. split; [done|]. rewrite lookup_app_l; [done|lia].
    + rewrite lookup_app_r in Hj by lia.
      apply list_lookup_singleton_Some in Hj as [Hj0 ->].
      apply Hidp, elem_of_list_to_set, list_elem_of_lookup in Ha as [i Hi].
      exists i. pose proof (lookup_lt_Some _ _ _ Hi). split; [lia|].
      by rewrite lookup_app_l.
Qed.

Lemma topo_loop_spec ord g fuel : ∀ inDeg queue order,
  wf g → topo_inv g inDeg queue order →
  Order g < fuel + length order →
  ∃ inDeg', topo_inv g inDeg' [] (topo_loop ord g fuel inDeg queue order).
Proof.
  induction fuel as [|fuel IH]; intros inDeg queue order Hwf Hinv Hfuel.
  { exfalso. assert (length order ≤ size (dom (nodes g)))%nat as Hle.
    { apply NoDup_length_bound.
      - destruct Hinv as [Hnd _ _ _ _]. by apply NoDup_app in Hnd as (? & _ & _).
      - intros x Hx. by apply elem_of_dom, (ti_nodes _ _ _ _ Hinv). }
    rewrite size_dom in Hle. unfold Order in Hfuel. simpl in Hfuel. lia. }
  destruct queue as [|id queue]; simpl; [by exists inDeg|].
  destruct (topo_step ord g inDeg id queue order Hwf Hinv) as (inDeg' & queue' & -> & Hinv').
  apply (IH inDeg' queue' (order ++ [id]) Hwf Hinv').
  rewrite length_app. simpl. lia.
Qed.

Lemma topo_inv_start ord g :
  wf g → topo_inv g (topo_inDeg ord g) (topo_queue ord (topo_inDeg ord g)) [].
Proof.
  intros Hwf. destruct (topo_queue_spec ord (topo_inDeg ord g)) as [Hnd Hq].
  assert (∀ k : string, preds g k ∖ list_to_set [] = preds g k) as Hnil.
  { intros k. simpl. set_solver. }
  split.
  - done.
  - intros k. by rewrite (topo_inDeg_lookup ord g k Hwf), Hnil.
  - intros k. rewrite Hq, (topo_inDeg_lookup ord g k Hwf).
    destruct (decide (is_Some (nodes g !! k))) as [Hk|Hk].
    + rewrite (bool_decide_eq_true_2 _ Hk). split.
      * intros H0. assert (size (preds g k) = 0) as Hs by (inversion H0; lia).
        apply size_empty_inv in Hs. split_and!; [done|by intros ?%elem_of_nil|].
        intros a Ha. exfalso. apply (not_elem_of_empty (C:=gset string) a).
        by rewrite <- (leibniz_equiv _ _ Hs).
      * intros (_ & _ & Hsub). assert (preds g k = ∅) as -> by (simpl in Hsub; set_solver).
        by rewrite size_empty.
    + rewrite (bool_decide_eq_false_2 _ Hk). split; [done|]. by intros (? & _).
  - by intros k ?%elem_of_nil.
  - intros j b Hj. by rewrite lookup_nil in Hj.
Qed.

(** [a] comes before [b] in [l]. *)
Definition before (l : list string) (a b : string) : Prop :=
  ∃ i j, i < j ∧ l !! i = Some a ∧ l !! j = Some b.

Lemma before_trans l a b c : NoDup l → before l a b → before l b c → before l a c.
Proof.
  intros Hnd (i & j & Hij & Hi & Hj) (j' & k & Hjk & Hj' & Hk).
  assert (j = j') as <- by (by eapply NoDup_lookup).
  exists i, k. split_and!; [lia|done|done].
Qed.

Lemma before_irrefl l a : NoDup l → ¬ before l a a.
Proof.
  intros Hnd (i & j & Hij & Hi & Hj). assert (i = j) by (by eapply NoDup_lookup). lia.
Qed.

(** Whether a path of one or more edges leads from [a] to [b] can be computed. *)
Lemma path_dec (ord : MapOrder) g a b : wf g → Decision (tc (edge g) a b).
Proof.
  intros Hwf.
  destruct (decide (b ∈ Descendants_walk ord g (S (Order g)) a ∅)) as [H|H].
  - left. apply (Descendants_walk_reach ord g (S (Order g)) a b Hwf); [lia|done].
  - right. intros Hp. apply H.
    apply (Descendants_walk_reach ord g (S (Order g)) a b Hwf); [lia|done].
Defined.

(** In a non-empty set of nodes each of which has an edge from a node of the
    set, some node lies on a cycle. *)
Lemma cycle_exists (ord : MapOrder) g (X : gset string) :
  wf g → X ≠ ∅ → (∀ k, k ∈ X → ∃ a, a ∈ X ∧ edge g a k) → ∃ x, tc (edge g) x x.
Proof.
  intros Hwf Hne Hpred.
  pose proof (λ x y, path_dec ord g x y Hwf) as Hdec.
  destruct (minimal_exists_elem_of_L (tc (edge g)) X Hne) as (x & Hx & Hmin).
  destruct (Hpred x Hx) as (a & Ha & Hax).
  exists x. eapply tc_r; [|exact Hax]. apply (Hmin a Ha). by apply tc_once.
Qed.

(** X19. [TopologicalSort] refuses an undirected graph.  On a directed graph,
    with more fuel than the graph has nodes, it returns an order exactly
    when the graph has no cycle: the order then lists every node once and
    puts the source of every edge before its target; otherwise it reports a
    cycle, and some node does lie on one. *)
Theorem TopologicalSort_result ord g fuel :
  wf g → Order g < fuel →
  match TopologicalSort ord g fuel with
  | inl NotDirected => Directed g = false
  | inl ContainsCycle => Directed g = true ∧ ∃ x, tc (edge g) x x
  | inr order =>
      Directed g = true ∧ NoDup order ∧
      (∀ x, x ∈ order ↔ HasNode g x = true) ∧
      (∀ a b, edge g a b → before order a b) ∧
      (∀ x, ¬ tc (edge g) x x)
  end.
Proof.
  intros Hwf Hfuel. unfold TopologicalSort.
  destruct (Directed g) eqn:Hd; simpl negb; cbv iota zeta; [|done].
  destruct (topo_loop_spec ord g fuel (topo_inDeg ord g)
              (topo_queue ord (topo_inDeg ord g)) [] Hwf (topo_inv_start ord g Hwf))
    as (inDeg' & Hinv); [simpl; lia|].
  set (order := topo_loop ord g fuel (topo_inDeg ord g)
                  (topo_queue ord (topo_inDeg ord g)) []) in *.
  destruct Hinv as [Hnd Hcount Hqueue Hnodes Hbefore]. rewrite app_nil_r in Hnd.
  assert (list_to_set order ⊆ dom (nodes g)) as Hsub.
  { intros x Hx%elem_of_list_to_set. by apply elem_of_dom, Hnodes. }
  destruct (Nat.eqb_spec (length order) (Order g)) as [Hlen|Hlen]; simpl negb; cbv iota.
  - assert (list_to_set order = dom (nodes g)) as Hall.
    { apply set_subseteq_size_eq; [done|].
      rewrite size_dom, size_list_to_set by done. unfold Order in Hlen. lia. }
    assert (∀ a b, edge g a b → before order a b) as Hedges.
    { intros a b Hab.
      assert (b ∈ order) as [j Hj]%list_elem_of_lookup.
      { apply (elem_of_list_to_set (C:=gset string)). rewrite Hall.
        by apply (edge_ends_nodes g a b). }
      destruct (Hbefore j b Hj a) as (i & Hi & Hia); [by apply preds_elem_of|].
      by exists i, j. }
    split_and!; [done|done| |done|].
    + intros x. rewrite HasNode_true, <- elem_of_dom, <- Hall. by rewrite elem_of_list_to_set.
    + intros x Hx. apply (before_irrefl order x Hnd).
      assert (∀ a b, tc (edge g) a b → before order a b) as Hpath.
      { induction 1 as [a b Hab|a b c Hab _ IH]; [by apply Hedges|].
        eapply before_trans; [done|by apply Hedges|done]. }
      by apply Hpath.
  - split; [done|].
    apply (cycle_exists ord g (dom (nodes g) ∖ list_to_set order) Hwf).
    + intros Hempty. apply Hlen.
      assert (list_to_set order = dom (nodes g)) as Hall.
      { apply set_eq. intros x. split; [apply Hsub|]. intros Hx.
        destruct (decide (x ∈ (list_to_set order : gset string))); [done|].
        exfalso. apply (not_elem_of_empty (C:=gset string) x). rewrite <- Hempty.
        set_solver. }
      unfold Order. by rewrite <- (size_list_to_set (C:=gset string) order Hnd), Hall, size_dom.
    + intros k [Hk Hko]%elem_of_difference. apply elem_of_dom in Hk.
      rewrite elem_of_list_to_set in Hko.
      destruct (set_choose_or_empty (preds g k ∖ list_to_set order)) as [[a Ha]|Hemp].
      * apply elem_of_difference in Ha as [Ha Hao]. apply (preds_elem_of g a k Hwf) in Ha.
        exists a. split; [|done]. apply elem_of_difference. split; [|done].
        by apply (edge_ends_nodes g a k).
      * exfalso. apply (elem_of_nil k). apply Hqueue. split_and!; [done|done|].
        intros a Ha. destruct (decide (a ∈ (list_to_set order : gset string))); [done|].
        exfalso. apply (not_elem_of_empty (C:=gset string) a). rewrite <- Hemp. set_solver.
Qed.

End Topo.

Lemma TopologicalSort_result_witness :
  wf cycle_graph ∧ Order cycle_graph < 4 ∧
  TopologicalSort order_id cycle_graph 4 = inl ContainsCycle ∧
  ∃ x, tc (edge cycle_graph) x x.
Proof.
  assert (Order cycle_graph < 4) as Hlt by (vm_compute; lia).
  assert (TopologicalSort order_id cycle_graph 4 = inl ContainsCycle) as Heq
    by (vm_compute; reflexivity).
  pose proof (TopologicalSort_result order_id cycle_graph 4 cycle_graph_wf Hlt) as H.
  rewrite Heq in H. destruct H as [_ H].
  split_and!; [exact cycle_graph_wf|exact Hlt|exact Heq|exact H].
Defined.

(** ** algo.go: Subgraph *)

Section SubgraphInduced.
Context {N E : Type}.
Implicit Types g sub : Graph N E.

Lemma Subgraph_nodeMeta_lookup g ids : ∀ sub x,
  nodeMeta (Subgraph_nodeMeta g ids sub) !! x =
  if bool_decide (x ∈ ids)
  then match nodeMeta g !! x with
       | Some s => Some (StoreOps.Copy s)
       | None => nodeMeta sub !! x
       end
  else nodeMeta sub !! x.
Proof.
  induction ids as [|id ids IH]; intros sub x; [done|].
  change (Subgraph_nodeMeta g (id :: ids) sub) with
    (Subgraph_nodeMeta g ids
       (match nodeMeta g !! id with
        | Some store => set_nodeMeta sub (<[id := StoreOps.Copy store]> (nodeMeta sub))
        | None => sub
        end)).
  rewrite IH. destruct (decide (x ∈ ids)) as [Hx|Hx].
  - rewrite !bool_decide_eq_true_2; [|by right|done].
    destruct (nodeMeta g !! x) as [s|] eqn:Hs; [done|].
    destruct (nodeMeta g !! id) as [s'|] eqn:Hs'; [|done]. simpl.
    rewrite lookup_insert_ne; [done|]. intros ->. congruence.
  - rewrite (bool_decide_eq_false_2 _ Hx). destruct (decide (x = id)) as [->|Hne].
    + rewrite bool_decide_eq_true_2 by (by left).
      destruct (nodeMeta g !! id) as [s'|] eqn:Hs'; [|done]. simpl.
      by rewrite lookup_insert_eq.
    + rewrite bool_decide_eq_false_2 by (by intros [?|?]%elem_of_cons).
      destruct (nodeMeta g !! id) as [s'|] eqn:Hs'; [|done]. simpl.
      by rewrite lookup_insert_ne.
Qed.

(** X20. [Subgraph] of a graph that keeps the invariant is the part of the
    graph on the listed IDs: it has the direction of the graph, the nodes of
    the graph that are listed, the edges of the graph between two listed
    nodes, a copy of the store of every listed ID that has one, and a copy
    of the edge store of every edge it has. *)
Theorem Subgraph_induced ord g ids :
  wf g →
  let sub := Subgraph ord g ids in
  wf sub ∧ Directed sub = Directed g ∧
  (∀ x, GetNode sub x = if bool_decide (x ∈ ids) then GetNode g x else None) ∧
  (∀ a b, GetEdge sub a b =
          if bool_decide (a ∈ ids ∧ b ∈ ids) then GetEdge g a b else None) ∧
  (∀ x, nodeMeta sub !! x =
        if bool_decide (x ∈ ids) then StoreOps.Copy <$> nodeMeta g !! x else None) ∧
  (∀ a b, inner (edgeMeta sub) a !! b =
          if HasEdge sub a b then StoreOps.Copy <$> inner (edgeMeta g) a !! b else None).
Proof.
  intros Hwf sub. unfold sub. rewrite Subgraph_stages.
  destruct (Subgraph_nodes_spec g ids (NewGraph (Directed g)) Hwf (wf_NewGraph _))
    as (Hw & Hd & Hnm & Hem & Hout & Hnodes).
  set (base := Subgraph_nodes g ids (NewGraph (Directed g))) in *.
  assert (∀ x, nodes base !! x = if bool_decide (x ∈ ids) then nodes g !! x else None)
    as Hbase.
  { intros x. rewrite Hnodes. simpl. rewrite lookup_empty.
    case_bool_decide; [|done]. by destruct (nodes g !! x). }
  assert (sub_sound g ids base base) as Hss0.
  { split; try done. intros a b e. rewrite Hout. unfold inner. simpl.
    rewrite lookup_empty. simpl. by rewrite lookup_empty. }
  destruct (Subgraph_edges_spec ord g ids base ids base Hwf Hbase Hss0)
    as (Hss & _ & Hcomplete); [done|].
  set (sub2 := Subgraph_edges ord g (list_to_set ids) ids base) in *.
  destruct Hss as [Hw2 Hd2 Hn2 Hnm2 Hem2 Hout2].
  destruct (Subgraph_nodeMeta_shape g ids sub2) as [nm Hshape].
  pose proof (Subgraph_nodeMeta_lookup g ids sub2) as Hnml.
  rewrite Hshape in Hnml |- *. cbn [nodeMeta set_nodeMeta] in Hnml.
  rewrite Subgraph_edgeMeta_as_fold.
  cbn [edgeMeta set_nodeMeta set_edgeMeta nodeMeta nodes out Directed].
  assert (∀ a b, GetEdge sub2 a b =
                 if bool_decide (a ∈ ids ∧ b ∈ ids) then GetEdge g a b else None) as Hedges.
  { intros a b. rewrite !GetEdge_inner.
    destruct (inner (out sub2) a !! b) as [e|] eqn:He.
    - destruct (Hout2 a b e He) as (Hg & Ha & Hb).
      by rewrite bool_decide_eq_true_2.
    - case_bool_decide as Hab; [|done]. destruct Hab as [Ha Hb].
      destruct (inner (out g) a !! b) as [e|] eqn:Hg; [|done].
      destruct (Hcomplete a b e Ha Hb Hg) as [e' He']. congruence. }
  split_and!.
  - destruct Hw2 as [W1 W2 W3 W4 W5 W6]. by split.
  - done.
  - intros x. unfold GetNode. cbn [nodes set_edgeMeta set_nodeMeta].
    by rewrite Hn2, Hbase.
  - intros a b. apply Hedges.
  - intros x. rewrite Hnml, Hnm2, Hnm. simpl. rewrite lookup_empty.
    case_bool_decide; [|done]. by destruct (nodeMeta g !! x).
  - intros a b.
    change (HasEdge (set_edgeMeta (set_nodeMeta sub2 nm) _) a b) with (HasEdge sub2 a b).
    rewrite Hem2, Hem. simpl.
    assert (∀ a b s s', (a, b, s) ∈ nested_entries ord (edgeMeta g) →
              (a, b, s') ∈ nested_entries ord (edgeMeta g) → s = s') as Hfun.
    { intros a' b' s s' H1 H2. apply nested_entries_elem_of in H1, H2. congruence. }
    destruct (edgeMeta_fold_spec (edge_included (list_to_set ids) (set_nodeMeta sub2 nm))
                _ Hfun) as [A _].
    cbv zeta in A. apply option_eq. intros s. rewrite A.
    unfold edge_included.
    change (HasEdge (set_nodeMeta sub2 nm) a b) with (HasEdge sub2 a b).
    destruct (HasEdge sub2 a b) eqn:Hhas.
    + assert (a ∈ ids ∧ b ∈ ids) as [Ha Hb].
      { apply HasEdge_is_Some in Hhas as [e He]. by destruct (Hout2 a b e He) as (_ & ? & ?). }
      rewrite !bool_decide_eq_true_2 by (by apply elem_of_list_to_set).
      rewrite fmap_Some. setoid_rewrite nested_entries_elem_of. naive_solver.
    + rewrite andb_false_r. naive_solver.
Qed.

End SubgraphInduced.

Lemma Subgraph_induced_witness :
  wf sample_graph ∧
  GetNode (Subgraph order_id sample_graph ["a"]) "b" = None ∧
  GetEdge (Subgraph order_id sample_graph ["a"]) "a" "b" = None.
Proof.
  destruct (Subgraph_induced order_id sample_graph ["a"] sample_graph_wf)
    as (_ & _ & Hn & He & _).
  split_and!; [exact sample_graph_wf|rewrite Hn; reflexivity|rewrite He; reflexivity].
Defined.

(** ** serialize.go: what Unmarshal builds from a decoded snapshot *)

Section UnmarshalResult.
Context {N E : Type}.
Implicit Types g : Graph N E.

Lemma add_nodes_HasNode (l : list (Snap.NodeData N)) : ∀ g x,
  HasNode (add_nodes g l) x = true ↔ HasNode g x = true ∨ x ∈ Snap.ID <$> l.
Proof.
  induction l as [|n l IH]; intros g x.
  - simpl. rewrite elem_of_nil. tauto.
  - rewrite add_nodes_cons, IH, fmap_cons, elem_of_cons, !HasNode_true. simpl.
    destruct (decide (x = Snap.ID n)) as [->|Hne].
    + rewrite lookup_insert_eq. split; [by right; left|]. intros _. left. eauto.
    + rewrite lookup_insert_ne by done. tauto.
Qed.

Lemma AddEdge_error g from to (d : E) w :
  (AddEdge g from to d w).2 =
  if negb (HasNode g from) then Some (NodeNotFound from)
  else if negb (HasNode g to) then Some (NodeNotFound to) else None.
Proof.
  unfold AddEdge. destruct (negb (HasNode g from)); [done|].
  destruct (negb (HasNode g to)); [done|]. by destruct (negb (Directed g)).
Qed.

Lemma add_edges_result (l : list (Snap.EdgeData E)) : ∀ g,
  match add_edges g l with
  | inl g' =>
      g' = add_edges_pure g l ∧
      ∀ e, e ∈ l → HasNode g (Snap.From e) = true ∧ HasNode g (Snap.To e) = true
  | inr (BadEdge from to (NodeNotFound id)) =>
      ∃ l1 e l2, l = (l1 ++ e :: l2)%list ∧
        (∀ x, x ∈ l1 → HasNode g (Snap.From x) = true ∧ HasNode g (Snap.To x) = true) ∧
        Snap.From e = from ∧ Snap.To e = to ∧ HasNode g id = false ∧
        (id = from ∨ HasNode g from = true ∧ id = to)
  | inr _ => False
  end.
Proof.
  induction l as [|e l IH]; intros g.
  { simpl. split; [done|]. by intros e ?%elem_of_nil. }
  rewrite add_edges_pure_cons. simpl.
  pose proof (AddEdge_error g (Snap.From e) (Snap.To e) (Snap.EData e) (Snap.Weight e))
    as Herr.
  destruct (AddEdge_frame g (Snap.From e) (Snap.To e) (Snap.EData e) (Snap.Weight e))
    as (_ & Hn & _ & _).
  destruct (AddEdge g (Snap.From e) (Snap.To e) (Snap.EData e) (Snap.Weight e))
    as [g1 err]. simpl in Herr, Hn |- *. subst err.
  destruct (HasNode g (Snap.From e)) eqn:Hf; simpl.
  2:{ exists [], e, l. split_and!; [done|by intros x ?%elem_of_nil|done|done|done|by left]. }
  destruct (HasNode g (Snap.To e)) eqn:Ht; simpl.
  2:{ exists [], e, l. split_and!; [done|by intros x ?%elem_of_nil|done|done|done|by right]. }
  assert (∀ x, HasNode g1 x = HasNode g x) as Hsame.
  { intros x. by apply HasNode_nodes. }
  specialize (IH g1).
  destruct (add_edges g1 l) as [g2|[|v|from to [id]]]; [|done|done|].
  - destruct IH as [-> IH]. split; [done|].
    intros x [->|Hx]%elem_of_cons; [done|]. rewrite <- !Hsame. by apply IH.
  - destruct IH as (l1 & x & l2 & -> & Hl1 & Hxf & Hxt & Hid & Hor).
    exists (e :: l1), x, l2.
    rewrite Hsame in Hid. rewrite Hsame in Hor.
    split_and!; [done| |done|done|done|done].
    intros y [->|Hy]%elem_of_cons; [done|]. rewrite <- !Hsame. by apply Hl1.
Qed.

Lemma add_edges_pure_mono (l : list (Snap.EdgeData E)) a b : ∀ g,
  (∀ e, e ∈ l → HasNode g (Snap.From e) = true ∧ HasNode g (Snap.To e) = true) →
  is_Some (inner (out g) a !! b) → is_Some (inner (out (add_edges_pure g l)) a !! b).
Proof.
  induction l as [|e l IH]; intros g Hall Hab; [done|]. rewrite add_edges_pure_cons.
  destruct (Hall e) as [Hf Ht]; [by left|].
  destruct (AddEdge_frame g (Snap.From e) (Snap.To e) (Snap.EData e) (Snap.Weight e))
    as (_ & Hn & _ & _).
  apply IH.
  - intros e' He'. rewrite !(HasNode_nodes _ g _ Hn). apply Hall. by right.
  - rewrite AddEdge_out by done. repeat case_decide; eauto.
Qed.

Lemma add_edges_pure_has (l : list (Snap.EdgeData E)) e : ∀ g,
  (∀ e, e ∈ l → HasNode g (Snap.From e) = true ∧ HasNode g (Snap.To e) = true) →
  e ∈ l → is_Some (inner (out (add_edges_pure g l)) (Snap.From e) !! Snap.To e).
Proof.
  induction l as [|x l IH]; intros g Hall He; [by apply elem_of_nil in He|].
  rewrite add_edges_pure_cons.
  destruct (Hall x) as [Hf Ht]; [by left|].
  destruct (AddEdge_frame g (Snap.From x) (Snap.To x) (Snap.EData x) (Snap.Weight x))
    as (_ & Hn & _ & _).
  assert (∀ e', e' ∈ l →
            HasNode (AddEdge g (Snap.From x) (Snap.To x) (Snap.EData x) (Snap.Weight x)).1
                    (Snap.From e') = true ∧
            HasNode (AddEdge g (Snap.From x) (Snap.To x) (Snap.EData x) (Snap.Weight x)).1
                    (Snap.To e') = true) as Hall'.
  { intros e' He'. rewrite !(HasNode_nodes _ g _ Hn). apply Hall. by right. }
  apply elem_of_cons in He as [->|He]; [|by apply IH].
  apply add_edges_pure_mono; [done|].
  rewrite AddEdge_out by done. repeat case_decide; eauto. naive_solver.
Qed.

Lemma apply_metadata_frame g md :
  Directed (apply_metadata g md) = Directed g ∧ nodes (apply_metadata g md) = nodes g ∧
  out (apply_metadata g md) = out g ∧ in_ (apply_metadata g md) = in_ g.
Proof.
  unfold apply_metadata.
  destruct (apply_edges_meta_frame (Snap.md_Edges md)
              (foldl apply_node_meta g (Snap.md_Nodes md))) as (E1 & E2 & E3 & E4 & _).
  destruct (apply_nodes_meta_frame (Snap.md_Nodes md) g) as (N1 & N2 & N3 & N4 & _).
  unfold apply_edges_meta, apply_nodes_meta in *.
  rewrite E1, E2, E3, E4. done.
Qed.

Lemma wf_same_topology g g' :
  Directed g' = Directed g → nodes g' = nodes g → out g' = out g → in_ g' = in_ g →
  wf g → wf g'.
Proof.
  intros Hd Hn Ho Hi [W1 W2 W3 W4 W5 W6].
  split; rewrite ?Hd, ?Hn, ?Ho, ?Hi; assumption.
Qed.

(** The keys the snapshot lists nodes under, and its edges. *)
Definition snap_ids (snap : Snap.Snapshot N E) : list string :=
  match Snap.Graph snap with
  | Some gd => Snap.ID <$> Snap.Nodes gd
  | None => []
  end.

Definition snap_edges (snap : Snap.Snapshot N E) : list (Snap.EdgeData E) :=
  match Snap.Graph snap with
  | Some gd => Snap.Edges gd
  | None => []
  end.

(** X21. What [Unmarshal] makes of a decoded snapshot.  A version other than
    1 is refused.  Otherwise the first edge with an endpoint that is not
    among the listed nodes is reported: every edge listed before it has both
    ends among the nodes, and the node named in the error is its source when
    that is missing and its target otherwise.  When no edge fails the graph keeps
    the invariant, has the direction of the snapshot, has exactly the listed
    nodes, has every listed edge, and has no edge that is not listed (in
    either direction when undirected). *)
Theorem graph_of_snapshot_result (snap : Snap.Snapshot N E) :
  match graph_of_snapshot snap with
  | inr BadJSON => False
  | inr (UnsupportedVersion v) => v = Snap.Version snap ∧ v ≠ 1%Z
  | inr (BadEdge from to (NodeNotFound id)) =>
      Snap.Version snap = 1%Z ∧ (id ∉ snap_ids snap) ∧
      ∃ before e after, snap_edges snap = (before ++ e :: after)%list ∧
        (∀ x, x ∈ before → Snap.From x ∈ snap_ids snap ∧ Snap.To x ∈ snap_ids snap) ∧
        Snap.From e = from ∧ Snap.To e = to ∧
        (id = from ∨ from ∈ snap_ids snap ∧ id = to)
  | inl g =>
      Snap.Version snap = 1%Z ∧ wf g ∧ Directed g = Snap.Directed snap ∧
      (∀ x, HasNode g x = true ↔ x ∈ snap_ids snap) ∧
      (∀ e, e ∈ snap_edges snap → HasEdge g (Snap.From e) (Snap.To e) = true) ∧
      (∀ a b, HasEdge g a b = true →
              ∃ e, e ∈ snap_edges snap ∧ touches (Snap.Directed snap) e a b)
  end.
Proof.
  unfold graph_of_snapshot, snap_ids, snap_edges.
  destruct (Z.eqb_spec (Snap.Version snap) 1) as [Hv|Hv]; simpl negb; cbv iota; [|done].
  cbv zeta.
  assert (∀ g0 : Graph N E,
            wf g0 → Directed g0 = Snap.Directed snap →
            ∀ (ids : list string) (edges : list (Snap.EdgeData E)),
            (∀ x, HasNode g0 x = true ↔ x ∈ ids) →
            (∀ e, e ∈ edges → HasEdge g0 (Snap.From e) (Snap.To e) = true) →
            (∀ a b, HasEdge g0 a b = true →
                    ∃ e, e ∈ edges ∧ touches (Snap.Directed snap) e a b) →
            ∃ g, (match Snap.Meta snap with
                  | Some md => inl (apply_metadata g0 md)
                  | None => inl g0
                  end : Graph N E + UnmarshalError) = inl g ∧
                Snap.Version snap = 1%Z ∧ wf g ∧ Directed g = Snap.Directed snap ∧
                (∀ x, HasNode g x = true ↔ x ∈ ids) ∧
                (∀ e, e ∈ edges → HasEdge g (Snap.From e) (Snap.To e) = true) ∧
                (∀ a b, HasEdge g a b = true →
                        ∃ e, e ∈ edges ∧ touches (Snap.Directed snap) e a b)) as Hmeta.
  { intros g0 Hwf Hd ids edges Hn He Hinv.
    destruct (Snap.Meta snap) as [md|]; [|by exists g0].
    destruct (apply_metadata_frame g0 md) as (F1 & F2 & F3 & F4).
    exists (apply_metadata g0 md).
    split_and!; [done|done|by apply (wf_same_topology g0)|by rewrite F1| | |].
    - intros x. rewrite <- Hn. unfold HasNode. by rewrite F2.
    - intros e Hin. rewrite <- (He e Hin). unfold HasEdge. by rewrite F3.
    - intros a b. unfold HasEdge. rewrite F3. apply Hinv. }
  destruct (Snap.Graph snap) as [gd|].
  2:{ destruct (Hmeta (NewGraph (Snap.Directed snap)) (wf_NewGraph _) eq_refl [] [])
        as (g & -> & Hg); [| | |exact Hg].
      - intros x. rewrite HasNode_true. simpl. rewrite lookup_empty, elem_of_nil.
        split; [by intros [? ?]|done].
      - by intros ? ?%elem_of_nil.
      - intros a b [e He]%HasEdge_is_Some. simpl in He.
        by rewrite inner_empty, lookup_empty in He. }
  change (foldl (λ g n, AddNode g (Snap.ID n) (Snap.Data n)) (NewGraph (Snap.Directed snap))
                (Snap.Nodes gd))
    with (add_nodes (NewGraph (Snap.Directed snap) : Graph N E) (Snap.Nodes gd)).
  set (g1 := add_nodes (NewGraph (Snap.Directed snap) : Graph N E) (Snap.Nodes gd)).
  assert (∀ x, HasNode g1 x = true ↔ x ∈ Snap.ID <$> Snap.Nodes gd) as Hnodes.
  { intros x. unfold g1. rewrite add_nodes_HasNode. split; [|by right].
    intros [H|H]; [|done]. apply HasNode_true in H. simpl in H.
    rewrite lookup_empty in H. by destruct H. }
  assert (wf g1) as Hwf1 by apply add_nodes_wf, wf_NewGraph.
  destruct (add_nodes_frame (Snap.Nodes gd) (NewGraph (Snap.Directed snap) : Graph N E))
    as (Hd1 & _ & _ & Hout1). fold g1 in Hd1, Hout1.
  pose proof (add_edges_result (Snap.Edges gd) g1) as Hres.
  destruct (add_edges g1 (Snap.Edges gd)) as [g2|[|v|from to [id]]]; [|done|done|].
  - destruct Hres as [-> Hall].
    destruct (add_edges_pure_frame (Snap.Edges gd) g1) as (Hd2 & Hn2 & _ & _).
    destruct (Hmeta (add_edges_pure g1 (Snap.Edges gd))) with
      (ids := Snap.ID <$> Snap.Nodes gd) (edges := Snap.Edges gd)
      as (g & -> & Hg); [| | | | |exact Hg].
    + by apply add_edges_pure_wf.
    + by rewrite Hd2, Hd1.
    + intros x. rewrite <- Hnodes. by apply eq_iff_eq_true, HasNode_nodes.
    + intros e He. apply HasEdge_is_Some. by apply add_edges_pure_has.
    + intros a b [x Hx]%HasEdge_is_Some.
      apply add_edges_pure_inv in Hx; [|done].
      destruct Hx as [Hx|[(e & He & _ & Hk)|(Hdir & e & He & _ & Hk)]].
      * rewrite Hout1 in Hx. simpl in Hx. by rewrite inner_empty, lookup_empty in Hx.
      * exists e. split; [done|by left].
      * exists e. split; [done|]. right. split; [|done]. by rewrite Hd1 in Hdir.
  - destruct Hres as (l1 & e & l2 & Hl & Hl1 & Hf & Ht & Hid & Hor). split_and!; [done| |].
    + rewrite <- Hnodes. by rewrite Hid.
    + exists l1, e, l2. split_and!; [done| |done|done|].
      * intros x Hx. rewrite <- !Hnodes. by apply Hl1.
      * destruct Hor as [?|[Hfrom ?]]; [by left|right]. split; [|done]. by apply Hnodes.
Qed.

End UnmarshalResult.

(** ** serialize.go: ApplyMeta *)

Section ApplyMetaDef.
Context {N E : Type}.
Implicit Types g : Graph N E.

(** How [encoding/json] reads the stored values. *)
Variable decV : json → value.

(** [json.Unmarshal(data, &raw)] for [raw] a struct with the one field
    [Meta *MetaData `json:"metadata"`]: the outer [None] is an error, the
    inner one a nil pointer.  A document that is [null] leaves [raw] as it
    is. *)
Definition dec_raw_meta (j : json) : option (option Snap.MetaData) :=
  match j with
  | JNull => Some None
  | JObject ms => dec_pointer (dec_meta decV) (member "metadata" ms)
  | _ => None
  end.

Definition ApplyMeta (data : Encoded) g : Graph N E * option UnmarshalError :=
  match dec_raw_meta (document data) with
  | None => (g, Some BadJSON)
  | Some None => (g, None)
  | Some (Some md) => (apply_metadata g md, None)
  end.

(** What applying metadata may change: nothing of the nodes and edges, no
    store of a name that is no node, no store of a pair that is no edge (an
    undirected edge keeps one store for both directions, so there the pair
    is no edge in either), and no key leaves a store. *)
Record meta_grows g g' : Prop := {
  mg_directed : Directed g' = Directed g;
  mg_nodes : nodes g' = nodes g;
  mg_out : out g' = out g;
  mg_in : in_ g' = in_ g;
  mg_node_skip : ∀ id, HasNode g id = false → nodeMeta g' !! id = nodeMeta g !! id;
  mg_node_keys : ∀ id s k, nodeMeta g !! id = Some s → is_Some (entries s !! k) →
    ∃ s', nodeMeta g' !! id = Some s' ∧ is_Some (entries s' !! k);
  mg_edge_skip : ∀ a b, HasEdge g a b = false →
    (Directed g = false → HasEdge g b a = false) →
    inner (edgeMeta g') a !! b = inner (edgeMeta g) a !! b;
  mg_edge_keys : ∀ a b s k, inner (edgeMeta g) a !! b = Some s → is_Some (entries s !! k) →
    ∃ s', inner (edgeMeta g') a !! b = Some s' ∧ is_Some (entries s' !! k)
}.

Lemma meta_grows_refl g : meta_grows g g.
Proof. split; eauto. Qed.

Lemma meta_grows_trans g1 g2 g3 : meta_grows g1 g2 → meta_grows g2 g3 → meta_grows g1 g3.
Proof.
  intros [A1 A2 A3 A4 A5 A6 A7 A8] [B1 B2 B3 B4 B5 B6 B7 B8].
  assert (∀ x, HasNode g2 x = HasNode g1 x) as Hn by (intros x; by apply HasNode_nodes).
  assert (∀ a b, HasEdge g2 a b = HasEdge g1 a b) as He
    by (intros a b; unfold HasEdge; by rewrite A3).
  split.
  - by rewrite B1.
  - by rewrite B2.
  - by rewrite B3.
  - by rewrite B4.
  - intros id Hid. rewrite B5 by (by rewrite Hn). by apply A5.
  - intros id s k Hs Hk. destruct (A6 id s k Hs Hk) as (s' & Hs' & Hk'). by eapply B6.
  - intros a b H1 H2. rewrite B7; [by apply A7|by rewrite He|].
    rewrite A1, He. exact H2.
  - intros a b s k Hs Hk. destruct (A8 a b s k Hs Hk) as (s' & Hs' & Hk'). by eapply B8.
Qed.

Lemma apply_store_keys en sc s k :
  is_Some (entries s !! k) ∨ is_Some (en !! k) → is_Some (entries (apply_store en sc s) !! k).
Proof.
  intros H. unfold apply_store, set_entries.
  assert (is_Some ((en ∪ entries s) !! k)) as Hk.
  { rewrite lookup_union_is_Some. tauto. }
  by destruct sc.
Qed.

Lemma update_NodeMeta_lookup g id (f : Store → Store) x :
  nodeMeta (update_NodeMeta g id f) !! x =
  if HasNode g id && bool_decide (x = id)
  then Some (f (default StoreOps.NewStore (nodeMeta g !! id)))
  else nodeMeta g !! x.
Proof.
  unfold update_NodeMeta, NodeMeta. destruct (HasNode g id); [|done]. simpl.
  destruct (nodeMeta g !! id) as [s|] eqn:Hs; simpl.
  - case_bool_decide as Hx; [subst; by rewrite lookup_insert_eq|by rewrite lookup_insert_ne].
  - case_bool_decide as Hx; [subst; by rewrite lookup_insert_eq|by rewrite !lookup_insert_ne].
Qed.

Lemma update_EdgeMeta_lookup g from to (f : Store → Store) a b :
  inner (edgeMeta (update_EdgeMeta g from to f)) a !! b =
  if HasEdge g from to && bool_decide ((a, b) = edgeMetaKey g from to)
  then Some (f (default StoreOps.NewStore (inner (edgeMeta g) a !! b)))
  else inner (edgeMeta g) a !! b.
Proof.
  unfold update_EdgeMeta, EdgeMeta. destruct (HasEdge g from to); [|done]. simpl.
  destruct (edgeMetaKey g from to) as [k1 k2].
  destruct (decide (a = k1 ∧ b = k2)) as [[-> ->]|Hne].
  - rewrite bool_decide_eq_true_2 by done.
    destruct (inner (edgeMeta g) k1 !! k2) as [s|] eqn:Hs; simpl.
    + by rewrite inner_inner_insert, decide_True.
    + by rewrite inner_inner_insert, decide_True.
  - rewrite bool_decide_eq_false_2 by (intros [= -> ->]; by apply Hne).
    destruct (inner (edgeMeta g) k1 !! k2) as [s|] eqn:Hs; simpl.
    + by rewrite inner_inner_insert, decide_False.
    + by rewrite !inner_inner_insert, !decide_False.
Qed.

Lemma update_NodeMeta_frame g id (f : Store → Store) :
  Directed (update_NodeMeta g id f) = Directed g ∧ nodes (update_NodeMeta g id f) = nodes g ∧
  out (update_NodeMeta g id f) = out g ∧ in_ (update_NodeMeta g id f) = in_ g ∧
  edgeMeta (update_NodeMeta g id f) = edgeMeta g.
Proof.
  unfold update_NodeMeta, NodeMeta. destruct (HasNode g id); [|done].
  by destruct (nodeMeta g !! id).
Qed.

Lemma update_EdgeMeta_frame g from to (f : Store → Store) :
  Directed (update_EdgeMeta g from to f) = Directed g ∧
  nodes (update_EdgeMeta g from to f) = nodes g ∧
  out (update_EdgeMeta g from to f) = out g ∧ in_ (update_EdgeMeta g from to f) = in_ g ∧
  nodeMeta (update_EdgeMeta g from to f) = nodeMeta g.
Proof.
  unfold update_EdgeMeta, EdgeMeta. destruct (HasEdge g from to); [|done].
  destruct (edgeMetaKey g from to) as [k1 k2].
  by destruct (inner (edgeMeta g) k1 !! k2).
Qed.

Lemma apply_node_meta_grows g nm : meta_grows g (apply_node_meta g nm).
Proof.
  unfold apply_node_meta. destruct (HasNode g (Snap.nm_ID nm)) eqn:Hn; simpl;
    [|apply meta_grows_refl].
  destruct (update_NodeMeta_frame g (Snap.nm_ID nm)
              (apply_store (Snap.nm_Entries nm) (Snap.nm_Schema nm))) as (F1 & F2 & F3 & F4 & F5).
  split; try done.
  - intros id Hid. rewrite update_NodeMeta_lookup, Hn. simpl.
    case_bool_decide; [congruence|done].
  - intros id s k Hs Hk. rewrite update_NodeMeta_lookup, Hn. simpl.
    case_bool_decide as Hx; [|eauto]. subst id. rewrite Hs. simpl.
    eexists. split; [done|]. apply apply_store_keys. by left.
  - intros a b _ _. by rewrite F5.
  - intros a b s k Hs Hk. rewrite F5. eauto.
Qed.

Lemma edgeMetaKey_cases g from to :
  edgeMetaKey g from to = (from, to) ∨ edgeMetaKey g from to = (to, from).
Proof. unfold edgeMetaKey. destruct (negb (Directed g) && str_lt to from); eauto. Qed.

Lemma apply_edge_meta_grows g em : meta_grows g (apply_edge_meta g em).
Proof.
  unfold apply_edge_meta. destruct (HasEdge g (Snap.em_From em) (Snap.em_To em)) eqn:He; simpl;
    [|apply meta_grows_refl].
  destruct (update_EdgeMeta_frame g (Snap.em_From em) (Snap.em_To em)
              (apply_store (Snap.em_Entries em) (Snap.em_Schema em)))
    as (F1 & F2 & F3 & F4 & F5).
  split; try done.
  - intros id _. by rewrite F5.
  - intros id s k Hs Hk. rewrite F5. eauto.
  - intros a b H1 H2. rewrite update_EdgeMeta_lookup, He. simpl.
    case_bool_decide as Hx; [|done]. unfold edgeMetaKey in Hx.
    destruct (Directed g) eqn:Hd; simpl in Hx.
    + injection Hx as -> ->. congruence.
    + specialize (H2 eq_refl).
      destruct (str_lt (Snap.em_To em) (Snap.em_From em)); injection Hx as -> ->; congruence.
  - intros a b s k Hs Hk. rewrite update_EdgeMeta_lookup, He. simpl.
    case_bool_decide as Hx; [|eauto]. rewrite Hs. simpl.
    eexists. split; [done|]. apply apply_store_keys. by left.
Qed.

Lemma apply_metadata_grows g md : meta_grows g (apply_metadata g md).
Proof.
  unfold apply_metadata.
  assert (∀ l g0, meta_grows g0 (foldl apply_node_meta g0 l)) as Hn.
  { induction l as [|nm l IH]; intros g0; [apply meta_grows_refl|]. simpl.
    eapply meta_grows_trans; [apply apply_node_meta_grows|apply IH]. }
  assert (∀ l g0, meta_grows g0 (foldl apply_edge_meta g0 l)) as He.
  { induction l as [|em l IH]; intros g0; [apply meta_grows_refl|]. simpl.
    eapply meta_grows_trans; [apply apply_edge_meta_grows|apply IH]. }
  eapply meta_grows_trans; [apply Hn|apply He].
Qed.

(** Every key of a record that names a node is in the store of the node
    afterwards. *)
Lemma apply_metadata_node_keys g md nm k :
  nm ∈ Snap.md_Nodes md → HasNode g (Snap.nm_ID nm) = true →
  is_Some (Snap.nm_Entries nm !! k) →
  ∃ s, nodeMeta (apply_metadata g md) !! Snap.nm_ID nm = Some s ∧ is_Some (entries s !! k).
Proof.
  intros Hin Hn Hk. unfold apply_metadata.
  assert (∀ l g0, meta_grows g0 (foldl apply_node_meta g0 l)) as Hgrow.
  { induction l as [|x l IH]; intros g0; [apply meta_grows_refl|]. simpl.
    eapply meta_grows_trans; [apply apply_node_meta_grows|apply IH]. }
  assert (∀ l g0, nm ∈ l → HasNode g0 (Snap.nm_ID nm) = true →
            ∃ s, nodeMeta (foldl apply_node_meta g0 l) !! Snap.nm_ID nm = Some s ∧
                 is_Some (entries s !! k)) as Hnodes.
  { induction l as [|x l IH]; intros g0 Hl Hn0; [by apply elem_of_nil in Hl|]. simpl.
    apply elem_of_cons in Hl as [<-|Hl].
    - assert (∃ s, nodeMeta (apply_node_meta g0 nm) !! Snap.nm_ID nm = Some s ∧
                   is_Some (entries s !! k)) as (s & Hs & Hsk).
      { unfold apply_node_meta. rewrite Hn0. simpl.
        rewrite update_NodeMeta_lookup, Hn0, bool_decide_eq_true_2 by done. simpl.
        eexists. split; [done|]. apply apply_store_keys. by right. }
      by apply (mg_node_keys _ _ (Hgrow l (apply_node_meta g0 nm)) _ s k).
    - apply IH; [done|].
      by rewrite (HasNode_nodes _ g0 _ (mg_nodes _ _ (apply_node_meta_grows g0 x))). }
  destruct (Hnodes (Snap.md_Nodes md) g Hin Hn) as (s & Hs & Hsk).
  assert (∀ l g0, meta_grows g0 (foldl apply_edge_meta g0 l)) as He.
  { induction l as [|em l IH]; intros g0; [apply meta_grows_refl|]. simpl.
    eapply meta_grows_trans; [apply apply_edge_meta_grows|apply IH]. }
  by apply (mg_node_keys _ _ (He (Snap.md_Edges md) _) _ s k).
Qed.

(** The records of a document that name a node, or an edge, of the graph. *)
Definition known_records g (md : Snap.MetaData) : Snap.MetaData :=
  Snap.mkMetaData
    (filter (λ nm, HasNode g (Snap.nm_ID nm) = true) (Snap.md_Nodes md))
    (filter (λ em, HasEdge g (Snap.em_From em) (Snap.em_To em) = true) (Snap.md_Edges md)).

(** The other records are skipped: the document does what it does without
    them. *)
Lemma apply_metadata_known g md :
  apply_metadata g md = apply_metadata g (known_records g md).
Proof.
  unfold apply_metadata, known_records. cbn [Snap.md_Nodes Snap.md_Edges].
  assert (∀ l g0, meta_grows g g0 →
            foldl apply_node_meta g0 l =
            foldl apply_node_meta g0
                  (filter (λ nm, HasNode g (Snap.nm_ID nm) = true) l)) as Hn.
  { induction l as [|nm l IH]; intros g0 Hg0; [done|].
    pose proof (HasNode_nodes g0 g (Snap.nm_ID nm) (mg_nodes _ _ Hg0)) as Hsame.
    rewrite filter_cons. destruct (decide (HasNode g (Snap.nm_ID nm) = true)) as [Hy|Hno].
    - cbn [foldl]. apply IH.
      eapply meta_grows_trans; [exact Hg0|apply apply_node_meta_grows].
    - cbn [foldl]. apply not_true_is_false in Hno.
      replace (apply_node_meta g0 nm) with g0; [by apply IH|].
      unfold apply_node_meta. by rewrite Hsame, Hno. }
  assert (∀ l g0, meta_grows g g0 →
            foldl apply_edge_meta g0 l =
            foldl apply_edge_meta g0
                  (filter (λ em, HasEdge g (Snap.em_From em) (Snap.em_To em) = true) l))
    as He.
  { induction l as [|em l IH]; intros g0 Hg0; [done|].
    assert (HasEdge g0 (Snap.em_From em) (Snap.em_To em)
            = HasEdge g (Snap.em_From em) (Snap.em_To em)) as Hsame.
    { unfold HasEdge. by rewrite (mg_out _ _ Hg0). }
    rewrite filter_cons.
    destruct (decide (HasEdge g (Snap.em_From em) (Snap.em_To em) = true)) as [Hy|Hno].
    - cbn [foldl]. apply IH.
      eapply meta_grows_trans; [exact Hg0|apply apply_edge_meta_grows].
    - cbn [foldl]. apply not_true_is_false in Hno.
      replace (apply_edge_meta g0 em) with g0; [by apply IH|].
      unfold apply_edge_meta. by rewrite Hsame, Hno. }
  assert (∀ l g0, meta_grows g0 (foldl apply_node_meta g0 l)) as Hgrow.
  { induction l as [|nm l IH]; intros g0; [apply meta_grows_refl|]. simpl.
    eapply meta_grows_trans; [apply apply_node_meta_grows|apply IH]. }
  rewrite <- (Hn _ g (meta_grows_refl g)). apply He, Hgrow.
Qed.

(** X22. [ApplyMeta] changes nothing but stores.  The nodes and edges of
    the graph stay as they are; a failure to decode leaves the graph as it
    was; a record for a name that is no node, or for a pair (from, to) that
    is no edge, is skipped: the result is that of the document without such
    records, and the store of a name that is no node, or of a pair that is
    no edge, is as it was; no key is removed from a store; and every key of
    a record that names a node is in the store of that node afterwards. *)
Theorem ApplyMeta_grows (data : Encoded) g :
  let g' := (ApplyMeta data g).1 in
  meta_grows g g' ∧ (wf g → wf g') ∧
  ((ApplyMeta data g).2 ≠ None → g' = g) ∧
  (∀ md, dec_raw_meta (document data) = Some (Some md) →
     g' = apply_metadata g (known_records g md)) ∧
  (∀ md nm k, dec_raw_meta (document data) = Some (Some md) →
     nm ∈ Snap.md_Nodes md → HasNode g (Snap.nm_ID nm) = true →
     is_Some (Snap.nm_Entries nm !! k) →
     ∃ s, nodeMeta g' !! Snap.nm_ID nm = Some s ∧ StoreOps.Has s k = true).
Proof.
  unfold ApplyMeta. destruct (dec_raw_meta (document data)) as [[md|]|]; simpl.
  - pose proof (apply_metadata_grows g md) as Hg. split_and!; [done| |done| |].
    + apply wf_same_topology; apply Hg.
    + intros md' [= <-]. apply apply_metadata_known.
    + intros md' nm k [= <-] Hin Hn Hk.
      destruct (apply_metadata_node_keys g md nm k Hin Hn Hk) as (s & Hs & Hsk).
      exists s. split; [done|]. by apply Has_true.
  - split_and!; [apply meta_grows_refl|done|done|done|done].
  - split_and!; [apply meta_grows_refl|done|done|done|done].
Qed.

End ApplyMetaDef.

(** ** algo.go: ShortestPath at its edges *)

Section ShortestPathEdges.
Context {N E : Type}.
Implicit Types g : Graph N E.
Import Dijkstra.

(** X23. [ShortestPath] reports a missing source before a missing
    destination, whatever the bound on its loops.  From a node to itself it
    returns the path of that one node at cost 0 without looking at any edge;
    only for the node named by the empty string is that path empty, because
    the loop that walks back stops at the empty name. *)
Theorem ShortestPath_edge_cases ord rounds g src dst :
  (HasNode g src = false →
   ShortestPath ord rounds g src dst = Some ([], 0%float, Some SourceNotFound)) ∧
  (HasNode g src = true → HasNode g dst = false →
   ShortestPath ord rounds g src dst = Some ([], 0%float, Some DestinationNotFound)) ∧
  (HasNode g src = true → src ≠ "" →
   ShortestPath ord (S rounds) g src src = Some ([src], 0%float, None)) ∧
  (HasNode g "" = true →
   ShortestPath ord (S rounds) g "" "" = Some ([], 0%float, None)).
Proof.
  unfold ShortestPath, ShortestPath_with. split_and!.
  - by intros ->.
  - by intros -> ->.
  - intros Hs Hne. rewrite Hs. simpl negb. cbv iota.
    assert (search (OutEdges ord g) (S rounds) src
              (mkState {[src := 0%float]} ∅ [mkItem src 0%float]) =
            Some (mkState {[src := 0%float]} ∅ [])) as ->.
    { simpl. unfold heap_Pop. simpl. rewrite lookup_singleton_eq. simpl.
      by rewrite String.eqb_refl. }
    simpl. rewrite lookup_singleton_eq. simpl.
    apply String.eqb_neq in Hne. rewrite Hne, String.eqb_refl. done.
  - intros Hs. rewrite Hs. simpl negb. cbv iota.
    assert (search (OutEdges ord g) (S rounds) ""
              (mkState {["" := 0%float]} ∅ [mkItem "" 0%float]) =
            Some (mkState {[ "" := 0%float]} ∅ [])) as ->.
    { simpl. unfold heap_Pop. simpl. by rewrite lookup_singleton_eq. }
    simpl. by rewrite lookup_singleton_eq.
Qed.

End ShortestPathEdges.

(** ** task.go: Ready and Reset *)

Section TaskFacts.
Import TaskLib.
Context {T : Type}.
Implicit Types tg : TaskGraph T.

(** A task graph as the methods keep it: the graph invariant holds and
    every task is stored under its own ID. *)
Definition tasks_ok tg : Prop :=
  wf tg ∧ ∀ id n, nodes tg !! id = Some n → ID (Node.Data n) = id.

(** What a call of [Ready] on [tg] makes of a task. *)
Definition promote_task (ord : MapOrder) tg (task : Task T) : Task T :=
  if (State task =? Pending)%Z && allDepsDone ord tg (ID task)
  then mkTask (ID task) (Data task) Ready
  else task.

Definition promote_node (ord : MapOrder) tg (n : Node.t (Task T)) : Node.t (Task T) :=
  Node.mk (Node.ID n) (promote_task ord tg (Node.Data n)).

Definition is_ready (task : Task T) : bool := (State task =? Ready)%Z.

Lemma task_eta (t : Task T) s : State t = s → mkTask (ID t) (Data t) s = t.
Proof. destruct t. simpl. by intros ->. Qed.

Lemma node_eta {A} (n : Node.t A) : Node.mk (Node.ID n) (Node.Data n) = n.
Proof. by destruct n. Qed.

(** Storing a task again under the ID of a task of the graph changes the
    nodes only. *)
Lemma AddNode_existing tg id (task : Task T) :
  wf tg → is_Some (nodes tg !! id) →
  AddNode tg id task =
  mkGraph (Directed tg) (<[id := Node.mk id task]> (nodes tg)) (out tg) (in_ tg)
          (nodeMeta tg) (edgeMeta tg).
Proof.
  intros Hwf Hid. unfold AddNode.
  rewrite !make_if_nil_present; [done|by apply (wf_node_in tg Hwf)|by apply (wf_node_out tg Hwf)].
Qed.

Lemma allDepsDone_spec ord tg id :
  wf tg →
  allDepsDone ord tg id = true ↔
  ∀ dep, edge tg dep id → ∃ t, GetTask tg dep = Some t ∧ State t = Done.
Proof.
  intros Hwf. unfold allDepsDone. rewrite forallb_forall. split.
  - intros Hall dep [e He]%HasEdge_is_Some.
    destruct (wf_edge_ends tg Hwf dep id e He) as (Hfrom & _ & _).
    specialize (Hall e). rewrite <- list_elem_of_In, InEdges_elem_of in Hall.
    rewrite Hfrom in Hall. unfold GetTask.
    destruct (GetNode tg dep) as [n|]; simpl.
    + exists (Node.Data n). split; [done|]. apply Z.eqb_eq, Hall.
      exists dep. by apply wf_in_entry.
    + discriminate Hall. exists dep. by apply wf_in_entry.
  - intros Hall e [dep He]%list_elem_of_In%InEdges_elem_of.
    apply (wf_in_entry tg dep id e Hwf) in He.
    destruct (wf_edge_ends tg Hwf dep id e He) as (-> & _ & _).
    assert (edge tg dep id) as Hedge by (unfold edge; apply HasEdge_is_Some; eauto).
    destruct (Hall dep Hedge) as (t & Ht & Hd).
    unfold GetTask in Ht. destruct (GetNode tg dep) as [n|]; [|done].
    simpl in Ht. injection Ht as <-. by apply Z.eqb_eq.
Qed.

(** The graph in the middle of the loop, against the graph at its start. *)
Record same_deps tg0 tg : Prop := {
  sd_directed : Directed tg = Directed tg0;
  sd_out : out tg = out tg0;
  sd_in : in_ tg = in_ tg0;
  sd_nodeMeta : nodeMeta tg = nodeMeta tg0;
  sd_edgeMeta : edgeMeta tg = edgeMeta tg0;
  sd_ok : tasks_ok tg;
  sd_done : ∀ id, (State ∘ Node.Data <$> nodes tg !! id) = Some Done ↔
                  (State ∘ Node.Data <$> nodes tg0 !! id) = Some Done
}.

Lemma same_deps_refl tg : tasks_ok tg → same_deps tg tg.
Proof. by split. Qed.

Lemma same_deps_allDepsDone ord tg0 tg id :
  same_deps tg0 tg → allDepsDone ord tg id = allDepsDone ord tg0 id.
Proof.
  intros [_ _ Hin _ _ _ Hdone]. unfold allDepsDone, InEdges. rewrite Hin.
  apply forallb_pointwise. intros e. unfold GetNode.
  specialize (Hdone (Edge.From e)).
  destruct (nodes tg !! Edge.From e) as [n|], (nodes tg0 !! Edge.From e) as [n0|];
    simpl in *; try done.
  - apply eq_true_iff_eq. rewrite !Z.eqb_eq. split; intros H.
    + assert (Some (State (Node.Data n)) = Some Done) as H' by (by rewrite H).
      apply Hdone in H'. by injection H'.
    + assert (Some (State (Node.Data n0)) = Some Done) as H' by (by rewrite H).
      apply Hdone in H'. by injection H'.
  - apply Z.eqb_neq. intros H.
    assert (Some (State (Node.Data n)) = Some Done) as H' by (by rewrite H).
    by apply Hdone in H'.
  - symmetry. apply Z.eqb_neq. intros H.
    assert (Some (State (Node.Data n0)) = Some Done) as H' by (by rewrite H).
    by apply Hdone in H'.
Qed.

(** One round of the loop of [readyLocked]. *)
Definition ready_step (ord : MapOrder) (acc : TaskGraph T * list (Task T))
    (n : Node.t (Task T)) : TaskGraph T * list (Task T) :=
  let '(tg, ready) := acc in
  let task := Node.Data n in
  let promote := (State task =? Pending)%Z && allDepsDone ord tg (ID task) in
  let task := if promote then mkTask (ID task) (Data task) Ready else task in
  let tg := if promote then AddNode tg (ID task) task else tg in
  if (State task =? Ready)%Z then (tg, ready ++ [task]) else (tg, ready).

Lemma readyLocked_fold ord tg :
  readyLocked ord tg = foldl (ready_step ord) (tg, []) (Nodes ord tg).
Proof.
  unfold readyLocked. apply foldl_ext_in. intros [tg' r] n _. done.
Qed.

Lemma AddNode_existing_fields tg id (task : Task T) :
  wf tg → is_Some (nodes tg !! id) →
  Directed (AddNode tg id task) = Directed tg ∧
  nodes (AddNode tg id task) = <[id := Node.mk id task]> (nodes tg) ∧
  out (AddNode tg id task) = out tg ∧ in_ (AddNode tg id task) = in_ tg ∧
  nodeMeta (AddNode tg id task) = nodeMeta tg ∧ edgeMeta (AddNode tg id task) = edgeMeta tg.
Proof. intros Hwf Hid. by rewrite AddNode_existing. Qed.

(** Storing another state for a task that is not [Done], and does not
    become [Done], keeps the dependencies as they are. *)
Lemma same_deps_restate tg0 tg id n s :
  same_deps tg0 tg → nodes tg !! id = Some n →
  State (Node.Data n) ≠ Done → s ≠ Done →
  same_deps tg0 (AddNode tg id (mkTask (ID (Node.Data n)) (Data (Node.Data n)) s)).
Proof.
  intros [S1 S2 S3 S4 S5 [Hwf Hids] S7] Hn Hnd Hs.
  destruct (AddNode_existing_fields tg id
              (mkTask (ID (Node.Data n)) (Data (Node.Data n)) s) Hwf) as
    (F1 & F2 & F3 & F4 & F5 & F6); [eauto|].
  split; try congruence.
  - split; [by apply wf_AddNode|]. intros id' n'. rewrite F2.
    destruct (decide (id' = id)) as [->|Hne].
    + rewrite lookup_insert_eq. intros [= <-]. simpl. by apply Hids.
    + rewrite lookup_insert_ne by done. apply Hids.
  - intros id'. rewrite F2. destruct (decide (id' = id)) as [->|Hne].
    + rewrite lookup_insert_eq. simpl. rewrite <- S7, Hn. simpl.
      split; intros [= ?]; done.
    + rewrite lookup_insert_ne by done. apply S7.
Qed.

Lemma ready_step_spec ord tg0 tg ready n :
  same_deps tg0 tg → nodes tg !! Node.ID n = Some n →
  ∃ tg',
    ready_step ord (tg, ready) n =
      (tg', ready ++ List.filter is_ready [promote_task ord tg0 (Node.Data n)]) ∧
    same_deps tg0 tg' ∧
    nodes tg' = <[Node.ID n := promote_node ord tg0 n]> (nodes tg).
Proof.
  intros Hsd Hn. pose proof (sd_ok _ _ Hsd) as [Hwf Hids].
  pose proof (Hids _ _ Hn) as Hid.
  unfold ready_step, promote_node, promote_task.
  rewrite (same_deps_allDepsDone ord tg0 tg _ Hsd).
  destruct ((State (Node.Data n) =? Pending)%Z && allDepsDone ord tg0 (ID (Node.Data n)))
    eqn:Hp.
  - apply andb_true_iff in Hp as [Hpend%Z.eqb_eq _]. cbn [ID State Data]. rewrite Hid.
    change (Ready =? Ready)%Z with true. cbv iota.
    eexists. split; [done|]. split.
    + rewrite <- Hid at 2. apply same_deps_restate; [done|done| |done].
      by rewrite Hpend.
    + destruct (AddNode_existing_fields tg (Node.ID n)
                  (mkTask (Node.ID n) (Data (Node.Data n)) Ready) Hwf) as (_ & F2 & _);
        [eauto|]. by rewrite F2.
  - exists tg. rewrite node_eta. split_and!; [|done|by rewrite insert_id].
    simpl. unfold is_ready. by destruct (State (Node.Data n) =? Ready)%Z; rewrite ?app_nil_r.
Qed.

Lemma ready_fold ord tg0 (l : list (Node.t (Task T))) : ∀ tg ready,
  same_deps tg0 tg → NoDup (Node.ID <$> l) →
  (∀ n, n ∈ l → nodes tg !! Node.ID n = Some n) →
  ∃ tg',
    foldl (ready_step ord) (tg, ready) l =
      (tg', ready ++ List.filter is_ready (promote_task ord tg0 ∘ Node.Data <$> l)) ∧
    same_deps tg0 tg' ∧
    ∀ id, nodes tg' !! id =
          if bool_decide (id ∈ Node.ID <$> l) then promote_node ord tg0 <$> nodes tg !! id
          else nodes tg !! id.
Proof.
  induction l as [|n l IH]; intros tg ready Hsd Hnd Hl.
  { exists tg. split_and!; [by simpl; rewrite app_nil_r|done|].
    intros id. rewrite bool_decide_eq_false_2; [done|]. rewrite fmap_nil.
    apply not_elem_of_nil. }
  rewrite fmap_cons in Hnd. apply NoDup_cons in Hnd as [Hn Hnd].
  destruct (ready_step_spec ord tg0 tg ready n Hsd) as (tg1 & Hstep & Hsd1 & Hnodes1);
    [apply Hl; by left|].
  cbn [foldl]. rewrite Hstep.
  destruct (IH tg1 (ready ++ List.filter is_ready [promote_task ord tg0 (Node.Data n)])
              Hsd1 Hnd) as (tg' & -> & Hsd' & Hnodes').
  { intros m Hm. rewrite Hnodes1, lookup_insert_ne; [apply Hl; by right|].
    intros Heq. apply Hn. rewrite Heq. by apply list_elem_of_fmap_2. }
  exists tg'. split_and!; [|done|].
  - rewrite <- app_assoc. by rewrite fmap_cons, <- List.filter_app.
  - intros id. rewrite Hnodes', Hnodes1, fmap_cons.
    destruct (decide (id = Node.ID n)) as [->|Hne].
    + rewrite (bool_decide_eq_false_2 _ Hn), lookup_insert_eq.
      rewrite bool_decide_eq_true_2 by (by left).
      by rewrite (Hl n (list_elem_of_here _ _)).
    + rewrite lookup_insert_ne by done.
      destruct (decide (id ∈ Node.ID <$> l)) as [Hin|Hin].
      * rewrite !bool_decide_eq_true_2; [done|by right|done].
      * rewrite !bool_decide_eq_false_2; [done| |done].
        by intros [?|?]%elem_of_cons.
Qed.

Lemma graph_fields_eq (g1 g2 : TaskGraph T) :
  Directed g1 = Directed g2 → nodes g1 = nodes g2 → out g1 = out g2 → in_ g1 = in_ g2 →
  nodeMeta g1 = nodeMeta g2 → edgeMeta g1 = edgeMeta g2 → g1 = g2.
Proof. destruct g1, g2. simpl. by intros -> -> -> -> -> ->. Qed.

Lemma promote_task_twice ord tg0 tg (t : Task T) :
  same_deps tg0 tg →
  promote_task ord tg (promote_task ord tg0 t) = promote_task ord tg0 t.
Proof.
  intros Hsd. unfold promote_task.
  destruct ((State t =? Pending)%Z && allDepsDone ord tg0 (ID t)) eqn:Hp.
  - reflexivity.
  - by rewrite (same_deps_allDepsDone ord tg0 tg _ Hsd), Hp.
Qed.

(** The nodes of a graph whose node map is the image of another's. *)
Lemma Nodes_fmap ord tg tg' (f : Node.t (Task T) → Node.t (Task T)) :
  wf tg → wf tg' → (∀ n, Node.ID (f n) = Node.ID n) →
  (∀ id, nodes tg' !! id = f <$> nodes tg !! id) →
  Nodes ord tg' = f <$> Nodes ord tg.
Proof.
  intros Hwf Hwf' Hf Hnodes. apply (sorted_by_id_eq Node.ID).
  - by apply Nodes_ids_sorted.
  - rewrite <- list_fmap_compose.
    rewrite (list_fmap_ext (Node.ID ∘ f) Node.ID (Nodes ord tg)) by (intros ? x _; apply Hf).
    by apply Nodes_ids_sorted.
  - intros x. rewrite (Nodes_elem_of ord tg' x Hwf'), Hnodes, list_elem_of_fmap. split.
    + intros Hx. destruct (nodes tg !! Node.ID x) as [n|] eqn:Hn; [|done].
      simpl in Hx. injection Hx as <-. exists n. split; [done|].
      apply (Nodes_elem_of ord tg n Hwf). rewrite <- Hn. f_equal. symmetry. apply Hf.
    + intros (n & -> & Hn). apply (Nodes_elem_of ord tg n Hwf) in Hn.
      by rewrite Hf, Hn.
Qed.

Lemma readyLocked_spec ord tg :
  tasks_ok tg →
  ∃ tg',
    readyLocked ord tg =
      (tg', List.filter is_ready (promote_task ord tg ∘ Node.Data <$> Nodes ord tg)) ∧
    same_deps tg tg' ∧
    (∀ id, nodes tg' !! id = promote_node ord tg <$> nodes tg !! id).
Proof.
  intros Hok. pose proof Hok as [Hwf Hids]. rewrite readyLocked_fold.
  destruct (ready_fold ord tg (Nodes ord tg) tg [] (same_deps_refl tg Hok))
    as (tg' & -> & Hsd & Hnodes).
  - by apply Nodes_ids_sorted.
  - intros n Hn. by apply (Nodes_elem_of ord tg n Hwf).
  - exists tg'. split_and!; [done|done|]. intros id. rewrite Hnodes.
    case_bool_decide as Hin; [done|].
    rewrite (Nodes_ids_elem_of ord tg id Hwf) in Hin.
    apply eq_None_not_Some in Hin. by rewrite Hin.
Qed.

(** X24. [Ready] on a task graph that keeps its invariant: a task is made
    [Ready] exactly when it is [Pending] and every task it depends on is
    [Done]; nothing else changes, no dependency either.  The tasks returned
    are the tasks that are [Ready] afterwards, in ascending order of ID.  A
    second call changes nothing and returns the same tasks. *)
Theorem Ready_result ord tg :
  tasks_ok tg →
  let tg' := (readyLocked ord tg).1 in
  let ready := (readyLocked ord tg).2 in
  tasks_ok tg' ∧ out tg' = out tg ∧ in_ tg' = in_ tg ∧
  (∀ id, GetTask tg' id = promote_task ord tg <$> GetTask tg id) ∧
  (∀ t, promote_task ord tg t ≠ t ↔
        State t = Pending ∧
        ∀ dep, edge tg dep (ID t) → ∃ d, GetTask tg dep = Some d ∧ State d = Done) ∧
  ready = List.filter is_ready (Node.Data <$> Nodes ord tg') ∧
  readyLocked ord tg' = (tg', ready).
Proof.
  intros Hok. pose proof Hok as [Hwf Hids].
  destruct (readyLocked_spec ord tg Hok) as (tg' & Heq & Hsd & Hnodes).
  rewrite Heq. cbn [fst snd]. cbv zeta.
  pose proof (sd_ok _ _ Hsd) as Hok'. pose proof Hok' as [Hwf' Hids'].
  assert (Nodes ord tg' = promote_node ord tg <$> Nodes ord tg) as HN.
  { by apply Nodes_fmap. }
  assert (List.filter is_ready (promote_task ord tg ∘ Node.Data <$> Nodes ord tg) =
          List.filter is_ready (Node.Data <$> Nodes ord tg')) as Hready.
  { rewrite HN, <- list_fmap_compose. done. }
  split_and!.
  - done.
  - apply Hsd.
  - apply Hsd.
  - intros id. unfold GetTask, GetNode. rewrite Hnodes.
    by destruct (nodes tg !! id).
  - intros t. unfold promote_task. rewrite <- (allDepsDone_spec ord tg (ID t) Hwf).
    destruct (Z.eqb_spec (State t) Pending) as [Hp|Hp]; simpl.
    + destruct (allDepsDone ord tg (ID t)).
      * split; [done|]. intros _ Heq'. destruct t. simpl in *. injection Heq' as Hs.
        subst. discriminate Hs.
      * split; [done|]. by intros [_ ?].
    + split; [done|]. by intros [? _].
  - done.
  - destruct (readyLocked_spec ord tg' Hok') as (tg'' & Heq2 & Hsd2 & Hnodes2).
    rewrite Heq2. f_equal.
    + apply graph_fields_eq; try apply Hsd2.
      apply map_eq. intros id. rewrite Hnodes2, Hnodes.
      destruct (nodes tg !! id) as [n|]; [|done]. simpl. f_equal.
      unfold promote_node. simpl. f_equal. by apply promote_task_twice.
    + rewrite Hready, HN, <- !list_fmap_compose. f_equal.
      apply list_fmap_ext. intros i n _. simpl. by apply promote_task_twice.
Qed.

(** *** Reset *)

Definition reset_node (n : Node.t (Task T)) : Node.t (Task T) :=
  Node.mk (Node.ID n) (mkTask (ID (Node.Data n)) (Data (Node.Data n)) Pending).

Lemma reset_fold (l : list (Node.t (Task T))) : ∀ tg,
  tasks_ok tg → NoDup (Node.ID <$> l) →
  (∀ n, n ∈ l → nodes tg !! Node.ID n = Some n) →
  let tg' := foldl (λ tg n, let task := Node.Data n in
                            AddNode tg (ID task) (mkTask (ID task) (Data task) Pending))
                   tg l in
  tasks_ok tg' ∧ Directed tg' = Directed tg ∧ out tg' = out tg ∧ in_ tg' = in_ tg ∧
  nodeMeta tg' = nodeMeta tg ∧ edgeMeta tg' = edgeMeta tg ∧
  ∀ id, nodes tg' !! id =
        if bool_decide (id ∈ Node.ID <$> l) then reset_node <$> nodes tg !! id
        else nodes tg !! id.
Proof.
  induction l as [|n l IH]; intros tg Hok Hnd Hl.
  { cbn [foldl]. cbv zeta. by split_and!. }
  rewrite fmap_cons in Hnd. apply NoDup_cons in Hnd as [Hn Hnd].
  pose proof Hok as [Hwf Hids].
  pose proof (Hl n (list_elem_of_here _ _)) as Hnn. pose proof (Hids _ _ Hnn) as Hid.
  cbn [foldl]. cbv zeta. rewrite Hid.
  set (tg1 := AddNode tg (Node.ID n) (mkTask (Node.ID n) (Data (Node.Data n)) Pending)).
  destruct (AddNode_existing_fields tg (Node.ID n)
              (mkTask (Node.ID n) (Data (Node.Data n)) Pending) Hwf)
    as (F1 & F2 & F3 & F4 & F5 & F6); [eauto|]. fold tg1 in F1, F2, F3, F4, F5, F6.
  assert (tasks_ok tg1) as Hok1.
  { split; [by apply wf_AddNode|]. intros id' n'. rewrite F2.
    destruct (decide (id' = Node.ID n)) as [->|Hne].
    - rewrite lookup_insert_eq. by intros [= <-].
    - rewrite lookup_insert_ne by done. apply Hids. }
  destruct (IH tg1 Hok1 Hnd) as (I1 & I2 & I3 & I4 & I5 & I6 & I7).
  { intros m Hm. rewrite F2, lookup_insert_ne; [apply Hl; by right|].
    intros Heq. apply Hn. rewrite Heq. by apply list_elem_of_fmap_2. }
  cbv zeta in I1, I2, I3, I4, I5, I6, I7.
  split_and!; try congruence.
  intros id. rewrite I7, F2, fmap_cons.
  destruct (decide (id = Node.ID n)) as [->|Hne].
  - rewrite (bool_decide_eq_false_2 _ Hn), lookup_insert_eq.
    rewrite bool_decide_eq_true_2 by (by left). rewrite Hnn. simpl.
    unfold reset_node. by rewrite Hid.
  - rewrite lookup_insert_ne by done.
    destruct (decide (id ∈ Node.ID <$> l)) as [Hin|Hin].
    + rewrite !bool_decide_eq_true_2; [done|by right|done].
    + rewrite !bool_decide_eq_false_2; [done| |done]. by intros [?|?]%elem_of_cons.
Qed.

Lemma Reset_spec ord tg :
  tasks_ok tg →
  tasks_ok (Reset ord tg) ∧ Directed (Reset ord tg) = Directed tg ∧
  out (Reset ord tg) = out tg ∧ in_ (Reset ord tg) = in_ tg ∧
  nodeMeta (Reset ord tg) = nodeMeta tg ∧ edgeMeta (Reset ord tg) = edgeMeta tg ∧
  ∀ id, nodes (Reset ord tg) !! id = reset_node <$> nodes tg !! id.
Proof.
  intros Hok. pose proof Hok as [Hwf Hids].
  destruct (reset_fold (Nodes ord tg) tg Hok) as (R1 & R2 & R3 & R4 & R5 & R6 & R7).
  - by apply Nodes_ids_sorted.
  - intros n Hn. by apply (Nodes_elem_of ord tg n Hwf).
  - split_and!; try done. intros id. unfold Reset. rewrite R7.
    case_bool_decide as Hin; [done|].
    rewrite (Nodes_ids_elem_of ord tg id Hwf) in Hin.
    apply eq_None_not_Some in Hin. by rewrite Hin.
Qed.

Lemma forallb_all_false {A} (f : A → bool) (l : list A) :
  (∀ x, x ∈ l → f x = false) → forallb f l = (length l =? 0)%nat.
Proof.
  destruct l as [|x l]; [done|]. intros H. simpl. by rewrite (H x) by (by left).
Qed.

Lemma filter_fmap_cond {A B} (p : B → bool) (q : A → bool) (f f' : A → B) (l : list A) :
  (∀ x, x ∈ l → p (f x) = q x) → (∀ x, x ∈ l → q x = true → f x = f' x) →
  List.filter p (f <$> l) = f' <$> List.filter q l.
Proof.
  induction l as [|x l IH]; intros Hp Hf; [done|].
  assert (List.filter p (f <$> l) = f' <$> List.filter q l) as IH'.
  { apply IH; intros y Hy; [apply Hp|apply Hf]; by right. }
  rewrite fmap_cons. cbn [List.filter]. rewrite (Hp x) by (by left).
  destruct (q x) eqn:Hq; [|done].
  rewrite fmap_cons, IH', (Hf x); [done|by left|done].
Qed.

(** X25. [Reset] makes every task [Pending] and changes nothing else.  A
    call of [Ready] after it returns the tasks that depend on nothing, now
    [Ready]: the roots of the graph, in ascending order of ID. *)
Theorem Reset_result ord tg :
  tasks_ok tg →
  let tg' := Reset ord tg in
  tasks_ok tg' ∧ out tg' = out tg ∧ in_ tg' = in_ tg ∧
  (∀ id, GetTask tg' id = (λ t, mkTask (ID t) (Data t) Pending) <$> GetTask tg id) ∧
  (readyLocked ord tg').2 =
    (λ n, mkTask (Node.ID n) (Data (Node.Data n)) Ready) <$> Roots ord tg.
Proof.
  intros Hok tg'. pose proof Hok as [Hwf Hids].
  destruct (Reset_spec ord tg Hok) as (R1 & R2 & R3 & R4 & R5 & R6 & R7). fold tg' in R1, R2, R3, R4, R5, R6, R7.
  pose proof R1 as [Hwf' Hids'].
  split_and!; [done|done|done| |].
  - intros id. unfold GetTask, GetNode. rewrite R7. by destruct (nodes tg !! id).
  - destruct (readyLocked_spec ord tg' R1) as (tg'' & -> & _ & _). cbn [snd].
    rewrite (Nodes_fmap ord tg tg' reset_node Hwf Hwf') by done.
    rewrite <- list_fmap_compose. unfold Roots.
    apply filter_fmap_cond.
    + intros n Hn. apply (Nodes_elem_of ord tg n Hwf) in Hn.
      pose proof (Hids _ _ Hn) as Hid. simpl. unfold promote_task. cbn [State ID Data].
      change (Pending =? Pending)%Z with true. cbn [andb]. rewrite Hid.
      assert (allDepsDone ord tg' (Node.ID n) =
              (length (InEdges ord tg (Node.ID n)) =? 0)%nat) as ->.
      { unfold allDepsDone, InEdges. rewrite R4. apply forallb_all_false.
        intros e _. unfold GetNode. rewrite R7.
        by destruct (nodes tg !! Edge.From e). }
      by destruct (length (InEdges ord tg (Node.ID n)) =? 0)%nat.
    + intros n Hn Hroot. apply (Nodes_elem_of ord tg n Hwf) in Hn.
      pose proof (Hids _ _ Hn) as Hid. simpl. unfold promote_task. cbn [State ID Data].
      change (Pending =? Pending)%Z with true. cbn [andb]. rewrite Hid.
      assert (allDepsDone ord tg' (Node.ID n) =
              (length (InEdges ord tg (Node.ID n)) =? 0)%nat) as ->.
      { unfold allDepsDone, InEdges. rewrite R4. apply forallb_all_false.
        intros e _. unfold GetNode. rewrite R7.
        by destruct (nodes tg !! Edge.From e). }
      by rewrite Hroot.
Qed.

(** *** The invariant is kept *)

Lemma tasks_ok_NewTaskGraph : tasks_ok (NewTaskGraph : TaskGraph T).
Proof. split; [apply wf_NewGraph|]. intros id n. simpl. by rewrite lookup_empty. Qed.

Lemma tasks_ok_AddTask tg id data : tasks_ok tg → tasks_ok (AddTask tg id data).
Proof.
  intros [Hwf Hids]. split; [by apply wf_AddNode|]. intros id' n. simpl.
  destruct (decide (id' = id)) as [->|Hne].
  - rewrite lookup_insert_eq. by intros [= <-].
  - rewrite lookup_insert_ne by done. apply Hids.
Qed.

Lemma tasks_ok_AddDependency tg from to :
  tasks_ok tg → tasks_ok (AddDependency tg from to).1.
Proof.
  intros [Hwf Hids]. split; [by apply wf_AddEdge|]. unfold AddDependency.
  pose proof (AddEdge_frame tg to from tt 0%float) as F. cbv zeta in F.
  destruct F as (_ & Hn & _). intros id n Hlk. apply Hids. rewrite <- Hn. exact Hlk.
Qed.

End TaskFacts.

(** Tasks a and b, where b depends on a. *)
Definition two_tasks : TaskLib.TaskGraph unit :=
  let tg := TaskLib.AddTask TaskLib.NewTaskGraph "a" tt in
  let tg := TaskLib.AddTask tg "b" tt in
  (TaskLib.AddDependency tg "b" "a").1.

Lemma two_tasks_ok : tasks_ok two_tasks.
Proof.
  apply tasks_ok_AddDependency, tasks_ok_AddTask, tasks_ok_AddTask, tasks_ok_NewTaskGraph.
Qed.

Lemma Ready_result_witness :
  tasks_ok two_tasks ∧
  (TaskLib.readyLocked order_id two_tasks).2 = [TaskLib.mkTask "a" tt TaskLib.Ready] ∧
  TaskLib.readyLocked order_id (TaskLib.readyLocked order_id two_tasks).1 =
    ((TaskLib.readyLocked order_id two_tasks).1,
     (TaskLib.readyLocked order_id two_tasks).2).
Proof.
  destruct (Ready_result order_id two_tasks two_tasks_ok) as (_ & _ & _ & _ & _ & _ & H).
  split_and!; [exact two_tasks_ok|vm_compute; reflexivity|exact H].
Defined.

Lemma Reset_result_witness :
  tasks_ok two_tasks ∧
  (TaskLib.readyLocked order_id (TaskLib.Reset order_id two_tasks)).2 =
    (λ n, TaskLib.mkTask (Node.ID n) (TaskLib.Data (Node.Data n)) TaskLib.Ready)
      <$> Roots order_id two_tasks.
Proof.
  destruct (Reset_result order_id two_tasks two_tasks_ok) as (_ & _ & _ & _ & H).
  split; [exact two_tasks_ok|exact H].
Defined.

(** ** api/filter.go: the ordering operators *)

Section FilterOrder.
Import Filter.
Variable Sprint : value → string.
Variable float64_of_int : Z → float.

(** The comparison of the resolved value with the filter's value cannot be
    made: the key was not found, or one of the two is not a number. *)
Definition incomparable (store : option Store) (data : api.NodeData) (key : string)
    (v : value) : Prop :=
  (resolve store data key).2 = false ∨
  (toFloat64 float64_of_int (resolve store data key).1).2 = false ∨
  (toFloat64 float64_of_int v).2 = false.

Lemma compareFloat_incomparable store data key v :
  incomparable store data key v →
  compareFloat float64_of_int (resolve store data key).1 v (resolve store data key).2
  = (-2)%Z.
Proof.
  unfold incomparable, compareFloat. intros H.
  destruct (resolve store data key) as [val found]. simpl in *.
  destruct found; simpl; [|done].
  destruct (toFloat64 float64_of_int val) as [af ok1],
           (toFloat64 float64_of_int v) as [bf ok2]. simpl in *.
  destruct H as [H|[->| ->]]; [done|done|]. by rewrite orb_true_r.
Qed.

Lemma matchFilter_ops store data key v :
  let c := compareFloat float64_of_int (resolve store data key).1 v
             (resolve store data key).2 in
  matchFilter Sprint float64_of_int store data (mkFilter key "gt" v) = (0 <? c)%Z ∧
  matchFilter Sprint float64_of_int store data (mkFilter key "gte" v) = (0 <=? c)%Z ∧
  matchFilter Sprint float64_of_int store data (mkFilter key "lt" v) = (c <? 0)%Z ∧
  matchFilter Sprint float64_of_int store data (mkFilter key "lte" v) = (c <=? 0)%Z ∧
  matchFilter Sprint float64_of_int store data (mkFilter key "exists" v) =
    (resolve store data key).2.
Proof.
  unfold matchFilter. cbn [Key Op Value].
  by destruct (resolve store data key) as [val found].
Qed.

(** X26. When the value under the filter's key cannot be compared with the
    filter's value, because the key is absent or either value is not a
    number, the filters gt and gte reject the node while lt and lte accept
    it.  That is the case for the keys status and label, whose values are
    strings: lt and lte accept every node on them, gt and gte none, and
    exists accepts every node. *)
Theorem matchFilter_incomparable store data key v :
  (incomparable store data key v →
   matchFilter Sprint float64_of_int store data (mkFilter key "gt" v) = false ∧
   matchFilter Sprint float64_of_int store data (mkFilter key "gte" v) = false ∧
   matchFilter Sprint float64_of_int store data (mkFilter key "lt" v) = true ∧
   matchFilter Sprint float64_of_int store data (mkFilter key "lte" v) = true) ∧
  (key = "status" ∨ key = "label" →
   incomparable store data key v ∧
   matchFilter Sprint float64_of_int store data (mkFilter key "exists" v) = true).
Proof.
  destruct (matchFilter_ops store data key v) as (Hgt & Hge & Hlt & Hle & Hex).
  cbv zeta in Hgt, Hge, Hlt, Hle. split.
  - intros Hinc. rewrite Hgt, Hge, Hlt, Hle.
    by rewrite (compareFloat_incomparable store data key v Hinc).
  - intros Hkey. rewrite Hex. unfold incomparable, resolve.
    destruct Hkey as [-> | ->]; simpl; split; auto.
Qed.

End FilterOrder.

(** ** mcp/server.go: every response *)

Section HandleFacts.
Import mcp.
Context {M R : Type}.
Variable parse_params : RawMessage → ToolCallParams + string.
Variable json_Marshal : R → string.

(** The methods [handle] knows. *)
Definition known_methods : list string :=
  ["initialize"; "notifications/initialized"; "tools/list"; "tools/call"].

(** X27. Whatever the request, [handle] leaves the registered tools and
    their definitions alone and touches the manager only for tools/call.  It
    gives no response exactly for notifications/initialized.  Every response
    says version 2.0, carries the ID of the request, and has either a result
    or an error, never both and never neither; the error code is -32601
    exactly when the method is not one of the four known, and -32602
    otherwise. *)
Theorem handle_response (s : @Server M R) (req : Request) :
  let s' := (handle parse_params json_Marshal s req).1 in
  tools s' = tools s ∧ defs s' = defs s ∧
  (Method req ≠ "tools/call" → s' = s) ∧
  match (handle parse_params json_Marshal s req).2 with
  | None => Method req = "notifications/initialized"
  | Some resp =>
      Method req ≠ "notifications/initialized" ∧
      resp_JSONRPC resp = "2.0" ∧ resp_ID resp = req_ID req ∧
      (Result resp = None ↔ is_Some (Error resp)) ∧
      (∀ e, Error resp = Some e →
            ((Method req ∉ known_methods) ∧ Code e = (-32601)%Z) ∨
            (Method req = "tools/call" ∧ Code e = (-32602)%Z)) ∧
      (Method req ∉ known_methods → is_Some (Error resp))
  end.
Proof.
  assert (∀ m, m ∈ known_methods →
            (m ∉ known_methods) → is_Some (@None RPCError)) as Hknown by done.
  unfold handle.
  destruct (String.eqb_spec (Method req) "initialize") as [Hm|H1].
  { rewrite Hm. simpl. split_and!; try done.
    all: try (split; [done|by intros [? ?]]).
    all: apply Hknown; apply list_elem_of_here. }
  destruct (String.eqb_spec (Method req) "notifications/initialized") as [Hm|H2].
  { by rewrite Hm. }
  destruct (String.eqb_spec (Method req) "tools/list") as [Hm|H3].
  { rewrite Hm. simpl. split_and!; try done.
    all: try (split; [done|by intros [? ?]]).
    all: apply Hknown; do 2 apply list_elem_of_further; apply list_elem_of_here. }
  destruct (String.eqb_spec (Method req) "tools/call") as [Hm|H4].
  { assert (Method req ∈ known_methods) as Hin
      by (rewrite Hm; do 3 apply list_elem_of_further; apply list_elem_of_here).
    assert (∀ c msg e, Some (mkRPCError c msg) = Some e → c = (-32602)%Z →
              ((Method req ∉ known_methods) ∧ Code e = (-32601)%Z) ∨
              (Method req = "tools/call" ∧ Code e = (-32602)%Z)) as Herr.
    { intros c msg e [= <-] ->. by right. }
    destruct (parse_params (Params req)) as [params|err]; simpl.
    - destruct (tools s !! Name params) as [handler|]; simpl.
      + destruct (handler (Arguments params) (mgr s)) as [m [result|err]]; simpl.
        all: split_and!; try done.
        all: try (split; [done|by intros [? ?]]).
        all: by apply Hknown.
      + split_and!; try done.
        all: try (split; [eauto|done]).
        all: try (intros e He; by eapply Herr).
        all: eauto.
    - split_and!; try done.
      all: try (split; [eauto|done]).
      all: try (intros e He; by eapply Herr).
      all: eauto. }
  simpl. split_and!; try done.
  all: try (split; [eauto|done]).
  all: try (by eauto).
  intros e [= <-]. left. split; [|done].
  unfold known_methods. intros Hin.
  repeat (apply elem_of_cons in Hin as [?|Hin]; [done|]).
  by apply elem_of_nil in Hin.
Qed.

End HandleFacts.

Lemma matchFilter_incomparable_witness :
  Filter.matchFilter (λ _, "") (λ _, 0%float) None Filter.sample_node_data
    (Filter.mkFilter "status" "lt" (VInt KInt 3)) = true ∧
  Filter.matchFilter (λ _, "") (λ _, 0%float) None Filter.sample_node_data
    (Filter.mkFilter "status" "gt" (VInt KInt 3)) = false.
Proof.
  destruct (matchFilter_incomparable (λ _, "") (λ _, 0%float) None Filter.sample_node_data
              "status" (VInt KInt 3)) as [H1 H2].
  destruct H2 as [Hinc _]; [by left|].
  destruct (H1 Hinc) as (Hgt & _ & Hlt & _). by split.
Defined.

(** ** api/manager.go: Remove *)

Module ApiRemove.
Import api.

(** The request's [RemoveEdge]: the name is the graph method's here. *)
Record RemoveEdge_ := mkRemoveEdge { From : string; To : string }.

Record RemoveRequest := mkRemoveRequest {
  Graph_ : string;
  Nodes_ : list string;
  Edges_ : list RemoveEdge_
}.

(** The counters are Go ints; they count rounds of a loop over a slice. *)
Record RemoveResult := mkRemoveResult { NodesRemoved : Z; EdgesRemoved : Z }.

Definition remove_node (ord : MapOrder) (acc : Graph NodeData EdgeData * Z) (id : string)
  : Graph NodeData EdgeData * Z :=
  let '(g, n) := acc in
  if HasNode g id then (RemoveNode ord g id, (n + 1)%Z) else (g, n).

Definition remove_edge (acc : Graph NodeData EdgeData * Z) (e : RemoveEdge_)
  : Graph NodeData EdgeData * Z :=
  let '(g, n) := acc in
  if HasEdge g (From e) (To e) then (RemoveEdge g (From e) (To e), (n + 1)%Z) else (g, n).

Definition Remove (ord : MapOrder) (m : Manager) (req : RemoveRequest)
  : Manager * (RemoveResult + ApiError) :=
  match getGraph m (Graph_ req) with
  | inr err => (m, inr err)
  | inl g =>
      let '(g, nodesRemoved) := foldl (remove_node ord) (g, 0%Z) (Nodes_ req) in
      let '(g, edgesRemoved) := foldl remove_edge (g, 0%Z) (Edges_ req) in
      (mkManager (dir m) (<[Graph_ req := g]> (graphs m)),
       inl (mkRemoveResult nodesRemoved edgesRemoved))
  end.

End ApiRemove.

Section RemoveFacts.
Import api ApiRemove.
Implicit Types g : Graph NodeData EdgeData.

Lemma remove_nodes_spec ord (l : list string) : ∀ g n,
  wf g →
  ∃ g' n',
    foldl (remove_node ord) (g, n) l = (g', n') ∧ wf g' ∧
    Directed g' = Directed g ∧
    (∀ x, nodes g' !! x = if bool_decide (x ∈ l) then None else nodes g !! x) ∧
    (∀ a b, inner (out g') a !! b =
            if bool_decide (a ∈ l ∨ b ∈ l) then None else inner (out g) a !! b) ∧
    (n' - n = Z.of_nat (Order g) - Z.of_nat (Order g'))%Z.
Proof.
  induction l as [|id l IH]; intros g n Hwf.
  { exists g, n. split_and!; try done; try lia.
    all: intros; rewrite bool_decide_eq_false_2; [done|].
    all: rewrite ?elem_of_nil; tauto. }
  cbn [foldl]. unfold remove_node at 2.
  assert (∀ a b, inner (out g) a !! b = None ∨ (is_Some (nodes g !! a) ∧ is_Some (nodes g !! b)))
    as Hends.
  { intros a b. destruct (inner (out g) a !! b) as [e|] eqn:He; [right|by left].
    split; [by eapply wf_edge_from_node|by destruct (wf_edge_ends g Hwf a b e He) as (_&_&?)]. }
  destruct (HasNode g id) eqn:Hid.
  - destruct (IH (RemoveNode ord g id) (n + 1)%Z (wf_RemoveNode ord g id Hwf))
      as (g' & n' & -> & Hwf' & Hd & Hn & Ho & Hc).
    destruct (RemoveNode_frame ord g id) as (Fd & Fnm & Fem).
    exists g', n'. split_and!; try congruence.
    + intros x. rewrite Hn, RemoveNode_nodes.
      destruct (decide (x ∈ l)) as [Hx|Hx].
      * rewrite !bool_decide_eq_true_2; [done|by right|done].
      * rewrite (bool_decide_eq_false_2 _ Hx). destruct (decide (x = id)) as [->|Hne].
        -- rewrite lookup_delete_eq. by rewrite bool_decide_eq_true_2 by (by left).
        -- rewrite lookup_delete_ne by done.
           by rewrite bool_decide_eq_false_2 by (by intros [?|?]%elem_of_cons).
    + intros a b. rewrite Ho, RemoveNode_out by done.
      destruct (decide (a ∈ l ∨ b ∈ l)) as [Hab|Hab].
      * rewrite !bool_decide_eq_true_2; [done| |done].
        destruct Hab; [left|right]; by right.
      * rewrite (bool_decide_eq_false_2 _ Hab).
        destruct (decide (a = id ∨ b = id)) as [Hi|Hi].
        -- rewrite bool_decide_eq_true_2; [done|]. destruct Hi as [-> | ->]; [left|right]; by left.
        -- rewrite bool_decide_eq_false_2; [done|].
           intros [[?|?]%elem_of_cons|[?|?]%elem_of_cons]; tauto.
    + unfold Order in *. rewrite RemoveNode_nodes in Hc.
      apply HasNode_true in Hid. rewrite map_size_delete_Some in Hc by done.
      assert (size (nodes g) ≠ 0).
      { intros H0. apply map_size_empty_inv in H0. rewrite H0, lookup_empty in Hid.
        by destruct Hid. }
      lia.
  - destruct (IH g n Hwf) as (g' & n' & -> & Hwf' & Hd & Hn & Ho & Hc).
    apply HasNode_false in Hid.
    exists g', n'. split_and!; try done.
    + intros x. rewrite Hn. destruct (decide (x ∈ l)) as [Hx|Hx].
      * rewrite !bool_decide_eq_true_2; [done|by right|done].
      * rewrite (bool_decide_eq_false_2 _ Hx). destruct (decide (x = id)) as [->|Hne].
        -- by rewrite bool_decide_eq_true_2 by (by left).
        -- by rewrite bool_decide_eq_false_2 by (by intros [?|?]%elem_of_cons).
    + intros a b. rewrite Ho. destruct (decide (a ∈ l ∨ b ∈ l)) as [Hab|Hab].
      * rewrite !bool_decide_eq_true_2; [done| |done].
        destruct Hab; [left|right]; by right.
      * rewrite (bool_decide_eq_false_2 _ Hab).
        destruct (decide (a = id ∨ b = id)) as [Hi|Hi].
        -- rewrite bool_decide_eq_true_2;
             [|destruct Hi as [-> | ->]; [left|right]; by left].
           destruct (Hends a b) as [?|[[? Ha] [? Hb]]]; [done|].
           destruct Hi as [-> | ->]; congruence.
        -- rewrite bool_decide_eq_false_2; [done|].
           intros [[?|?]%elem_of_cons|[?|?]%elem_of_cons]; tauto.
Qed.

(** The request lists the edge from [a] to [b], in either direction when the
    graph is undirected. *)
Definition edge_listed (d : bool) (l : list RemoveEdge_) (a b : string) : Prop :=
  mkRemoveEdge a b ∈ l ∨ (d = false ∧ mkRemoveEdge b a ∈ l).

Lemma remove_edges_spec (l : list RemoveEdge_) : ∀ g n,
  wf g →
  ∃ g' n',
    foldl remove_edge (g, n) l = (g', n') ∧ wf g' ∧
    Directed g' = Directed g ∧ nodes g' = nodes g ∧
    (∀ a b, inner (out g') a !! b = None ↔
            inner (out g) a !! b = None ∨ edge_listed (Directed g) l a b) ∧
    (∀ a b e, inner (out g') a !! b = Some e → inner (out g) a !! b = Some e) ∧
    (n ≤ n' ≤ n + Z.of_nat (length l))%Z.
Proof.
  induction l as [|[from to] l IH]; intros g n Hwf.
  { exists g, n. split_and!; try done; try (simpl; lia).
    intros a b. split; [by left|]. intros [?|[?%elem_of_nil|[_ ?%elem_of_nil]]]; done. }
  cbn [foldl]. unfold remove_edge at 2. cbn [From To].
  assert (∀ a b, edge_listed (Directed g) (mkRemoveEdge from to :: l) a b ↔
                 ((a = from ∧ b = to) ∨ (Directed g = false ∧ a = to ∧ b = from)) ∨
                 edge_listed (Directed g) l a b) as Hlisted.
  { intros a b. unfold edge_listed. rewrite !elem_of_cons. split.
    - intros [[[= -> ->]|?]|[Hd [[= -> ->]|?]]]; eauto.
    - intros [[[-> ->]|(Hd & -> & ->)]|[?|[? ?]]]; eauto 6. }
  destruct (HasEdge g from to) eqn:He.
  - destruct (IH (RemoveEdge g from to) (n + 1)%Z (wf_RemoveEdge g from to Hwf))
      as (g' & n' & -> & Hwf' & Hd & Hn & Ho & Hsub & Hc).
    destruct (RemoveEdge_frame g from to) as (Fd & Fn & Fnm & Fem).
    exists g', n'. split_and!; try congruence.
    + intros a b. rewrite Ho, Hlisted, Fd, RemoveEdge_out.
      case_decide as Hab; [tauto|]. tauto.
    + intros a b e Hab. apply Hsub in Hab. rewrite RemoveEdge_out in Hab.
      by case_decide.
    + simpl. lia.
    + simpl. lia.
  - destruct (IH g n Hwf) as (g' & n' & -> & Hwf' & Hd & Hn & Ho & Hsub & Hc).
    exists g', n'. split_and!; try done; [|lia|simpl; lia].
    intros a b. rewrite Ho, Hlisted. split; [tauto|].
    intros [?|[[[-> ->]|(Hdir & -> & ->)]|?]]; [tauto| | |tauto].
    + left. by apply HasEdge_None.
    + left. apply HasEdge_None in He.
      destruct (inner (out g) to !! from) as [e|] eqn:Hrev; [|done].
      rewrite (wf_undirected g Hwf Hdir _ _ _ Hrev) in He. done.
Qed.

(** X28. [Remove] on a graph that is not open fails and changes nothing.
    On an open graph that keeps the invariant it leaves exactly the nodes
    that are not listed, and exactly the edges that are not listed (in
    either direction when the graph is undirected) and touch no listed node;
    the count of removed nodes is the drop of the node count, and that of
    removed edges is at most the number of edges listed; the invariant is
    kept. *)
Theorem Remove_result ord (m : Manager) (req : RemoveRequest) :
  (graphs m !! Graph_ req = None →
   Remove ord m req = (m, inr (GraphNotOpen (Graph_ req)))) ∧
  (∀ g, graphs m !! Graph_ req = Some g → wf g →
     ∃ g' res,
       Remove ord m req =
         (mkManager (dir m) (<[Graph_ req := g']> (graphs m)), inl res) ∧
       wf g' ∧ Directed g' = Directed g ∧
       (∀ x, HasNode g' x = true ↔ HasNode g x = true ∧ x ∉ Nodes_ req) ∧
       (∀ a b, HasEdge g' a b = true ↔
               HasEdge g a b = true ∧ (a ∉ Nodes_ req) ∧ (b ∉ Nodes_ req) ∧
               ¬ edge_listed (Directed g) (Edges_ req) a b) ∧
       NodesRemoved res = (Z.of_nat (Order g) - Z.of_nat (Order g'))%Z ∧
       (0 ≤ EdgesRemoved res ≤ Z.of_nat (length (Edges_ req)))%Z).
Proof.
  unfold Remove, getGraph. split.
  - by intros ->.
  - intros g -> Hwf.
    destruct (remove_nodes_spec ord (Nodes_ req) g 0%Z Hwf)
      as (g1 & n1 & -> & Hwf1 & Hd1 & Hn1 & Ho1 & Hc1).
    destruct (remove_edges_spec (Edges_ req) g1 0%Z Hwf1)
      as (g2 & n2 & -> & Hwf2 & Hd2 & Hn2 & Ho2 & Hsub2 & Hc2).
    exists g2, (mkRemoveResult n1 n2).
    split_and!; [done|done|congruence| | | |simpl; lia|simpl; lia].
    + intros x. rewrite !HasNode_true, Hn2, Hn1. case_bool_decide as Hx.
      * split; [by intros [? ?]|tauto].
      * tauto.
    + intros a b. rewrite !HasEdge_is_Some, <- !not_eq_None_Some, Ho2, Ho1, Hd1.
      case_bool_decide as Hab.
      * split; [tauto|]. intros (_ & Ha & Hb & _). tauto.
      * split; [|tauto]. intros Hnot. split_and!; tauto.
    + simpl. unfold Order in *. rewrite Hn2. lia.
Qed.

End RemoveFacts.

(** ** api/upsert.go *)

Module ApiUpsert.
Import api.

(** [Meta] is a Go map: nil and empty both have length 0. *)
Record UpsertNode := mkUpsertNode {
  ID : string;
  NLabel : string;
  NStatus : string;
  NMeta : gmap string value;
  NDelete : list string
}.

Record UpsertEdge := mkUpsertEdge {
  From : string;
  To : string;
  ELabel_ : string;
  Weight : float;
  EMeta : gmap string value;
  EDelete : list string
}.

Record UpsertRequest := mkUpsertRequest {
  Graph_ : string;
  Nodes_ : list UpsertNode;
  Edges_ : list UpsertEdge
}.

(** The counters are Go ints; each counts rounds of loops over the request. *)
Record UpsertResult := mkUpsertResult {
  NodesCreated : Z;
  NodesUpdated : Z;
  EdgesCreated : Z;
  EdgesUpdated : Z;
  MetaKeysSet : Z;
  MetaKeysDeleted : Z
}.

Definition add_NodesCreated (r : UpsertResult) : UpsertResult :=
  mkUpsertResult (NodesCreated r + 1) (NodesUpdated r) (EdgesCreated r) (EdgesUpdated r)
                 (MetaKeysSet r) (MetaKeysDeleted r).
Definition add_NodesUpdated (r : UpsertResult) : UpsertResult :=
  mkUpsertResult (NodesCreated r) (NodesUpdated r + 1) (EdgesCreated r) (EdgesUpdated r)
                 (MetaKeysSet r) (MetaKeysDeleted r).
Definition add_EdgesCreated (r : UpsertResult) : UpsertResult :=
  mkUpsertResult (NodesCreated r) (NodesUpdated r) (EdgesCreated r + 1) (EdgesUpdated r)
                 (MetaKeysSet r) (MetaKeysDeleted r).
Definition add_EdgesUpdated (r : UpsertResult) : UpsertResult :=
  mkUpsertResult (NodesCreated r) (NodesUpdated r) (EdgesCreated r) (EdgesUpdated r + 1)
                 (MetaKeysSet r) (MetaKeysDeleted r).
Definition add_Meta (r : UpsertResult) (set deleted : Z) : UpsertResult :=
  mkUpsertResult (NodesCreated r) (NodesUpdated r) (EdgesCreated r) (EdgesUpdated r)
                 (MetaKeysSet r + set) (MetaKeysDeleted r + deleted).

(** [setMeta] and [deleteMeta] on a store that is not nil: the store after
    the writes, and the count returned. *)
Definition setMeta (ord : MapOrder) (store : Store) (meta : gmap string value) : Store * Z :=
  if (size meta =? 0)%nat then (store, 0%Z)
  else foldl (λ '(store, count) kv, (StoreOps.Set_ store kv.1 kv.2, (count + 1)%Z))
             (store, 0%Z) (range ord meta).

Definition deleteMeta (store : Store) (keys : list string) : Store * Z :=
  if (length keys =? 0)%nat then (store, 0%Z)
  else foldl (λ '(store, count) k,
                let '(store', was) := StoreOps.Delete store k in
                if was then (store', (count + 1)%Z) else (store', count))
             (store, 0%Z) keys.

(** Writes through the pointer [g.NodeMeta(id)] returned; for a nil pointer
    both functions return 0. *)
Definition with_NodeMeta (g : Graph NodeData EdgeData) (id : string)
    (f : Store → Store * Z) : Graph NodeData EdgeData * Z :=
  match NodeMeta g id with
  | (g1, Some s) => let '(s', n) := f s in (set_nodeMeta g1 (<[id := s']> (nodeMeta g1)), n)
  | (g1, None) => (g1, 0%Z)
  end.

Definition with_EdgeMeta (g : Graph NodeData EdgeData) (from to : string)
    (f : Store → Store * (Z * Z)) : Graph NodeData EdgeData * (Z * Z) :=
  match EdgeMeta g from to with
  | (g1, Some s) =>
      let '(a, b) := edgeMetaKey g from to in
      let '(s', n) := f s in
      (set_edgeMeta g1 (inner_insert (edgeMeta g1) a b s'), n)
  | (g1, None) => (g1, (0%Z, 0%Z))
  end.

(** The part of the loop over the nodes that creates or updates the node. *)
Definition upsert_node_data (acc : Graph NodeData EdgeData * UpsertResult) (un : UpsertNode)
  : Graph NodeData EdgeData * UpsertResult :=
  let '(g, res) := acc in
  match GetNode g (ID un) with
  | Some existing =>
      (* Update: only overwrite non-empty fields. *)
      let nd := Node.Data existing in
      let c1 := negb (String.eqb (NLabel un) "") && negb (String.eqb (NLabel un) (Label nd)) in
      let nd := if c1 then mkNodeData (NLabel un) (Status nd) else nd in
      let c2 := negb (String.eqb (NStatus un) "") && negb (String.eqb (NStatus un) (Status nd)) in
      let nd := if c2 then mkNodeData (Label nd) (NStatus un) else nd in
      if c1 || c2 then (AddNode g (ID un) nd, add_NodesUpdated res) else (g, res)
  | None =>
      (AddNode g (ID un) (mkNodeData (NLabel un) (NStatus un)), add_NodesCreated res)
  end.

Definition upsert_node (ord : MapOrder) (acc : Graph NodeData EdgeData * UpsertResult)
    (un : UpsertNode) : Graph NodeData EdgeData * UpsertResult :=
  if String.eqb (ID un) "" then acc
  else
    let '(g, res) := upsert_node_data acc un in
    (* Metadata operations. *)
    let '(g, set) := with_NodeMeta g (ID un) (λ s, setMeta ord s (NMeta un)) in
    let '(g, deleted) := with_NodeMeta g (ID un) (λ s, deleteMeta s (NDelete un)) in
    (g, add_Meta res set deleted).

(** [if !g.HasNode(id) { g.AddNode(id, NodeData{}); res.NodesCreated++ }] *)
Definition ensure_node (acc : Graph NodeData EdgeData * UpsertResult) (id : string)
  : Graph NodeData EdgeData * UpsertResult :=
  let '(g, res) := acc in
  if negb (HasNode g id) then (AddNode g id (mkNodeData "" ""), add_NodesCreated res)
  else acc.

(** The part of the loop over the edges that creates or updates the edge. *)
Definition upsert_edge_data (acc : Graph NodeData EdgeData * UpsertResult) (ue : UpsertEdge)
  : Graph NodeData EdgeData * UpsertResult :=
  let '(g, res) := acc in
  if HasEdge g (From ue) (To ue) then
    (* Update existing edge. *)
    let e := default (Edge.mk "" "" (mkEdgeData "") 0%float) (GetEdge g (From ue) (To ue)) in
    let ed := Edge.Data e in
    let w := Edge.Weight e in
    let c1 := negb (String.eqb (ELabel_ ue) "") && negb (String.eqb (ELabel_ ue) (ELabel ed)) in
    let ed := if c1 then mkEdgeData (ELabel_ ue) else ed in
    let c2 := negb (PrimFloat.eqb (Weight ue) 0%float) && negb (PrimFloat.eqb (Weight ue) w) in
    let w := if c2 then Weight ue else w in
    if c1 || c2 then
      let g := RemoveEdge g (From ue) (To ue) in
      ((AddEdge g (From ue) (To ue) ed w).1, add_EdgesUpdated res)
    else (g, res)
  else
    ((AddEdge g (From ue) (To ue) (mkEdgeData (ELabel_ ue)) (Weight ue)).1,
     add_EdgesCreated res).

Definition upsert_edge (ord : MapOrder) (acc : Graph NodeData EdgeData * UpsertResult)
    (ue : UpsertEdge) : Graph NodeData EdgeData * UpsertResult :=
  if String.eqb (From ue) "" || String.eqb (To ue) "" then acc
  else
    let acc := ensure_node acc (From ue) in
    let acc := ensure_node acc (To ue) in
    let '(g, res) := upsert_edge_data acc ue in
    (* Edge metadata. *)
    let '(g, (set, deleted)) :=
      with_EdgeMeta g (From ue) (To ue)
        (λ s, let '(s1, n1) := setMeta ord s (EMeta ue) in
              let '(s2, n2) := deleteMeta s1 (EDelete ue) in
              (s2, (n1, n2))) in
    (g, add_Meta res set deleted).

Definition Upsert (ord : MapOrder) (m : Manager) (req : UpsertRequest)
  : Manager * (UpsertResult + ApiError) :=
  match getGraph m (Graph_ req) with
  | inr err => (m, inr err)
  | inl g =>
      let res := mkUpsertResult 0 0 0 0 0 0 in
      (* Process nodes. *)
      let acc := foldl (upsert_node ord) (g, res) (Nodes_ req) in
      (* Process edges: auto-create endpoint nodes if missing. *)
      let '(g, res) := foldl (upsert_edge ord) acc (Edges_ req) in
      (mkManager (dir m) (<[Graph_ req := g]> (graphs m)), inl res)
  end.

End ApiUpsert.

Section UpsertFacts.
Import api ApiUpsert.
Implicit Types g : Graph NodeData EdgeData.
Implicit Types r : UpsertResult.

(** How the graph and the count of created nodes move in part of an upsert:
    nothing is lost, what is new is among [P] (nodes) and [Q] (edges), and
    the count moves with the number of nodes. *)
Record upsert_rel (P : string → Prop) (Q : string → string → Prop) g r g' r' : Prop := {
  ur_wf : wf g';
  ur_directed : Directed g' = Directed g;
  ur_nodes_keep : ∀ x, HasNode g x = true → HasNode g' x = true;
  ur_edges_keep : ∀ a b, HasEdge g a b = true → HasEdge g' a b = true;
  ur_nodes_new : ∀ x, HasNode g' x = true → HasNode g x = true ∨ P x;
  ur_edges_new : ∀ a b, HasEdge g' a b = true →
    HasEdge g a b = true ∨ Q a b ∨ (Directed g = false ∧ Q b a);
  ur_count : (NodesCreated r' - NodesCreated r = Z.of_nat (Order g') - Z.of_nat (Order g))%Z
}.

Lemma upsert_rel_refl P Q g r : wf g → upsert_rel P Q g r g r.
Proof. intros Hwf. split; auto. lia. Qed.

Lemma upsert_rel_trans P Q g1 r1 g2 r2 g3 r3 :
  upsert_rel P Q g1 r1 g2 r2 → upsert_rel P Q g2 r2 g3 r3 → upsert_rel P Q g1 r1 g3 r3.
Proof.
  intros [A1 A2 A3 A4 A5 A6 A7] [B1 B2 B3 B4 B5 B6 B7]. split.
  - done.
  - congruence.
  - auto.
  - auto.
  - intros x Hx. destruct (B5 x Hx) as [H|H]; auto.
  - intros a b Hab. rewrite A2 in B6. destruct (B6 a b Hab) as [H|H]; auto.
  - lia.
Qed.

Lemma upsert_rel_weaken (P P' : string → Prop) (Q Q' : string → string → Prop) g r g' r' :
  (∀ x, P x → P' x) → (∀ a b, Q a b → Q' a b) →
  upsert_rel P Q g r g' r' → upsert_rel P' Q' g r g' r'.
Proof.
  intros HP HQ [A1 A2 A3 A4 A5 A6 A7]. split; try done.
  - intros x Hx. destruct (A5 x Hx); auto.
  - intros a b Hab. destruct (A6 a b Hab) as [?|[?|[? ?]]]; auto.
Qed.

(** The same nodes and edges, whatever the stores. *)
Lemma upsert_rel_same_topology P Q g r g' r' :
  wf g → Directed g' = Directed g → nodes g' = nodes g → out g' = out g → in_ g' = in_ g →
  NodesCreated r' = NodesCreated r → upsert_rel P Q g r g' r'.
Proof.
  intros Hwf Hd Hn Ho Hi Hc. split.
  - by apply (wf_same_topology g).
  - done.
  - intros x. unfold HasNode. by rewrite Hn.
  - intros a b. unfold HasEdge. by rewrite Ho.
  - intros x. unfold HasNode. rewrite Hn. auto.
  - intros a b. unfold HasEdge. rewrite Ho. auto.
  - unfold Order. rewrite Hn. lia.
Qed.

Lemma upsert_rel_AddNode P Q g r id d r' :
  wf g → P id →
  NodesCreated r' = (NodesCreated r + if HasNode g id then 0 else 1)%Z →
  upsert_rel P Q g r (AddNode g id d) r'.
Proof.
  intros Hwf HP Hc. split.
  - by apply wf_AddNode.
  - done.
  - intros x. rewrite !HasNode_true. simpl. intros Hx.
    destruct (decide (x = id)) as [->|Hne]; [rewrite lookup_insert_eq; eauto|].
    by rewrite lookup_insert_ne.
  - intros a b. rewrite !HasEdge_is_Some. simpl. by rewrite inner_make_if_nil.
  - intros x. rewrite !HasNode_true. simpl.
    destruct (decide (x = id)) as [->|Hne]; [auto|]. rewrite lookup_insert_ne by done. auto.
  - intros a b. rewrite !HasEdge_is_Some. simpl. rewrite inner_make_if_nil. auto.
  - rewrite Hc. unfold Order. simpl. destruct (HasNode g id) eqn:Hid.
    + apply HasNode_true in Hid. rewrite map_size_insert_Some by done. lia.
    + apply HasNode_false in Hid. rewrite map_size_insert_None by done. lia.
Qed.

Lemma with_NodeMeta_topology g id f :
  let g' := (with_NodeMeta g id f).1 in
  Directed g' = Directed g ∧ nodes g' = nodes g ∧ out g' = out g ∧ in_ g' = in_ g.
Proof.
  unfold with_NodeMeta, NodeMeta. destruct (HasNode g id); [|done].
  destruct (nodeMeta g !! id) as [s|]; simpl; by destruct (f _).
Qed.

Lemma with_EdgeMeta_topology g from to f :
  let g' := (with_EdgeMeta g from to f).1 in
  Directed g' = Directed g ∧ nodes g' = nodes g ∧ out g' = out g ∧ in_ g' = in_ g.
Proof.
  unfold with_EdgeMeta, EdgeMeta. destruct (HasEdge g from to); [|done].
  destruct (edgeMetaKey g from to) as [a b].
  destruct (inner (edgeMeta g) a !! b) as [s|]; simpl; by destruct (f _).
Qed.

Lemma upsert_node_data_rel (Q : string → string → Prop) g r un :
  wf g →
  ∃ g' r',
    upsert_node_data (g, r) un = (g', r') ∧
    upsert_rel (λ x, x = ID un) Q g r g' r' ∧ HasNode g' (ID un) = true.
Proof.
  intros Hwf. unfold upsert_node_data.
  assert (∀ d, HasNode (AddNode g (ID un) d) (ID un) = true) as Hadded.
  { intros d. apply HasNode_true. simpl. rewrite lookup_insert_eq. eauto. }
  destruct (GetNode g (ID un)) as [existing|] eqn:Hget.
  - assert (HasNode g (ID un) = true) as Hn by (apply HasNode_true; eauto).
    match goal with |- context [if ?c then _ else (g, r)] => destruct c end.
    + eexists _, _. split; [done|]. split; [|apply Hadded].
      apply upsert_rel_AddNode; [done|done|]. rewrite Hn. simpl. lia.
    + exists g, r. split; [done|]. split; [by apply upsert_rel_refl|done].
  - assert (HasNode g (ID un) = false) as Hn by (by apply HasNode_false).
    eexists _, _. split; [done|]. split; [|apply Hadded].
    apply upsert_rel_AddNode; [done|done|]. rewrite Hn. simpl. lia.
Qed.

Lemma upsert_node_rel ord (Q : string → string → Prop) g r un :
  wf g →
  ∃ g' r',
    upsert_node ord (g, r) un = (g', r') ∧
    upsert_rel (λ x, x ≠ "" ∧ x = ID un) Q g r g' r' ∧
    (ID un ≠ "" → HasNode g' (ID un) = true).
Proof.
  intros Hwf. unfold upsert_node.
  destruct (String.eqb_spec (ID un) "") as [Heq|Hne].
  { exists g, r. split; [done|]. split; [by apply upsert_rel_refl|done]. }
  destruct (upsert_node_data_rel Q g r un Hwf) as (g1 & r1 & -> & Hrel & Hhas).
  pose proof (with_NodeMeta_topology g1 (ID un) (λ s, setMeta ord s (NMeta un))) as T1.
  destruct (with_NodeMeta g1 (ID un) (λ s, setMeta ord s (NMeta un))) as [g2 n2].
  pose proof (with_NodeMeta_topology g2 (ID un) (λ s, deleteMeta s (NDelete un))) as T2.
  destruct (with_NodeMeta g2 (ID un) (λ s, deleteMeta s (NDelete un))) as [g3 n3].
  simpl in T1, T2. destruct T1 as (A1 & A2 & A3 & A4), T2 as (B1 & B2 & B3 & B4).
  eexists _, _. split; [done|]. split.
  - eapply upsert_rel_trans.
    + eapply upsert_rel_weaken; [| |exact Hrel]; [by intros x ->|done].
    + apply upsert_rel_same_topology; [apply Hrel|congruence..|done].
  - intros _. unfold HasNode in *. by rewrite B2, A2.
Qed.

Lemma ensure_node_rel (Q : string → string → Prop) g r id :
  wf g →
  ∃ g' r',
    ensure_node (g, r) id = (g', r') ∧
    upsert_rel (λ x, x = id) Q g r g' r' ∧ HasNode g' id = true.
Proof.
  intros Hwf. unfold ensure_node. destruct (HasNode g id) eqn:Hn; simpl.
  - exists g, r. split; [done|]. split; [by apply upsert_rel_refl|done].
  - eexists _, _. split; [done|]. split.
    + apply upsert_rel_AddNode; [done|done|]. rewrite Hn. simpl. lia.
    + apply HasNode_true. simpl. rewrite lookup_insert_eq. eauto.
Qed.

Lemma upsert_edge_data_rel (P : string → Prop) g r ue :
  wf g → HasNode g (From ue) = true → HasNode g (To ue) = true →
  ∃ g' r',
    upsert_edge_data (g, r) ue = (g', r') ∧
    upsert_rel P (λ a b, a = From ue ∧ b = To ue) g r g' r' ∧
    HasEdge g' (From ue) (To ue) = true ∧
    (∀ x, HasNode g' x = HasNode g x).
Proof.
  intros Hwf Hf Ht. unfold upsert_edge_data.
  destruct (HasEdge g (From ue) (To ue)) eqn:He.
  - match goal with |- context [if ?c then _ else (g, r)] => destruct c end.
    2:{ exists g, r. split; [done|]. split; [by apply upsert_rel_refl|done]. }
    match goal with |- context [AddEdge _ _ _ ?ed ?w] => generalize ed, w end.
    intros ed w. eexists _, _. split; [done|].
    set (g1 := RemoveEdge g (From ue) (To ue)).
    destruct (RemoveEdge_frame g (From ue) (To ue)) as (R1 & R2 & _ & _). fold g1 in R1, R2.
    pose proof (AddEdge_frame g1 (From ue) (To ue) ed w) as F. cbv zeta in F.
    destruct F as (F1 & F2 & _ & _).
    assert (HasNode g1 (From ue) = true) as Hf1 by (by rewrite (HasNode_nodes g1 g)).
    assert (HasNode g1 (To ue) = true) as Ht1 by (by rewrite (HasNode_nodes g1 g)).
    assert (∀ a b, is_Some (inner (out (AddEdge g1 (From ue) (To ue) ed w).1) a !! b) ↔
                   is_Some (inner (out g) a !! b)) as Hsame.
    { intros a b. rewrite AddEdge_out by done.
      rewrite (RemoveEdge_out g (From ue) (To ue) a b : inner (out g1) a !! b = _), R1.
      apply HasEdge_is_Some in He as [e He].
      destruct (decide (Directed g = false ∧ a = To ue ∧ b = From ue)) as [(Hd & -> & ->)|H1].
      { rewrite (wf_undirected g Hwf Hd _ _ _ He). split; eauto. }
      destruct (decide (a = From ue ∧ b = To ue)) as [[-> ->]|H2].
      { rewrite He. split; eauto. }
      rewrite decide_False; [done|]. tauto. }
    assert (∀ x, HasNode (AddEdge g1 (From ue) (To ue) ed w).1 x = HasNode g x) as Hnodes.
    { intros x. apply HasNode_nodes. congruence. }
    split_and!.
    + split.
      * by apply wf_AddEdge, wf_RemoveEdge.
      * congruence.
      * intros x. by rewrite Hnodes.
      * intros a b. rewrite !HasEdge_is_Some. apply Hsame.
      * intros x. rewrite Hnodes. auto.
      * intros a b. rewrite !HasEdge_is_Some, Hsame. auto.
      * unfold Order. rewrite F2, R2. simpl. lia.
    + apply HasEdge_is_Some, Hsame. by apply HasEdge_is_Some.
    + done.
  - eexists _, _. split; [done|].
    pose proof (AddEdge_frame g (From ue) (To ue) (mkEdgeData (ELabel_ ue)) (Weight ue)) as F.
    cbv zeta in F. destruct F as (F1 & F2 & _ & _).
    assert (∀ a b,
              inner (out (AddEdge g (From ue) (To ue) (mkEdgeData (ELabel_ ue))
                            (Weight ue)).1) a !! b =
              if decide (Directed g = false ∧ a = To ue ∧ b = From ue)
              then Some (Edge.mk (To ue) (From ue) (mkEdgeData (ELabel_ ue)) (Weight ue))
              else if decide (a = From ue ∧ b = To ue)
                   then Some (Edge.mk (From ue) (To ue) (mkEdgeData (ELabel_ ue)) (Weight ue))
                   else inner (out g) a !! b) as Hout.
    { intros a b. by apply AddEdge_out. }
    assert (∀ x, HasNode (AddEdge g (From ue) (To ue) (mkEdgeData (ELabel_ ue))
                            (Weight ue)).1 x = HasNode g x) as Hnodes.
    { intros x. by apply HasNode_nodes. }
    split_and!.
    + split.
      * by apply wf_AddEdge.
      * done.
      * intros x. by rewrite Hnodes.
      * intros a b. rewrite !HasEdge_is_Some, Hout. repeat case_decide; eauto.
      * intros x. rewrite Hnodes. auto.
      * intros a b. rewrite !HasEdge_is_Some, Hout.
        destruct (decide (Directed g = false ∧ a = To ue ∧ b = From ue)) as [(Hd&->&->)|H1];
          [auto|].
        destruct (decide (a = From ue ∧ b = To ue)) as [[-> ->]|H2]; auto.
      * unfold Order. rewrite F2. simpl. lia.
    + apply HasEdge_is_Some. rewrite Hout. repeat case_decide; eauto; tauto.
    + done.
Qed.

(** The endpoints and the pair an entry of the request names, when neither
    endpoint is empty. *)
Definition names_end (ue : UpsertEdge) (x : string) : Prop :=
  From ue ≠ "" ∧ To ue ≠ "" ∧ (x = From ue ∨ x = To ue).

Definition names_pair (ue : UpsertEdge) (a b : string) : Prop :=
  From ue ≠ "" ∧ To ue ≠ "" ∧ a = From ue ∧ b = To ue.

Lemma upsert_edge_rel ord g r ue :
  wf g →
  ∃ g' r',
    upsert_edge ord (g, r) ue = (g', r') ∧
    upsert_rel (names_end ue) (names_pair ue) g r g' r' ∧
    (From ue ≠ "" → To ue ≠ "" → HasEdge g' (From ue) (To ue) = true).
Proof.
  intros Hwf. unfold upsert_edge.
  destruct (String.eqb_spec (From ue) "") as [Hf|Hf]; cbn [orb].
  { exists g, r. split; [done|]. split; [by apply upsert_rel_refl|done]. }
  destruct (String.eqb_spec (To ue) "") as [Ht|Ht]; cbn [orb].
  { exists g, r. split; [done|]. split; [by apply upsert_rel_refl|done]. }
  destruct (ensure_node_rel (names_pair ue) g r (From ue) Hwf) as (g1 & r1 & -> & Hr1 & Hn1).
  destruct (ensure_node_rel (names_pair ue) g1 r1 (To ue) (ur_wf _ _ _ _ _ _ Hr1))
    as (g2 & r2 & -> & Hr2 & Hn2).
  assert (HasNode g2 (From ue) = true) as Hn1' by (by apply (ur_nodes_keep _ _ _ _ _ _ Hr2)).
  destruct (upsert_edge_data_rel (names_end ue) g2 r2 ue (ur_wf _ _ _ _ _ _ Hr2) Hn1' Hn2)
    as (g3 & r3 & -> & Hr3 & He3 & _).
  match goal with |- context [with_EdgeMeta g3 ?a ?b ?f] =>
    pose proof (with_EdgeMeta_topology g3 a b f) as T;
    destruct (with_EdgeMeta g3 a b f) as [g4 [n1 n2]] end.
  simpl in T. destruct T as (T1 & T2 & T3 & T4).
  eexists _, _. split; [done|]. split.
  - eapply upsert_rel_trans; [|eapply upsert_rel_trans; [|eapply upsert_rel_trans]].
    + eapply upsert_rel_weaken; [| |exact Hr1]; [|done].
      intros x ->. unfold names_end. auto.
    + eapply upsert_rel_weaken; [| |exact Hr2]; [|done].
      intros x ->. unfold names_end. auto.
    + eapply upsert_rel_weaken; [| |exact Hr3]; [done|].
      intros a b [-> ->]. unfold names_pair. auto.
    + apply upsert_rel_same_topology; [apply Hr3|done..].
  - intros _ _. unfold HasEdge in *. by rewrite T3.
Qed.

Lemma upsert_nodes_fold ord (l : list UpsertNode) : ∀ g r,
  wf g →
  ∃ g' r',
    foldl (upsert_node ord) (g, r) l = (g', r') ∧
    upsert_rel (λ x, x ≠ "" ∧ x ∈ ID <$> l) (λ _ _, False) g r g' r' ∧
    (∀ un, un ∈ l → ID un ≠ "" → HasNode g' (ID un) = true).
Proof.
  induction l as [|un l IH]; intros g r Hwf.
  { exists g, r. split; [done|]. split; [by apply upsert_rel_refl|].
    by intros un ?%elem_of_nil. }
  cbn [foldl].
  destruct (upsert_node_rel ord (λ _ _, False) g r un Hwf) as (g1 & r1 & -> & Hr1 & Hn1).
  destruct (IH g1 r1 (ur_wf _ _ _ _ _ _ Hr1)) as (g2 & r2 & -> & Hr2 & Hn2).
  exists g2, r2. split; [done|]. split.
  - eapply upsert_rel_trans.
    + eapply upsert_rel_weaken; [| |exact Hr1]; [|done].
      intros x [Hx ->]. split; [done|]. rewrite fmap_cons. by left.
    + eapply upsert_rel_weaken; [| |exact Hr2]; [|done].
      intros x [Hx Hin]. split; [done|]. rewrite fmap_cons. by right.
  - intros un' [->|Hin]%elem_of_cons Hne; [|by apply Hn2].
    apply (ur_nodes_keep _ _ _ _ _ _ Hr2). by apply Hn1.
Qed.

Lemma upsert_edges_fold ord (l : list UpsertEdge) : ∀ g r,
  wf g →
  ∃ g' r',
    foldl (upsert_edge ord) (g, r) l = (g', r') ∧
    upsert_rel (λ x, ∃ ue, ue ∈ l ∧ names_end ue x)
               (λ a b, ∃ ue, ue ∈ l ∧ names_pair ue a b) g r g' r' ∧
    (∀ ue, ue ∈ l → From ue ≠ "" → To ue ≠ "" → HasEdge g' (From ue) (To ue) = true).
Proof.
  induction l as [|ue l IH]; intros g r Hwf.
  { exists g, r. split; [done|]. split; [by apply upsert_rel_refl|].
    by intros ue ?%elem_of_nil. }
  cbn [foldl].
  destruct (upsert_edge_rel ord g r ue Hwf) as (g1 & r1 & -> & Hr1 & Hn1).
  destruct (IH g1 r1 (ur_wf _ _ _ _ _ _ Hr1)) as (g2 & r2 & -> & Hr2 & Hn2).
  exists g2, r2. split; [done|]. split.
  - eapply upsert_rel_trans.
    + eapply upsert_rel_weaken; [| |exact Hr1].
      * intros x Hx. exists ue. split; [by left|done].
      * intros a b Hab. exists ue. split; [by left|done].
    + eapply upsert_rel_weaken; [| |exact Hr2].
      * intros x (ue' & Hin & Hx). exists ue'. split; [by right|done].
      * intros a b (ue' & Hin & Hab). exists ue'. split; [by right|done].
  - intros ue' [->|Hin]%elem_of_cons Hf Ht; [|by apply Hn2].
    apply (ur_edges_keep _ _ _ _ _ _ Hr2). by apply Hn1.
Qed.

(** X29. [Upsert] on a graph that is not open fails and changes nothing.
    On an open graph that keeps the invariant it keeps the invariant and
    loses no node and no edge; afterwards every listed node with a name and
    every listed edge with two named ends is in the graph; a node that is
    new is a listed node or an end of a listed edge, an edge that is new is
    a listed one (in either direction when the graph is undirected), and no
    node with the empty name is ever made; the count of created nodes is
    the rise of the node count. *)
Theorem Upsert_result ord (m : Manager) (req : UpsertRequest) :
  (graphs m !! Graph_ req = None →
   Upsert ord m req = (m, inr (GraphNotOpen (Graph_ req)))) ∧
  (∀ g, graphs m !! Graph_ req = Some g → wf g →
     ∃ g' res,
       Upsert ord m req =
         (mkManager (dir m) (<[Graph_ req := g']> (graphs m)), inl res) ∧
       wf g' ∧ Directed g' = Directed g ∧
       (∀ x, HasNode g x = true → HasNode g' x = true) ∧
       (∀ a b, HasEdge g a b = true → HasEdge g' a b = true) ∧
       (∀ un, un ∈ Nodes_ req → ID un ≠ "" → HasNode g' (ID un) = true) ∧
       (∀ ue, ue ∈ Edges_ req → From ue ≠ "" → To ue ≠ "" →
              HasEdge g' (From ue) (To ue) = true) ∧
       (∀ x, HasNode g' x = true →
             HasNode g x = true ∨
             x ≠ "" ∧ (x ∈ ID <$> Nodes_ req ∨ ∃ ue, ue ∈ Edges_ req ∧ names_end ue x)) ∧
       (∀ a b, HasEdge g' a b = true →
               HasEdge g a b = true ∨
               (∃ ue, ue ∈ Edges_ req ∧ names_pair ue a b) ∨
               (Directed g = false ∧ ∃ ue, ue ∈ Edges_ req ∧ names_pair ue b a)) ∧
       NodesCreated res = (Z.of_nat (Order g') - Z.of_nat (Order g))%Z).
Proof.
  unfold Upsert, getGraph. split; [by intros ->|].
  intros g -> Hwf.
  destruct (upsert_nodes_fold ord (Nodes_ req) g (mkUpsertResult 0 0 0 0 0 0) Hwf)
    as (g1 & r1 & -> & Hr1 & Hn1).
  destruct (upsert_edges_fold ord (Edges_ req) g1 r1 (ur_wf _ _ _ _ _ _ Hr1))
    as (g2 & r2 & -> & Hr2 & Hn2).
  exists g2, r2.
  destruct Hr1 as [A1 A2 A3 A4 A5 A6 A7], Hr2 as [B1 B2 B3 B4 B5 B6 B7].
  split_and!; [done|done|congruence|auto|auto| |done| | |simpl in A7; lia].
  - intros un Hin Hne. apply B3. by apply Hn1.
  - intros x Hx. destruct (B5 x Hx) as [H1|(ue & Hin & Hend)].
    + destruct (A5 x H1) as [?|[? ?]]; auto.
    + right. split; [|eauto]. destruct Hend as (Hf & Ht & [-> | ->]); done.
  - intros a b Hab. rewrite A2 in B6.
    destruct (B6 a b Hab) as [H1|[H1|[Hd H1]]]; [|auto|auto].
    destruct (A6 a b H1) as [?|[[]|[_ []]]]. auto.
Qed.

End UpsertFacts.

(** ** algo.go: ConnectedComponents *)

Section Components.
Context {N E : Type}.
Implicit Types g : Graph N E.

(** [adj[a][b] = true]; the inner maps hold only true, so each is the set of
    its keys.  Writing to [adj[a]] when it is nil panics: [None]. *)
Definition adj_add (adj : gmap string (gset string)) (a b : string)
  : option (gmap string (gset string)) :=
  match adj !! a with
  | Some s => Some (<[a := {[b]} ∪ s]> adj)
  | None => None
  end.

(** The undirected view. *)
Definition build_adj (ord : MapOrder) g : option (gmap string (gset string)) :=
  let adj := foldl (λ adj n, <[Node.ID n := ∅]> adj) ∅ (Nodes ord g) in
  foldl (λ adj e,
           match adj with
           | Some adj =>
               match adj_add adj (Edge.From e) (Edge.To e) with
               | Some adj => adj_add adj (Edge.To e) (Edge.From e)
               | None => None
               end
           | None => None
           end)
        (Some adj) (Edges ord g).

(** [for nb := range adj[id]]: a missing [id] reads as the nil map. *)
Definition adj_range (ord : MapOrder) (adj : gmap string (gset string)) (id : string)
  : list string :=
  (range ord (gset_to_gmap true (default ∅ (adj !! id)))).*1.

(** The loop that collects one component. *)
Fixpoint component_loop (ord : MapOrder) (adj : gmap string (gset string)) (fuel : nat)
    (visited : gset string) (queue comp : list string) : gset string * list string :=
  match fuel with
  | 0 => (visited, comp)
  | S fuel' =>
      match queue with
      | [] => (visited, comp)
      | id :: queue =>
          let comp := comp ++ [id] in
          let '(visited, queue) :=
            foldl BFS_enqueue (visited, queue) (adj_range ord adj id) in
          component_loop ord adj fuel' visited queue comp
      end
  end.

Definition component_step (ord : MapOrder) (adj : gmap string (gset string)) (fuel : nat)
    (acc : gset string * list (list string)) (n : Node.t N)
  : gset string * list (list string) :=
  let '(visited, components) := acc in
  if bool_decide (Node.ID n ∈ visited) then acc
  else
    let '(visited, comp) :=
      component_loop ord adj fuel ({[Node.ID n]} ∪ visited) [Node.ID n] [] in
    (visited, components ++ [sort_Strings comp]).

Definition ConnectedComponents (ord : MapOrder) g (fuel : nat)
  : option (list (list string)) :=
  match build_adj ord g with
  | Some adj => Some (foldl (component_step ord adj fuel) (∅, []) (Nodes ord g)).2
  | None => None
  end.

(** Joined by an edge, in either direction. *)
Definition linked g (a b : string) : Prop := edge g a b ∨ edge g b a.

Lemma linked_sym g a b : linked g a b → linked g b a.
Proof. unfold linked. tauto. Qed.

Lemma linked_nodes g a b :
  wf g → linked g a b → a ∈ dom (nodes g) ∧ b ∈ dom (nodes g).
Proof.
  intros Hwf [H|H]; apply (edge_ends_nodes g _ _ Hwf) in H; tauto.
Qed.

Lemma Edges_cover ord g a b :
  wf g →
  linked g a b ↔
  ∃ e, e ∈ Edges ord g ∧
       ((Edge.From e = a ∧ Edge.To e = b) ∨ (Edge.From e = b ∧ Edge.To e = a)).
Proof.
  intros Hwf. destruct (Edges_inv_final ord g Hwf) as (seen & [H1 H2 H3 H4 H5]).
  assert (∀ x y, is_Some (inner (out g) x !! y) →
            ∃ e, e ∈ Edges ord g ∧
                 ((Edge.From e = x ∧ Edge.To e = y) ∨ (Edge.From e = y ∧ Edge.To e = x)))
    as Hfind.
  { intros x y [e He].
    destruct (H5 x y e) as [Hs|[_ Hs]]; [by apply out_entries_elem_of|..].
    - destruct (H2 _ Hs) as (e' & He' & Hk). exists e'. split; [done|].
      unfold edge_key in Hk. injection Hk as -> ->. by left.
    - destruct (H2 _ Hs) as (e' & He' & Hk). exists e'. split; [done|].
      unfold edge_key in Hk. injection Hk as -> ->. by right. }
  unfold linked, edge. rewrite !HasEdge_is_Some. split.
  - intros [H|H].
    + by apply Hfind.
    + destruct (Hfind b a H) as (e & He & Hor). exists e. split; [done|]. tauto.
  - intros (e & He & Hor). destruct (H1 e He) as [Hent _].
    destruct Hor as [[<- <-]|[<- <-]]; eauto.
Qed.

Lemma adj_nodes_lookup (l : list (Node.t N)) : ∀ (adj : gmap string (gset string)) k,
  foldl (λ adj n, <[Node.ID n := ∅]> adj) adj l !! k =
  if bool_decide (k ∈ Node.ID <$> l) then Some ∅ else adj !! k.
Proof.
  induction l as [|n l IH]; intros adj k; simpl; [done|].
  rewrite IH. destruct (decide (k ∈ Node.ID <$> l)) as [Hin|Hin].
  - rewrite !bool_decide_eq_true_2; [done|by right|done].
  - rewrite (bool_decide_eq_false_2 _ Hin). destruct (decide (k = Node.ID n)) as [->|Hne].
    + rewrite lookup_insert_eq, bool_decide_eq_true_2; [done|by left].
    + rewrite lookup_insert_ne by done. rewrite bool_decide_eq_false_2; [done|].
      by intros [?|?]%elem_of_cons.
Qed.

Lemma adj_add_spec (adj : gmap string (gset string)) a b s :
  adj !! a = Some s →
  ∃ adj', adj_add adj a b = Some adj' ∧
          ∀ x, adj' !! x = if decide (x = a) then Some ({[b]} ∪ s) else adj !! x.
Proof.
  intros Ha. unfold adj_add. rewrite Ha. eexists. split; [done|]. intros x.
  destruct (decide (x = a)) as [->|Hne]; [by rewrite lookup_insert_eq|].
  by rewrite lookup_insert_ne.
Qed.

(** The edge [e] joins [a] to [b], read in either direction. *)
Definition joins (e : Edge.t E) (a b : string) : Prop :=
  (Edge.From e = a ∧ Edge.To e = b) ∨ (Edge.To e = a ∧ Edge.From e = b).

Lemma adj_edges_fold (l : list (Edge.t E)) : ∀ adj0 : gmap string (gset string),
  (∀ e, e ∈ l → is_Some (adj0 !! Edge.From e) ∧ is_Some (adj0 !! Edge.To e)) →
  ∃ adj',
    foldl (λ adj e,
             match adj with
             | Some adj =>
                 match adj_add adj (Edge.From e) (Edge.To e) with
                 | Some adj => adj_add adj (Edge.To e) (Edge.From e)
                 | None => None
                 end
             | None => None
             end) (Some adj0) l = Some adj' ∧
    (∀ a, is_Some (adj' !! a) ↔ is_Some (adj0 !! a)) ∧
    (∀ a b, b ∈ default ∅ (adj' !! a) ↔
            b ∈ default ∅ (adj0 !! a) ∨ (is_Some (adj0 !! a) ∧ ∃ e, e ∈ l ∧ joins e a b)).
Proof.
  induction l as [|e l IH]; intros adj0 Hends.
  { exists adj0. split_and!; [done|done|]. intros a b. split; [by left|].
    intros [?|[_ (e & ?%elem_of_nil & _)]]; done. }
  cbn [foldl].
  destruct (Hends e) as [[sf Hsf] [st Hst]]; [by left|].
  destruct (adj_add_spec adj0 (Edge.From e) (Edge.To e) sf Hsf) as (adj1 & -> & H1).
  assert (∃ st1, adj1 !! Edge.To e = Some st1 ∧
                 ∀ b, b ∈ st1 ↔ b ∈ st ∨ (Edge.To e = Edge.From e ∧ b = Edge.To e))
    as (st1 & Hst1 & Hst1el).
  { rewrite H1. destruct (decide (Edge.To e = Edge.From e)) as [Heq|Hne].
    - eexists. split; [done|]. intros b. rewrite Heq in Hst.
      assert (sf = st) as -> by congruence. set_solver.
    - exists st. split; [done|]. intros b. tauto. }
  destruct (adj_add_spec adj1 (Edge.To e) (Edge.From e) st1 Hst1) as (adj2 & -> & H2).
  assert (∀ a, is_Some (adj2 !! a) ↔ is_Some (adj0 !! a)) as Hdom2.
  { intros a. rewrite H2. destruct (decide (a = Edge.To e)) as [->|Hne].
    - split; eauto.
    - rewrite H1. destruct (decide (a = Edge.From e)) as [->|Hne']; [|done].
      split; eauto. }
  assert (∀ a b, b ∈ default ∅ (adj2 !! a) ↔
                 b ∈ default ∅ (adj0 !! a) ∨ (is_Some (adj0 !! a) ∧ joins e a b)) as Hel2.
  { intros a b. unfold joins. rewrite H2.
    destruct (decide (a = Edge.To e)) as [->|Hne].
    - simpl. rewrite Hst. simpl. rewrite elem_of_union, elem_of_singleton, Hst1el.
      assert (is_Some (Some st)) as Hsome by eauto. naive_solver.
    - rewrite H1. destruct (decide (a = Edge.From e)) as [->|Hne'].
      + simpl. rewrite Hsf. simpl. rewrite elem_of_union, elem_of_singleton.
        assert (is_Some (Some sf)) as Hsome by eauto. naive_solver.
      + naive_solver. }
  destruct (IH adj2) as (adj' & -> & Hdom & Hel).
  { intros e' He'. rewrite !Hdom2. apply Hends. by right. }
  exists adj'. split_and!; [done| |].
  - intros a. by rewrite Hdom, Hdom2.
  - intros a b. rewrite Hel, Hel2, Hdom2. split.
    + intros [[?|[? ?]]|[? (e' & He' & Hj)]]; [by left|right|right].
      * split; [done|]. exists e. split; [by left|done].
      * split; [done|]. exists e'. split; [by right|done].
    + intros [?|[Hs (e' & [->|He']%elem_of_cons & Hj)]]; [by left; left|left; right|right]; eauto.
Qed.

Lemma build_adj_spec ord g :
  wf g →
  ∃ adj, build_adj ord g = Some adj ∧
         ∀ a b, b ∈ default ∅ (adj !! a) ↔ linked g a b.
Proof.
  intros Hwf. unfold build_adj.
  set (adj0 := foldl (λ adj n, <[Node.ID n := ∅]> adj) (∅ : gmap string (gset string))
                     (Nodes ord g)).
  assert (∀ k, adj0 !! k = if bool_decide (is_Some (nodes g !! k)) then Some ∅ else None)
    as H0.
  { intros k. unfold adj0. rewrite adj_nodes_lookup, lookup_empty.
    apply (f_equal (λ b : bool, if b then Some (∅ : gset string) else None)).
    apply bool_decide_ext. by apply Nodes_ids_elem_of. }
  assert (∀ k, is_Some (adj0 !! k) ↔ k ∈ dom (nodes g)) as Hdom0.
  { intros k. rewrite H0, elem_of_dom. case_bool_decide as Hk; [split; eauto|].
    split; [by intros [? ?]|done]. }
  destruct (adj_edges_fold (Edges ord g) adj0) as (adj & -> & Hdom & Hel).
  { intros e He.
    assert (linked g (Edge.From e) (Edge.To e)) as Hl.
    { apply (Edges_cover ord g _ _ Hwf). exists e. split; [done|]. by left. }
    rewrite !Hdom0. by apply linked_nodes. }
  exists adj. split; [done|]. intros a b. rewrite Hel.
  assert (default ∅ (adj0 !! a) = ∅) as ->.
  { rewrite H0. by case_bool_decide. }
  rewrite (Edges_cover ord g a b Hwf). unfold joins. split.
  - intros [?%not_elem_of_empty|[_ (e & He & Hj)]]; [done|]. exists e. split; [done|]. tauto.
  - intros (e & He & Hj). right. split.
    + apply Hdom0.
      assert (linked g a b) as Hl by (apply (Edges_cover ord g _ _ Hwf); eauto).
      by apply (linked_nodes g a b).
    + exists e. split; [done|]. tauto.
Qed.

Lemma adj_range_elem_of ord (adj : gmap string (gset string)) a b :
  b ∈ adj_range ord adj a ↔ b ∈ default ∅ (adj !! a).
Proof. unfold adj_range. apply visited_list. Qed.

Lemma rtc_linked_sym g a b : rtc (linked g) a b → rtc (linked g) b a.
Proof.
  induction 1 as [|a b c Hab _ IH]; [done|].
  eapply rtc_r; [exact IH|]. by apply linked_sym.
Qed.

Lemma component_loop_spec ord g (adj : gmap string (gset string)) (V0 : gset string) s fuel :
  ∀ visited queue comp,
  wf g →
  (∀ a b, b ∈ default ∅ (adj !! a) ↔ linked g a b) →
  (∀ a b, a ∈ V0 → linked g a b → b ∈ V0) →
  size (dom (nodes g)) < fuel + length comp →
  visited = V0 ∪ list_to_set (comp ++ queue) →
  NoDup (comp ++ queue) →
  (∀ x, x ∈ comp ++ queue → x ∉ V0) →
  (∀ u y, u ∈ comp → linked g u y → y ∈ visited) →
  (∀ u, u ∈ comp ++ queue → rtc (linked g) s u) →
  s ∈ comp ++ queue →
  (∀ x, x ∈ comp ++ queue → x ∈ dom (nodes g)) →
  let r := component_loop ord adj fuel visited queue comp in
  r.1 = V0 ∪ list_to_set r.2 ∧ NoDup r.2 ∧
  (∀ x, x ∈ r.2 ↔ rtc (linked g) s x) ∧ (∀ x, x ∈ r.2 → x ∉ V0).
Proof.
  induction fuel as [|fuel IH];
    intros visited queue comp Hwf Hadj Hclosed Hfuel Hv Hnd Hfresh Hcl Hre Hs HU.
  { exfalso. assert (length comp ≤ size (dom (nodes g)))%nat; [|simpl in Hfuel; lia].
    apply NoDup_length_bound; [by apply NoDup_app in Hnd as (? & _ & _)|].
    intros x Hx. apply HU, elem_of_app. by left. }
  destruct queue as [|id queue]; simpl.
  { rewrite app_nil_r in Hv, Hnd, Hfresh, Hre, Hs, HU. split_and!; [done|done| |done].
    intros x. split; [apply Hre|]. intros Hr.
    revert x Hr. apply (rtc_ind_r (λ x, x ∈ comp)); [done|].
    intros y z _ Hyz Hy. pose proof (Hcl y z Hy Hyz) as Hz.
    rewrite Hv, elem_of_union, elem_of_list_to_set in Hz. destruct Hz as [Hz|Hz]; [|done].
    exfalso. apply (Hfresh y Hy). apply (Hclosed z y Hz). by apply linked_sym. }
  destruct (BFS_enqueue_spec (adj_range ord adj id) visited queue)
    as (extra & -> & Hexnd & Hex & Hl).
  assert (id ∈ comp ++ id :: queue) as Hidin by (apply elem_of_app; right; by left).
  assert (∀ x, x ∈ extra → linked g id x) as Hexl.
  { intros x Hx. apply Hex in Hx as [_ Hx]. apply Hadj. by apply adj_range_elem_of in Hx. }
  assert (∀ x, x ∈ (comp ++ [id]) ++ queue ++ extra ↔ x ∈ comp ++ id :: queue ∨ x ∈ extra)
    as Hmem.
  { intros x. rewrite !elem_of_app, !elem_of_cons. pose proof (elem_of_nil x). tauto. }
  apply (IH (visited ∪ list_to_set extra) (queue ++ extra) (comp ++ [id])).
  - done.
  - done.
  - done.
  - rewrite length_app. simpl. lia.
  - rewrite Hv. apply set_eq. intros x.
    rewrite !elem_of_union, !elem_of_list_to_set, Hmem. tauto.
  - rewrite <- app_assoc. simpl. rewrite app_comm_cons, app_assoc.
    apply NoDup_app. split_and!; [done| |done].
    intros x Hx Hx'. apply Hex in Hx' as [Hx' _]. apply Hx'. rewrite Hv.
    apply elem_of_union. right. by apply elem_of_list_to_set.
  - intros x [Hx|Hx]%Hmem; [by apply Hfresh|].
    intros Hx0. apply Hex in Hx as [Hx _]. apply Hx. rewrite Hv. apply elem_of_union. by left.
  - intros u y [Hu| ->%list_elem_of_singleton]%elem_of_app Huy.
    + apply elem_of_union. left. by eapply Hcl.
    + apply Hl. apply adj_range_elem_of. by apply Hadj.
  - intros u [Hu|Hu]%Hmem; [by apply Hre|].
    eapply rtc_r; [apply (Hre id Hidin)|by apply Hexl].
  - apply Hmem. by left.
  - intros x [Hx|Hx]%Hmem; [by apply HU|].
    by apply (linked_nodes g id x Hwf), Hexl.
Qed.

(** What holds of the components found so far. *)
Record components_inv g (visited : gset string) (components : list (list string)) : Prop := {
  ci_visited : visited = list_to_set (concat components);
  ci_closed : ∀ a b, a ∈ visited → linked g a b → b ∈ visited;
  ci_nodup : NoDup (concat components);
  ci_nodes : ∀ x, x ∈ visited → x ∈ dom (nodes g);
  ci_class : ∀ c, c ∈ components →
    c ≠ [] ∧ StronglySorted (λ a b, str_lt a b = true) c ∧
    ∀ x, x ∈ c → ∀ y, y ∈ c ↔ rtc (linked g) x y
}.

Lemma component_step_spec ord g adj fuel visited components (n : Node.t N) :
  wf g → (∀ a b, b ∈ default ∅ (adj !! a) ↔ linked g a b) →
  Order g < fuel → Node.ID n ∈ dom (nodes g) →
  components_inv g visited components →
  let r := component_step ord adj fuel (visited, components) n in
  components_inv g r.1 r.2 ∧ visited ⊆ r.1 ∧ Node.ID n ∈ r.1.
Proof.
  intros Hwf Hadj Hfuel Hn Hinv. unfold component_step.
  case_bool_decide as Hvis; [by split_and!|].
  destruct Hinv as [Hv Hclosed Hnd Hnodes Hclass].
  destruct (component_loop_spec ord g adj visited (Node.ID n) fuel
              ({[Node.ID n]} ∪ visited) [Node.ID n] []) as (R1 & R2 & R3 & R4); try done.
  - unfold Order in Hfuel. rewrite size_dom. simpl. lia.
  - simpl. set_solver.
  - simpl. apply NoDup_singleton.
  - by intros x ->%list_elem_of_singleton.
  - by intros u y ?%elem_of_nil.
  - by intros u ->%list_elem_of_singleton.
  - simpl. by left.
  - by intros x ->%list_elem_of_singleton.
  - destruct (component_loop ord adj fuel ({[Node.ID n]} ∪ visited) [Node.ID n] [])
      as [V' comp]. simpl in R1, R2, R3, R4. simpl.
    assert (Node.ID n ∈ comp) as Hin by (by apply R3).
    assert (∀ x, x ∈ sort_Strings comp ↔ x ∈ comp) as Hsort
      by (intros x; apply sort_Strings_elem_of).
    split_and!.
    + split.
      * rewrite R1, Hv, concat_app, list_to_set_app_L. simpl. rewrite app_nil_r.
        f_equal. apply set_eq. intros x. by rewrite !elem_of_list_to_set, Hsort.
      * intros a b. rewrite R1, !elem_of_union, !elem_of_list_to_set.
        intros [Ha|Ha] Hab; [left; by eapply Hclosed|right].
        apply R3. eapply rtc_r; [by apply R3|done].
      * rewrite concat_app. simpl. rewrite app_nil_r. apply NoDup_app. split_and!.
        -- done.
        -- intros x Hx Hx'%Hsort. apply (R4 x Hx'). rewrite Hv. by apply elem_of_list_to_set.
        -- unfold sort_Strings. by rewrite sort_Slice_perm.
      * intros x. rewrite R1, elem_of_union, elem_of_list_to_set.
        intros [Hx|Hx]; [by apply Hnodes|].
        apply R3 in Hx. apply rtc_linked_sym in Hx.
        apply rtc_inv in Hx as [->|(y & Hxy & _)]; [done|].
        by apply (linked_nodes g x y Hwf).
      * intros c [Hc| ->%list_elem_of_singleton]%elem_of_app; [by apply Hclass|].
        split_and!.
        -- intros Hnil. apply (elem_of_nil (Node.ID n)). rewrite <- Hnil. by apply Hsort.
        -- apply ids_sorted_strict. split.
           ++ apply (sort_Slice_Sorted str_lt), str_lt_asym.
           ++ unfold sort_Strings. by rewrite sort_Slice_perm.
        -- intros x Hx%Hsort y. rewrite Hsort, !R3. apply R3 in Hx. split.
           ++ intros Hy. etrans; [by apply rtc_linked_sym|done].
           ++ intros Hxy. by etrans.
    + rewrite R1. set_solver.
    + rewrite R1. apply elem_of_union. right. by apply elem_of_list_to_set.
Qed.

(** X30. With more fuel than the graph has nodes, [ConnectedComponents] of a
    graph that keeps the invariant returns without a panic; every component
    is non-empty and in strictly ascending order; every node of the graph is
    in exactly one component; and two nodes are in the same component exactly
    when a chain of edges, each taken in either direction, joins them. *)
Theorem ConnectedComponents_partition ord g fuel :
  wf g → Order g < fuel →
  ∃ components,
    ConnectedComponents ord g fuel = Some components ∧
    NoDup (concat components) ∧
    (∀ x, x ∈ concat components ↔ HasNode g x = true) ∧
    (∀ c, c ∈ components →
       c ≠ [] ∧ StronglySorted (λ a b, str_lt a b = true) c ∧
       ∀ x, x ∈ c → ∀ y, y ∈ c ↔ rtc (linked g) x y).
Proof.
  intros Hwf Hfuel. unfold ConnectedComponents.
  destruct (build_adj_spec ord g Hwf) as (adj & -> & Hadj).
  assert (∀ (l : list (Node.t N)) visited components,
            (∀ n, n ∈ l → Node.ID n ∈ dom (nodes g)) →
            components_inv g visited components →
            let r := foldl (component_step ord adj fuel) (visited, components) l in
            components_inv g r.1 r.2 ∧ visited ⊆ r.1 ∧ ∀ n, n ∈ l → Node.ID n ∈ r.1) as Hfold.
  { induction l as [|n l IHl]; intros visited components Hl Hinv.
    - simpl. split_and!; [done|done|by intros n ?%elem_of_nil].
    - cbn [foldl].
      destruct (component_step_spec ord g adj fuel visited components n Hwf Hadj Hfuel)
        as (S1 & S2 & S3); [apply Hl; by left|done|].
      destruct (component_step ord adj fuel (visited, components) n) as [V1 C1].
      simpl in S1, S2, S3.
      destruct (IHl V1 C1) as (I1 & I2 & I3); [intros m Hm; apply Hl; by right|done|].
      split_and!; [done|set_solver|].
      intros m [->|Hm]%elem_of_cons; [by apply I2|by apply I3]. }
  destruct (Hfold (Nodes ord g) ∅ []) as (I1 & _ & I3).
  { intros n Hn. apply (Nodes_elem_of ord g n Hwf) in Hn. apply elem_of_dom. eauto. }
  { split; try done.
    - constructor.
    - by intros c ?%elem_of_nil. }
  destruct (foldl (component_step ord adj fuel) (∅, []) (Nodes ord g)) as [V C].
  simpl in I1, I3. simpl. destruct I1 as [Hv Hclosed Hnd Hnodes Hclass].
  exists C. split_and!; [done|done| |done].
  intros x. rewrite HasNode_true. split.
  - intros Hx. apply elem_of_dom, Hnodes. rewrite Hv. by apply elem_of_list_to_set.
  - intros [n Hn].
    assert (n ∈ Nodes ord g) as Hin.
    { apply (Nodes_elem_of ord g n Hwf). by rewrite (wf_node_id g Hwf x n Hn). }
    apply I3 in Hin. rewrite (wf_node_id g Hwf x n Hn), Hv in Hin.
    by apply elem_of_list_to_set in Hin.
Qed.

End Components.

Lemma ConnectedComponents_partition_witness :
  wf cycle_graph ∧ Order cycle_graph < 4 ∧
  ConnectedComponents order_id cycle_graph 4 = Some [["a"; "b"; "c"]] ∧
  ∃ components,
    ConnectedComponents order_id cycle_graph 4 = Some components ∧
    NoDup (concat components).
Proof.
  assert (Order cycle_graph < 4) as Hlt by (vm_compute; lia).
  destruct (ConnectedComponents_partition order_id cycle_graph 4 cycle_graph_wf Hlt)
    as (components & Heq & Hnd & _).
  split_and!; [exact cycle_graph_wf|exact Hlt|vm_compute; reflexivity|].
  exists components. split; [exact Heq|exact Hnd].
Defined.
